(** * libimd: ImageDisk (IMD) codec, in-memory image and consistency scanner

    Shallow embedding of the C sources [libimd.h], [libimd.c], [libimdf.c]
    and [libimdchk.c].  Bytes ([uint8_t]) and C integers are modelled as [Z]
    with the wrap-around written out; the fixed 256-entry arrays of
    [ImdTrackInfo] are lists of length 256 read with [!!!] and updated with
    [<[i:=v]>]; heap buffers are [option (list Z)] ([None] is the NULL
    pointer).  *)

From Stdlib Require Import ZArith Lia Bool List String Ascii.
From stdpp Require Import base tactics option list numbers sorting.

Local Open Scope Z_scope.

(** ** libimd.h: constants *)

Definition LIBIMD_MAX_SECTORS_PER_TRACK : Z := 256.
Definition LIBIMD_MAX_SECTOR_SIZE : Z := 8192.
Definition LIBIMD_FILL_BYTE_DEFAULT : Z := 0xE5.
Definition LIBIMD_MAX_HEADER_LINE : Z := 256.
Definition LIBIMD_COMMENT_EOF_MARKER : Z := 0x1A.
Definition LIBIMD_NUM_MODES : Z := 6.

Definition IMD_MODE_MFM_250 : Z := 5.

Definition LIBIMD_IL_AS_READ : Z := 0.
Definition LIBIMD_IL_BEST_GUESS : Z := 255.

Definition IMD_HFLAG_HEAD_MASK : Z := 0x0F.
Definition IMD_HFLAG_CMAP_PRES : Z := 0x80.
Definition IMD_HFLAG_HMAP_PRES : Z := 0x40.
Definition IMD_HFLAG_MASK : Z := 0xF0.

Definition IMD_SDR_UNAVAILABLE : Z := 0x00.
Definition IMD_SDR_NORMAL : Z := 0x01.
Definition IMD_SDR_COMPRESSED : Z := 0x02.
Definition IMD_SDR_NORMAL_DAM : Z := 0x03.
Definition IMD_SDR_COMPRESSED_DAM : Z := 0x04.
Definition IMD_SDR_NORMAL_ERR : Z := 0x05.
Definition IMD_SDR_COMPRESSED_ERR : Z := 0x06.
Definition IMD_SDR_DELETED_ERR : Z := 0x07.
Definition IMD_SDR_COMPRESSED_DEL_ERR : Z := 0x08.

Definition IMD_COMPRESSION_AS_READ : Z := 0.
Definition IMD_COMPRESSION_FORCE_COMPRESS : Z := 1.
Definition IMD_COMPRESSION_FORCE_DECOMPRESS : Z := 2.

Definition IMD_ERR_SECTOR_NOT_FOUND : Z := -10.
Definition IMD_ERR_TRACK_NOT_FOUND : Z := -11.
Definition IMD_ERR_READ_ERROR : Z := -12.
Definition IMD_ERR_WRITE_ERROR : Z := -13.
Definition IMD_ERR_SEEK_ERROR : Z := -14.
Definition IMD_ERR_INVALID_ARG : Z := -15.
Definition IMD_ERR_BUFFER_TOO_SMALL : Z := -16.
Definition IMD_ERR_SIZE_MISMATCH : Z := -17.
Definition IMD_ERR_UNAVAILABLE : Z := -18.
Definition IMD_ERR_ALLOC : Z := -19.

Definition LIBIMD_INVALID_SECTOR_POS : Z := 0xFF.

(** Conversion of a C [int] to [uint8_t]. *)
Definition u8 (z : Z) : Z := z mod 256.

(** A C scalar used as a condition. *)
Definition truthy (z : Z) : bool := negb (z =? 0).

(** ** libimd.h: the sector-data-record macros.

    The argument is a [uint8_t] promoted to [int], so [type - 1] is the
    integer [-1] when [type] is 0. *)

Definition IMD_SDR_HAS_DATA (type : Z) : bool :=
  (0x01 <=? type) && (type <=? 0x08).

Definition IMD_SDR_IS_COMPRESSED (type : Z) : bool :=
  (Z.land type 0x01 =? 0) && negb (type =? 0x00).

Definition IMD_SDR_HAS_DAM (type : Z) : Z := Z.land (type - 1) 0x02.

Definition IMD_SDR_HAS_ERR (type : Z) : Z := Z.land (type - 1) 0x04.

(** The classification the header comments document: DAM is codes
    0x03, 0x04, 0x07, 0x08 and ERR is codes 0x05 .. 0x08. *)
Definition documented_dam (type : Z) : bool :=
  (type =? 3) || (type =? 4) || (type =? 7) || (type =? 8).

Definition documented_err (type : Z) : bool :=
  (type =? 5) || (type =? 6) || (type =? 7) || (type =? 8).


(** ** C arrays, buffers and loops *)

(** [a[i]] and [a[i] = v] on a fixed-size array; the index is a C integer. *)
Definition arr_get (a : list Z) (i : Z) : Z := a !!! Z.to_nat i.
Definition arr_set (a : list Z) (i : Z) (v : Z) : list Z := <[Z.to_nat i := v]> a.

(** An array of 256 bytes, zeroed ([memset (.., 0, ..)] or [= { 0 }]). *)
Definition zero_array : list Z := replicate 256 0.

(** [memcpy (dst, src, n)] between two arrays. *)
Definition memcpy_arr (dst src : list Z) (n : Z) : list Z :=
  take (Z.to_nat n) src ++ drop (Z.to_nat n) dst.

(** [memset (dst, c, n)] on an array. *)
Definition memset_arr (dst : list Z) (c : Z) (n : Z) : list Z :=
  replicate (Z.to_nat n) c ++ drop (Z.to_nat n) dst.

(** The test [!p] on a pointer. *)
Definition is_null {A : Type} (p : option A) : bool :=
  match p with None => true | Some _ => false end.

(** [len] bytes of a heap buffer starting at byte offset [off]. *)
Definition buf_read (buf : list Z) (off len : Z) : list Z :=
  take (Z.to_nat len) (drop (Z.to_nat off) buf).

(** [memcpy (buf + off, src, length src)] into a heap buffer. *)
Definition buf_write (buf : list Z) (off : Z) (src : list Z) : list Z :=
  take (Z.to_nat off) buf ++ src ++ drop (Z.to_nat off + length src) buf.

(** [for (i = start; i < start + count; ++i) s = body i s]. *)
Fixpoint for_range {S : Type} (start : Z) (count : nat)
    (body : Z -> S -> S) (s : S) : S :=
  match count with
  | O => s
  | Datatypes.S k => for_range (start + 1) k body (body start s)
  end.

(** The same loop when the body can leave the function with a value of
    type [R] ([inr]); [inl] carries the state to the next iteration. *)
Fixpoint for_range_exit {S R : Type} (start : Z) (count : nat)
    (body : Z -> S -> S + R) (s : S) : S + R :=
  match count with
  | O => inl s
  | Datatypes.S k =>
      match body start s with
      | inl s' => for_range_exit (start + 1) k body s'
      | inr r => inr r
      end
  end.

(** ** libimd.h: [ImdTrackInfo], [ImdWriteOpts], [ImdHeaderInfo] *)

Record ImdTrackInfo := mkTrack {
  mode : Z;
  cyl : Z;
  head : Z;
  hflag : Z;
  num_sectors : Z;
  sector_size_code : Z;
  sector_size : Z;
  smap : list Z;
  cmap : list Z;
  hmap : list Z;
  sflag : list Z;
  data : option (list Z);
  data_size : Z;
  loaded : Z
}.

(** [memset (track, 0, sizeof (ImdTrackInfo))]. *)
Definition zero_track : ImdTrackInfo :=
  mkTrack 0 0 0 0 0 0 0 zero_array zero_array zero_array zero_array None 0 0.

Definition with_maps (t : ImdTrackInfo) (sm cm hm sf : list Z)
    (d : option (list Z)) : ImdTrackInfo :=
  mkTrack (mode t) (cyl t) (head t) (hflag t) (num_sectors t)
          (sector_size_code t) (sector_size t) sm cm hm sf d
          (data_size t) (loaded t).

Definition with_data (t : ImdTrackInfo) (d : option (list Z)) : ImdTrackInfo :=
  with_maps t (smap t) (cmap t) (hmap t) (sflag t) d.

Definition with_sflag (t : ImdTrackInfo) (sf : list Z) : ImdTrackInfo :=
  with_maps t (smap t) (cmap t) (hmap t) sf (data t).

Record ImdWriteOpts := mkOpts {
  compression_mode : Z;
  force_non_bad : Z;
  force_non_deleted : Z;
  tmode : list Z;
  interleave_factor : Z
}.

Record ImdHeaderInfo := mkHeader {
  version : list Z;
  day : Z; month : Z; year : Z;
  hour : Z; minute : Z; second : Z
}.

(** What the C types guarantee about a track: every [uint8_t] field and
    array entry is a byte and the four maps have 256 entries. *)
Definition is_byte (z : Z) : Prop := 0 <= z <= 255.

Definition byte_array (a : list Z) : Prop :=
  length a = 256%nat /\ Forall is_byte a.

Record wf_track (t : ImdTrackInfo) : Prop := {
  wf_mode : is_byte (mode t);
  wf_cyl : is_byte (cyl t);
  wf_head : is_byte (head t);
  wf_hflag : is_byte (hflag t);
  wf_num_sectors : is_byte (num_sectors t);
  wf_size_code : is_byte (sector_size_code t);
  wf_sector_size : 0 <= sector_size t < 2 ^ 32;
  wf_smap : byte_array (smap t);
  wf_cmap : byte_array (cmap t);
  wf_hmap : byte_array (hmap t);
  wf_sflag : byte_array (sflag t);
  wf_data_size : 0 <= data_size t
}.

(** A fully loaded track as [imd_load_track] and [imdf_write_track] leave
    it (invariant 1 of the data model): the buffer holds exactly
    [num_sectors * sector_size] bytes and the sector size is not zero. *)
Record loaded_track (t : ImdTrackInfo) : Prop := {
  lt_wf : wf_track t;
  lt_loaded : loaded t = 1;
  lt_size : 0 < sector_size t;
  lt_data_size : data_size t = num_sectors t * sector_size t;
  lt_data : match data t with
            | Some d => Z.of_nat (length d) = data_size t /\ Forall is_byte d
            | None => num_sectors t = 0
            end
}.

(** ** libimd.c: [imd_is_uniform]

    Returns the C result and the value left in [*fill_byte_out] ([fill_in]
    is what the caller had stored there before the call). *)
Definition imd_is_uniform (data : option (list Z)) (size : Z) (fill_in : Z)
    : Z * Z :=
  if size =? 0 then (1, fill_in)
  else match data with
       | None => (0, fill_in)
       | Some d =>
           let fill := arr_get d 0 in
           match for_range_exit 1 (Z.to_nat (size - 1))
                   (fun i (_ : unit) =>
                      if negb (arr_get d i =? fill) then inr 0 else inl tt) tt with
           | inr r => (r, fill)
           | inl _ => (1, fill)
           end
       end.

(** ** libimd.c: the bubble sort shared by the interleave functions *)

Definition bubble_step (j : Z) (s : list Z) : list Z :=
  if arr_get s j >? arr_get s (j + 1) then
    let temp := arr_get s j in
    let s1 := arr_set s j (arr_get s (j + 1)) in
    arr_set s1 (j + 1) temp
  else s.

Definition bubble_pass (n i : Z) (s : list Z) : list Z :=
  for_range 0 (Z.to_nat (n - i - 1)) bubble_step s.

Definition bubble_sort (n : Z) (s : list Z) : list Z :=
  for_range 0 (Z.to_nat (n - 1)) (bubble_pass n) s.

(** ** libimd.c: [imd_calculate_best_interleave] *)

Definition build_sector_pos (n : Z) (smap : list Z) : list Z :=
  for_range 0 (Z.to_nat n)
    (fun i pos => arr_set pos (arr_get smap i) (u8 i))
    (replicate 256 LIBIMD_INVALID_SECTOR_POS).

Definition interleave_distance (n current_pos next_pos : Z) : Z :=
  if next_pos >=? current_pos then next_pos - current_pos
  else n - (current_pos - next_pos).

Definition count_distances (n : Z) (sorted_smap sector_pos : list Z) : list Z :=
  for_range 0 (Z.to_nat n)
    (fun i counts =>
       let current_sec_id := arr_get sorted_smap i in
       let next_sec_id := arr_get sorted_smap (Z.rem (i + 1) n) in
       let current_pos := arr_get sector_pos current_sec_id in
       let next_pos := arr_get sector_pos next_sec_id in
       if (current_pos =? LIBIMD_INVALID_SECTOR_POS)
          || (next_pos =? LIBIMD_INVALID_SECTOR_POS) then counts
       else
         let distance := interleave_distance n current_pos next_pos in
         if (distance >? 0) && (distance <? n) then
           arr_set counts distance (u8 (arr_get counts distance + 1))
         else counts)
    zero_array.

Definition pick_best (n : Z) (interleave_counts : list Z) : Z * Z :=
  for_range 1 (Z.to_nat (n - 1))
    (fun i '(max_count, best_interleave) =>
       if arr_get interleave_counts i >? max_count
       then (arr_get interleave_counts i, i)
       else (max_count, best_interleave))
    (0, 1).

Definition imd_calculate_best_interleave (track : ImdTrackInfo) : Z :=
  if num_sectors track <? 2 then 1
  else
    let n := num_sectors track in
    let sector_pos := build_sector_pos n (smap track) in
    let sorted_smap := bubble_sort n (memcpy_arr zero_array (smap track) n) in
    let interleave_counts := count_distances n sorted_smap sector_pos in
    snd (pick_best n interleave_counts).

(** ** The host environment

    What the C library decides and the sources only observe: whether an
    allocation of a given size succeeds, the formatted local time
    ([time], [localtime] and [strftime] with ["%d/%m/%Y %H:%M:%S"]; [None]
    when one of them fails), and what [sscanf]'s [%d] stores for a decimal
    numeral that does not fit an [int] (left open by the C standard). *)
Record Host := mkHost {
  malloc_ok : Z -> bool;
  local_timestamp : option (list Z);
  scan_int_overflow : Z -> Z
}.

(** The loop of [for_range] when the body may fail to terminate ([None]). *)
Fixpoint for_range_opt {S : Type} (start : Z) (count : nat)
    (body : Z -> S -> option S) (s : S) : option S :=
  match count with
  | O => Some s
  | Datatypes.S k =>
      match body start s with
      | Some s' => for_range_opt (start + 1) k body s'
      | None => None
      end
  end.

(** ** libimd.c: [imd_apply_interleave] *)

(** [for (k = 0; k < n; ++k) if (original_smap[k] == id) { l2p[i] = k; break; }] *)
Definition find_original_index (n : Z) (original_smap : list Z) (id : Z)
    (i : Z) (l2p : list Z) : list Z :=
  match for_range_exit 0 (Z.to_nat n)
          (fun k l => if arr_get original_smap k =? id
                      then inr (arr_set l i (u8 k)) else inl l) l2p with
  | inl l => l
  | inr l => l
  end.

(** Step 2 of the function: [inr rc] is the early [return rc]. *)
Definition build_logical_to_physical (n : Z) (original_smap sorted_smap : list Z)
    : list Z + Z :=
  for_range_exit 0 (Z.to_nat n)
    (fun i l2p =>
       let l2p1 := arr_set l2p i LIBIMD_INVALID_SECTOR_POS in
       let l2p2 := find_original_index n original_smap (arr_get sorted_smap i) i l2p1 in
       if arr_get l2p2 i =? LIBIMD_INVALID_SECTOR_POS
       then inr IMD_ERR_SECTOR_NOT_FOUND
       else inl l2p2)
    zero_array.

(** [while (physical_pos_used[cur]) cur = (cur + 1) % n;] with a bound on
    the number of iterations; [None] when the bound is exhausted. *)
Fixpoint next_free_slot (fuel : nat) (n : Z) (used : list Z) (cur : Z)
    : option Z :=
  if truthy (arr_get used cur) then
    match fuel with
    | O => None
    | Datatypes.S f => next_free_slot f n used (Z.rem (cur + 1) n)
    end
  else Some cur.

(** The state of the placement loop: the four maps and the data buffer of
    the track being rebuilt, the used-slot array and the target position. *)
Record Placement := mkPlacement {
  p_smap : list Z;
  p_cmap : list Z;
  p_hmap : list Z;
  p_sflag : list Z;
  p_data : list Z;
  p_used : list Z;
  p_pos : Z
}.

(** The range of a C [int] (32 bits). *)
Definition INT_MIN : Z := - 2 ^ 31.
Definition INT_MAX : Z := 2 ^ 31 - 1.

(** One iteration of the placement loop.  [current_physical_pos] and
    [interleave_factor] are C [int]s, and the loop ends every iteration
    with [current_physical_pos = (current_physical_pos +
    interleave_factor) % n]: when the sum does not fit an [int] the
    behaviour of the program is undefined, and the iteration has no
    result ([None]), as when the slot search does not terminate. *)
Definition place_sector (n sector_size interleave_factor : Z)
    (original_smap original_cmap original_hmap original_sflag original_data
       logical_to_physical : list Z)
    (i : Z) (st : Placement) : option Placement :=
  current_physical_pos ← next_free_slot (Z.to_nat n) n (p_used st) (p_pos st);
  let original_index := arr_get logical_to_physical i in
  if current_physical_pos + interleave_factor >? INT_MAX then None
  else
    Some (mkPlacement
      (arr_set (p_smap st) current_physical_pos (arr_get original_smap original_index))
      (arr_set (p_cmap st) current_physical_pos (arr_get original_cmap original_index))
      (arr_set (p_hmap st) current_physical_pos (arr_get original_hmap original_index))
      (arr_set (p_sflag st) current_physical_pos (arr_get original_sflag original_index))
      (if sector_size >? 0 then
         buf_write (p_data st) (current_physical_pos * sector_size)
           (buf_read original_data (original_index * sector_size) sector_size)
       else p_data st)
      (arr_set (p_used st) current_physical_pos 1)
      (Z.rem (current_physical_pos + interleave_factor) n)).

(** Returns the C result and the track as the call leaves it; [None] when
    the slot search does not terminate or the target position overflows
    an [int] (undefined behaviour: an interleave factor above
    [INT_MAX - current_physical_pos]). *)
Definition imd_apply_interleave (h : Host) (track : ImdTrackInfo)
    (interleave_factor : Z) : option (Z * ImdTrackInfo) :=
  match data track with
  | None => Some (IMD_ERR_INVALID_ARG, track)
  | Some d =>
      if negb (truthy (loaded track)) || (num_sectors track <? 2)
         || (interleave_factor <? 1)
      then Some (IMD_ERR_INVALID_ARG, track)
      else
        let n := num_sectors track in
        let original_smap := memcpy_arr zero_array (smap track) n in
        let original_cmap := memcpy_arr zero_array (cmap track) n in
        let original_hmap := memcpy_arr zero_array (hmap track) n in
        let original_sflag := memcpy_arr zero_array (sflag track) n in
        if negb (malloc_ok h (data_size track)) then Some (IMD_ERR_ALLOC, track)
        else
          let original_data := buf_read d 0 (data_size track) in
          let sorted_smap := bubble_sort n (memcpy_arr zero_array original_smap n) in
          match build_logical_to_physical n original_smap sorted_smap with
          | inr rc => Some (rc, track)
          | inl logical_to_physical =>
              st ← for_range_opt 0 (Z.to_nat n)
                     (place_sector n (sector_size track) interleave_factor
                        original_smap original_cmap original_hmap original_sflag
                        original_data logical_to_physical)
                     (mkPlacement (smap track) (cmap track) (hmap track)
                        (sflag track) d zero_array 0);
              Some (0, with_maps track (p_smap st) (p_cmap st) (p_hmap st)
                         (p_sflag st) (Some (p_data st)))
          end
  end.

(** ** The C stream ([FILE*]) over a regular file

    [f_content] is the byte content of the file, [f_pos] the position of
    the stream and [f_error] its error indicator ([ferror]).  The
    remaining fields are the faults the host can raise: a device error on
    every read at or past an offset, a device that accepts no byte at or
    past an offset, a stream on which [ftell]/[fseek] fail, a failing
    [fflush] and a failing [ftruncate]. *)
Record FILE := mkFILE {
  f_content : list Z;
  f_pos : Z;
  f_error : bool;
  f_read_fault : option Z;
  f_write_limit : option Z;
  f_seekable : bool;
  f_flush_ok : bool;
  f_truncate_ok : bool
}.

Definition with_pos (f : FILE) (p : Z) : FILE :=
  mkFILE (f_content f) p (f_error f) (f_read_fault f) (f_write_limit f)
         (f_seekable f) (f_flush_ok f) (f_truncate_ok f).

Definition with_content (f : FILE) (c : list Z) (p : Z) : FILE :=
  mkFILE c p (f_error f) (f_read_fault f) (f_write_limit f) (f_seekable f)
         (f_flush_ok f) (f_truncate_ok f).

Definition with_error (f : FILE) (e : bool) : FILE :=
  mkFILE (f_content f) (f_pos f) e (f_read_fault f) (f_write_limit f)
         (f_seekable f) (f_flush_ok f) (f_truncate_ok f).

Definition clearerr (f : FILE) : FILE := with_error f false.

Definition read_faults (f : FILE) (p : Z) : bool :=
  match f_read_fault f with Some k => k <=? p | None => false end.

Definition write_refused (f : FILE) (p : Z) : bool :=
  match f_write_limit f with Some k => k <=? p | None => false end.

(** The three outcomes of [fgetc]: a byte, [EOF] with the end-of-file
    indicator, [EOF] with the error indicator. *)
Inductive getc_result := GotByte (b : Z) | AtEof | ReadFault.

Definition fgetc (f : FILE) : getc_result * FILE :=
  if read_faults f (f_pos f) then (ReadFault, with_error f true)
  else match f_content f !! Z.to_nat (f_pos f) with
       | Some b => if f_pos f <? 0 then (AtEof, f)
                   else (GotByte b, with_pos f (f_pos f + 1))
       | None => (AtEof, f)
       end.

(** [fread (buf, 1, size, f)]: the bytes obtained, in order. *)
Fixpoint fread (size : nat) (f : FILE) : list Z * FILE :=
  match size with
  | O => ([], f)
  | Datatypes.S k =>
      match fgetc f with
      | (GotByte b, f') => let '(bs, f'') := fread k f' in (b :: bs, f'')
      | (_, f') => ([], f')
      end
  end.

(** Storing one byte at the stream position; a position past the end
    leaves a hole of zero bytes, as on a regular file. *)
Definition store_byte (content : list Z) (p : Z) (c : Z) : list Z :=
  let padded := content ++ replicate (Z.to_nat p - length content) 0 in
  take (Z.to_nat p) padded ++ [c] ++ drop (Z.to_nat p + 1) padded.

(** [fputc]: [None] is the [EOF] result. *)
Definition fputc (c : Z) (f : FILE) : option FILE :=
  if write_refused f (f_pos f) then None
  else Some (with_content f (store_byte (f_content f) (f_pos f) (u8 c)) (f_pos f + 1)).

(** [fwrite (buf, 1, length buf, f)]: the number of bytes written. *)
Fixpoint fwrite (buf : list Z) (f : FILE) : Z * FILE :=
  match buf with
  | [] => (0, f)
  | b :: bs =>
      match fputc b f with
      | Some f' => let '(k, f'') := fwrite bs f' in (1 + k, f'')
      | None => (0, f)
      end
  end.

Definition ftell (f : FILE) : Z := if f_seekable f then f_pos f else -1.

Definition fseek_set (f : FILE) (off : Z) : Z * FILE :=
  if f_seekable f && (0 <=? off) then (0, with_pos f off) else (-1, f).

Definition fseek_cur (f : FILE) (off : Z) : Z * FILE :=
  fseek_set f (f_pos f + off).

Definition fflush (f : FILE) : Z := if f_flush_ok f then 0 else -1.

(** [ftruncate (fileno (f), len)] on the underlying file: the C result
    and the stream. *)
Definition ftruncate (f : FILE) (len : Z) : Z * FILE :=
  if f_truncate_ok f then
    (0, with_content f
          (take (Z.to_nat len)
             (f_content f ++ replicate (Z.to_nat len - length (f_content f)) 0))
          (f_pos f))
  else (-1, f).

(** The bytes of a C string literal. *)
Definition bytes_of_string (s : string) : list Z :=
  map (fun a => Z.of_N (N_of_ascii a)) (list_ascii_of_string s).

(** ** libimd.c: byte helpers *)

Definition read_bytes (size : Z) (f : FILE) : list Z * FILE :=
  if size =? 0 then ([], f) else fread (Z.to_nat size) f.

(** [read_byte]: the C result (1, 0 or [IMD_ERR_READ_ERROR]) and the byte. *)
Definition read_byte (f : FILE) : Z * Z * FILE :=
  match fgetc f with
  | (GotByte b, f') => (1, u8 b, f')
  | (AtEof, f') => (0, 0, f')
  | (ReadFault, f') => (IMD_ERR_READ_ERROR, 0, f')
  end.

Definition write_bytes (buffer : list Z) (f : FILE) : Z * FILE :=
  if Z.of_nat (length buffer) =? 0 then (0, f)
  else let '(k, f') := fwrite buffer f in
       if negb (k =? Z.of_nat (length buffer)) then (IMD_ERR_WRITE_ERROR, f')
       else (0, f').

(** ** libimd.c: [imd_write_file_header], [imd_write_comment_block] *)

Definition imd_write_file_header (h : Host) (fout : FILE) (version_string : list Z)
    : Z * FILE :=
  match local_timestamp h with
  | None => (IMD_ERR_WRITE_ERROR, fout)
  | Some timestamp =>
      let line := bytes_of_string "IMD " ++ version_string
                  ++ bytes_of_string ": " ++ timestamp
                  ++ [13; 10] in
      let '(k, f') := fwrite line fout in
      if k <? Z.of_nat (length line) then (IMD_ERR_WRITE_ERROR, f') else (0, f')
  end.

Definition imd_write_comment_block (fout : FILE) (comment : option (list Z))
    (comment_len : Z) : Z * FILE :=
  let r := match comment with
           | Some c =>
               if comment_len >? 0
               then match write_bytes (buf_read c 0 comment_len) fout with
                    | (0, f') => inl f'
                    | (_, f') => inr (IMD_ERR_WRITE_ERROR, f')
                    end
               else inl fout
           | None => inl fout
           end in
  match r with
  | inr e => e
  | inl f1 =>
      match fputc LIBIMD_COMMENT_EOF_MARKER f1 with
      | None => (IMD_ERR_WRITE_ERROR, f1)
      | Some f2 => (0, f2)
      end
  end.

(** ** libimd.c: [imd_write_track_imd] *)

(** [data + i * sector_size] when the buffer is non-NULL and holds the
    whole of sector [i]; NULL otherwise. *)
Definition sector_pointer (t : ImdTrackInfo) (i : Z) : option (list Z) :=
  match data t with
  | Some d =>
      if data_size t >=? (i + 1) * sector_size t
      then Some (drop (Z.to_nat (i * sector_size t)) d)
      else None
  | None => None
  end.

(** The base type chosen by the [switch] on [compression_mode]. *)
Definition target_base_type (opts : ImdWriteOpts) (original_flag : Z)
    (is_uniform_sector : Z) : Z :=
  if compression_mode opts =? IMD_COMPRESSION_FORCE_COMPRESS then
    if truthy is_uniform_sector then IMD_SDR_COMPRESSED else IMD_SDR_NORMAL
  else if compression_mode opts =? IMD_COMPRESSION_FORCE_DECOMPRESS then
    IMD_SDR_NORMAL
  else
    if IMD_SDR_IS_COMPRESSED original_flag then
      if truthy is_uniform_sector then IMD_SDR_COMPRESSED else IMD_SDR_NORMAL
    else IMD_SDR_NORMAL.

(** Base type and status bits combined into the flag to write. *)
Definition combine_flag (base_type : Z) (has_dam has_err : bool) : Z :=
  if base_type =? IMD_SDR_NORMAL then
    if has_dam && has_err then IMD_SDR_DELETED_ERR
    else if has_err then IMD_SDR_NORMAL_ERR
    else if has_dam then IMD_SDR_NORMAL_DAM
    else IMD_SDR_NORMAL
  else
    if has_dam && has_err then IMD_SDR_COMPRESSED_DEL_ERR
    else if has_err then IMD_SDR_COMPRESSED_ERR
    else if has_dam then IMD_SDR_COMPRESSED_DAM
    else IMD_SDR_COMPRESSED.

(** One iteration of the flag-processing loop: [inr rc] is [return rc]. *)
Definition process_sector_flag (opts : ImdWriteOpts) (t : ImdTrackInfo)
    (i : Z) (final_sflag : list Z) : list Z + Z :=
  let original_flag := arr_get (sflag t) i in
  if original_flag =? IMD_SDR_UNAVAILABLE then
    inl (arr_set final_sflag i IMD_SDR_UNAVAILABLE)
  else
    let sector_data := sector_pointer t i in
    if is_null sector_data && (sector_size t >? 0) then inr IMD_ERR_INVALID_ARG
    else
      let is_uniform_sector :=
        if negb (is_null sector_data) && (sector_size t >? 0)
        then fst (imd_is_uniform sector_data (sector_size t) 0)
        else 0 in
      let base := target_base_type opts original_flag is_uniform_sector in
      let target_has_dam :=
        truthy (IMD_SDR_HAS_DAM original_flag)
        && negb (truthy (force_non_deleted opts)) in
      let target_has_err :=
        truthy (IMD_SDR_HAS_ERR original_flag)
        && negb (truthy (force_non_bad opts)) in
      inl (arr_set final_sflag i (combine_flag base target_has_dam target_has_err)).

Definition process_sector_flags (opts : ImdWriteOpts) (t : ImdTrackInfo)
    : list Z + Z :=
  for_range_exit 0 (Z.to_nat (num_sectors t)) (process_sector_flag opts t)
    zero_array.

(** The working copy [track_to_write] after the optional interleave:
    [inr rc] is an early [return rc], [None] an interleave without a
    result (see [place_sector]).  When a private copy of the data is made it is a copy of
    the first [data_size] bytes; otherwise the copy shares the caller's
    buffer, which the placement loop then leaves as it is in every case
    where its accesses stay inside the buffer. *)
Definition prepare_track_to_write (h : Host) (track : ImdTrackInfo)
    (opts : ImdWriteOpts) : option (ImdTrackInfo + Z) :=
  let copy_needed :=
    negb (interleave_factor opts =? LIBIMD_IL_AS_READ)
    && (num_sectors track >? 1) && (data_size track >? 0) in
  if copy_needed && negb (malloc_ok h (data_size track))
  then Some (inr IMD_ERR_ALLOC)
  else
    let track_to_write :=
      if copy_needed
      then with_data track
             (match data track with
              | Some d => Some (buf_read d 0 (data_size track))
              | None => None
              end)
      else track in
    let il_factor := interleave_factor opts in
    if negb (il_factor =? LIBIMD_IL_AS_READ) && (num_sectors track_to_write >? 1)
    then
      let il_factor :=
        if il_factor =? LIBIMD_IL_BEST_GUESS
        then imd_calculate_best_interleave track_to_write
        else il_factor in
      '(ret_status, t') ← imd_apply_interleave h track_to_write il_factor;
      if negb (ret_status =? 0) then Some (inr ret_status) else Some (inl t')
    else Some (inl track_to_write).

Definition translate_mode (opts : ImdWriteOpts) (t : ImdTrackInfo) : Z :=
  if mode t <? LIBIMD_NUM_MODES then arr_get (tmode opts) (mode t) else mode t.

(** A chain of [fputc] calls joined by [||]: [inr] carries the stream at
    the first call that returned [EOF]. *)
Fixpoint fputc_all (cs : list Z) (f : FILE) : FILE + FILE :=
  match cs with
  | [] => inl f
  | c :: cs' => match fputc c f with
                | Some f' => fputc_all cs' f'
                | None => inr f
                end
  end.

Definition write_track_header (final_mode : Z) (t : ImdTrackInfo) (fout : FILE)
    : FILE + FILE :=
  fputc_all [final_mode; cyl t; Z.lor (head t) (hflag t); num_sectors t;
             sector_size_code t] fout.

(** The maps: [inr (rc, f)] is the jump to [write_error]. *)
Definition write_track_maps (t : ImdTrackInfo) (fout : FILE) : FILE + Z * FILE :=
  if num_sectors t >? 0 then
    match write_bytes (buf_read (smap t) 0 (num_sectors t)) fout with
    | (0, f1) =>
        let r2 := if truthy (Z.land (hflag t) IMD_HFLAG_CMAP_PRES)
                  then write_bytes (buf_read (cmap t) 0 (num_sectors t)) f1
                  else (0, f1) in
        match r2 with
        | (0, f2) =>
            let r3 := if truthy (Z.land (hflag t) IMD_HFLAG_HMAP_PRES)
                      then write_bytes (buf_read (hmap t) 0 (num_sectors t)) f2
                      else (0, f2) in
            match r3 with
            | (0, f3) => inl f3
            | (_, f3) => inr (IMD_ERR_WRITE_ERROR, f3)
            end
        | (_, f2) => inr (IMD_ERR_WRITE_ERROR, f2)
        end
    | (_, f1) => inr (IMD_ERR_WRITE_ERROR, f1)
    end
  else inl fout.

(** One Sector Data Record: the flag byte, then the fill byte or the
    sector data. *)
Definition write_sector_record (t : ImdTrackInfo) (final_sflag : list Z)
    (i : Z) (fout : FILE) : FILE + Z * FILE :=
  let write_flag := arr_get final_sflag i in
  match fputc write_flag fout with
  | None => inr (IMD_ERR_WRITE_ERROR, fout)
  | Some f1 =>
      let sector_data := sector_pointer t i in
      if IMD_SDR_HAS_DATA write_flag then
        if IMD_SDR_IS_COMPRESSED write_flag then
          match sector_data with
          | None => inr (IMD_ERR_INVALID_ARG, f1)
          | Some _ =>
              let current_fill_byte :=
                snd (imd_is_uniform sector_data (sector_size t) 0) in
              match fputc current_fill_byte f1 with
              | None => inr (IMD_ERR_WRITE_ERROR, f1)
              | Some f2 => inl f2
              end
          end
        else if sector_size t >? 0 then
          match sector_data with
          | None => inr (IMD_ERR_INVALID_ARG, f1)
          | Some p =>
              match write_bytes (buf_read p 0 (sector_size t)) f1 with
              | (0, f2) => inl f2
              | (_, f2) => inr (IMD_ERR_WRITE_ERROR, f2)
              end
          end
        else inl f1
      else inl f1
  end.

Definition write_sector_records (t : ImdTrackInfo) (final_sflag : list Z)
    (fout : FILE) : FILE + Z * FILE :=
  for_range_exit 0 (Z.to_nat (num_sectors t)) (write_sector_record t final_sflag)
    fout.

(** The C result and the stream after the call; [None] when the
    interleave has no result (see [place_sector]). *)
Definition imd_write_track_imd (h : Host) (fout : FILE) (track : ImdTrackInfo)
    (opts : ImdWriteOpts) : option (Z * FILE) :=
  if negb (truthy (loaded track)) then Some (IMD_ERR_INVALID_ARG, fout)
  else
    prepared ← prepare_track_to_write h track opts;
    match prepared with
    | inr rc => Some (rc, fout)
    | inl track_to_write =>
        let final_mode := translate_mode opts track_to_write in
        match process_sector_flags opts track_to_write with
        | inr rc => Some (rc, fout)
        | inl final_sflag =>
            match write_track_header final_mode track_to_write fout with
            | inr f1 => Some (IMD_ERR_WRITE_ERROR, f1)
            | inl f1 =>
                match write_track_maps track_to_write f1 with
                | inr e => Some e
                | inl f2 =>
                    match write_sector_records track_to_write final_sflag f2 with
                    | inr e => Some e
                    | inl f3 => Some (0, f3)
                    end
                end
            end
        end
    end.

(** ** The C library pieces used by [imd_read_file_header] *)

Definition isspace (c : Z) : bool := (c =? 32) || ((9 <=? c) && (c <=? 13)).
Definition isdigit (c : Z) : bool := (48 <=? c) && (c <=? 57).

Fixpoint skip_space (s : list Z) : list Z :=
  match s with
  | c :: s' => if isspace c then skip_space s' else s
  | [] => []
  end.

(** The longest prefix of [s] whose characters satisfy [keep]. *)
Fixpoint span_while (keep : Z -> bool) (s : list Z) : list Z :=
  match s with
  | c :: s' => if keep c then c :: span_while keep s' else []
  | [] => []
  end.

(** [fgets (line, room + 1, f)]: [None] is the NULL result (end of file
    before any character, or a read error). *)
Fixpoint fgets_loop (room : nat) (f : FILE) (acc : list Z)
    : option (list Z) * FILE :=
  match room with
  | O => (Some acc, f)
  | Datatypes.S r =>
      match fgetc f with
      | (GotByte b, f') =>
          if b =? 10 then (Some (acc ++ [b]), f')
          else fgets_loop r f' (acc ++ [b])
      | (AtEof, f') => (match acc with [] => None | _ => Some acc end, f')
      | (ReadFault, f') => (None, f')
      end
  end.

Definition fgets (size : Z) (f : FILE) : option (list Z) * FILE :=
  fgets_loop (Z.to_nat (size - 1)) f [].

(** The content of a [char] buffer seen as a C string. *)
Definition c_string (buf : list Z) : list Z :=
  span_while (fun c => negb (c =? 0)) buf.

(** [line[strcspn (line, "\r\n")] = 0]. *)
Definition cut_at_newline (line : list Z) : list Z :=
  span_while (fun c => negb ((c =? 13) || (c =? 10))) line.

(** [strncmp (line, lit, length lit) == 0]. *)
Definition has_prefix (lit line : list Z) : bool :=
  bool_decide (take (length lit) line = lit).

(** *** [sscanf] for the directives the header formats use *)

Inductive directive :=
| DLit (c : Z)                        (* an ordinary character *)
| DSpace                              (* white space in the format *)
| DScanset (width : nat) (stop : Z)   (* %<width>[^<stop>] *)
| DInt.                               (* %d *)

Inductive scanned := SStr (s : list Z) | SInt (z : Z).

Definition decimal_value (digits : list Z) : Z :=
  fold_left (fun acc c => 10 * acc + (c - 48)) digits 0.

(** [%d] after the leading white space has been skipped: an optional
    sign and at least one digit. *)
Definition scan_int (h : Host) (s : list Z) : option (Z * list Z) :=
  let '(negative, s1) :=
    match s with
    | c :: s' => if c =? 45 then (true, s')
                 else if c =? 43 then (false, s') else (false, s)
    | [] => (false, s)
    end in
  let digits := span_while isdigit s1 in
  match digits with
  | [] => None
  | _ =>
      let v := if negative then - decimal_value digits else decimal_value digits in
      let stored := if (INT_MIN <=? v) && (v <=? INT_MAX) then v
                    else scan_int_overflow h v in
      Some (stored, drop (length digits) s1)
  end.

(** The result of a scan that stops now: [EOF] (-1) for an input failure
    before the first conversion, the number of conversions otherwise. *)
Definition scan_stop (input_failure : bool) (acc : list scanned) : Z * list scanned :=
  match acc with
  | [] => if input_failure then (-1, acc) else (0, acc)
  | _ => (Z.of_nat (length acc), acc)
  end.

Fixpoint sscanf_run (h : Host) (fmt : list directive) (input : list Z)
    (acc : list scanned) : Z * list scanned :=
  match fmt with
  | [] => (Z.of_nat (length acc), acc)
  | DSpace :: fmt' => sscanf_run h fmt' (skip_space input) acc
  | DLit c :: fmt' =>
      match input with
      | [] => scan_stop true acc
      | x :: rest => if x =? c then sscanf_run h fmt' rest acc
                     else scan_stop false acc
      end
  | DScanset width stop :: fmt' =>
      match input with
      | [] => scan_stop true acc
      | _ =>
          let tok := take width (span_while (fun c => negb (c =? stop)) input) in
          match tok with
          | [] => scan_stop false acc
          | _ => sscanf_run h fmt' (drop (length tok) input) (acc ++ [SStr tok])
          end
      end
  | DInt :: fmt' =>
      match skip_space input with
      | [] => scan_stop true acc
      | s1 =>
          match scan_int h s1 with
          | Some (z, rest) => sscanf_run h fmt' rest (acc ++ [SInt z])
          | None => scan_stop false acc
          end
      end
  end.

Definition sscanf (h : Host) (input : list Z) (fmt : list directive)
    : Z * list scanned :=
  sscanf_run h fmt input [].

Definition lit_I : Z := 73.
Definition lit_M : Z := 77.
Definition lit_D : Z := 68.
Definition lit_colon : Z := 58.
Definition lit_slash : Z := 47.

(** ["IMD %31[^:]: %d/%d/%d %d:%d:%d"] *)
Definition header_format : list directive :=
  [DLit lit_I; DLit lit_M; DLit lit_D; DSpace; DScanset 31 lit_colon;
   DLit lit_colon; DSpace; DInt; DLit lit_slash; DInt; DLit lit_slash; DInt;
   DSpace; DInt; DLit lit_colon; DInt; DLit lit_colon; DInt].

(** ["IMD %31[^:]:"] *)
Definition version_format : list directive :=
  [DLit lit_I; DLit lit_M; DLit lit_D; DSpace; DScanset 31 lit_colon;
   DLit lit_colon].

(** ** libimd.c: [imd_read_file_header] *)

(** The struct after [memset (header_info, 0, ..)]. *)
Definition zero_header : ImdHeaderInfo := mkHeader [] 0 0 0 0 0 0.

(** The conversions of [sscanf] stored through the seven pointers, in
    order; a pointer whose conversion did not happen keeps its content. *)
Definition store_scanned (hi : ImdHeaderInfo) (vals : list scanned) : ImdHeaderInfo :=
  let str (k : nat) (d : list Z) :=
    match vals !! k with Some (SStr s) => s | _ => d end in
  let int (k : nat) (d : Z) :=
    match vals !! k with Some (SInt z) => z | _ => d end in
  mkHeader (str 0%nat (version hi))
           (int 1%nat (day hi)) (int 2%nat (month hi)) (int 3%nat (year hi))
           (int 4%nat (hour hi)) (int 5%nat (minute hi)) (int 6%nat (second hi)).

Definition zero_date_time (hi : ImdHeaderInfo) : ImdHeaderInfo :=
  mkHeader (version hi) 0 0 0 0 0 0.

Definition date_time_out_of_range (hi : ImdHeaderInfo) : bool :=
  (month hi <? 1) || (month hi >? 12) || (day hi <? 1) || (day hi >? 31)
  || (hour hi <? 0) || (hour hi >? 23) || (minute hi <? 0) || (minute hi >? 59)
  || (second hi <? 0) || (second hi >? 59).

(** The block run when [header_info] is not NULL. *)
Definition parse_header_line (h : Host) (line : list Z) : ImdHeaderInfo :=
  let '(fields, vals) := sscanf h line header_format in
  let hi := store_scanned zero_header vals in
  if fields <? 7 then
    let '(got, vals2) := sscanf h line version_format in
    let hi2 := store_scanned hi vals2 in
    let hi3 := if negb (got =? 1)
               then mkHeader (bytes_of_string "Unknown") (day hi2) (month hi2)
                      (year hi2) (hour hi2) (minute hi2) (second hi2)
               else hi2 in
    zero_date_time hi3
  else
    if date_time_out_of_range hi then zero_date_time hi else hi.

(** [fimd] is [None] for a NULL stream; [want_info] tells whether
    [header_info] is non-NULL and [buf_size] is [Some size] when
    [header_line_buf] is non-NULL.  Returns the C result, the stream, the
    struct written through [header_info] (if any) and the string stored
    in [header_line_buf] (if any). *)
Definition imd_read_file_header (h : Host) (fimd : option FILE)
    (want_info : bool) (buf_size : option Z)
    : Z * option FILE * option ImdHeaderInfo * option (list Z) :=
  match fimd with
  | None => (IMD_ERR_INVALID_ARG, None, None, None)
  | Some f =>
      match fgets LIBIMD_MAX_HEADER_LINE (clearerr f) with
      | (None, f1) => (IMD_ERR_READ_ERROR, Some f1, None, None)
      | (Some raw, f1) =>
          let line0 := c_string raw in
          let stored_line :=
            match buf_size with
            | Some size => if size >? 0 then Some (take (Z.to_nat (size - 1)) line0)
                           else None
            | None => None
            end in
          let line := cut_at_newline line0 in
          if negb (has_prefix (bytes_of_string "IMD ") line)
          then (IMD_ERR_READ_ERROR, Some f1, None, stored_line)
          else
            let info := if want_info then Some (parse_header_line h line) else None in
            (0, Some f1, info, stored_line)
      end
  end.

(** ** libimd.c: [imd_skip_comment_block], [imd_read_comment_block] *)

(** The [while ((c = fgetc (f)) != EOF && c != 0x1A)] loop: the bytes
    passed over and whether the marker was found.  [fuel] bounds the
    number of bytes; a regular file ends before it runs out. *)
Fixpoint read_until_marker (fuel : nat) (f : FILE) (acc : list Z)
    : option (bool * list Z * FILE) :=
  match fuel with
  | O => None
  | Datatypes.S k =>
      match fgetc f with
      | (GotByte b, f') =>
          if b =? LIBIMD_COMMENT_EOF_MARKER then Some (true, acc, f')
          else read_until_marker k f' (acc ++ [b])
      | (_, f') => Some (false, acc, f')
      end
  end.

Definition comment_fuel (f : FILE) : nat := Datatypes.S (length (f_content f)).

Definition imd_skip_comment_block (f : FILE) : option (Z * FILE) :=
  match read_until_marker (comment_fuel f) (clearerr f) [] with
  | Some (true, _, f') => Some (0, f')
  | Some (false, _, f') => Some (IMD_ERR_READ_ERROR, f')
  | None => None
  end.

(** The reading loop of [imd_read_comment_block]: the buffer starts with
    a capacity of 1024 and is doubled by [realloc] whenever
    [size >= capacity - 1] before a character is stored. *)
Fixpoint read_comment_loop (h : Host) (fuel : nat) (f : FILE) (acc : list Z)
    (capacity : Z) : option (option (list Z) * FILE) :=
  match fuel with
  | O => None
  | Datatypes.S k =>
      match fgetc f with
      | (GotByte b, f') =>
          if b =? LIBIMD_COMMENT_EOF_MARKER then Some (Some acc, f')
          else if Z.of_nat (length acc) >=? capacity - 1 then
            let new_capacity := capacity * 2 in
            if new_capacity <=? capacity then Some (None, f')
            else if negb (malloc_ok h new_capacity) then Some (None, f')
            else read_comment_loop h k f' (acc ++ [b]) new_capacity
          else read_comment_loop h k f' (acc ++ [b]) capacity
      | (_, f') => Some (None, f')
      end
  end.

(** Returns the comment ([None] is the NULL result) and the stream. *)
Definition imd_read_comment_block (h : Host) (f : FILE)
    : option (option (list Z) * FILE) :=
  if negb (malloc_ok h 1024) then Some (None, f)
  else read_comment_loop h (comment_fuel f) (clearerr f) [] 1024.

(** ** libimd.c: the sector size table, allocation of track data *)

Definition SECTOR_SIZE_LOOKUP : list Z := [128; 256; 512; 1024; 2048; 4096; 8192].
Definition SECTOR_SIZE_LOOKUP_COUNT : Z := 7.

Definition imd_get_sector_size (track : ImdTrackInfo) : Z :=
  if sector_size_code track >=? SECTOR_SIZE_LOOKUP_COUNT then 0
  else arr_get SECTOR_SIZE_LOOKUP (sector_size_code track).

Definition set_header (t : ImdTrackInfo) (m c hd hf n code sz : Z) : ImdTrackInfo :=
  mkTrack m c hd hf n code sz (smap t) (cmap t) (hmap t) (sflag t)
          (data t) (data_size t) (loaded t).

Definition set_buffer (t : ImdTrackInfo) (d : option (list Z)) (dsz : Z)
    (ld : Z) : ImdTrackInfo :=
  mkTrack (mode t) (cyl t) (head t) (hflag t) (num_sectors t)
          (sector_size_code t) (sector_size t) (smap t) (cmap t) (hmap t)
          (sflag t) d dsz ld.

Definition set_sector_size (t : ImdTrackInfo) (sz : Z) : ImdTrackInfo :=
  set_header t (mode t) (cyl t) (head t) (hflag t) (num_sectors t)
             (sector_size_code t) sz.

(** The buffer [malloc] returns is modelled as zero-filled; the callers
    overwrite every byte of it before the track is marked loaded. *)
Definition imd_alloc_track_data (h : Host) (track : ImdTrackInfo)
    : Z * ImdTrackInfo :=
  if negb (is_null (data track)) then (IMD_ERR_ALLOC, track)
  else
    let sector_size := imd_get_sector_size track in
    if sector_size =? 0 then (IMD_ERR_INVALID_ARG, track)
    else
      let track := set_sector_size track sector_size in
      if num_sectors track =? 0
      then (0, set_buffer track None 0 (loaded track))
      else
        let total_data_size := num_sectors track * sector_size in
        if negb (malloc_ok h total_data_size)
        then (IMD_ERR_ALLOC, set_buffer track None 0 (loaded track))
        else (0, set_buffer track
                   (Some (replicate (Z.to_nat total_data_size) 0))
                   total_data_size (loaded track)).

Definition imd_free_track_data (track : ImdTrackInfo) : ImdTrackInfo :=
  if negb (is_null (data track)) then set_buffer track None 0 0 else track.

(** ** libimd.c: the common start of the three track readers *)

(** [fseek (fimd, start_pos, SEEK_SET)] whose result is only logged. *)
Definition seek_back (f : FILE) (start_pos : Z) : FILE := snd (fseek_set f start_pos).

(** The five header bytes, read one by one.  [inl] carries the five
    bytes; [inr (rc, f, got)] is an early [return rc] with the bytes
    obtained before it: a clean end of input ([rc = 0]) or a read error at
    the first byte, a read error or the end of the input after it. *)
Fixpoint read_header_rest (k : nat) (f : FILE) (got : list Z) (start_pos : Z)
    : list Z * FILE + Z * FILE * list Z :=
  match k with
  | O => inl (got, f)
  | Datatypes.S k' =>
      match read_byte f with
      | (1, b, f1) => read_header_rest k' f1 (got ++ [b]) start_pos
      | (_, _, f1) => inr (IMD_ERR_READ_ERROR, seek_back f1 start_pos, got)
      end
  end.

Definition read_track_header_bytes (f : FILE) (start_pos : Z)
    : list Z * FILE + Z * FILE * list Z :=
  match read_byte f with
  | (1, raw_mode, f1) => read_header_rest 4 f1 [raw_mode] start_pos
  | (read_status, _, f1) =>
      if read_status <? 0
      then inr (IMD_ERR_READ_ERROR, seek_back f1 start_pos, [])
      else inr (0, f1, [])
  end.

(** The header fields stored in the zeroed structure, as far as [got]
    provides them: mode, cyl, the head byte split into head and hflag,
    num_sectors and sector_size_code. *)
Definition header_fields (got : list Z) : ImdTrackInfo :=
  let field (k : nat) := match got !! k with Some b => b | None => 0 end in
  set_header zero_track (field 0%nat) (field 1%nat)
    (Z.land (field 2%nat) IMD_HFLAG_HEAD_MASK)
    (Z.land (field 2%nat) IMD_HFLAG_MASK)
    (field 3%nat) (field 4%nat) 0.

(** [imd_load_track] stores mode, cyl, num_sectors and sector_size_code as
    they are read; the head byte is decoded only after the fifth byte. *)
Definition header_fields_partial (got : list Z) : ImdTrackInfo :=
  let field (k : nat) := match got !! k with Some b => b | None => 0 end in
  set_header zero_track (field 0%nat) (field 1%nat) 0 0
    (field 3%nat) (field 4%nat) 0.

(** Validation of the decoded fields and the size lookup: [inr t] is the
    structure at the [return IMD_ERR_READ_ERROR]. *)
Definition validate_track_header (t : ImdTrackInfo) : ImdTrackInfo + ImdTrackInfo :=
  if (mode t >=? LIBIMD_NUM_MODES) || (head t >? 1)
     || (sector_size_code t >=? SECTOR_SIZE_LOOKUP_COUNT)
  then inr t
  else
    let t' := set_sector_size t (arr_get SECTOR_SIZE_LOOKUP (sector_size_code t)) in
    if sector_size t' =? 0 then inr t' else inl t'.

(** One of the three maps: read from the stream when [present], else
    produced by [absent] (a [memset] in [imd_load_track], nothing in the
    two header readers).  The boolean tells whether all [n] bytes came. *)
Definition read_map (present : bool) (n : Z) (absent : list Z) (f : FILE)
    : list Z * bool * FILE :=
  if present then
    let '(bytes, f') := read_bytes n f in
    (memcpy_arr zero_array bytes (Z.of_nat (length bytes)),
     Z.of_nat (length bytes) =? n, f')
  else (absent, true, f).

(** The maps of a track; the boolean is false at a
    [return IMD_ERR_READ_ERROR]. *)
Definition read_track_maps (t : ImdTrackInfo) (synthesize : bool) (f : FILE)
    : ImdTrackInfo * bool * FILE :=
  if num_sectors t >? 0 then
    let n := num_sectors t in
    let '(sm, ok1, f1) := read_map true n zero_array f in
    let t1 := with_maps t sm (cmap t) (hmap t) (sflag t) (data t) in
    if negb ok1 then (t1, false, f1)
    else
      let '(cm, ok2, f2) :=
        read_map (truthy (Z.land (hflag t) IMD_HFLAG_CMAP_PRES)) n
          (if synthesize then memset_arr zero_array (cyl t) n else zero_array)
          f1 in
      let t2 := with_maps t sm cm (hmap t) (sflag t) (data t) in
      if negb ok2 then (t2, false, f2)
      else
        let '(hm, ok3, f3) :=
          read_map (truthy (Z.land (hflag t) IMD_HFLAG_HMAP_PRES)) n
            (if synthesize then memset_arr zero_array (head t) n else zero_array)
            f2 in
        (with_maps t sm cm hm (sflag t) (data t), ok3, f3)
  else (t, true, f).

(** ** libimd.c: [imd_load_track] *)

(** One iteration of the sector loop; the state is the stream, the
    track and [current_offset]. *)
Definition load_sector (fill_byte : Z) (start_pos : Z) (i : Z)
    (st : FILE * ImdTrackInfo * Z) : FILE * ImdTrackInfo * Z + Z * FILE * ImdTrackInfo :=
  let '(f, t, current_offset) := st in
  let fail f' t' :=
    inr (IMD_ERR_READ_ERROR, seek_back f' start_pos, imd_free_track_data t') in
  match read_byte f with
  | (1, sector_type, f1) =>
      let t1 := with_sflag t (arr_set (sflag t) i sector_type) in
      let buf := match data t1 with Some d => d | None => [] end in
      let store bytes := with_data t1 (Some (buf_write buf current_offset bytes)) in
      if IMD_SDR_HAS_DATA sector_type then
        if IMD_SDR_IS_COMPRESSED sector_type then
          match read_byte f1 with
          | (1, fill_value, f2) =>
              inl (f2, store (replicate (Z.to_nat (sector_size t1)) fill_value),
                   current_offset + sector_size t1)
          | (_, _, f2) => fail f2 t1
          end
        else if sector_size t1 >? LIBIMD_MAX_SECTOR_SIZE then fail f1 t1
        else
          let '(bytes, f2) := read_bytes (sector_size t1) f1 in
          if negb (Z.of_nat (length bytes) =? sector_size t1)
          then fail f2 (store bytes)
          else inl (f2, store bytes, current_offset + sector_size t1)
      else if sector_type =? IMD_SDR_UNAVAILABLE then
        inl (f1, store (replicate (Z.to_nat (sector_size t1)) fill_byte),
             current_offset + sector_size t1)
      else fail f1 t1
  | (_, _, f1) => fail f1 t
  end.

(** Returns the C result, the stream and the track structure as the call
    leaves them.  [track] is the caller's structure, untouched when
    [ftell] fails. *)
Definition imd_load_track (h : Host) (fimd : FILE) (track : ImdTrackInfo)
    (fill_byte : Z) : Z * FILE * ImdTrackInfo :=
  let start_pos := ftell fimd in
  if start_pos <? 0 then (IMD_ERR_SEEK_ERROR, fimd, track)
  else
    match read_track_header_bytes (clearerr fimd) start_pos with
    | inr (rc, f, got) => (rc, f, header_fields_partial got)
    | inl (got, f1) =>
        match validate_track_header (header_fields got) with
        | inr t1 => (IMD_ERR_READ_ERROR, seek_back f1 start_pos, t1)
        | inl t1 =>
            if num_sectors t1 >? LIBIMD_MAX_SECTORS_PER_TRACK
            then (IMD_ERR_READ_ERROR, seek_back f1 start_pos, t1)
            else
              match read_track_maps t1 true f1 with
              | (t2, false, f2) => (IMD_ERR_READ_ERROR, seek_back f2 start_pos, t2)
              | (t2, true, f2) =>
                  match imd_alloc_track_data h t2 with
                  | (0, t3) =>
                      if num_sectors t3 =? 0
                      then (1, f2, set_buffer t3 (data t3) (data_size t3) 1)
                      else if is_null (data t3)
                      then (IMD_ERR_ALLOC, seek_back f2 start_pos, t3)
                      else
                        match for_range_exit 0 (Z.to_nat (num_sectors t3))
                                (load_sector fill_byte start_pos) (f2, t3, 0) with
                        | inr e => e
                        | inl (f3, t4, _) =>
                            (1, f3, set_buffer t4 (data t4) (data_size t4) 1)
                        end
                  | (alloc_status, t3) =>
                      (alloc_status, seek_back f2 start_pos, t3)
                  end
              end
        end
    end.

(** ** libimd.c: [skip_sector_data] *)

(** The read-and-discard fallback.  [fuel] starts at [remaining_skip] and
    every iteration removes at least one byte from [remaining_skip], so
    the loop condition is false when the fuel reaches 0. *)
Fixpoint skip_by_reading (fuel : nat) (remaining_skip : Z) (track_start_pos : Z)
    (f : FILE) : Z * FILE :=
  match fuel with
  | O => (0, f)
  | Datatypes.S k =>
      if remaining_skip >? 0 then
        let read_amount := if remaining_skip >? 512 then 512 else remaining_skip in
        let '(bytes, f1) := fread (Z.to_nat read_amount) f in
        let bytes_actually_read := Z.of_nat (length bytes) in
        if bytes_actually_read <? read_amount
        then (IMD_ERR_READ_ERROR, seek_back f1 track_start_pos)
        else skip_by_reading k (remaining_skip - bytes_actually_read)
               track_start_pos f1
      else (0, f)
  end.

Definition skip_sector_data (f : FILE) (sector_flag sector_size track_start_pos : Z)
    : Z * FILE :=
  let data_to_skip :=
    if sector_flag =? IMD_SDR_UNAVAILABLE then Some 0
    else if IMD_SDR_IS_COMPRESSED sector_flag then Some 1
    else if (sector_flag =? IMD_SDR_NORMAL) || (sector_flag =? IMD_SDR_NORMAL_DAM)
            || (sector_flag =? IMD_SDR_NORMAL_ERR)
            || (sector_flag =? IMD_SDR_DELETED_ERR) then Some sector_size
    else None in
  match data_to_skip with
  | None => (IMD_ERR_READ_ERROR, seek_back f track_start_pos)
  | Some data_to_skip =>
      if data_to_skip =? 0 then (0, f)
      else
        let f := clearerr f in
        let pos_before_seek := ftell f in
        if pos_before_seek <? 0 then (IMD_ERR_SEEK_ERROR, f)
        else
          match fseek_cur f data_to_skip with
          | (0, f1) =>
              let pos_after_seek := ftell f1 in
              if pos_after_seek <? 0
              then (IMD_ERR_SEEK_ERROR, seek_back f1 track_start_pos)
              else if pos_after_seek =? pos_before_seek + data_to_skip
              then (0, f1)
              else (IMD_ERR_READ_ERROR, seek_back f1 track_start_pos)
          | (_, f1) =>
              match fseek_set (clearerr f1) pos_before_seek with
              | (0, f2) =>
                  skip_by_reading (Z.to_nat data_to_skip) data_to_skip
                    track_start_pos f2
              | (_, f2) => (IMD_ERR_SEEK_ERROR, seek_back f2 track_start_pos)
              end
          end
  end.

(** ** libimd.c: [imd_read_track_header_and_flags] *)

Definition read_flag_and_skip (start_pos : Z) (i : Z) (st : FILE * ImdTrackInfo)
    : FILE * ImdTrackInfo + Z * FILE * ImdTrackInfo :=
  let '(f, t) := st in
  match read_byte f with
  | (1, sector_type, f1) =>
      let t1 := with_sflag t (arr_set (sflag t) i sector_type) in
      match skip_sector_data f1 sector_type (sector_size t1) start_pos with
      | (0, f2) => inl (f2, t1)
      | (read_status, f2) => inr (read_status, f2, t1)
      end
  | (_, _, f1) => inr (IMD_ERR_READ_ERROR, seek_back f1 start_pos, t)
  end.

Definition imd_read_track_header_and_flags (fimd : FILE) (track : ImdTrackInfo)
    : Z * FILE * ImdTrackInfo :=
  let start_pos := ftell fimd in
  if start_pos <? 0 then (IMD_ERR_SEEK_ERROR, fimd, track)
  else
    match read_track_header_bytes (clearerr fimd) start_pos with
    | inr (rc, f, _) => (rc, f, zero_track)
    | inl (got, f1) =>
        match validate_track_header (header_fields got) with
        | inr t1 => (IMD_ERR_READ_ERROR, seek_back f1 start_pos, t1)
        | inl t1 =>
            match read_track_maps t1 false f1 with
            | (t2, false, f2) => (IMD_ERR_READ_ERROR, seek_back f2 start_pos, t2)
            | (t2, true, f2) =>
                match for_range_exit 0 (Z.to_nat (num_sectors t2))
                        (read_flag_and_skip start_pos) (f2, t2) with
                | inr e => e
                | inl (f3, t3) => (1, f3, set_buffer t3 None 0 0)
                end
            end
        end
    end.

(** ** libimdf.h / libimdf.c: the in-memory image *)

Definition IMDF_ERR_OK : Z := 0.
Definition IMDF_ERR_WRITE_PROTECTED : Z := -100.
Definition IMDF_ERR_GEOMETRY : Z := -101.
Definition IMDF_ERR_NOT_FOUND : Z := -102.
Definition IMDF_ERR_ALLOC : Z := -103.
Definition IMDF_ERR_IO : Z := -104.
Definition IMDF_ERR_INVALID_ARG : Z := -105.
Definition IMDF_ERR_SECTOR_SIZE : Z := -106.
Definition IMDF_ERR_BUFFER_SIZE : Z := -107.
Definition IMDF_ERR_UNAVAILABLE : Z := -108.
Definition IMDF_ERR_LIBIMD_ERR : Z := -109.
Definition IMDF_ERR_ALREADY_OPEN : Z := -110.
Definition IMDF_ERR_CANNOT_OPEN : Z := -111.

Definition IMDF_INITIAL_TRACK_CAPACITY : Z := 80.

(** [sizeof (ImdTrackInfo)] and [sizeof (struct ImdImageFile)] on an LP64
    target (the header info of 56 bytes starts at offset 24, the three
    limit bytes at 120, padded to 128); only the host's allocator sees
    them. *)
Definition SIZEOF_ImdTrackInfo : Z := 1064.
Definition SIZEOF_ImdImageFile : Z := 128.

Definition default_libimdf_write_opts : ImdWriteOpts :=
  mkOpts IMD_COMPRESSION_AS_READ 0 0 [0; 1; 2; 3; 4; 5] LIBIMD_IL_AS_READ.

Definition with_compression (o : ImdWriteOpts) (c : Z) : ImdWriteOpts :=
  mkOpts c (force_non_bad o) (force_non_deleted o) (tmode o) (interleave_factor o).

(** [struct ImdImageFile].  [tracks] holds the [num_tracks] live entries
    of the dynamic array, so [num_tracks] is its length. *)
Record ImdImageFile := mkImage {
  file_ptr : option FILE;
  file_path : list Z;
  write_protected : Z;
  read_only_open : Z;
  header_info : ImdHeaderInfo;
  comment : option (list Z);
  comment_len : Z;
  tracks : list ImdTrackInfo;
  track_capacity : Z;
  max_cyl : Z;
  max_head : Z;
  max_spt : Z
}.

Definition num_tracks (imdf : ImdImageFile) : Z := Z.of_nat (length (tracks imdf)).

Definition with_file (imdf : ImdImageFile) (f : option FILE) : ImdImageFile :=
  mkImage f (file_path imdf) (write_protected imdf) (read_only_open imdf)
          (header_info imdf) (comment imdf) (comment_len imdf) (tracks imdf)
          (track_capacity imdf) (max_cyl imdf) (max_head imdf) (max_spt imdf).

Definition with_tracks (imdf : ImdImageFile) (ts : list ImdTrackInfo)
    (capacity : Z) : ImdImageFile :=
  mkImage (file_ptr imdf) (file_path imdf) (write_protected imdf)
          (read_only_open imdf) (header_info imdf) (comment imdf)
          (comment_len imdf) ts capacity (max_cyl imdf) (max_head imdf)
          (max_spt imdf).

(** [tracks[i]] and [tracks[i] = t]. *)
Definition track_at (imdf : ImdImageFile) (i : Z) : ImdTrackInfo :=
  match tracks imdf !! Z.to_nat i with Some t => t | None => zero_track end.

Definition set_track (imdf : ImdImageFile) (i : Z) (t : ImdTrackInfo) : ImdImageFile :=
  with_tracks imdf (<[Z.to_nat i := t]> (tracks imdf)) (track_capacity imdf).

(** The first index from [i] on whose track is at ([cyl], [head]);
    -1 if none. *)
Fixpoint find_track_from (ts : list ImdTrackInfo) (i : Z) (c hd : Z) : Z :=
  match ts with
  | [] => -1
  | t :: ts' => if (cyl t =? c) && (head t =? hd) then i
                else find_track_from ts' (i + 1) c hd
  end.

Definition find_track_index_internal (imdf : ImdImageFile) (c hd : Z) : Z :=
  find_track_from (tracks imdf) 0 c hd.

Definition find_sector_index_internal (track : ImdTrackInfo)
    (logical_sector_id : Z) : Z :=
  match for_range_exit 0 (Z.to_nat (num_sectors track))
          (fun i (_ : unit) =>
             if arr_get (smap track) i =? logical_sector_id then inr i else inl tt)
          tt with
  | inr i => i
  | inl _ => -1
  end.

Definition map_libimd_error (imd_err : Z) : Z :=
  if imd_err =? 0 then IMDF_ERR_OK
  else if imd_err =? 1 then IMDF_ERR_OK
  else if (imd_err =? IMD_ERR_READ_ERROR) || (imd_err =? IMD_ERR_WRITE_ERROR)
          || (imd_err =? IMD_ERR_SEEK_ERROR) then IMDF_ERR_IO
  else if imd_err =? IMD_ERR_ALLOC then IMDF_ERR_ALLOC
  else if imd_err =? IMD_ERR_INVALID_ARG then IMDF_ERR_INVALID_ARG
  else if imd_err =? IMD_ERR_BUFFER_TOO_SMALL then IMDF_ERR_BUFFER_SIZE
  else if (imd_err =? IMD_ERR_SECTOR_NOT_FOUND)
          || (imd_err =? IMD_ERR_TRACK_NOT_FOUND) then IMDF_ERR_NOT_FOUND
  else if imd_err =? IMD_ERR_UNAVAILABLE then IMDF_ERR_UNAVAILABLE
  else if imd_err =? IMD_ERR_SIZE_MISMATCH then IMDF_ERR_SECTOR_SIZE
  else IMDF_ERR_LIBIMD_ERR.

(** *** [rewrite_image_file] *)

(** The loop over the tracks: [inr rc] is [return rc]; [None] when a
    track write has no result. *)
Fixpoint rewrite_tracks (h : Host) (ts : list ImdTrackInfo) (i : Z)
    (modified_track_index : Z) (modified_track_opts : option ImdWriteOpts)
    (f : FILE) : option (FILE + Z * FILE) :=
  match ts with
  | [] => Some (inl f)
  | t :: ts' =>
      let opts_to_use :=
        match modified_track_opts with
        | Some o => if i =? modified_track_index then o
                    else default_libimdf_write_opts
        | None => default_libimdf_write_opts
        end in
      if negb (truthy (loaded t)) then Some (inr (IMDF_ERR_LIBIMD_ERR, f))
      else
        '(res, f') ← imd_write_track_imd h f t opts_to_use;
        if negb (res =? 0) then Some (inr (map_libimd_error res, f'))
        else rewrite_tracks h ts' (i + 1) modified_track_index
               modified_track_opts f'
  end.

Definition version_to_write (hi : ImdHeaderInfo) : list Z :=
  match version hi with
  | [] => bytes_of_string "1.19"
  | v => if bool_decide (v = bytes_of_string "Unknown")
         then bytes_of_string "1.19" else v
  end.

(** Returns the result code and the stream of the image after the call. *)
Definition rewrite_image_file (h : Host) (imdf : ImdImageFile)
    (modified_track_index : Z) (modified_track_opts : option ImdWriteOpts)
    : option (Z * option FILE) :=
  match file_ptr imdf with
  | None => Some (IMDF_ERR_INVALID_ARG, None)
  | Some f0 =>
      match fseek_set f0 0 with
      | (0, f1) =>
          match imd_write_file_header h f1 (version_to_write (header_info imdf)) with
          | (0, f2) =>
              match imd_write_comment_block f2 (comment imdf) (comment_len imdf) with
              | (0, f3) =>
                  written ← rewrite_tracks h (tracks imdf) 0 modified_track_index
                              modified_track_opts f3;
                  match written with
                  | inr (rc, f4) => Some (rc, Some f4)
                  | inl f4 =>
                      if negb (fflush f4 =? 0) then Some (IMDF_ERR_IO, Some f4)
                      else
                        let current_pos := ftell f4 in
                        let f5 := if current_pos <? 0 then f4
                                  else snd (ftruncate f4 current_pos) in
                        if negb (fflush f5 =? 0) then Some (IMDF_ERR_IO, Some f5)
                        else Some (IMDF_ERR_OK, Some f5)
                  end
              | (res, f3) => Some (map_libimd_error res, Some f3)
              end
          | (res, f2) => Some (map_libimd_error res, Some f2)
          end
      | (_, f1) => Some (IMDF_ERR_IO, Some f1)
      end
  end.

Definition find_insertion_fuel (imdf : ImdImageFile) : nat :=
  Datatypes.S (length (tracks imdf)).

(** *** [find_insertion_index]: the binary search; [None] when the bound
    on the iterations is exhausted. *)
Fixpoint find_insertion_loop (fuel : nat) (imdf : ImdImageFile) (c hd : Z)
    (low high : Z) : option Z :=
  if low <? high then
    match fuel with
    | O => None
    | Datatypes.S k =>
        let mid := low + (high - low) / 2 in
        if (cyl (track_at imdf mid) <? c)
           || ((cyl (track_at imdf mid) =? c) && (head (track_at imdf mid) <? hd))
        then find_insertion_loop k imdf c hd (mid + 1) high
        else find_insertion_loop k imdf c hd low mid
    end
  else Some low.

Definition find_insertion_index (imdf : ImdImageFile) (c hd : Z) : option Z :=
  find_insertion_loop (find_insertion_fuel imdf) imdf c hd 0 (num_tracks imdf).

Definition get_sector_size_code (sector_size : Z) : option Z :=
  match for_range_exit 0 (Z.to_nat SECTOR_SIZE_LOOKUP_COUNT)
          (fun i (_ : unit) =>
             if arr_get SECTOR_SIZE_LOOKUP i =? sector_size then inr (u8 i)
             else inl tt) tt with
  | inr code => Some code
  | inl _ => None
  end.

Definition geometry_exceeded (imdf : ImdImageFile) (c hd : Z) : bool :=
  (negb (max_cyl imdf =? 0xFF) && (c >? max_cyl imdf))
  || (negb (max_head imdf =? 0xFF) && (hd >? max_head imdf)).

(** *** [imdf_write_sector] *)

(** The normal-base code chosen from the two status macros. *)
Definition normal_code_for (current_sflag_val : Z) : Z :=
  if truthy (IMD_SDR_HAS_DAM current_sflag_val)
     && truthy (IMD_SDR_HAS_ERR current_sflag_val) then IMD_SDR_DELETED_ERR
  else if truthy (IMD_SDR_HAS_ERR current_sflag_val) then IMD_SDR_NORMAL_ERR
  else if truthy (IMD_SDR_HAS_DAM current_sflag_val) then IMD_SDR_NORMAL_DAM
  else IMD_SDR_NORMAL.

(** The loop run after a force-decompress rewrite. *)
Definition mark_track_uncompressed (track : ImdTrackInfo) : ImdTrackInfo :=
  with_sflag track
    (for_range 0 (Z.to_nat (num_sectors track))
       (fun i sf => arr_set sf i (normal_code_for (arr_get sf i)))
       (sflag track)).

(** The prediction made for the edited sector in the other case. *)
Definition predicted_sflag (write_opts : ImdWriteOpts)
    (original_sflag_of_edited_sector : Z) (is_edited_sector_data_uniform : Z) : Z :=
  let was_edited_sector_compressed :=
    IMD_SDR_IS_COMPRESSED original_sflag_of_edited_sector in
  let final_dam :=
    truthy (IMD_SDR_HAS_DAM original_sflag_of_edited_sector)
    && negb (truthy (force_non_deleted write_opts)) in
  let final_err :=
    truthy (IMD_SDR_HAS_ERR original_sflag_of_edited_sector)
    && negb (truthy (force_non_bad write_opts)) in
  let base :=
    if compression_mode write_opts =? IMD_COMPRESSION_FORCE_DECOMPRESS
    then IMD_SDR_NORMAL
    else if compression_mode write_opts =? IMD_COMPRESSION_FORCE_COMPRESS
    then if truthy is_edited_sector_data_uniform
         then IMD_SDR_COMPRESSED else IMD_SDR_NORMAL
    else if was_edited_sector_compressed
    then if truthy is_edited_sector_data_uniform
         then IMD_SDR_COMPRESSED else IMD_SDR_NORMAL
    else if truthy is_edited_sector_data_uniform
            && (compression_mode write_opts =? IMD_COMPRESSION_AS_READ)
    then IMD_SDR_COMPRESSED else IMD_SDR_NORMAL in
  combine_flag base final_dam final_err.

(** [buffer] is [None] for a NULL pointer.  Returns the result code and
    the image as the call leaves it. *)
Definition imdf_write_sector (h : Host) (imdf : ImdImageFile)
    (c hd logical_sector_id : Z) (buffer : option (list Z)) (buffer_size : Z)
    : option (Z * ImdImageFile) :=
  match buffer with
  | None => Some (IMDF_ERR_INVALID_ARG, imdf)
  | Some buf =>
      if truthy (write_protected imdf) then Some (IMDF_ERR_WRITE_PROTECTED, imdf)
      else if geometry_exceeded imdf c hd then Some (IMDF_ERR_GEOMETRY, imdf)
      else
        let track_idx := find_track_index_internal imdf c hd in
        if track_idx <? 0 then Some (IMDF_ERR_NOT_FOUND, imdf)
        else
          let track := track_at imdf track_idx in
          let sector_idx := find_sector_index_internal track logical_sector_id in
          if sector_idx <? 0 then Some (IMDF_ERR_NOT_FOUND, imdf)
          else if negb (max_spt imdf =? 0xFF) && (logical_sector_id >? max_spt imdf)
                  && negb (logical_sector_id =? 0)
          then Some (IMDF_ERR_GEOMETRY, imdf)
          else if negb (buffer_size =? sector_size track)
          then Some (IMDF_ERR_SECTOR_SIZE, imdf)
          else
            match data track with
            | None => Some (IMDF_ERR_LIBIMD_ERR, imdf)
            | Some d =>
                if data_size track
                   <? sector_idx * sector_size track + sector_size track
                then Some (IMDF_ERR_LIBIMD_ERR, imdf)
                else
                  let original_sflag_of_edited_sector :=
                    arr_get (sflag track) sector_idx in
                  let was_edited_sector_compressed :=
                    IMD_SDR_IS_COMPRESSED original_sflag_of_edited_sector in
                  let track1 :=
                    with_data track
                      (Some (buf_write d (sector_idx * sector_size track)
                               (buf_read buf 0 (sector_size track)))) in
                  let imdf1 := set_track imdf track_idx track1 in
                  let track_rewritten_as_uncompressed :=
                    was_edited_sector_compressed
                    && negb (truthy (fst (imd_is_uniform (Some buf)
                                            (sector_size track1) 0))) in
                  let write_opts :=
                    with_compression default_libimdf_write_opts
                      (if track_rewritten_as_uncompressed
                       then IMD_COMPRESSION_FORCE_DECOMPRESS
                       else IMD_COMPRESSION_AS_READ) in
                  '(rewrite_res, f') ← rewrite_image_file h imdf1 track_idx
                                         (Some write_opts);
                  let imdf2 := with_file imdf1 f' in
                  if negb (rewrite_res =? IMDF_ERR_OK) then Some (rewrite_res, imdf2)
                  else if track_rewritten_as_uncompressed then
                    Some (IMDF_ERR_OK,
                          set_track imdf2 track_idx (mark_track_uncompressed track1))
                  else
                    let is_edited_sector_data_uniform :=
                      fst (imd_is_uniform
                             (Some (drop (Z.to_nat (sector_idx * sector_size track1))
                                      (match data track1 with
                                       | Some d1 => d1 | None => [] end)))
                             (sector_size track1) 0) in
                    Some (IMDF_ERR_OK,
                          set_track imdf2 track_idx
                            (with_sflag track1
                               (arr_set (sflag track1) sector_idx
                                  (predicted_sflag write_opts
                                     original_sflag_of_edited_sector
                                     is_edited_sector_data_uniform))))
            end
  end.

(** *** [imdf_write_track] *)

(** The structure at [track_ptr] once its fields, maps and buffer are
    filled in; [inr rc] is the failure of [imd_alloc_track_data]. *)
Definition populate_track (h : Host) (c hd num_sectors sector_size_code
    sector_size fill_byte : Z) (smap_arg cmap_arg hmap_arg : option (list Z))
    : ImdTrackInfo + Z * ImdTrackInfo :=
  let hflag :=
    if num_sectors >? 0 then
      Z.lor (if is_null cmap_arg then 0 else IMD_HFLAG_CMAP_PRES)
            (if is_null hmap_arg then 0 else IMD_HFLAG_HMAP_PRES)
    else 0 in
  let t0 := set_buffer
              (set_header zero_track IMD_MODE_MFM_250 c hd hflag num_sectors
                 sector_size_code sector_size)
              None 0 1 in
  if num_sectors >? 0 then
    match imd_alloc_track_data h t0 with
    | (0, t1) =>
        let d := match data t1 with
                 | Some d => replicate (length d) fill_byte
                 | None => []
                 end in
        let '(sf, sm) :=
          for_range 0 (Z.to_nat num_sectors)
            (fun i '(sf, sm) =>
               (arr_set sf i IMD_SDR_NORMAL,
                arr_set sm i (match smap_arg with
                              | Some m => arr_get m i
                              | None => u8 (i + 1)
                              end)))
            (sflag t1, smap t1) in
        let cm := match cmap_arg with
                  | Some m => memcpy_arr (cmap t1) m num_sectors
                  | None => cmap t1
                  end in
        let hm := match hmap_arg with
                  | Some m => memcpy_arr (hmap t1) m num_sectors
                  | None => hmap t1
                  end in
        inl (with_maps t1 sm cm hm sf (Some d))
    | (alloc_res, t1) => inr (map_libimd_error alloc_res, t1)
    end
  else inl (set_buffer t0 None 0 1).

(** The loop after a successful rewrite. *)
Definition mark_track_compressed (t : ImdTrackInfo) : ImdTrackInfo :=
  with_sflag t
    (for_range 0 (Z.to_nat (num_sectors t))
       (fun i sf => arr_set sf i IMD_SDR_COMPRESSED) (sflag t)).

(** Removal of the entry inserted at [insert_idx] ([cleanup_inserterror]). *)
Definition remove_track (imdf : ImdImageFile) (insert_idx : Z) : ImdImageFile :=
  with_tracks imdf
    (take (Z.to_nat insert_idx) (tracks imdf)
     ++ drop (Datatypes.S (Z.to_nat insert_idx)) (tracks imdf))
    (track_capacity imdf).

(** The three maps are [None] for NULL pointers.  Returns the result code
    and the image as the call leaves it; [None] when the call does not
    terminate. *)
Definition imdf_write_track (h : Host) (imdf : ImdImageFile)
    (c hd num_sectors sector_size fill_byte : Z)
    (smap_arg cmap_arg hmap_arg : option (list Z)) : option (Z * ImdImageFile) :=
  if truthy (write_protected imdf) then Some (IMDF_ERR_WRITE_PROTECTED, imdf)
  else if geometry_exceeded imdf c hd then Some (IMDF_ERR_GEOMETRY, imdf)
  else if (num_sectors >? 0) && is_null smap_arg
          && (negb (is_null cmap_arg) || negb (is_null hmap_arg))
  then Some (IMDF_ERR_INVALID_ARG, imdf)
  else
    match get_sector_size_code sector_size with
    | None => Some (IMDF_ERR_SECTOR_SIZE, imdf)
    | Some sector_size_code =>
        let track_idx_int := find_track_index_internal imdf c hd in
        let existing_track := track_idx_int >=? 0 in
        placed ←
          (if existing_track then
             Some (inl (track_idx_int, set_track imdf track_idx_int zero_track))
           else
             insert_idx ← find_insertion_index imdf c hd;
             let grow := num_tracks imdf >=? track_capacity imdf in
             let new_capacity :=
               if track_capacity imdf =? 0 then IMDF_INITIAL_TRACK_CAPACITY
               else track_capacity imdf * 2 in
             if grow && ((new_capacity <=? track_capacity imdf)
                         || negb (malloc_ok h (new_capacity * SIZEOF_ImdTrackInfo)))
             then Some (inr IMDF_ERR_ALLOC)
             else
               Some (inl (insert_idx,
                          with_tracks imdf
                            (take (Z.to_nat insert_idx) (tracks imdf)
                             ++ zero_track
                             :: drop (Z.to_nat insert_idx) (tracks imdf))
                            (if grow then new_capacity else track_capacity imdf))));
        match placed with
        | inr rc => Some (rc, imdf)
        | inl (insert_idx, imdf1) =>
            let cleanup (im : ImdImageFile) :=
              if existing_track then im else remove_track im insert_idx in
            match populate_track h c hd num_sectors sector_size_code sector_size
                    fill_byte smap_arg cmap_arg hmap_arg with
            | inr (rc, t) => Some (rc, cleanup (set_track imdf1 insert_idx t))
            | inl t =>
                let imdf2 := set_track imdf1 insert_idx t in
                let write_opts :=
                  with_compression default_libimdf_write_opts
                    IMD_COMPRESSION_FORCE_COMPRESS in
                '(rewrite_res, f') ← rewrite_image_file h imdf2 insert_idx
                                       (Some write_opts);
                let imdf3 := with_file imdf2 f' in
                if negb (rewrite_res =? IMDF_ERR_OK)
                then Some (rewrite_res, cleanup imdf3)
                else
                  Some (IMDF_ERR_OK,
                        if num_sectors >? 0
                        then set_track imdf3 insert_idx (mark_track_compressed t)
                        else imdf3)
            end
        end
    end.

(** *** [imdf_open] *)

(** The track-reading loop; [fuel] bounds the number of tracks. *)
Fixpoint open_tracks (h : Host) (fuel : nat) (f : FILE) (ts : list ImdTrackInfo)
    (capacity : Z) : option (Z * FILE * list ImdTrackInfo * Z) :=
  match fuel with
  | O => None
  | Datatypes.S k =>
      let grow := Z.of_nat (length ts) >=? capacity in
      let new_capacity := capacity * 2 in
      if grow && ((new_capacity <=? capacity)
                  || negb (malloc_ok h (new_capacity * SIZEOF_ImdTrackInfo)))
      then Some (IMDF_ERR_ALLOC, f, ts, capacity)
      else
        let capacity := if grow then new_capacity else capacity in
        match imd_load_track h f zero_track LIBIMD_FILL_BYTE_DEFAULT with
        | (1, f', t) => open_tracks h k f' (ts ++ [t]) capacity
        | (0, f', _) => Some (IMDF_ERR_OK, f', ts, capacity)
        | (libimd_err, f', _) => Some (map_libimd_error libimd_err, f', ts, capacity)
        end
  end.

(** [file] is the stream [fopen] returns for [path] ([None] when it
    fails).  Returns the result code and the handle stored in
    [*imdf_out]. *)
Definition imdf_open (h : Host) (path : list Z) (file : option FILE)
    (read_only : Z) : option (Z * option ImdImageFile) :=
  match file with
  | None => Some (IMDF_ERR_CANNOT_OPEN, None)
  | Some f =>
      if negb (malloc_ok h SIZEOF_ImdImageFile) then Some (IMDF_ERR_ALLOC, None)
      else if negb (malloc_ok h (Z.of_nat (length path) + 1))
      then Some (IMDF_ERR_ALLOC, None)
      else
        let protect := if truthy read_only then 1 else 0 in
        match imd_read_file_header h (Some f) true None with
        | (0, Some f1, Some hi, _) =>
            read ← imd_read_comment_block h f1;
            match read with
            | (None, f2) =>
                Some (if f_error f2 then IMDF_ERR_IO
                      else IMDF_ERR_LIBIMD_ERR, None)
            | (Some cmt, f2) =>
                if negb (malloc_ok h (IMDF_INITIAL_TRACK_CAPACITY * SIZEOF_ImdTrackInfo))
                then Some (IMDF_ERR_ALLOC, None)
                else
                  loaded ← open_tracks h (Datatypes.S (length (f_content f2))) f2 []
                             IMDF_INITIAL_TRACK_CAPACITY;
                  match loaded with
                  | (0, f3, ts, capacity) =>
                      Some (IMDF_ERR_OK,
                            Some (mkImage (Some f3) path protect protect hi
                                    (Some cmt) (Z.of_nat (length cmt)) ts
                                    capacity 0xFF 0xFF 0xFF))
                  | (rc, _, _, _) => Some (rc, None)
                  end
            end
        | (libimd_err, _, _, _) => Some (map_libimd_error libimd_err, None)
        end
  end.

(** ** libimdchk.h / libimdchk.c: the consistency scanner *)

Definition CHECK_BIT_HEADER : Z := 0x00000001.
Definition CHECK_BIT_COMMENT_TERM : Z := 0x00000002.
Definition CHECK_BIT_TRACK_READ : Z := 0x00000004.
Definition CHECK_BIT_FTELL : Z := 0x00000008.
Definition CHECK_BIT_CON_CYL : Z := 0x00000010.
Definition CHECK_BIT_CON_HEAD : Z := 0x00000020.
Definition CHECK_BIT_CON_SECTORS : Z := 0x00000040.
Definition CHECK_BIT_DUPE_SID : Z := 0x00000200.
Definition CHECK_BIT_INV_SFLAG_VALUE : Z := 0x00000400.
Definition CHECK_BIT_SEQ_CYL_DEC : Z := 0x00000080.
Definition CHECK_BIT_SEQ_HEAD_ORDER : Z := 0x00000100.
Definition CHECK_BIT_SFLAG_DATA_ERR : Z := 0x00000800.
Definition CHECK_BIT_SFLAG_DEL_DAM : Z := 0x00001000.
Definition CHECK_BIT_DIFF_MAX_CYL : Z := 0x00002000.

Definition DEFAULT_ERROR_MASK : Z :=
  Z.lor CHECK_BIT_HEADER (Z.lor CHECK_BIT_COMMENT_TERM (Z.lor CHECK_BIT_TRACK_READ
    (Z.lor CHECK_BIT_FTELL (Z.lor CHECK_BIT_CON_CYL (Z.lor CHECK_BIT_CON_HEAD
      (Z.lor CHECK_BIT_CON_SECTORS (Z.lor CHECK_BIT_DUPE_SID
         CHECK_BIT_INV_SFLAG_VALUE))))))).

Record ImdChkOptions := mkChkOptions {
  error_mask : Z;
  max_allowed_cyl : Z;
  required_head : Z;
  max_allowed_sectors : Z
}.

Record ImdChkResults := mkChkResults {
  check_failures_mask : Z;
  total_sector_count : Z;
  unavailable_sector_count : Z;
  deleted_sector_count : Z;
  compressed_sector_count : Z;
  data_error_sector_count : Z;
  track_read_count : Z;
  max_cyl_side0 : Z;
  max_cyl_side1 : Z;
  max_head_seen : Z;
  detected_interleave : Z
}.

(** [results->check_failures_mask |= bit]. *)
Definition raise_bit (r : ImdChkResults) (bit : Z) : ImdChkResults :=
  mkChkResults (Z.lor (check_failures_mask r) bit) (total_sector_count r)
    (unavailable_sector_count r) (deleted_sector_count r)
    (compressed_sector_count r) (data_error_sector_count r)
    (track_read_count r) (max_cyl_side0 r) (max_cyl_side1 r) (max_head_seen r)
    (detected_interleave r).

Definition with_counts (r : ImdChkResults) (total unavailable deleted
    compressed data_error : Z) : ImdChkResults :=
  mkChkResults (check_failures_mask r) total unavailable deleted compressed
    data_error (track_read_count r) (max_cyl_side0 r) (max_cyl_side1 r)
    (max_head_seen r) (detected_interleave r).

Definition with_summary (r : ImdChkResults) (count side0 side1 max_head
    interleave : Z) : ImdChkResults :=
  mkChkResults (check_failures_mask r) (total_sector_count r)
    (unavailable_sector_count r) (deleted_sector_count r)
    (compressed_sector_count r) (data_error_sector_count r)
    count side0 side1 max_head interleave.

(** The results after the initialisation at the start of the scan. *)
Definition initial_results : ImdChkResults :=
  mkChkResults 0 0 0 0 0 0 0 (-1) (-1) (-1) (-1).

(** [seen_ids] is the 32-byte bit set of the IDs met so far. *)
Definition SEEN_GET (seen_ids : list Z) (id : Z) : Z :=
  Z.land (arr_get seen_ids (id / 8)) (Z.shiftl 1 (Z.rem id 8)).

Definition SEEN_SET (seen_ids : list Z) (id : Z) : list Z :=
  arr_set seen_ids (id / 8)
    (u8 (Z.lor (arr_get seen_ids (id / 8)) (Z.shiftl 1 (Z.rem id 8)))).

Definition check_smap_consistency_internal (track : ImdTrackInfo)
    (results : ImdChkResults) : ImdChkResults :=
  if num_sectors track <=? 1 then results
  else
    snd (for_range 0 (Z.to_nat (num_sectors track))
           (fun i '(seen_ids, res) =>
              let current_id := arr_get (smap track) i in
              if truthy (SEEN_GET seen_ids current_id)
              then (seen_ids, raise_bit res CHECK_BIT_DUPE_SID)
              else (SEEN_SET seen_ids current_id, res))
           (replicate 32 0, results)).

Definition check_sflag_consistency_and_stats_internal (track : ImdTrackInfo)
    (results : ImdChkResults) : ImdChkResults :=
  let results :=
    with_counts results (total_sector_count results + num_sectors track)
      (unavailable_sector_count results) (deleted_sector_count results)
      (compressed_sector_count results) (data_error_sector_count results) in
  if num_sectors track =? 0 then results
  else
    let '(res, data_error_found, deleted_dam_found) :=
      for_range 0 (Z.to_nat (num_sectors track))
        (fun i '(res, data_error_found, deleted_dam_found) =>
           let flag := arr_get (sflag track) i in
           let res := if flag >? IMD_SDR_COMPRESSED_DEL_ERR
                      then raise_bit res CHECK_BIT_INV_SFLAG_VALUE else res in
           if negb (IMD_SDR_HAS_DATA flag) then
             (with_counts res (total_sector_count res)
                (unavailable_sector_count res + 1) (deleted_sector_count res)
                (compressed_sector_count res) (data_error_sector_count res),
              data_error_found, deleted_dam_found)
           else
             let dam := truthy (IMD_SDR_HAS_DAM flag) in
             let err := truthy (IMD_SDR_HAS_ERR flag) in
             (with_counts res (total_sector_count res)
                (unavailable_sector_count res)
                (deleted_sector_count res + (if dam then 1 else 0))
                (compressed_sector_count res
                 + (if IMD_SDR_IS_COMPRESSED flag then 1 else 0))
                (data_error_sector_count res + (if err then 1 else 0)),
              data_error_found || err, deleted_dam_found || dam))
        (results, false, false) in
    let res := if data_error_found
               then raise_bit res CHECK_BIT_SFLAG_DATA_ERR else res in
    if deleted_dam_found then raise_bit res CHECK_BIT_SFLAG_DEL_DAM else res.

(** [for (i = 1; i < num_sectors; ++i) if (smap[i] == id) { pos = i; break; }] *)
Definition find_from_one (smap : list Z) (num_sectors id : Z) : Z :=
  match for_range_exit 1 (Z.to_nat (num_sectors - 1))
          (fun i (_ : unit) => if arr_get smap i =? id then inr i else inl tt)
          tt with
  | inr i => i
  | inl _ => -1
  end.

Definition determine_interleave_internal (smap : list Z) (num_sectors : Z) : Z :=
  if num_sectors <? 2 then 1
  else
    let first_sector_id := arr_get smap 0 in
    let next_logical_id := if first_sector_id =? 0 then 1
                           else u8 (first_sector_id + 1) in
    let physical_pos_next := find_from_one smap num_sectors next_logical_id in
    if physical_pos_next =? -1 then
      let wrap_around_id :=
        if first_sector_id >? 1 then
          for_range 0 (Z.to_nat num_sectors)
            (fun i min_id => if arr_get smap i <? min_id then arr_get smap i
                             else min_id) 255
        else if first_sector_id =? 0 then 0 else 1 in
      let physical_pos_next := find_from_one smap num_sectors wrap_around_id in
      if physical_pos_next =? -1 then 0 else physical_pos_next
    else physical_pos_next.

(** The variables of the track loop of [imdchk_check_file]. *)
Record ScanState := mkScan {
  sc_file : FILE;
  sc_results : ImdChkResults;
  last_cyl : Z;
  last_head : Z;
  first_track : Z
}.

Definition with_results (s : ScanState) (f : FILE) (r : ImdChkResults) : ScanState :=
  mkScan f r (last_cyl s) (last_head s) (first_track s).

(** The head-order test of the sequence check. *)
Definition head_out_of_order (track : ImdTrackInfo) (last_cyl last_head : Z) : bool :=
  (cyl track =? last_cyl) && (head track <=? last_head)
  && negb ((head track =? 0) && (last_head >? 0)).

(** One iteration of the [while (1)] loop: [inl] is [continue] (or the
    end of the body), [inr] is [break]. *)
Definition scan_track (options : ImdChkOptions) (s : ScanState)
    : ScanState + ScanState :=
  let f := sc_file s in
  let results := sc_results s in
  let track_start_pos := ftell f in
  if track_start_pos <? 0 then
    let results := raise_bit results CHECK_BIT_FTELL in
    if truthy (Z.land (error_mask options) CHECK_BIT_FTELL)
    then inr (with_results s f results)
    else inl (with_results s f results)
  else
    match imd_read_track_header_and_flags f zero_track with
    | (0, f1, _) => inr (with_results s f1 results)
    | (result, f1, track) =>
        if result <? 0 then
          let results := raise_bit results CHECK_BIT_TRACK_READ in
          if truthy (Z.land (error_mask options) CHECK_BIT_TRACK_READ)
          then inr (with_results s f1 results)
          else inl (with_results s f1 results)
        else
          let results :=
            with_summary results (track_read_count results + 1)
              (max_cyl_side0 results) (max_cyl_side1 results)
              (max_head_seen results) (detected_interleave results) in
          let c1 := negb (max_allowed_cyl options =? -1)
                    && (cyl track >? max_allowed_cyl options) in
          let c2 := negb (required_head options =? -1)
                    && negb (head track =? required_head options) in
          let c3 := negb (max_allowed_sectors options =? -1)
                    && (num_sectors track >? max_allowed_sectors options) in
          let results := if c1 then raise_bit results CHECK_BIT_CON_CYL else results in
          let results := if c2 then raise_bit results CHECK_BIT_CON_HEAD else results in
          let results := if c3 then raise_bit results CHECK_BIT_CON_SECTORS
                         else results in
          let constraint_failed := c1 || c2 || c3 in
          if constraint_failed
             && truthy (Z.land (error_mask options)
                          (Z.lor CHECK_BIT_CON_CYL
                             (Z.lor CHECK_BIT_CON_HEAD CHECK_BIT_CON_SECTORS)))
          then inl (with_results s f1 results)
          else
            let side0 := if (head track =? 0) && (cyl track >? max_cyl_side0 results)
                         then cyl track else max_cyl_side0 results in
            let side1 := if negb (head track =? 0) && (head track =? 1)
                            && (cyl track >? max_cyl_side1 results)
                         then cyl track else max_cyl_side1 results in
            let max_head := if head track >? max_head_seen results
                            then head track else max_head_seen results in
            let interleave :=
              if (detected_interleave results =? -1) && (num_sectors track >? 0)
              then determine_interleave_internal (smap track) (num_sectors track)
              else detected_interleave results in
            let results := with_summary results (track_read_count results)
                             side0 side1 max_head interleave in
            let checked :=
              if negb (truthy (first_track s)) then
                let results := if cyl track <? last_cyl s
                               then raise_bit results CHECK_BIT_SEQ_CYL_DEC
                               else results in
                let results := if head_out_of_order track (last_cyl s) (last_head s)
                               then raise_bit results CHECK_BIT_SEQ_HEAD_ORDER
                               else results in
                (results,
                 truthy (Z.land (Z.land (error_mask options)
                                   (Z.lor CHECK_BIT_SEQ_CYL_DEC
                                      CHECK_BIT_SEQ_HEAD_ORDER))
                           (check_failures_mask results)))
              else (results, false) in
            let '(results, skip) := checked in
            if skip then inl (with_results s f1 results)
            else
              let results := check_smap_consistency_internal track results in
              if truthy (Z.land (Z.land (error_mask options) CHECK_BIT_DUPE_SID)
                           (check_failures_mask results))
              then inl (mkScan f1 results (cyl track) (head track) 0)
              else
                let results :=
                  check_sflag_consistency_and_stats_internal track results in
                inl (mkScan f1 results (cyl track) (head track) 0)
    end.

(** The [while (1)] loop with a bound on its iterations. *)
Fixpoint scan_loop (fuel : nat) (options : ImdChkOptions) (s : ScanState)
    : option ScanState :=
  match fuel with
  | O => None
  | Datatypes.S k =>
      match scan_track options s with
      | inl s' => scan_loop k options s'
      | inr s' => Some s'
      end
  end.

(** [file] is the stream [fopen (filename, "rb")] returns ([None] when it
    fails).  Returns the C result and the results structure; [None] when
    the track loop runs more than [fuel] times. *)
Definition imdchk_check_file (h : Host) (fuel : nat) (file : option FILE)
    (options : ImdChkOptions) : option (Z * ImdChkResults) :=
  let results := initial_results in
  match file with
  | None => Some (-1, results)
  | Some f_imd =>
      let '(result, f1, _, _) := imd_read_file_header h (Some f_imd) true None in
      let f1 := match f1 with Some f => f | None => f_imd end in
      let results := if negb (result =? 0)
                     then raise_bit results CHECK_BIT_HEADER else results in
      if negb (result =? 0) && truthy (Z.land (error_mask options) CHECK_BIT_HEADER)
      then Some (-1, results)
      else
        '(result, f2) ← imd_skip_comment_block f1;
        let results := if negb (result =? 0)
                       then raise_bit results CHECK_BIT_COMMENT_TERM else results in
        if negb (result =? 0)
           && truthy (Z.land (error_mask options) CHECK_BIT_COMMENT_TERM)
        then Some (-1, results)
        else
          s ← scan_loop fuel options (mkScan f2 results 0 1 1);
          let results := sc_results s in
          let results :=
            if (max_head_seen results >? 0)
               && negb (max_cyl_side0 results =? -1)
               && negb (max_cyl_side1 results =? -1)
               && negb (max_cyl_side0 results =? max_cyl_side1 results)
            then raise_bit results CHECK_BIT_DIFF_MAX_CYL else results in
          Some (0, results)
  end.

(** ** Predicates used in the statements *)

(** The first [n] sector IDs strictly ascend in physical order. *)
Definition ascending_ids (n : Z) (ids : list Z) : Prop :=
  forall i j, 0 <= i -> i < j -> j < n -> arr_get ids i < arr_get ids j.

(** The version field of a header line, read off the text: after the
    three letters and the white space that follows them, the characters
    up to the first colon, at most 31 of them. *)
Definition version_token (line : list Z) : list Z :=
  take 31 (span_while (fun c => negb (c =? lit_colon)) (skip_space (drop 3 line))).

(** The ranges of the date and time fields: month 1-12, day 1-31,
    hour 0-23, minute 0-59, second 0-59. *)
Definition date_time_in_range (hi : ImdHeaderInfo) : Prop :=
  1 <= month hi <= 12 /\ 1 <= day hi <= 31 /\ 0 <= hour hi <= 23
  /\ 0 <= minute hi <= 59 /\ 0 <= second hi <= 59.

(** All six date and time fields are zero. *)
Definition date_time_zeroed (hi : ImdHeaderInfo) : Prop :=
  day hi = 0 /\ month hi = 0 /\ year hi = 0
  /\ hour hi = 0 /\ minute hi = 0 /\ second hi = 0.

(** The stream holds the bytes [bs] at its position and no device error
    is raised while they are read. *)
Definition holds_at (f : FILE) (bs : list Z) : Prop :=
  0 <= f_pos f /\
  buf_read (f_content f) (f_pos f) (Z.of_nat (length bs)) = bs /\
  (forall k, f_read_fault f = Some k -> f_pos f + Z.of_nat (length bs) <= k).

(** ** What a track write leaves in the stream *)

(** The content of a regular file after the bytes [bs] were stored one
    after the other from position [p] on. *)
Fixpoint write_at (content : list Z) (p : Z) (bs : list Z) : list Z :=
  match bs with
  | [] => content
  | b :: bs' => write_at (store_byte content p b) (p + 1) bs'
  end.

(** The stream [f'] is the stream [f] after the bytes [bs] were written
    to it. *)
Definition wrote (f f' : FILE) (bs : list Z) : Prop :=
  f_content f' = write_at (f_content f) (f_pos f) bs
  /\ f_pos f' = f_pos f + Z.of_nat (length bs).

(** The bytes of sector [i] in the data buffer of a track. *)
Definition sector_bytes (t : ImdTrackInfo) (i : Z) : list Z :=
  match data t with
  | Some d => buf_read d (i * sector_size t) (sector_size t)
  | None => []
  end.

(** All the bytes are equal. *)
Definition uniform (bs : list Z) : Prop :=
  forall x y, x ∈ bs -> y ∈ bs -> x = y.

(** The five header bytes of a track record. *)
Definition header_bytes (final_mode : Z) (t : ImdTrackInfo) : list Z :=
  [final_mode; cyl t; Z.lor (head t) (hflag t); num_sectors t; sector_size_code t].

(** The maps of a track record: the sector map, then the cylinder and
    head maps when the head byte announces them. *)
Definition map_bytes (t : ImdTrackInfo) : list Z :=
  if num_sectors t >? 0 then
    buf_read (smap t) 0 (num_sectors t)
    ++ (if truthy (Z.land (hflag t) IMD_HFLAG_CMAP_PRES)
        then buf_read (cmap t) 0 (num_sectors t) else [])
    ++ (if truthy (Z.land (hflag t) IMD_HFLAG_HMAP_PRES)
        then buf_read (hmap t) 0 (num_sectors t) else [])
  else [].

(** One Sector Data Record: the flag, then nothing, the fill byte or the
    bytes of the sector. *)
Definition record_bytes (t : ImdTrackInfo) (final_sflag : list Z) (i : Z) : list Z :=
  let write_flag := arr_get final_sflag i in
  write_flag ::
    (if IMD_SDR_HAS_DATA write_flag then
       if IMD_SDR_IS_COMPRESSED write_flag
       then [snd (imd_is_uniform (sector_pointer t i) (sector_size t) 0)]
       else if sector_size t >? 0 then
              match sector_pointer t i with
              | Some p => buf_read p 0 (sector_size t)
              | None => []
              end
            else []
     else []).

(** The records of the sectors [start .. start + count - 1]. *)
Fixpoint records_from (t : ImdTrackInfo) (final_sflag : list Z) (start : Z)
    (count : nat) : list Z :=
  match count with
  | O => []
  | Datatypes.S k =>
      record_bytes t final_sflag start ++ records_from t final_sflag (start + 1) k
  end.

(** The whole track record, as the values handed to [fputc] and
    [fwrite]. *)
Definition track_bytes (final_mode : Z) (t : ImdTrackInfo) (final_sflag : list Z)
    : list Z :=
  header_bytes final_mode t ++ map_bytes t
  ++ records_from t final_sflag 0 (Z.to_nat (num_sectors t)).

(** ** Sectors of a track *)

(** Everything a track holds about the sector in physical slot [q]: its
    ID, cylinder and head map entries, its flag and its bytes. *)
Definition track_sector (t : ImdTrackInfo) (q : Z) : Z * Z * Z * Z * list Z :=
  (arr_get (smap t) q, arr_get (cmap t) q, arr_get (hmap t) q,
   arr_get (sflag t) q, sector_bytes t q).

(** The same for the state of the placement loop of
    [imd_apply_interleave]. *)
Definition placed_sector (st : Placement) (size q : Z) : Z * Z * Z * Z * list Z :=
  (arr_get (p_smap st) q, arr_get (p_cmap st) q, arr_get (p_hmap st) q,
   arr_get (p_sflag st) q, buf_read (p_data st) (q * size) size).

(** No earlier sector of the track carries the ID of sector [src]. *)
Definition first_with_id (t : ImdTrackInfo) (src : Z) : Prop :=
  forall m, 0 <= m < src -> arr_get (smap t) m <> arr_get (smap t) src.

(** The two tracks agree on everything but the maps, flags and data. *)
Definition same_header (t t' : ImdTrackInfo) : Prop :=
  mode t' = mode t /\ cyl t' = cyl t /\ head t' = head t /\ hflag t' = hflag t
  /\ num_sectors t' = num_sectors t /\ sector_size_code t' = sector_size_code t
  /\ sector_size t' = sector_size t /\ data_size t' = data_size t
  /\ loaded t' = loaded t.

(** ** The order of the tracks of an image *)

Definition track_key (t : ImdTrackInfo) : Z * Z := (cyl t, head t).

(** (cyl, head) pairs compared lexicographically. *)
Definition key_lt (a b : Z * Z) : Prop :=
  a.1 < b.1 \/ (a.1 = b.1 /\ a.2 < b.2).

(** The track sequence is strictly sorted by (cyl, head) ascending. *)
Definition tracks_sorted (ts : list ImdTrackInfo) : Prop :=
  StronglySorted key_lt (map track_key ts).

(** ** The sequence check of the scanner, read off the file *)

(** The head-order test between a track and the track before it: same
    cylinder, a head that does not exceed the previous head, and not a
    return to head 0 from a higher head. *)
Definition head_order_violation (prev cur : ImdTrackInfo) : Prop :=
  cyl cur = cyl prev /\ head cur <= head prev
  /\ ~ (head cur = 0 /\ head prev > 0).

(** The tracks [imd_read_track_header_and_flags] reads one after the
    other from the stream, up to the first call that does not succeed
    (at most [fuel] of them). *)
Fixpoint scanned_tracks (fuel : nat) (f : FILE) : list ImdTrackInfo :=
  match fuel with
  | O => []
  | Datatypes.S k =>
      if ftell f <? 0 then []
      else
        match imd_read_track_header_and_flags f zero_track with
        | (result, f1, track) =>
            if result <=? 0 then [] else track :: scanned_tracks k f1
        end
  end.

(** The same, from the stream as the header line and the comment leave
    it. *)
Definition tracks_after_prologue (h : Host) (fuel : nat) (file : FILE)
    : list ImdTrackInfo :=
  let '(_, f1, _, _) := imd_read_file_header h (Some file) true None in
  let f1 := match f1 with Some f => f | None => file end in
  match imd_skip_comment_block f1 with
  | Some (_, f2) => scanned_tracks fuel f2
  | None => []
  end.

(** Some track of the list is out of order with the track before it,
    [prev] standing before the first one. *)
Fixpoint violation_from (prev : option ImdTrackInfo) (ts : list ImdTrackInfo)
    : Prop :=
  match ts with
  | [] => False
  | t :: rest =>
      match prev with
      | Some p => head_order_violation p t
      | None => False
      end
      \/ violation_from (Some t) rest
  end.

(** No track is skipped for a command-line constraint: no constraint is
    set, or none of the three constraint bits is in the error mask. *)
Definition no_constraint_skips (options : ImdChkOptions) : Prop :=
  (max_allowed_cyl options = -1 /\ required_head options = -1
   /\ max_allowed_sectors options = -1)
  \/ Z.land (error_mask options)
       (Z.lor CHECK_BIT_CON_CYL (Z.lor CHECK_BIT_CON_HEAD CHECK_BIT_CON_SECTORS))
     = 0.

(** The SeqHeadOrder bit of the failures mask. *)
Definition head_order_bit (r : ImdChkResults) : Z :=
  Z.land (check_failures_mask r) CHECK_BIT_SEQ_HEAD_ORDER.

(** What the variables of the track loop remember of the tracks read so
    far, the last of which is [prev]. *)
Definition scan_remembers (s : ScanState) (prev : option ImdTrackInfo) : Prop :=
  head_order_bit (sc_results s) <> 0
  \/ (first_track s <> 0 /\ prev = None)
  \/ (first_track s = 0
      /\ exists p, prev = Some p /\ last_cyl s = cyl p /\ last_head s = head p).

(** What one pass of the bubble sort over the slots [0 .. m] establishes. *)
Record pass_result (m : Z) (s s' : list Z) : Prop := {
  pr_length : length s' = length s;
  pr_perm : s' ≡ₚ s;
  pr_above : forall k, m < k -> arr_get s' k = arr_get s k;
  pr_from : forall k, 0 <= k <= m -> exists q, 0 <= q <= m /\ arr_get s' k = arr_get s q;
  pr_max : forall k, 0 <= k <= m -> arr_get s' k <= arr_get s' m
}.

(** What the whole bubble sort establishes on the first [n] slots. *)
Record sort_result (n : Z) (s s' : list Z) : Prop := {
  sr_length : length s' = length s;
  sr_perm : s' ≡ₚ s;
  sr_above : forall k, n <= k -> arr_get s' k = arr_get s k;
  sr_ordered : forall p q, 0 <= p -> p < q -> q < n -> arr_get s' p <= arr_get s' q
}.

(** ** Best-guess interleave detection, as the specification words it *)

(** [pos[logical_id] = physical_index], where a later duplicate overwrites
    an earlier entry: the entry of an ID is the last index that holds it. *)
Fixpoint spec_pos (ids : list Z) (id : Z) : option nat :=
  match ids with
  | [] => None
  | x :: rest =>
      match spec_pos rest id with
      | Some i => Some (Datatypes.S i)
      | None => if x =? id then Some 0%nat else None
      end
  end.

(** The consecutive pairs of the sorted list, including the wrap
    (last, first). *)
Definition spec_pairs (sorted : list Z) : list (Z * Z) :=
  zip sorted (drop 1 sorted ++ take 1 sorted).

(** The forward distance from [pos[a]] to [pos[b]] modulo [n]. *)
Definition spec_distance (n : Z) (ids : list Z) (a b : Z) : option Z :=
  match spec_pos ids a, spec_pos ids b with
  | Some pa, Some pb => Some ((Z.of_nat pb - Z.of_nat pa) mod n)
  | _, _ => None
  end.

(** The tally of the distance [d] over the pairs of the IDs sorted
    ascending. *)
Definition spec_tally (ids : list Z) (d : Z) : Z :=
  let n := Z.of_nat (length ids) in
  Z.of_nat (length (filter (fun p => spec_distance n ids p.1 p.2 = Some d)
                           (spec_pairs (merge_sort Z.le ids)))).

(** [r] is the distance in 1..n-1 with the highest tally, the smallest
    such distance when several share it. *)
Definition highest_tally (ids : list Z) (r : Z) : Prop :=
  let n := Z.of_nat (length ids) in
  1 <= r < n /\
  forall d, 1 <= d < n ->
    spec_tally ids d <= spec_tally ids r
    /\ (spec_tally ids d = spec_tally ids r -> r <= d).

(** ** Concrete inputs used by the examples *)

(** A host on which every allocation succeeds, the clock reads
    01/01/2025 00:00:00 and out-of-range numerals are stored as they are. *)
Definition host_ok : Host :=
  mkHost (fun _ => true) (Some (bytes_of_string "01/01/2025 00:00:00"))
         (fun z => z).

(** A regular file with the given content, positioned at its start. *)
Definition file_of (content : list Z) : FILE :=
  mkFILE content 0 false None None true true true.

(** A stream with the given content that cannot tell its position (a
    pipe): [ftell] fails on it. *)
Definition pipe_of (content : list Z) : FILE :=
  mkFILE content 0 false None None false true true.

(** A 256-entry array whose first entries are [l]. *)
Definition array_of (l : list Z) : list Z := l ++ replicate (256 - length l) 0.

(** A loaded track of 128-byte sectors at cylinder [c], head [hd], with
    the given sector IDs, sector flags and data, and no cylinder or head
    map in the file (so both maps hold the defaults). *)
Definition track_of (c hd : Z) (ids flags data : list Z) : ImdTrackInfo :=
  mkTrack IMD_MODE_MFM_250 c hd 0 (Z.of_nat (length ids)) 0 128
          (array_of ids)
          (array_of (replicate (length ids) c))
          (array_of (replicate (length ids) hd))
          (array_of flags)
          (Some data) (Z.of_nat (length data)) 1.

(** The header line and comment of a small image file. *)
Definition image_prologue : list Z :=
  bytes_of_string "IMD 1.19: 01/01/2025 00:00:00" ++ [13; 10]
  ++ bytes_of_string "test" ++ [LIBIMD_COMMENT_EOF_MARKER].

(** A track record with one compressed 128-byte sector of ID 1. *)
Definition one_sector_record (c hd fill : Z) : list Z :=
  [IMD_MODE_MFM_250; c; hd; 1; 0; 1; IMD_SDR_COMPRESSED; fill].

(** Boolean versions of [wf_track] and [loaded_track]. *)
Definition is_byteb (z : Z) : bool := (0 <=? z) && (z <=? 255).

Definition byte_arrayb (a : list Z) : bool :=
  (length a =? 256)%nat && forallb is_byteb a.

Definition wf_trackb (t : ImdTrackInfo) : bool :=
  is_byteb (mode t) && is_byteb (cyl t) && is_byteb (head t)
  && is_byteb (hflag t) && is_byteb (num_sectors t)
  && is_byteb (sector_size_code t)
  && (0 <=? sector_size t) && (sector_size t <? 2 ^ 32)
  && byte_arrayb (smap t) && byte_arrayb (cmap t) && byte_arrayb (hmap t)
  && byte_arrayb (sflag t) && (0 <=? data_size t).

Definition loaded_trackb (t : ImdTrackInfo) : bool :=
  wf_trackb t && (loaded t =? 1) && (0 <? sector_size t)
  && (data_size t =? num_sectors t * sector_size t)
  && match data t with
     | Some d => (Z.of_nat (length d) =? data_size t) && forallb is_byteb d
     | None => num_sectors t =? 0
     end.

(** Two sectors with IDs 1, 2 in physical order. *)
Definition ascending_track : ImdTrackInfo :=
  track_of 0 0 [1; 2] [IMD_SDR_NORMAL; IMD_SDR_NORMAL]
    (replicate 128 0xAA ++ replicate 128 0xBB).

(** An open, writable image without geometry limits whose stream holds
    [content] and whose track array holds [ts]. *)
Definition image_of (content : list Z) (ts : list ImdTrackInfo) : ImdImageFile :=
  mkImage (Some (file_of content)) (bytes_of_string "a.imd") 0 0
          (mkHeader (bytes_of_string "1.19") 1 1 2025 0 0 0)
          (Some (bytes_of_string "test")) 4 ts IMDF_INITIAL_TRACK_CAPACITY
          0xFF 0xFF 0xFF.

(** A track whose sector 1 is compressed and whose sector 2 is
    unavailable, and the image that holds just this track. *)
Definition compressed_unavailable_track : ImdTrackInfo :=
  track_of 0 0 [1; 2] [IMD_SDR_COMPRESSED; IMD_SDR_UNAVAILABLE]
    (replicate 256 0xE5).

Definition compressed_unavailable_image : ImdImageFile :=
  image_of (image_prologue
            ++ [IMD_MODE_MFM_250; 0; 0; 2; 0; 1; 2;
                IMD_SDR_COMPRESSED; 0xE5; IMD_SDR_UNAVAILABLE])
           [compressed_unavailable_track].

(** A sector's worth of data that is not uniform. *)
Definition mixed_sector : list Z := [1; 2] ++ replicate 126 0.

(** Write options: force-compress; interleave factor 1; and every option
    at once (force-compress, both status bits forced off, interleave 2). *)
Definition force_compress_opts : ImdWriteOpts :=
  with_compression default_libimdf_write_opts IMD_COMPRESSION_FORCE_COMPRESS.

Definition interleave_one_opts : ImdWriteOpts :=
  mkOpts IMD_COMPRESSION_AS_READ 0 0 [0; 1; 2; 3; 4; 5] 1.

Definition all_forcing_opts : ImdWriteOpts :=
  mkOpts IMD_COMPRESSION_FORCE_COMPRESS 1 1 [0; 1; 2; 3; 4; 5] 2.

(** A uniform sector followed by a sector that is not. *)
Definition uniform_mixed_track : ImdTrackInfo :=
  track_of 0 0 [1; 2] [IMD_SDR_NORMAL; IMD_SDR_NORMAL]
    (replicate 128 0xE5 ++ mixed_sector).

(** The same data under two unavailable sectors. *)
Definition unavailable_pair_track : ImdTrackInfo :=
  track_of 0 0 [1; 2] [IMD_SDR_UNAVAILABLE; IMD_SDR_UNAVAILABLE]
    (replicate 128 0xE5 ++ mixed_sector).

(** Two sectors with the same ID, the second unavailable. *)
Definition duplicate_id_track : ImdTrackInfo :=
  track_of 0 0 [1; 1] [IMD_SDR_NORMAL; IMD_SDR_UNAVAILABLE]
    (mixed_sector ++ replicate 128 0xE5).

(** Three sectors, the one with ID 2 unavailable. *)
Definition middle_unavailable_track : ImdTrackInfo :=
  track_of 0 0 [1; 2; 3]
    [IMD_SDR_NORMAL_ERR; IMD_SDR_UNAVAILABLE; IMD_SDR_COMPRESSED_DAM]
    (mixed_sector ++ replicate 128 0xE5 ++ replicate 128 0).

(** An image with the tracks (0, 0) and (1, 0), each of one compressed
    sector. *)
Definition two_track_image : ImdImageFile :=
  image_of (image_prologue ++ one_sector_record 0 0 0xE5
            ++ one_sector_record 1 0 0xE5)
           [track_of 0 0 [1] [IMD_SDR_COMPRESSED] (replicate 128 0xE5);
            track_of 1 0 [1] [IMD_SDR_COMPRESSED] (replicate 128 0xE5)].

(** An image file whose track records are in the order (1, 0), (0, 0). *)
Definition unsorted_image_file : FILE :=
  file_of (image_prologue ++ one_sector_record 1 0 0xE5
           ++ one_sector_record 0 0 0xE5).

(** The scanner options with the default error mask and no constraint. *)
Definition default_chk_options : ImdChkOptions :=
  mkChkOptions DEFAULT_ERROR_MASK (-1) (-1) (-1).

(** Image files with two track records: (0, 0) twice, and (0, 1) followed
    by (0, 0). *)
Definition repeated_track_file : FILE :=
  file_of (image_prologue ++ one_sector_record 0 0 0xE5
           ++ one_sector_record 0 0 0xE5).

Definition head_one_then_zero_file : FILE :=
  file_of (image_prologue ++ one_sector_record 0 1 0xE5
           ++ one_sector_record 0 0 0xE5).

(** Eight sectors laid out with an interleave of 2. *)
Definition interleaved_track : ImdTrackInfo :=
  track_of 0 0 [1; 5; 2; 6; 3; 7; 4; 8] (replicate 8 IMD_SDR_NORMAL)
    (replicate 1024 0xE5).

(** Two sectors with IDs 2, 1 in physical order. *)
Definition descending_track : ImdTrackInfo :=
  track_of 0 0 [2; 1] [IMD_SDR_NORMAL; IMD_SDR_NORMAL_DAM]
    (replicate 128 0xAA ++ replicate 128 0xBB).


(** ** libimd_utils.c: [imd_ctoh], [imd_get_basename] *)

(** [tolower] in the C locale. *)
Definition tolower (c : Z) : Z := if (65 <=? c) && (c <=? 90) then c + 32 else c.

Definition imd_ctoh (c : Z) : Z :=
  if isdigit c then c - 48
  else
    let c := tolower c in
    if (c >=? 97) && (c <=? 102) then c - 97 + 10 else -1.

(** The loop of [imd_get_basename]: [p] is the rest of the string from
    the pointer [p] on and [basename] the string at the pointer
    [basename]; [p + 1] is the tail of [p]. *)
Fixpoint basename_loop (p basename : list Z) : list Z :=
  match p with
  | [] => basename
  | c :: p' =>
      basename_loop p' (if (c =? 47) || (c =? 92) then p' else basename)
  end.

(** [path] is [None] for a NULL pointer, else the characters of the
    string. *)
Definition imd_get_basename (path : option (list Z)) : option (list Z) :=
  match path with
  | None => None
  | Some s => Some (basename_loop s s)
  end.

(** ** libimd.c: [imd_get_sector_size_lookup], [imd_write_bytes] *)

(** [count] tells whether the pointer [count] is non-NULL; the second
    component is the value stored through it. *)
Definition imd_get_sector_size_lookup (count : bool) : list Z * option Z :=
  (SECTOR_SIZE_LOOKUP, if count then Some SECTOR_SIZE_LOOKUP_COUNT else None).

Definition imd_write_bytes (buffer : list Z) (f : FILE) : Z * FILE :=
  write_bytes buffer f.

(** ** libimdf.c: geometry, write protection and access to the image

    The handle is a non-NULL pointer to an image in all of them. *)

Definition with_geometry (imdf : ImdImageFile) (mc mh ms : Z) : ImdImageFile :=
  mkImage (file_ptr imdf) (file_path imdf) (write_protected imdf)
          (read_only_open imdf) (header_info imdf) (comment imdf)
          (comment_len imdf) (tracks imdf) (track_capacity imdf) mc mh ms.

Definition with_write_protected (imdf : ImdImageFile) (p : Z) : ImdImageFile :=
  mkImage (file_ptr imdf) (file_path imdf) p (read_only_open imdf)
          (header_info imdf) (comment imdf) (comment_len imdf) (tracks imdf)
          (track_capacity imdf) (max_cyl imdf) (max_head imdf) (max_spt imdf).

Definition imdf_set_geometry (imdf : ImdImageFile) (max_cyl max_head max_spt : Z)
    : Z * ImdImageFile :=
  (IMDF_ERR_OK, with_geometry imdf max_cyl max_head max_spt).

(** The three values stored through the out pointers. *)
Definition imdf_get_geometry (imdf : ImdImageFile) : Z * (Z * Z * Z) :=
  (IMDF_ERR_OK, (max_cyl imdf, max_head imdf, max_spt imdf)).

Definition imdf_set_write_protect (imdf : ImdImageFile) (protect : Z)
    : Z * ImdImageFile :=
  if negb (truthy protect) && truthy (read_only_open imdf)
  then (IMDF_ERR_WRITE_PROTECTED, imdf)
  else (IMDF_ERR_OK,
        with_write_protected imdf (if negb (protect =? 0) then 1 else 0)).

(** [protect_out] tells whether the out pointer is non-NULL. *)
Definition imdf_get_write_protect (imdf : ImdImageFile) (protect_out : bool)
    : Z * option Z :=
  if negb protect_out then (IMDF_ERR_INVALID_ARG, None)
  else (IMDF_ERR_OK, Some (write_protected imdf)).

Definition imdf_get_num_tracks (imdf : ImdImageFile) (num_tracks_out : bool)
    : Z * option Z :=
  if negb num_tracks_out then (IMDF_ERR_INVALID_ARG, None)
  else (IMDF_ERR_OK, Some (num_tracks imdf)).

(** [None] is the NULL result. *)
Definition imdf_get_track_info (imdf : ImdImageFile) (track_index : Z)
    : option ImdTrackInfo :=
  if track_index >=? num_tracks imdf then None
  else Some (track_at imdf track_index).

Definition imdf_find_track_by_ch (imdf : ImdImageFile) (c hd : Z)
    (track_index_out : bool) : Z * option Z :=
  if negb track_index_out then (IMDF_ERR_INVALID_ARG, None)
  else
    let index := find_track_index_internal imdf c hd in
    if index <? 0 then (IMDF_ERR_NOT_FOUND, None)
    else (IMDF_ERR_OK, Some index).

(** [buffer] is [None] for a NULL pointer.  Returns the result code and
    the caller's buffer as the call leaves it. *)
Definition imdf_read_sector (imdf : ImdImageFile) (c hd logical_sector_id : Z)
    (buffer : option (list Z)) (buffer_size : Z) : Z * option (list Z) :=
  match buffer with
  | None => (IMDF_ERR_INVALID_ARG, None)
  | Some buf =>
      if (negb (max_cyl imdf =? 0xFF) && (c >? max_cyl imdf))
         || (negb (max_head imdf =? 0xFF) && (hd >? max_head imdf))
         || (negb (max_spt imdf =? 0xFF) && (logical_sector_id >? max_spt imdf)
             && negb (logical_sector_id =? 0))
      then (IMDF_ERR_GEOMETRY, buffer)
      else
        let track_idx := find_track_index_internal imdf c hd in
        if track_idx <? 0 then (IMDF_ERR_NOT_FOUND, buffer)
        else
          let track := track_at imdf track_idx in
          let sector_idx := find_sector_index_internal track logical_sector_id in
          if sector_idx <? 0 then (IMDF_ERR_NOT_FOUND, buffer)
          else if arr_get (sflag track) sector_idx =? IMD_SDR_UNAVAILABLE
          then (IMDF_ERR_UNAVAILABLE, buffer)
          else if buffer_size <? sector_size track
          then (IMDF_ERR_BUFFER_SIZE, buffer)
          else
            match data track with
            | None => (IMDF_ERR_LIBIMD_ERR, buffer)
            | Some d =>
                if data_size track
                   <? sector_idx * sector_size track + sector_size track
                then (IMDF_ERR_LIBIMD_ERR, buffer)
                else
                  (IMDF_ERR_OK,
                   Some (buf_write buf 0
                           (buf_read d (sector_idx * sector_size track)
                              (sector_size track))))
            end
  end.

(** ** Predicates of the properties of these functions *)

(** The value of a character as a hexadecimal digit: its place in one of
    the two digit strings. *)
Fixpoint index_of (c : Z) (s : list Z) (i : Z) : option Z :=
  match s with
  | [] => None
  | x :: s' => if x =? c then Some i else index_of c s' (i + 1)
  end.

Definition hex_digit_value (c : Z) : option Z :=
  match index_of c (bytes_of_string "0123456789abcdef") 0 with
  | Some v => Some v
  | None => index_of c (bytes_of_string "0123456789ABCDEF") 0
  end.

Definition is_separator (c : Z) : Prop := c = 47 \/ c = 92.

(** What the image guarantees about its tracks once it is open: every
    track is a loaded track whose buffer is present when it has
    sectors. *)
Definition image_loaded (imdf : ImdImageFile) : Prop :=
  Forall loaded_track (tracks imdf).

(** The first track of the image at ([c], [hd]) is [t], at index [i]. *)
Definition first_track_at (imdf : ImdImageFile) (c hd : Z) (i : Z)
    (t : ImdTrackInfo) : Prop :=
  0 <= i /\ tracks imdf !! Z.to_nat i = Some t /\ track_key t = (c, hd)
  /\ forall j t', 0 <= j < i -> tracks imdf !! Z.to_nat j = Some t' ->
                  track_key t' <> (c, hd).

(** The first sector of the track with the ID [id] is in slot [i]. *)
Definition first_sector_with (t : ImdTrackInfo) (id : Z) (i : Z) : Prop :=
  0 <= i < num_sectors t /\ arr_get (smap t) i = id
  /\ forall j, 0 <= j < i -> arr_get (smap t) j <> id.

(** ** What a stream holds after a write *)

(** The content of a regular file extended with zero bytes up to the
    offset [p], as a write at [p] leaves the part before it. *)
Definition padded (content : list Z) (p : Z) : list Z :=
  content ++ replicate (Z.to_nat p - length content) 0.

(** The stream [f] repositioned at the offset [p] ([fseek] with
    [SEEK_SET] on a stream that can seek), its indicators cleared. *)
Definition rewound (f : FILE) (p : Z) : FILE := clearerr (with_pos f p).

(** No device error is raised by a read of the stream below the offset
    [limit]. *)
Definition reads_below (f : FILE) (limit : Z) : Prop :=
  forall k, f_read_fault f = Some k -> limit <= k.

(** The streams [f] and [f'] differ in content and position only. *)
Definition same_settings (f f' : FILE) : Prop :=
  f_read_fault f' = f_read_fault f /\ f_seekable f' = f_seekable f
  /\ f_error f' = f_error f /\ f_write_limit f' = f_write_limit f
  /\ f_flush_ok f' = f_flush_ok f /\ f_truncate_ok f' = f_truncate_ok f.

(** Every allocation succeeds on the host. *)
Definition never_out_of_memory (h : Host) : Prop :=
  forall size, malloc_ok h size = true.

(** ** The text of a header line *)

(** A number printed with two and with four decimal digits, as
    [strftime] prints the fields of ["%d/%m/%Y %H:%M:%S"]. *)
Definition two_digits (n : Z) : list Z := [48 + n / 10; 48 + n mod 10].

Definition four_digits (n : Z) : list Z :=
  [48 + n / 1000; 48 + (n / 100) mod 10; 48 + (n / 10) mod 10; 48 + n mod 10].

(** The time stamp [strftime] produces for a local time. *)
Definition timestamp_text (hi : ImdHeaderInfo) : list Z :=
  two_digits (day hi) ++ [lit_slash] ++ two_digits (month hi) ++ [lit_slash]
  ++ four_digits (year hi) ++ [32] ++ two_digits (hour hi) ++ [lit_colon]
  ++ two_digits (minute hi) ++ [lit_colon] ++ two_digits (second hi).

(** A local time [strftime] prints with two digits per field and four
    for the year. *)
Definition clock_time (hi : ImdHeaderInfo) : Prop :=
  date_time_in_range hi /\ 1000 <= year hi <= 9999.

(** A version string that a header line can carry: between 1 and 31
    characters, none of them a NUL, a colon, a CR or a LF, the first one
    not white space. *)
Definition version_text (v : list Z) : Prop :=
  (1 <= length v <= 31)%nat
  /\ Forall (fun c => is_byte c /\ c <> 0 /\ c <> 10 /\ c <> 13
                      /\ c <> lit_colon) v
  /\ match v with c :: _ => isspace c = false | [] => False end.

(** The header line [imd_write_file_header] prints, without its CR LF. *)
Definition header_line_text (v : list Z) (hi : ImdHeaderInfo) : list Z :=
  bytes_of_string "IMD " ++ v ++ bytes_of_string ": " ++ timestamp_text hi.

(** ** libimd.c: [imd_write_track_bin] *)

(** The C result and the stream after the call; [None] when the
    interleave has no result (see [place_sector]).  The working copy [track_copy] is made as in
    [imd_write_track_imd]; the best-guess interleave is computed from the
    caller's track. *)
Definition imd_write_track_bin (h : Host) (fout : FILE) (track : ImdTrackInfo)
    (opts : ImdWriteOpts) : option (Z * FILE) :=
  if negb (truthy (loaded track)) then Some (IMD_ERR_INVALID_ARG, fout)
  else
    let copy_needed :=
      negb (interleave_factor opts =? LIBIMD_IL_AS_READ)
      && (num_sectors track >? 1) && (data_size track >? 0) in
    if copy_needed && negb (malloc_ok h (data_size track))
    then Some (IMD_ERR_ALLOC, fout)
    else
      let track_copy :=
        if copy_needed
        then with_data track
               (match data track with
                | Some d => Some (buf_read d 0 (data_size track))
                | None => None
                end)
        else track in
      let il_factor := interleave_factor opts in
      applied ←
        (if negb (il_factor =? LIBIMD_IL_AS_READ) && (num_sectors track_copy >? 1)
         then
           let il_factor :=
             if il_factor =? LIBIMD_IL_BEST_GUESS
             then imd_calculate_best_interleave track
             else il_factor in
           '(ret_status, t') ← imd_apply_interleave h track_copy il_factor;
           if negb (ret_status =? 0) then Some (inr ret_status)
           else Some (inl t')
         else Some (inl track_copy));
      match applied with
      | inr rc => Some (rc, fout)
      | inl track_copy =>
          match data track_copy with
          | Some d =>
              if (num_sectors track_copy >? 0) && (data_size track_copy >? 0)
              then
                match write_bytes (buf_read d 0 (data_size track_copy)) fout with
                | (0, f') => Some (0, f')
                | (_, f') => Some (IMD_ERR_WRITE_ERROR, f')
                end
              else if (num_sectors track_copy >? 0)
                      && (data_size track_copy =? 0)
              then Some (IMD_ERR_INVALID_ARG, fout)
              else Some (0, fout)
          | None =>
              if num_sectors track_copy >? 0 then Some (IMD_ERR_INVALID_ARG, fout)
              else Some (0, fout)
          end
      end.

(** The data buffer of a track, empty for a NULL pointer. *)
Definition track_data (t : ImdTrackInfo) : list Z :=
  match data t with Some d => d | None => [] end.

(** ** What [rewrite_image_file] leaves in the file *)

(** The options [rewrite_image_file] writes track [i] with. *)
Definition rewrite_opts (modified_track_index : Z)
    (modified_track_opts : option ImdWriteOpts) (i : Z) : ImdWriteOpts :=
  match modified_track_opts with
  | Some o => if i =? modified_track_index then o else default_libimdf_write_opts
  | None => default_libimdf_write_opts
  end.

(** The bytes of the record [imd_write_track_imd] emits for a track: the
    record of the working copy with the flags chosen for it. *)
Definition emitted_track (h : Host) (t : ImdTrackInfo) (opts : ImdWriteOpts)
    : list Z :=
  match prepare_track_to_write h t opts with
  | Some (inl tw) =>
      match process_sector_flags opts tw with
      | inl final_sflag =>
          map u8 (track_bytes (translate_mode opts tw) tw final_sflag)
      | inr _ => []
      end
  | _ => []
  end.

(** The records of the tracks [ts], which start at index [i]. *)
Fixpoint emitted_tracks (h : Host) (ts : list ImdTrackInfo) (i : Z)
    (modified_track_index : Z) (modified_track_opts : option ImdWriteOpts)
    : list Z :=
  match ts with
  | [] => []
  | t :: ts' =>
      emitted_track h t (rewrite_opts modified_track_index modified_track_opts i)
      ++ emitted_tracks h ts' (i + 1) modified_track_index modified_track_opts
  end.

(** The whole image file: header line, comment, end marker, tracks (each
    character as the byte it is written as). *)
Definition image_bytes (h : Host) (imdf : ImdImageFile) (timestamp : list Z)
    (modified_track_index : Z) (modified_track_opts : option ImdWriteOpts)
    : list Z :=
  map u8 (bytes_of_string "IMD " ++ version_to_write (header_info imdf)
          ++ bytes_of_string ": " ++ timestamp ++ [13; 10])
  ++ map u8 (if comment_len imdf >? 0
             then buf_read (match comment imdf with Some c => c | None => [] end)
                    0 (comment_len imdf)
             else [])
  ++ [LIBIMD_COMMENT_EOF_MARKER]
  ++ emitted_tracks h (tracks imdf) 0 modified_track_index modified_track_opts.

(** ** Predicates on streams that are read *)

(** The stream [f'] is the stream [f] after some reads and seeks: the
    same file on the same device. *)
Definition read_on (f f' : FILE) : Prop :=
  f_content f' = f_content f /\ f_seekable f' = f_seekable f
  /\ f_read_fault f' = f_read_fault f.

(** The stream [f'] is back where the stream [f] was. *)
Definition restored (f f' : FILE) : Prop :=
  read_on f f' /\ f_pos f' = f_pos f.

(** The end of the input is reached at the position of the stream. *)
Definition at_end (f : FILE) : Prop :=
  Z.of_nat (length (f_content f)) <= f_pos f.

(** The header fields a track reader accepts and decodes: a known mode,
    head 0 or 1, a sector size taken from the table, and head flags that
    leave the low nibble of the head byte to the head number. *)
Definition valid_header (t : ImdTrackInfo) : Prop :=
  mode t < LIBIMD_NUM_MODES /\ head t <= 1
  /\ sector_size_code t < SECTOR_SIZE_LOOKUP_COUNT
  /\ sector_size t = arr_get SECTOR_SIZE_LOOKUP (sector_size_code t)
  /\ Z.land (hflag t) IMD_HFLAG_HEAD_MASK = 0.

(** The state of the sector loop of [imd_load_track] before sector [i] of
    [n]: the stream is the file [f0] at or after [p], the buffer holds
    [n] sectors and [current_offset] is the start of sector [i]. *)
Definition loading (f0 : FILE) (p n i : Z) (st : FILE * ImdTrackInfo * Z)
    : Prop :=
  let '(f, t, current_offset) := st in
  read_on f0 f /\ p <= f_pos f /\ (wf_track t /\ valid_header t)
  /\ num_sectors t = n
  /\ 0 < sector_size t <= LIBIMD_MAX_SECTOR_SIZE
  /\ data_size t = n * sector_size t
  /\ current_offset = i * sector_size t
  /\ exists d, data t = Some d /\ Z.of_nat (length d) = data_size t
               /\ Forall is_byte d.

(** The first [n] entries of two arrays agree. *)
Definition agree_below (n : Z) (a b : list Z) : Prop :=
  forall i, 0 <= i < n -> arr_get a i = arr_get b i.

(** ** Predicates on the maps the scanner checks *)

(** Two of the first [n] entries of the sector map hold the same ID. *)
Definition duplicate_below (smap : list Z) (n : Z) : Prop :=
  exists a b, 0 <= a < b /\ b < n /\ arr_get smap a = arr_get smap b.

(** The bit set [seen_ids] holds exactly the IDs of the first [i]
    entries of the sector map. *)
Definition seen_below (seen_ids smap : list Z) (i : Z) : Prop :=
  length seen_ids = 32%nat
  /\ forall id, is_byte id ->
       (SEEN_GET seen_ids id <> 0
        <-> exists j, 0 <= j < i /\ arr_get smap j = id).

(** The number of the first [n] flags that satisfy [p]. *)
Definition count_where (p : Z -> bool) (flags : list Z) (n : Z) : Z :=
  Z.of_nat (length (List.filter p (take (Z.to_nat n) flags))).

(** The bit [bit] is raised in the failure mask. *)
Definition failed (r : ImdChkResults) (bit : Z) : Prop :=
  Z.land (check_failures_mask r) bit <> 0.

(** ** Reading a track record back *)

(** The stream [f'] is the stream [f] after [k] bytes were read from it:
    it holds [rest] at its position. *)
Definition read_past (f f' : FILE) (k : Z) (rest : list Z) : Prop :=
  holds_at f' rest /\ f_pos f' = f_pos f + k
  /\ f_seekable f' = f_seekable f.

(** What [imd_load_track] stores for sector [i] when it reads the record
    written for it with the flag [final_sflag[i]]: the fill value of a
    compressed record repeated, the bytes of a normal record, or the
    caller's fill byte for an unavailable sector. *)
Definition read_back (t : ImdTrackInfo) (final_sflag : list Z)
    (fill_byte i : Z) : list Z :=
  let flag := arr_get final_sflag i in
  if IMD_SDR_HAS_DATA flag then
    if IMD_SDR_IS_COMPRESSED flag
    then replicate (Z.to_nat (sector_size t))
           (u8 (snd (imd_is_uniform (sector_pointer t i) (sector_size t) 0)))
    else map u8 (sector_bytes t i)
  else replicate (Z.to_nat (sector_size t)) fill_byte.

(** The entries of a map of [n] sectors as a track reader leaves them:
    the entries of [written] when the map is in the record, [absent]
    otherwise. *)
Definition map_read_back (present : bool) (n : Z) (written : list Z)
    (absent : Z) (m : list Z) : Prop :=
  forall i, 0 <= i < n ->
    arr_get m i = if present then arr_get written i else absent.

(** ** libimd.c: [imd_read_track_header] *)

(** One iteration of the skip loop: the flag is read into a local
    variable and only used to skip the data of the sector. *)
Definition read_and_skip (start_pos : Z) (i : Z) (st : FILE * ImdTrackInfo)
    : FILE * ImdTrackInfo + Z * FILE * ImdTrackInfo :=
  let '(f, t) := st in
  match read_byte f with
  | (1, sector_type, f1) =>
      match skip_sector_data f1 sector_type (sector_size t) start_pos with
      | (0, f2) => inl (f2, t)
      | (read_status, f2) => inr (read_status, f2, t)
      end
  | (_, _, f1) => inr (IMD_ERR_READ_ERROR, seek_back f1 start_pos, t)
  end.

(** Returns the C result, the stream and the track structure as the call
    leaves them.  [track] is the caller's structure, untouched when
    [ftell] fails. *)
Definition imd_read_track_header (fimd : FILE) (track : ImdTrackInfo)
    : Z * FILE * ImdTrackInfo :=
  let start_pos := ftell fimd in
  if start_pos <? 0 then (IMD_ERR_SEEK_ERROR, fimd, track)
  else
    match read_track_header_bytes (clearerr fimd) start_pos with
    | inr (rc, f, _) => (rc, f, zero_track)
    | inl (got, f1) =>
        match validate_track_header (header_fields got) with
        | inr t1 => (IMD_ERR_READ_ERROR, seek_back f1 start_pos, t1)
        | inl t1 =>
            match read_track_maps t1 false f1 with
            | (t2, false, f2) => (IMD_ERR_READ_ERROR, seek_back f2 start_pos, t2)
            | (t2, true, f2) =>
                match for_range_exit 0 (Z.to_nat (num_sectors t2))
                        (read_and_skip start_pos) (f2, t2) with
                | inr e => e
                | inl (f3, t3) => (1, f3, set_buffer t3 None 0 0)
                end
            end
        end
    end.

(** Two track structures that differ in their sector flags at most. *)
Definition same_but_flags (t t' : ImdTrackInfo) : Prop :=
  with_sflag t' zero_array = with_sflag t zero_array.

(** ** libimd.c: [imd_track_has_valid_sectors] *)





(** ** An image read back from the file it was rewritten to *)

(** The comment [imd_write_comment_block] is given by
    [rewrite_image_file]: the first [comment_len] bytes of the comment,
    nothing when the length is not positive. *)
Definition comment_to_write (imdf : ImdImageFile) : list Z :=
  if comment_len imdf >? 0
  then buf_read (match comment imdf with Some c => c | None => [] end)
         0 (comment_len imdf)
  else [].

(** Write options that keep the sector order of a track and map every
    known mode to a known mode: what a reader accepts. *)
Definition keeps_order (o : ImdWriteOpts) : Prop :=
  interleave_factor o = LIBIMD_IL_AS_READ
  /\ forall m, 0 <= m < LIBIMD_NUM_MODES ->
               0 <= arr_get (tmode o) m < LIBIMD_NUM_MODES.

(** The track [t'] is what a reader makes of the record of the track [t]
    written in the mode [m] with the sector order kept: a loaded track
    with the header, the sector IDs, the cylinder and head maps (the
    cylinder and head themselves when a map is not in the record), the
    same unavailable sectors, filled with [fill], and the bytes of every
    other sector. *)
Definition track_read_back (fill m : Z) (t t' : ImdTrackInfo) : Prop :=
  loaded_track t'
  /\ (mode t' = m /\ cyl t' = cyl t /\ head t' = head t /\ hflag t' = hflag t
      /\ num_sectors t' = num_sectors t
      /\ sector_size_code t' = sector_size_code t
      /\ sector_size t' = sector_size t)
  /\ agree_below (num_sectors t) (smap t') (smap t)
  /\ map_read_back (truthy (Z.land (hflag t) IMD_HFLAG_CMAP_PRES))
       (num_sectors t) (cmap t) (cyl t) (cmap t')
  /\ map_read_back (truthy (Z.land (hflag t) IMD_HFLAG_HMAP_PRES))
       (num_sectors t) (hmap t) (head t) (hmap t')
  /\ forall i, 0 <= i < num_sectors t ->
       (arr_get (sflag t') i = IMD_SDR_UNAVAILABLE
        <-> arr_get (sflag t) i = IMD_SDR_UNAVAILABLE)
       /\ (arr_get (sflag t) i <> IMD_SDR_UNAVAILABLE ->
           sector_bytes t' i = sector_bytes t i)
       /\ (arr_get (sflag t) i = IMD_SDR_UNAVAILABLE ->
           sector_bytes t' i = replicate (Z.to_nat (sector_size t)) fill).

(** The tracks [ts'] are what a reader makes of the records of the tracks
    [ts], which [rewrite_image_file] writes from index [i] on. *)
Fixpoint tracks_read_back (fill : Z) (ts ts' : list ImdTrackInfo) (i : Z)
    (modified_track_index : Z) (modified_track_opts : option ImdWriteOpts)
    : Prop :=
  match ts, ts' with
  | [], [] => True
  | t :: r, t' :: r' =>
      track_read_back fill
        (translate_mode
           (rewrite_opts modified_track_index modified_track_opts i) t) t t'
      /\ tracks_read_back fill r r' (i + 1) modified_track_index
           modified_track_opts
  | _, _ => False
  end.

(** ** The sector statistics of the scanner *)

(** The classes of sector flags [check_sflag_consistency_and_stats_internal]
    tells apart: a value above the last flag code; a flag outside the
    codes with data; and, among the flags with data, those with the
    deleted-data mark, the compressed ones and those with the data-error
    mark. *)
Definition flag_invalid (flag : Z) : bool :=
  flag >? IMD_SDR_COMPRESSED_DEL_ERR.

Definition flag_no_data (flag : Z) : bool := negb (IMD_SDR_HAS_DATA flag).

Definition flag_deleted (flag : Z) : bool :=
  IMD_SDR_HAS_DATA flag && truthy (IMD_SDR_HAS_DAM flag).

Definition flag_compressed (flag : Z) : bool :=
  IMD_SDR_HAS_DATA flag && IMD_SDR_IS_COMPRESSED flag.

Definition flag_data_error (flag : Z) : bool :=
  IMD_SDR_HAS_DATA flag && truthy (IMD_SDR_HAS_ERR flag).

(** [bit] when one of the first [n] flags is in the class [p], no bit
    otherwise. *)
Definition bit_where (p : Z -> bool) (flags : list Z) (n : Z) (bit : Z) : Z :=
  if 0 <? count_where p flags n then bit else 0.

(** ** Formatting a track *)

(** A map argument of [imdf_write_track] points, when it is not NULL, to
    at least [n] entries, all of them bytes. *)
Definition map_arg_ok (n : Z) (arg : option (list Z)) : Prop :=
  forall m, arg = Some m -> (Z.to_nat n <= length m)%nat /\ Forall is_byte m.

(** The sector ID [imdf_write_track] gives to slot [i]: the entry of the
    sector map, or [i + 1] when there is no map. *)
Definition sector_id_arg (smap_arg : option (list Z)) (i : Z) : Z :=
  match smap_arg with
  | Some m => arr_get m i
  | None => u8 (i + 1)
  end.

(** * Properties *)

(** ** The sector data record macros *)

(** On the data-bearing codes the macros agree with the documentation. *)
Lemma sdr_macros_on_data_codes (type : Z) :
  1 <= type <= 8 ->
  truthy (IMD_SDR_HAS_DAM type) = documented_dam type /\
  truthy (IMD_SDR_HAS_ERR type) = documented_err type.
Proof.
  intros H.
  assert (type = 1 \/ type = 2 \/ type = 3 \/ type = 4 \/
          type = 5 \/ type = 6 \/ type = 7 \/ type = 8) as Hc by lia.
  repeat (destruct Hc as [-> | Hc]); try subst type; split; reflexivity.
Qed.

(** C3 (failing input): at the unavailable code 0x00 the subtraction
    yields -1, every bit of which is set, so both macros are non-zero
    although the code 0x00 carries neither a deleted address mark nor a
    data error. *)
Theorem sdr_macros_at_unavailable :
  IMD_SDR_HAS_DAM IMD_SDR_UNAVAILABLE = 2 /\
  IMD_SDR_HAS_ERR IMD_SDR_UNAVAILABLE = 4 /\
  truthy (IMD_SDR_HAS_DAM 0x00) = true /\
  truthy (IMD_SDR_HAS_ERR 0x00) = true /\
  documented_dam 0x00 = false /\
  documented_err 0x00 = false.
Proof. repeat split; reflexivity. Qed.

(** ** Arrays and loops *)

Lemma arr_get_lookup (a : list Z) (i : Z) (v : Z) :
  a !! Z.to_nat i = Some v -> arr_get a i = v.
Proof. intros H. unfold arr_get. by rewrite (list_lookup_total_correct _ _ _ H). Qed.

Lemma arr_get_set_eq (a : list Z) (i v : Z) :
  (Z.to_nat i < length a)%nat -> arr_get (arr_set a i v) i = v.
Proof.
  intros H. apply arr_get_lookup. unfold arr_set.
  by apply list_lookup_insert_eq.
Qed.

Lemma arr_get_set_ne (a : list Z) (i j v : Z) :
  Z.to_nat i <> Z.to_nat j -> arr_get (arr_set a i v) j = arr_get a j.
Proof.
  intros H. unfold arr_get, arr_set.
  by rewrite list_lookup_total_insert_ne.
Qed.

Lemma arr_get_set (a : list Z) (i j v : Z) :
  0 <= i -> 0 <= j -> (Z.to_nat i < length a)%nat ->
  arr_get (arr_set a i v) j = if i =? j then v else arr_get a j.
Proof.
  intros Hi Hj Hlen. destruct (Z.eqb_spec i j) as [->|Hne].
  - by apply arr_get_set_eq.
  - apply arr_get_set_ne. lia.
Qed.

Lemma arr_set_length (a : list Z) (i v : Z) :
  length (arr_set a i v) = length a.
Proof. apply length_insert. Qed.

Lemma arr_set_same (a : list Z) (i : Z) :
  (Z.to_nat i < length a)%nat -> arr_set a i (arr_get a i) = a.
Proof.
  intros H. unfold arr_set, arr_get. apply list_insert_id.
  by apply list_lookup_lookup_total_lt.
Qed.

Lemma zero_array_length : length zero_array = 256%nat.
Proof. reflexivity. Qed.

Lemma zero_array_get (i : Z) : i < 256 -> arr_get zero_array i = 0.
Proof.
  intros H. unfold arr_get, zero_array.
  rewrite lookup_total_replicate_2; [done | lia].
Qed.

Lemma memcpy_arr_length (dst src : list Z) (n : Z) :
  length src = length dst -> length (memcpy_arr dst src n) = length dst.
Proof.
  intros H. unfold memcpy_arr.
  rewrite length_app, length_take, length_drop. lia.
Qed.

Lemma memcpy_arr_get_lt (dst src : list Z) (n i : Z) :
  0 <= i < n -> (Z.to_nat n <= length src)%nat ->
  arr_get (memcpy_arr dst src n) i = arr_get src i.
Proof.
  intros Hi Hn. unfold arr_get, memcpy_arr.
  rewrite lookup_total_app_l by (rewrite length_take; lia).
  rewrite !list_lookup_total_alt, lookup_take_lt by lia. done.
Qed.

Lemma byte_array_get (a : list Z) (i : Z) :
  byte_array a -> 0 <= i < 256 -> is_byte (arr_get a i).
Proof.
  intros [Hlen Hall] Hi. unfold arr_get.
  eapply Forall_lookup_1; [exact Hall|].
  apply list_lookup_lookup_total_lt. lia.
Qed.

Lemma byte_array_check (a : list Z) :
  (length a =? 256)%nat && forallb (fun z => (0 <=? z) && (z <=? 255)) a = true ->
  byte_array a.
Proof.
  intros H. apply andb_true_iff in H as [Hl Hf]. split.
  - by apply Nat.eqb_eq.
  - apply List.Forall_forall. intros x Hx.
    rewrite forallb_forall in Hf.
    specialize (Hf x Hx). unfold is_byte. lia.
Qed.

Lemma bytes_check (a : list Z) :
  forallb (fun z => (0 <=? z) && (z <=? 255)) a = true -> Forall is_byte a.
Proof.
  intros Hf. apply List.Forall_forall. intros x Hx.
  rewrite forallb_forall in Hf.
  specialize (Hf x Hx). unfold is_byte. lia.
Qed.

Section Loops.
Context {S : Type}.

(** Invariant rule for [for_range]. *)
Lemma for_range_inv (P : Z -> S -> Prop) (body : Z -> S -> S) :
  forall count start s,
    P start s ->
    (forall i s', start <= i < start + Z.of_nat count ->
                  P i s' -> P (i + 1) (body i s')) ->
    P (start + Z.of_nat count) (for_range start count body s).
Proof.
  induction count as [|k IH]; intros start s H0 Hstep; simpl.
  - rewrite ?Z.add_0_r; done.
  - assert (start + Z.of_nat (Datatypes.S k) = start + 1 + Z.of_nat k) as -> by lia.
    apply IH.
    + apply Hstep; [lia | done].
    + intros i s' Hi. apply Hstep. lia.
Qed.

(** Invariant rule for a [for_range_exit] loop whose body never leaves. *)
Lemma for_range_exit_inv {R : Type} (P : Z -> S -> Prop)
    (body : Z -> S -> S + R) :
  forall count start s,
    P start s ->
    (forall i s', start <= i < start + Z.of_nat count -> P i s' ->
                  exists s'', body i s' = inl s'' /\ P (i + 1) s'') ->
    exists sf, for_range_exit start count body s = inl sf
               /\ P (start + Z.of_nat count) sf.
Proof.
  induction count as [|k IH]; intros start s H0 Hstep; simpl.
  - exists s. split; [done|]. rewrite ?Z.add_0_r; done.
  - destruct (Hstep start s) as (s1 & Hb & HP); [lia | done |].
    rewrite Hb.
    assert (start + Z.of_nat (Datatypes.S k) = start + 1 + Z.of_nat k) as -> by lia.
    apply IH; [done|]. intros i s' Hi. apply Hstep. lia.
Qed.

(** A [for_range_exit] loop that ran to its end kept the invariant. *)
Lemma for_range_exit_inl {R : Type} (P : Z -> S -> Prop)
    (body : Z -> S -> S + R) :
  forall count start s sf,
    for_range_exit start count body s = inl sf ->
    P start s ->
    (forall i s' s'', start <= i < start + Z.of_nat count -> P i s' ->
                      body i s' = inl s'' -> P (i + 1) s'') ->
    P (start + Z.of_nat count) sf.
Proof.
  induction count as [|k IH]; intros start s sf Hrun H0 Hstep; simpl in Hrun.
  - inversion Hrun; subst. rewrite ?Z.add_0_r; done.
  - destruct (body start s) as [s1|r] eqn:Hb; [|done].
    assert (start + Z.of_nat (Datatypes.S k) = start + 1 + Z.of_nat k) as -> by lia.
    eapply IH; [exact Hrun | |].
    + eapply Hstep; [| exact H0 | exact Hb]. lia.
    + intros i s' s'' Hi. apply Hstep. lia.
Qed.

(** Invariant rule for [for_range_opt]. *)
Lemma for_range_opt_inv (P : Z -> S -> Prop) (body : Z -> S -> option S) :
  forall count start s,
    P start s ->
    (forall i s', start <= i < start + Z.of_nat count -> P i s' ->
                  exists s'', body i s' = Some s'' /\ P (i + 1) s'') ->
    exists sf, for_range_opt start count body s = Some sf
               /\ P (start + Z.of_nat count) sf.
Proof.
  induction count as [|k IH]; intros start s H0 Hstep; simpl.
  - exists s. split; [done|]. rewrite ?Z.add_0_r; done.
  - destruct (Hstep start s) as (s1 & Hb & HP); [lia | done |].
    rewrite Hb.
    assert (start + Z.of_nat (Datatypes.S k) = start + 1 + Z.of_nat k) as -> by lia.
    apply IH; [done|]. intros i s' Hi. apply Hstep. lia.
Qed.
End Loops.

(** ** Interleave factor 1 on a track whose sector IDs already ascend *)

Lemma bubble_pass_ordered (n i : Z) (s : list Z) :
  (forall j, 0 <= j -> j + 1 < n -> arr_get s j <= arr_get s (j + 1)) ->
  0 <= i -> bubble_pass n i s = s.
Proof.
  intros Hord Hi. unfold bubble_pass.
  apply (for_range_inv (fun _ s' => s' = s)); [done|].
  intros j s' Hj ->. unfold bubble_step.
  assert (arr_get s j <= arr_get s (j + 1)) as Hle by (apply Hord; lia).
  destruct (Z.gtb_spec (arr_get s j) (arr_get s (j + 1))); [lia | done].
Qed.

Lemma bubble_sort_ordered (n : Z) (s : list Z) :
  (forall j, 0 <= j -> j + 1 < n -> arr_get s j <= arr_get s (j + 1)) ->
  bubble_sort n s = s.
Proof.
  intros Hord. unfold bubble_sort.
  apply (for_range_inv (fun _ s' => s' = s)); [done|].
  intros i s' Hi ->. apply bubble_pass_ordered; [done | lia].
Qed.

Lemma find_original_index_first (n : Z) (original_smap : list Z) (id i : Z)
    (l2p : list Z) :
  0 <= i < n ->
  (forall k, 0 <= k < i -> arr_get original_smap k <> id) ->
  arr_get original_smap i = id ->
  find_original_index n original_smap id i l2p = arr_set l2p i (u8 i).
Proof.
  intros Hi Hbefore Hat. unfold find_original_index.
  assert (forall count start l,
             0 <= start <= i -> i < start + Z.of_nat count ->
             for_range_exit start count
               (fun k l0 => if arr_get original_smap k =? id
                            then inr (arr_set l0 i (u8 k)) else inl l0) l
             = inr (arr_set l i (u8 i))) as Hloop.
  { induction count as [|c IH]; intros start l Hs Hc; [lia|]. simpl.
    destruct (Z.eqb_spec (arr_get original_smap start) id) as [Heq|Hne].
    - destruct (decide (start = i)) as [->|Hsi]; [done|].
      exfalso. apply (Hbefore start); [lia | done].
    - apply IH; [|lia]. destruct (decide (start = i)) as [->|Hsi]; [done | lia]. }
  rewrite Hloop; [done | lia | lia].
Qed.

Lemma next_free_slot_here (fuel : nat) (n : Z) (used : list Z) (cur : Z) :
  arr_get used cur = 0 -> next_free_slot fuel n used cur = Some cur.
Proof. intros H. destruct fuel; simpl; by rewrite H. Qed.

Lemma buf_read_all (d : list Z) (len : Z) :
  Z.of_nat (length d) = len -> buf_read d 0 len = d.
Proof.
  intros H. unfold buf_read. simpl. rewrite drop_0.
  apply take_ge. lia.
Qed.

Lemma buf_write_read_same (d : list Z) (off len : Z) :
  0 <= off -> 0 <= len -> off + len <= Z.of_nat (length d) ->
  buf_write d off (buf_read d off len) = d.
Proof.
  intros Hoff Hlen Hb. unfold buf_write, buf_read.
  rewrite length_take, length_drop.
  replace (Z.to_nat off + Z.to_nat len `min` (length d - Z.to_nat off))%nat
    with (Z.to_nat off + Z.to_nat len)%nat by lia.
  rewrite <- drop_drop, take_drop. apply take_drop.
Qed.

(** The placement loop with step 1 over an identity [logical_to_physical]
    rewrites every slot with its own content. *)
Lemma place_identity (n sz : Z) (sm cm hm sf d l2p : list Z) (dsz : Z) :
  2 <= n <= 255 -> 0 <= sz ->
  length sm = 256%nat -> length cm = 256%nat ->
  length hm = 256%nat -> length sf = 256%nat ->
  Z.of_nat (length d) = dsz -> n * sz <= dsz ->
  (forall i, 0 <= i < n -> arr_get l2p i = i) ->
  exists st,
    for_range_opt 0 (Z.to_nat n)
      (place_sector n sz 1
         (memcpy_arr zero_array sm n) (memcpy_arr zero_array cm n)
         (memcpy_arr zero_array hm n) (memcpy_arr zero_array sf n)
         (buf_read d 0 dsz) l2p)
      (mkPlacement sm cm hm sf d zero_array 0) = Some st
    /\ p_smap st = sm /\ p_cmap st = cm /\ p_hmap st = hm
    /\ p_sflag st = sf /\ p_data st = d.
Proof.
  intros Hn Hsz Hsm Hcm Hhm Hsf Hd Hfit Hl2p.
  pose (P := fun (i : Z) (st : Placement) =>
     p_smap st = sm /\ p_cmap st = cm /\ p_hmap st = hm /\ p_sflag st = sf
     /\ p_data st = d /\ length (p_used st) = 256%nat
     /\ (forall j, i <= j < 256 -> arr_get (p_used st) j = 0)
     /\ p_pos st = Z.rem i n).
  destruct (for_range_opt_inv P
              (place_sector n sz 1
                 (memcpy_arr zero_array sm n) (memcpy_arr zero_array cm n)
                 (memcpy_arr zero_array hm n) (memcpy_arr zero_array sf n)
                 (buf_read d 0 dsz) l2p)
              (Z.to_nat n) 0 (mkPlacement sm cm hm sf d zero_array 0))
    as (st & Hrun & HP).
  - unfold P; simpl. repeat split; try done.
    intros j Hj. apply zero_array_get. lia.
  - intros i st Hi (Es & Ec & Eh & Ef & Ed & Hlen & Hfree & Hpos).
    assert (p_pos st = i) as Hpi.
    { rewrite Hpos. apply Z.rem_small. lia. }
    unfold place_sector.
    rewrite next_free_slot_here by (rewrite Hpi; apply Hfree; lia).
    cbn [mbind option_bind].
    destruct (Z.gtb_spec (p_pos st + 1) INT_MAX) as [Hov|_];
      [unfold INT_MAX in Hov; lia|].
    simpl. eexists. split; [reflexivity|].
    unfold P; simpl. rewrite Hpi, Hl2p, Es, Ec, Eh, Ef, Ed by lia.
    rewrite !memcpy_arr_get_lt by lia.
    rewrite !arr_set_same by lia.
    repeat split; try done.
    + destruct (Z.gtb_spec sz 0); [|done].
      rewrite (buf_read_all d dsz) by done.
      apply buf_write_read_same; nia.
    + by rewrite arr_set_length.
    + intros j Hj. rewrite arr_get_set_ne by lia. apply Hfree. lia.
  - exists st. destruct HP as (Es & Ec & Eh & Ef & Ed & _).
    by repeat split.
Qed.

(** C1 (amended): on a loaded track with at least two sectors whose
    sector IDs strictly ascend in physical order, [imd_apply_interleave]
    with factor 1 leaves the track (smap, cmap, hmap, sflag and data
    buffer) as it was, whatever the host: it returns 0 when the
    allocation of its backup buffer ([data_size] bytes) succeeds, and
    [IMD_ERR_ALLOC] when it fails. *)
Theorem interleave_one_ascending_noop (h : Host) (t : ImdTrackInfo) :
  loaded_track t ->
  2 <= num_sectors t ->
  ascending_ids (num_sectors t) (smap t) ->
  imd_apply_interleave h t 1
  = Some (if malloc_ok h (data_size t) then 0 else IMD_ERR_ALLOC, t).
Proof.
  intros [Hwf Hld Hsz Hds Hdata] Hn Hasc.
  destruct Hwf as [_ _ _ _ [Hn0 Hn255] _ _ [Hsm _] [Hcm _] [Hhm _] [Hsf _] _].
  unfold imd_apply_interleave.
  destruct (data t) as [d|] eqn:Ed; [|lia].
  destruct Hdata as [Hlen _].
  rewrite Hld. destruct (malloc_ok h (data_size t)) eqn:Hm.
  2:{ simpl. by destruct (Z.ltb_spec (num_sectors t) 2); [lia|]. }
  simpl.
  destruct (Z.ltb_spec (num_sectors t) 2); [lia|]. simpl.
  set (n := num_sectors t) in *.
  set (osm := memcpy_arr zero_array (smap t) n).
  assert (forall j, 0 <= j < n -> arr_get osm j = arr_get (smap t) j) as Hosm.
  { intros j Hj. apply memcpy_arr_get_lt; lia. }
  assert (bubble_sort n (memcpy_arr zero_array osm n) = memcpy_arr zero_array osm n)
    as ->.
  { apply bubble_sort_ordered. intros j Hj0 Hj1.
    rewrite !memcpy_arr_get_lt
      by (try lia; unfold osm; rewrite memcpy_arr_length; rewrite ?zero_array_length; lia).
    rewrite !Hosm by lia.
    assert (arr_get (smap t) j < arr_get (smap t) (j + 1)) by (apply Hasc; lia).
    lia. }
  assert (exists l2p, build_logical_to_physical n osm (memcpy_arr zero_array osm n)
                      = inl l2p
                      /\ forall i, 0 <= i < n -> arr_get l2p i = i)
    as (l2p & -> & Hl2p).
  { unfold build_logical_to_physical.
    destruct (for_range_exit_inv (R := Z)
                (fun i l => length l = 256%nat
                            /\ forall j, 0 <= j < i -> arr_get l j = j)
                (fun i l2p0 =>
                   let l2p1 := arr_set l2p0 i LIBIMD_INVALID_SECTOR_POS in
                   let l2p2 := find_original_index n osm
                                 (arr_get (memcpy_arr zero_array osm n) i) i l2p1 in
                   if arr_get l2p2 i =? LIBIMD_INVALID_SECTOR_POS
                   then inr IMD_ERR_SECTOR_NOT_FOUND else inl l2p2)
                (Z.to_nat n) 0 zero_array) as (l & Hrun & _ & Hl).
    - split; [done | intros; lia].
    - intros i l Hi [Hll Hlj]. cbv zeta.
      rewrite find_original_index_first; [| lia | |].
      + assert (u8 i = i) as Hu by (unfold u8; apply Z.mod_small; lia).
        rewrite Hu, arr_get_set_eq by (rewrite arr_set_length; lia).
        destruct (Z.eqb_spec i LIBIMD_INVALID_SECTOR_POS) as [E|_].
        { unfold LIBIMD_INVALID_SECTOR_POS in E. lia. }
        eexists. split; [reflexivity|]. split.
        * by rewrite !arr_set_length.
        * intros j Hj. destruct (decide (j = i)) as [->|Hne].
          -- apply arr_get_set_eq. rewrite arr_set_length. lia.
          -- rewrite !arr_get_set_ne by lia. apply Hlj. lia.
      + intros k Hk.
        rewrite memcpy_arr_get_lt
          by (try lia; unfold osm; rewrite memcpy_arr_length; rewrite ?zero_array_length; lia).
        rewrite !Hosm by lia.
        assert (arr_get (smap t) k < arr_get (smap t) i) by (apply Hasc; lia).
        lia.
      + rewrite memcpy_arr_get_lt
          by (try lia; unfold osm; rewrite memcpy_arr_length; rewrite ?zero_array_length; lia).
        done.
    - exists l. split; [done|]. intros i Hi. apply Hl. lia. }
  unfold osm.
  destruct (place_identity n (sector_size t) (smap t) (cmap t) (hmap t) (sflag t)
              d l2p (data_size t)) as (st & -> & Es & Ec & Eh & Ef & Edd);
    try done; try lia.
  simpl. rewrite Es, Ec, Eh, Ef, Edd, <- Ed.
  by destruct t.
Qed.

(** ** Checking the track invariants on concrete tracks *)

Lemma is_byteb_sound (z : Z) : is_byteb z = true -> is_byte z.
Proof. unfold is_byteb, is_byte. lia. Qed.

Lemma bytesb_sound (a : list Z) : forallb is_byteb a = true -> Forall is_byte a.
Proof.
  intros Hf. apply List.Forall_forall. intros x Hx.
  rewrite forallb_forall in Hf. apply is_byteb_sound. by apply Hf.
Qed.

Lemma byte_arrayb_sound (a : list Z) : byte_arrayb a = true -> byte_array a.
Proof.
  unfold byte_arrayb. intros H. apply andb_true_iff in H as [Hl Hf]. split.
  - by apply Nat.eqb_eq.
  - by apply bytesb_sound.
Qed.

Lemma wf_trackb_sound (t : ImdTrackInfo) : wf_trackb t = true -> wf_track t.
Proof.
  unfold wf_trackb. intros H.
  repeat (apply andb_true_iff in H as [H ?]).
  constructor; try (by apply is_byteb_sound); try (by apply byte_arrayb_sound);
    unfold is_byte; change (2 ^ 32) with 4294967296 in *; lia.
Qed.

Lemma loaded_trackb_sound (t : ImdTrackInfo) :
  loaded_trackb t = true -> loaded_track t.
Proof.
  unfold loaded_trackb. intros H.
  apply andb_true_iff in H as [H Hd]. apply andb_true_iff in H as [H Hds].
  apply andb_true_iff in H as [H Hsz]. apply andb_true_iff in H as [Hwf Hld].
  constructor; try lia.
  - by apply wf_trackb_sound.
  - destruct (data t) as [d|].
    + apply andb_true_iff in Hd as [Hd1 Hd2].
      split; [lia | by apply bytesb_sound].
    + lia.
Qed.

(** ** Interleave factor 1: examples *)

(** The theorem [interleave_one_ascending_noop] applied to a track. *)
Lemma interleave_one_ascending_noop_witness :
  imd_apply_interleave host_ok ascending_track 1 = Some (0, ascending_track).
Proof.
  apply interleave_one_ascending_noop.
  - apply loaded_trackb_sound. vm_compute. reflexivity.
  - vm_compute. discriminate.
  - intros i j Hi Hij Hj.
    assert (i = 0) as -> by (change (num_sectors ascending_track) with 2 in Hj; lia).
    assert (j = 1) as -> by (change (num_sectors ascending_track) with 2 in Hj; lia).
    vm_compute. reflexivity.
Defined.

(** C1 (counterexample): on a loaded track of two sectors whose IDs are
    2, 1 the call with factor 1 succeeds and swaps the two sectors: the
    IDs become 1, 2, the flags 0x03, 0x01, and the two halves of the data
    buffer are exchanged. *)
Lemma interleave_one_reorders :
  loaded_track descending_track /\
  2 <= num_sectors descending_track /\
  imd_apply_interleave host_ok descending_track 1
  = Some (0, track_of 0 0 [1; 2] [IMD_SDR_NORMAL_DAM; IMD_SDR_NORMAL]
               (replicate 128 0xBB ++ replicate 128 0xAA)) /\
  take 2 (smap descending_track) = [2; 1] /\
  track_of 0 0 [1; 2] [IMD_SDR_NORMAL_DAM; IMD_SDR_NORMAL]
    (replicate 128 0xBB ++ replicate 128 0xAA) <> descending_track.
Proof.
  split; [apply loaded_trackb_sound; vm_compute; reflexivity|].
  split; [vm_compute; discriminate|].
  split; [vm_compute; reflexivity|].
  split; [reflexivity|].
  intros H. apply (f_equal (fun t => arr_get (smap t) 0)) in H.
  vm_compute in H. discriminate.
Qed.

(** ** Reading from a stream *)

Lemma holds_at_cons (f : FILE) (b : Z) (bs : list Z) :
  holds_at f (b :: bs) ->
  fgetc f = (GotByte b, with_pos f (f_pos f + 1))
  /\ holds_at (with_pos f (f_pos f + 1)) bs.
Proof.
  intros (Hpos & Hbytes & Hfault). unfold buf_read in Hbytes.
  rewrite Nat2Z.id in Hbytes.
  destruct (drop (Z.to_nat (f_pos f)) (f_content f)) as [|x rest] eqn:E;
    [discriminate|].
  simpl in Hbytes. injection Hbytes as -> Hbs.
  assert (f_content f !! Z.to_nat (f_pos f) = Some b) as Hb.
  { apply (f_equal (fun l => l !! 0%nat)) in E.
    rewrite lookup_drop, Nat.add_0_r in E. exact E. }
  split.
  - unfold fgetc, read_faults.
    destruct (f_read_fault f) as [k|] eqn:Ek.
    + specialize (Hfault k eq_refl). simpl in Hfault.
      destruct (Z.leb_spec k (f_pos f)); [lia|].
      rewrite Hb. destruct (Z.ltb_spec (f_pos f) 0); [lia | done].
    + rewrite Hb. destruct (Z.ltb_spec (f_pos f) 0); [lia | done].
  - split; [simpl; lia|]. split.
    + simpl. unfold buf_read. rewrite Nat2Z.id.
      replace (Z.to_nat (f_pos f + 1)) with (Z.to_nat (f_pos f) + 1)%nat by lia.
      rewrite <- drop_drop, E. simpl. by rewrite drop_0.
    + simpl. intros k Hk. specialize (Hfault k Hk). simpl in Hfault. lia.
Qed.

Lemma read_byte_holds (f : FILE) (b : Z) (bs : list Z) :
  holds_at f (b :: bs) -> is_byte b ->
  read_byte f = (1, b, with_pos f (f_pos f + 1))
  /\ holds_at (with_pos f (f_pos f + 1)) bs.
Proof.
  intros H Hb. destruct (holds_at_cons f b bs H) as [Hg Hrest].
  split; [|done]. unfold read_byte. rewrite Hg.
  unfold u8. rewrite Z.mod_small; [done | unfold is_byte in Hb; lia].
Qed.

Lemma holds_at_clearerr (f : FILE) (bs : list Z) :
  holds_at f bs -> holds_at (clearerr f) bs.
Proof. by intros H. Qed.

(** ** A track record with no sectors *)

Lemma sector_size_lookup_nonzero (code : Z) :
  0 <= code < 7 -> arr_get SECTOR_SIZE_LOOKUP code <> 0.
Proof.
  intros H.
  assert (code = 0 \/ code = 1 \/ code = 2 \/ code = 3 \/ code = 4
          \/ code = 5 \/ code = 6) as Hc by lia.
  repeat (destruct Hc as [-> | Hc]); try subst code; vm_compute; discriminate.
Qed.

(** C10 (amended): when [ftell] succeeds on the stream (the stream is
    seekable) and the stream holds, at its position and free of read
    errors, a track header [raw_mode, raw_cyl, head_byte, 0,
    size_code] with a valid mode (below 6), a head of 0 or 1 (low nibble
    of the head byte) and a valid size code (below 7), [imd_load_track]
    returns 1 and leaves a track with [loaded = 1], [data = NULL] and
    [data_size = 0]; the stream has advanced over the five bytes. *)
Theorem load_track_zero_sectors (h : Host) (f : FILE) (track : ImdTrackInfo)
    (fill_byte raw_mode raw_cyl head_byte size_code : Z) :
  f_seekable f = true ->
  holds_at f [raw_mode; raw_cyl; head_byte; 0; size_code] ->
  0 <= raw_mode < LIBIMD_NUM_MODES ->
  is_byte raw_cyl ->
  is_byte head_byte ->
  Z.land head_byte IMD_HFLAG_HEAD_MASK <= 1 ->
  0 <= size_code < SECTOR_SIZE_LOOKUP_COUNT ->
  exists f' t,
    imd_load_track h f track fill_byte = (1, f', t)
    /\ loaded t = 1 /\ data t = None /\ data_size t = 0
    /\ num_sectors t = 0 /\ mode t = raw_mode /\ cyl t = raw_cyl
    /\ head t = Z.land head_byte IMD_HFLAG_HEAD_MASK
    /\ sector_size_code t = size_code
    /\ f_pos f' = f_pos f + 5.
Proof.
  intros Hseek Hholds Hmode Hcyl Hhb Hhead Hcode.
  unfold LIBIMD_NUM_MODES in Hmode. unfold SECTOR_SIZE_LOOKUP_COUNT in Hcode.
  assert (0 <= f_pos f) as Hpos by apply Hholds.
  unfold imd_load_track, ftell. rewrite Hseek.
  destruct (Z.ltb_spec (f_pos f) 0); [lia|].
  apply holds_at_clearerr in Hholds.
  unfold read_track_header_bytes.
  destruct (read_byte_holds _ _ _ Hholds) as [-> H1]; [unfold is_byte; lia|].
  cbn [read_header_rest].
  destruct (read_byte_holds _ _ _ H1) as [-> H2]; [done|].
  destruct (read_byte_holds _ _ _ H2) as [-> H3]; [done|].
  destruct (read_byte_holds _ _ _ H3) as [-> H4]; [unfold is_byte; lia|].
  destruct (read_byte_holds _ _ _ H4) as [-> H5]; [unfold is_byte; lia|].
  cbn [app].
  unfold validate_track_header, header_fields. cbn.
  unfold LIBIMD_NUM_MODES, SECTOR_SIZE_LOOKUP_COUNT.
  destruct (Z.geb_spec raw_mode 6); [lia|].
  destruct (Z.gtb_spec (Z.land head_byte IMD_HFLAG_HEAD_MASK) 1); [lia|].
  destruct (Z.geb_spec size_code 7); [lia|]. cbn.
  pose proof (sector_size_lookup_nonzero size_code Hcode) as Hnz.
  destruct (Z.eqb_spec (arr_get SECTOR_SIZE_LOOKUP size_code) 0); [done|].
  unfold imd_alloc_track_data, imd_get_sector_size. cbn.
  unfold SECTOR_SIZE_LOOKUP_COUNT.
  destruct (Z.geb_spec size_code 7); [lia|].
  destruct (Z.eqb_spec (arr_get SECTOR_SIZE_LOOKUP size_code) 0); [done|].
  cbn. eexists _, _. split; [reflexivity|].
  cbn. repeat split; try done. lia.
Qed.

(** C10 (witness): a stream holding the header 05 03 01 00 02. *)
Lemma load_track_zero_sectors_witness :
  exists f' t,
    imd_load_track host_ok (file_of [5; 3; 1; 0; 2]) zero_track 0xE5 = (1, f', t)
    /\ loaded t = 1 /\ data t = None /\ data_size t = 0
    /\ num_sectors t = 0 /\ mode t = 5 /\ cyl t = 3
    /\ head t = Z.land 1 IMD_HFLAG_HEAD_MASK
    /\ sector_size_code t = 2
    /\ f_pos f' = f_pos (file_of [5; 3; 1; 0; 2]) + 5.
Proof.
  apply (load_track_zero_sectors host_ok (file_of [5; 3; 1; 0; 2]) zero_track
           0xE5 5 3 1 2).
  - reflexivity.
  - repeat split; try (vm_compute; congruence);
      intros k Hk; vm_compute in Hk; discriminate Hk.
  - vm_compute. split; congruence.
  - vm_compute. split; congruence.
  - vm_compute. split; congruence.
  - vm_compute. congruence.
  - vm_compute. split; congruence.
Defined.

(** C10 (counterexample): the same header 05 03 01 00 02 (no sectors, a
    valid mode, head and size code) on a stream that cannot tell its
    position: [ftell] fails and [imd_load_track] returns
    [IMD_ERR_SEEK_ERROR] (-14), not 1, before it reads a byte; the stream
    and the caller's track are as they were, the track not marked
    loaded. *)
Lemma load_track_zero_sectors_unseekable :
  holds_at (pipe_of [5; 3; 1; 0; 2]) [5; 3; 1; 0; 2]
  /\ imd_load_track host_ok (pipe_of [5; 3; 1; 0; 2]) zero_track 0xE5
     = (IMD_ERR_SEEK_ERROR, pipe_of [5; 3; 1; 0; 2], zero_track)
  /\ IMD_ERR_SEEK_ERROR = -14
  /\ loaded zero_track = 0.
Proof.
  split.
  - repeat split; try (vm_compute; congruence);
      intros k Hk; vm_compute in Hk; discriminate Hk.
  - split; [|split]; reflexivity.
Qed.

(** ** The header line *)

Lemma sscanf_run_acc (h : Host) (fmt : list directive) :
  forall input acc,
    acc <> [] ->
    exists more,
      snd (sscanf_run h fmt input acc) = acc ++ more
      /\ fst (sscanf_run h fmt input acc)
         = Z.of_nat (length (snd (sscanf_run h fmt input acc))).
Proof.
  assert (forall input_failure acc, acc <> [] ->
            scan_stop input_failure acc = (Z.of_nat (length acc), acc)) as Hstop.
  { intros b acc Hacc. unfold scan_stop. by destruct acc. }
  induction fmt as [|d fmt IH]; intros input acc Hacc.
  - exists []. simpl. by rewrite app_nil_r.
  - destruct d as [c| |width stop|]; simpl.
    + destruct input as [|x rest].
      * rewrite Hstop by done. exists []. simpl. by rewrite app_nil_r.
      * destruct (x =? c); [by apply IH|].
        rewrite Hstop by done. exists []. simpl. by rewrite app_nil_r.
    + by apply IH.
    + destruct input as [|x rest].
      * rewrite Hstop by done. exists []. simpl. by rewrite app_nil_r.
      * destruct (take width (span_while (fun c => negb (c =? stop)) (x :: rest)))
          as [|y tok] eqn:Etok.
        -- rewrite Hstop by done. exists []. simpl. by rewrite app_nil_r.
        -- destruct (IH (drop (length (y :: tok)) (x :: rest)) (acc ++ [SStr (y :: tok)]))
             as (more & Hs & Hf); [by destruct acc|].
           exists (SStr (y :: tok) :: more). split; [|exact Hf].
           rewrite Hs. by rewrite <- app_assoc.
    + destruct (skip_space input) as [|x rest] eqn:Esk.
      * rewrite Hstop by done. exists []. simpl. by rewrite app_nil_r.
      * destruct (scan_int h (x :: rest)) as [[z rest']|].
        -- destruct (IH rest' (acc ++ [SInt z])) as (more & Hs & Hf);
             [by destruct acc|].
           exists (SInt z :: more). split; [|exact Hf].
           rewrite Hs. by rewrite <- app_assoc.
        -- rewrite Hstop by done. exists []. simpl. by rewrite app_nil_r.
Qed.

Lemma has_prefix_imd (line : list Z) :
  has_prefix (bytes_of_string "IMD ") line = true ->
  exists rest, line = lit_I :: lit_M :: lit_D :: 32 :: rest.
Proof.
  unfold has_prefix. intros H. apply bool_decide_eq_true in H.
  change (bytes_of_string "IMD ") with [lit_I; lit_M; lit_D; 32] in H.
  simpl in H.
  destruct line as [|a [|b [|c [|d rest]]]]; simpl in H; try discriminate.
  injection H as -> -> -> ->. by exists rest.
Qed.

(** What the two scans yield for the version on a line with the prefix. *)
Lemma scans_of_version (h : Host) (line : list Z) :
  has_prefix (bytes_of_string "IMD ") line = true ->
  match version_token line with
  | [] => snd (sscanf h line header_format) = []
          /\ fst (sscanf h line header_format) <= 0
          /\ snd (sscanf h line version_format) = []
          /\ fst (sscanf h line version_format) <= 0
  | tok => (exists more, snd (sscanf h line header_format) = SStr tok :: more)
           /\ 1 <= fst (sscanf h line header_format)
           /\ sscanf h line version_format = (1, [SStr tok])
  end.
Proof.
  intros Hp. destruct (has_prefix_imd line Hp) as (rest & ->).
  assert (forall tail,
            match version_token (lit_I :: lit_M :: lit_D :: 32 :: rest) with
            | [] =>
                sscanf_run h (DLit lit_I :: DLit lit_M :: DLit lit_D :: DSpace
                              :: DScanset 31 lit_colon :: tail)
                  (lit_I :: lit_M :: lit_D :: 32 :: rest) []
                = scan_stop (bool_decide (skip_space rest = [])) []
            | tok =>
                sscanf_run h (DLit lit_I :: DLit lit_M :: DLit lit_D :: DSpace
                              :: DScanset 31 lit_colon :: tail)
                  (lit_I :: lit_M :: lit_D :: 32 :: rest) []
                = sscanf_run h tail (drop (length tok) (skip_space rest)) [SStr tok]
            end) as Hgen.
  { intros tail. unfold version_token. cbn [drop sscanf_run].
    rewrite !Z.eqb_refl.
    change (skip_space (32 :: rest)) with (skip_space rest).
    destruct (skip_space rest) as [|x input] eqn:Esk; [done|].
    destruct (take 31 (span_while (fun c => negb (c =? lit_colon)) (x :: input)));
      done. }
  unfold sscanf, header_format, version_format.
  pose proof (Hgen [DLit lit_colon]) as Hv.
  match goal with
  | |- context [DScanset 31 lit_colon :: DLit lit_colon :: ?t] =>
      pose proof (Hgen (DLit lit_colon :: t)) as Hh
  end.
  destruct (version_token (lit_I :: lit_M :: lit_D :: 32 :: rest)) as [|y tok].
  - rewrite Hh, Hv. unfold scan_stop.
    destruct (bool_decide (skip_space rest = [])); cbn; repeat split; lia.
  - rewrite Hh, Hv. split; [|split].
    + match goal with
      | |- exists more, snd (sscanf_run h ?fmt ?inp ?acc) = _ =>
          destruct (sscanf_run_acc h fmt inp acc) as (more & Hs & _); [done|]
      end.
      exists more. exact Hs.
    + match goal with
      | |- 1 <= fst (sscanf_run h ?fmt ?inp ?acc) =>
          destruct (sscanf_run_acc h fmt inp acc) as (more & Hs & Hf); [done|]
      end.
      rewrite Hf, Hs. simpl. lia.
    + destruct (drop (length (y :: tok)) (skip_space rest)) as [|c rest']; [done|].
      cbn. by destruct (c =? lit_colon).
Qed.

Lemma date_time_range_spec (hi : ImdHeaderInfo) :
  date_time_out_of_range hi = false <-> date_time_in_range hi.
Proof.
  unfold date_time_out_of_range, date_time_in_range.
  rewrite !orb_false_iff. lia.
Qed.

(** C9: [imd_read_file_header] on a stream.  When [fgets] yields no line
    (a read fault, or the end of the input before any character) the
    result is [IMD_ERR_READ_ERROR]; when the line, cut at its first CR or
    LF, does not begin with ["IMD "] the result is [IMD_ERR_READ_ERROR];
    otherwise the result is 0, and the structure written through
    [header_info] has as version the version field of the line when it is
    not empty and ["Unknown"] when it is; its six date and time fields
    are zero as soon as the scan converted fewer than seven fields or one
    of them is out of range, and are the scanned values otherwise. *)
Theorem read_file_header_outcome (h : Host) (f : FILE) (want_info : bool)
    (buf_size : option Z) :
  let '(rc, _, info, _) := imd_read_file_header h (Some f) want_info buf_size in
  match fgets LIBIMD_MAX_HEADER_LINE (clearerr f) with
  | (None, _) => rc = IMD_ERR_READ_ERROR
  | (Some raw, _) =>
      let line := cut_at_newline (c_string raw) in
      if has_prefix (bytes_of_string "IMD ") line then
        rc = 0 /\
        (want_info = true ->
         exists hi,
           info = Some hi
           /\ version hi = match version_token line with
                           | [] => bytes_of_string "Unknown"
                           | tok => tok
                           end
           /\ let fields := fst (sscanf h line header_format) in
              let scanned := store_scanned zero_header
                               (snd (sscanf h line header_format)) in
              (fields < 7 \/ ~ date_time_in_range scanned -> date_time_zeroed hi)
              /\ (7 <= fields -> date_time_in_range scanned -> hi = scanned))
      else rc = IMD_ERR_READ_ERROR
  end.
Proof.
  unfold imd_read_file_header.
  destruct (fgets LIBIMD_MAX_HEADER_LINE (clearerr f)) as [[raw|] f1]; [|done].
  cbv zeta.
  destruct (has_prefix (bytes_of_string "IMD ") (cut_at_newline (c_string raw)))
    eqn:Hp; [|done].
  cbn [negb]. split; [done|]. intros ->.
  set (line := cut_at_newline (c_string raw)) in *.
  eexists. split; [reflexivity|].
  pose proof (scans_of_version h line Hp) as Hv.
  unfold parse_header_line.
  destruct (sscanf h line header_format) as [fields vals] eqn:Es.
  cbn [fst snd] in *.
  destruct (Z.ltb_spec fields 7) as [Hlt|Hge].
  - destruct (sscanf h line version_format) as [got vals2] eqn:Es2.
    cbn [fst snd] in *.
    destruct (version_token line) as [|y tok] eqn:Etok.
    + destruct Hv as (-> & _ & -> & Hgot).
      destruct (Z.eqb_spec got 1); [lia|]. cbn.
      split; [done|]. split; [|intros; lia].
      intros _. by repeat split.
    + destruct Hv as ((more & ->) & _ & Hv2). injection Hv2 as -> ->.
      cbn. split; [done|]. split; [|intros; lia].
      intros _. by repeat split.
  - destruct (version_token line) as [|y tok] eqn:Etok.
    + destruct Hv as (_ & Hle & _). lia.
    + destruct Hv as ((more & ->) & _ & _).
      destruct (date_time_out_of_range (store_scanned zero_header (SStr (y :: tok) :: more)))
        eqn:Hr.
      * split; [done|]. split; [intros _; by repeat split|].
        intros _ Hin. apply date_time_range_spec in Hin. congruence.
      * split; [done|]. split; [|done].
        intros [Hlt|Hout]; [lia|].
        exfalso. apply Hout. by apply date_time_range_spec.
Qed.

(** C9 (witness): a header line whose month is out of range. *)
Lemma read_file_header_outcome_witness :
  exists hi f' c,
    imd_read_file_header host_ok
      (Some (file_of (bytes_of_string "IMD 1.18: 25/13/2024 10:30:00" ++ [13; 10])))
      true None = (0, f', Some hi, c)
    /\ version hi = bytes_of_string "1.18"
    /\ date_time_zeroed hi.
Proof.
  pose proof (read_file_header_outcome host_ok
                (file_of (bytes_of_string "IMD 1.18: 25/13/2024 10:30:00" ++ [13; 10]))
                true None) as H.
  destruct (imd_read_file_header _ _ _ _) as [[[rc f'] info] c] eqn:E.
  vm_compute in E. injection E as <- <- <- <-.
  eexists _, _, _. split; [reflexivity|].
  split; [reflexivity|]. vm_compute. repeat split.
Defined.

(** ** The in-place bubble sort *)

Lemma swap_adjacent_perm (l : list Z) :
  forall j, (Datatypes.S j < length l)%nat ->
    <[Datatypes.S j := l !!! j]> (<[j := l !!! Datatypes.S j]> l) ≡ₚ l.
Proof.
  induction l as [|x l IH]; intros j Hj; [simpl in Hj; lia|].
  destruct j as [|j].
  - destruct l as [|y l]; [simpl in Hj; lia|]. simpl. apply perm_swap.
  - simpl in Hj. simpl. apply perm_skip. apply IH. lia.
Qed.

Lemma bubble_step_length (j : Z) (s : list Z) :
  length (bubble_step j s) = length s.
Proof.
  unfold bubble_step. destruct (_ >? _); [|done].
  by rewrite !arr_set_length.
Qed.

Lemma bubble_step_perm (j : Z) (s : list Z) :
  0 <= j -> j + 1 < Z.of_nat (length s) -> bubble_step j s ≡ₚ s.
Proof.
  intros Hj Hlen. unfold bubble_step. destruct (_ >? _); [|done].
  unfold arr_set, arr_get.
  replace (Z.to_nat (j + 1)) with (Datatypes.S (Z.to_nat j)) by lia.
  apply swap_adjacent_perm. lia.
Qed.

(** The two slots hold the smaller and the larger of the two values, and
    every other slot is unchanged. *)
Lemma bubble_step_get (j k : Z) (s : list Z) :
  0 <= j -> j + 1 < Z.of_nat (length s) -> 0 <= k ->
  arr_get (bubble_step j s) k =
    if k =? j then Z.min (arr_get s j) (arr_get s (j + 1))
    else if k =? j + 1 then Z.max (arr_get s j) (arr_get s (j + 1))
    else arr_get s k.
Proof.
  intros Hj Hlen Hk. unfold bubble_step.
  destruct (Z.gtb_spec (arr_get s j) (arr_get s (j + 1))) as [Hgt|Hle].
  - rewrite arr_get_set by (rewrite ?arr_set_length; lia).
    rewrite arr_get_set by lia.
    destruct (Z.eqb_spec (j + 1) k), (Z.eqb_spec k j), (Z.eqb_spec j k),
             (Z.eqb_spec k (j + 1)); try lia; done.
  - destruct (Z.eqb_spec k j) as [->|]; [lia|].
    destruct (Z.eqb_spec k (j + 1)) as [->|]; [lia | done].
Qed.

Lemma bubble_pass_result (n i : Z) (s : list Z) :
  0 <= i -> i + 1 < n -> n <= Z.of_nat (length s) ->
  pass_result (n - i - 1) s (bubble_pass n i s).
Proof.
  intros Hi Hin Hn. unfold bubble_pass.
  set (m := n - i - 1).
  pose (P := fun (j : Z) (s' : list Z) =>
    length s' = length s /\ s' ≡ₚ s
    /\ (forall k, j < k -> arr_get s' k = arr_get s k)
    /\ (forall k, 0 <= k <= j -> exists q, 0 <= q <= j /\ arr_get s' k = arr_get s q)
    /\ (forall k, 0 <= k <= j -> arr_get s' k <= arr_get s' j)).
  assert (P (0 + Z.of_nat (Z.to_nat m)) (for_range 0 (Z.to_nat m) bubble_step s))
    as HP.
  { apply for_range_inv.
    - unfold P. repeat split; try done.
      + intros k Hk. exists 0. assert (k = 0) as -> by lia. split; [lia | done].
      + intros k Hk. assert (k = 0) as -> by lia. lia.
    - intros j s' Hj (Hlen & Hperm & Habove & Hfrom & Hmax).
      assert (j + 1 < Z.of_nat (length s')) as Hjl by (unfold m in Hj; lia).
      unfold P. split; [by rewrite bubble_step_length|].
      split; [by rewrite bubble_step_perm by lia|].
      split; [|split].
      + intros k Hk. rewrite bubble_step_get by lia.
        destruct (Z.eqb_spec k j); [lia|].
        destruct (Z.eqb_spec k (j + 1)); [lia|]. apply Habove. lia.
      + intros k Hk. rewrite bubble_step_get by lia.
        destruct (Z.eqb_spec k j) as [->|Hkj].
        * destruct (Z.min_spec (arr_get s' j) (arr_get s' (j + 1))) as [[_ ->]|[_ ->]].
          -- destruct (Hfrom j) as (q & Hq & ->); [lia|]. exists q. split; [lia|done].
          -- exists (j + 1). split; [lia|]. apply Habove. lia.
        * destruct (Z.eqb_spec k (j + 1)) as [->|Hkj1].
          -- destruct (Z.max_spec (arr_get s' j) (arr_get s' (j + 1))) as [[_ ->]|[_ ->]].
             ++ exists (j + 1). split; [lia|]. apply Habove. lia.
             ++ destruct (Hfrom j) as (q & Hq & ->); [lia|]. exists q. split; [lia|done].
          -- destruct (Hfrom k) as (q & Hq & ->); [lia|]. exists q. split; [lia|done].
      + intros k Hk. rewrite !bubble_step_get by lia.
        destruct (Z.eqb_spec (j + 1) j); [lia|]. rewrite Z.eqb_refl.
        destruct (Z.eqb_spec k j) as [->|Hkj]; [lia|].
        destruct (Z.eqb_spec k (j + 1)) as [->|Hkj1]; [lia|].
        specialize (Hmax k). lia. }
  replace (0 + Z.of_nat (Z.to_nat m)) with m in HP by (unfold m; lia).
  destruct HP as (Hlen & Hperm & Habove & Hfrom & Hmax).
  by constructor.
Qed.

Lemma bubble_sort_result (n : Z) (s : list Z) :
  n <= Z.of_nat (length s) -> sort_result n s (bubble_sort n s).
Proof.
  intros Hn. unfold bubble_sort.
  pose (P := fun (i : Z) (s' : list Z) =>
    length s' = length s /\ s' ≡ₚ s
    /\ (forall k, n <= k -> arr_get s' k = arr_get s k)
    /\ (forall p q, 0 <= p -> p < q -> q < n -> n - i <= q ->
                    arr_get s' p <= arr_get s' q)).
  assert (P (0 + Z.of_nat (Z.to_nat (n - 1)))
            (for_range 0 (Z.to_nat (n - 1)) (bubble_pass n) s)) as HP.
  { apply for_range_inv.
    - unfold P. repeat split; try done. intros; lia.
    - intros i s' Hi (Hlen & Hperm & Habove & Hord).
      destruct (bubble_pass_result n i s') as [Pl Pp Pa Pf Pm]; [lia | lia | lia |].
      unfold P. split; [congruence|]. split; [by rewrite Pp|]. split; [|].
      + intros k Hk. rewrite Pa by lia. by apply Habove.
      + intros p q Hp Hpq Hq Hqi.
        destruct (decide (q = n - i - 1)) as [->|Hne].
        * apply Pm. lia.
        * rewrite (Pa q) by lia.
          destruct (decide (p <= n - i - 1)) as [Hple|Hpgt].
          -- destruct (Pf p) as (p' & Hp' & ->); [lia|]. apply Hord; lia.
          -- rewrite (Pa p) by lia. apply Hord; lia. }
  destruct HP as (Hlen & Hperm & Habove & Hord).
  constructor; try done.
  intros p q Hp Hpq Hq. apply Hord; lia.
Qed.

(** The first [n] slots as a list. *)
Lemma prefix_lookup (s : list Z) (n k : Z) :
  0 <= k < n -> n <= Z.of_nat (length s) ->
  take (Z.to_nat n) s !! Z.to_nat k = Some (arr_get s k).
Proof.
  intros Hk Hn. rewrite lookup_take_lt by lia.
  unfold arr_get. apply list_lookup_lookup_total_lt. lia.
Qed.

Lemma sort_result_prefix_perm (n : Z) (s s' : list Z) :
  sort_result n s s' -> 0 <= n <= Z.of_nat (length s) ->
  take (Z.to_nat n) s' ≡ₚ take (Z.to_nat n) s.
Proof.
  intros [Hlen Hperm Habove _] Hn.
  assert (drop (Z.to_nat n) s' = drop (Z.to_nat n) s) as Hdrop.
  { apply list_eq. intros k. rewrite !lookup_drop.
    destruct (decide (Z.to_nat n + k < length s)%nat) as [Hlt|Hge].
    - specialize (Habove (Z.of_nat (Z.to_nat n + k))). unfold arr_get in Habove.
      rewrite Nat2Z.id in Habove.
      rewrite (list_lookup_lookup_total_lt s') by lia.
      rewrite (list_lookup_lookup_total_lt s) by lia.
      f_equal. apply Habove. lia.
    - rewrite !lookup_ge_None_2 by lia. done. }
  apply (Permutation_app_inv_r (drop (Z.to_nat n) s)).
  rewrite <- Hdrop at 1. by rewrite !take_drop.
Qed.

Lemma ordered_prefix_sorted (l : list Z) :
  (forall p q : nat, (p < q < length l)%nat -> l !!! p <= l !!! q) ->
  Sorted Z.le l.
Proof.
  induction l as [|x l IH]; intros Hord; [constructor|].
  constructor.
  - apply IH. intros p q Hpq.
    apply (Hord (Datatypes.S p) (Datatypes.S q)). simpl. lia.
  - destruct l as [|y l]; constructor.
    apply (Hord 0%nat 1%nat). simpl. lia.
Qed.

Lemma sort_result_prefix_sorted (n : Z) (s s' : list Z) :
  sort_result n s s' -> 0 <= n <= Z.of_nat (length s) ->
  Sorted Z.le (take (Z.to_nat n) s').
Proof.
  intros [Hlen _ _ Hord] Hn. apply ordered_prefix_sorted.
  intros p q Hpq. rewrite length_take in Hpq.
  rewrite !lookup_total_take.
  destruct (decide (p < Z.to_nat n)%nat); [|lia].
  destruct (decide (q < Z.to_nat n)%nat); [|lia].
  specialize (Hord (Z.of_nat p) (Z.of_nat q)). unfold arr_get in Hord.
  rewrite !Nat2Z.id in Hord. apply Hord; lia.
Qed.

(** The first [n] slots after the sort are the sorted list of the first
    [n] slots before it. *)
Lemma bubble_sort_merge_sort (n : Z) (s : list Z) :
  0 <= n <= Z.of_nat (length s) ->
  take (Z.to_nat n) (bubble_sort n s) = merge_sort Z.le (take (Z.to_nat n) s).
Proof.
  intros Hn.
  pose proof (bubble_sort_result n s (proj2 Hn)) as Hres.
  apply (Sorted_unique Z.le).
  - by eapply sort_result_prefix_sorted.
  - apply Sorted_merge_sort. apply _.
  - rewrite merge_sort_Permutation. by eapply sort_result_prefix_perm.
Qed.

(** ** Best-guess interleave detection *)

Lemma spec_pos_snoc (l : list Z) (x id : Z) :
  spec_pos (l ++ [x]) id = if x =? id then Some (length l) else spec_pos l id.
Proof.
  induction l as [|y l IH]; simpl.
  - by destruct (x =? id).
  - rewrite IH. by destruct (x =? id).
Qed.

Lemma spec_pos_lookup (l : list Z) (id : Z) (p : nat) :
  spec_pos l id = Some p -> l !! p = Some id.
Proof.
  revert p. induction l as [|y l IH]; intros p; simpl; [done|].
  destruct (spec_pos l id) as [q|].
  - intros [= <-]. simpl. by apply IH.
  - destruct (Z.eqb_spec y id) as [->|]; [|done]. by intros [= <-].
Qed.

Lemma spec_pos_elem (l : list Z) (id : Z) :
  id ∈ l -> exists p, spec_pos l id = Some p /\ (p < length l)%nat.
Proof.
  induction l as [|y l IH]; intros Hin; [by apply elem_of_nil in Hin|].
  simpl. destruct (spec_pos l id) as [q|] eqn:E.
  - exists (Datatypes.S q). split; [done|].
    apply spec_pos_lookup, lookup_lt_Some in E. lia.
  - apply elem_of_cons in Hin as [->|Hin].
    + rewrite Z.eqb_refl. exists 0%nat. split; [done | lia].
    + destruct (IH Hin) as (p & Hp & _). discriminate.
Qed.

(** After the first loop, [sector_pos] holds for every byte value the last
    index at which the sector map holds it, and the marker 0xFF when the
    sector map does not hold it. *)
Lemma build_sector_pos_spec (n : Z) (sm : list Z) (id : Z) :
  0 <= n <= 255 -> byte_array sm -> 0 <= id < 256 ->
  arr_get (build_sector_pos n sm) id
  = from_option Z.of_nat LIBIMD_INVALID_SECTOR_POS
      (spec_pos (take (Z.to_nat n) sm) id).
Proof.
  intros Hn Hsm Hid. unfold build_sector_pos.
  pose (P := fun (i : Z) (pos : list Z) =>
    length pos = 256%nat /\
    forall id', 0 <= id' < 256 ->
      arr_get pos id' = from_option Z.of_nat LIBIMD_INVALID_SECTOR_POS
                          (spec_pos (take (Z.to_nat i) sm) id')).
  assert (P (0 + Z.of_nat (Z.to_nat n))
            (for_range 0 (Z.to_nat n)
               (fun i pos => arr_set pos (arr_get sm i) (u8 i))
               (replicate 256 LIBIMD_INVALID_SECTOR_POS))) as [_ HP].
  { apply for_range_inv.
    - split; [by rewrite length_replicate|]. intros id' Hid'.
      unfold arr_get. rewrite lookup_total_replicate_2 by lia. done.
    - intros i pos Hi [Hl Hp].
      assert (is_byte (arr_get sm i)) as Hb by (apply byte_array_get; [done | lia]).
      unfold is_byte in Hb. destruct Hsm as [Hlen _].
      split; [by rewrite arr_set_length|]. intros id' Hid'.
      replace (Z.to_nat (i + 1)) with (Datatypes.S (Z.to_nat i)) by lia.
      rewrite (take_S_r sm (Z.to_nat i) (arr_get sm i))
        by (apply list_lookup_lookup_total_lt; lia).
      rewrite spec_pos_snoc, arr_get_set by lia.
      destruct (arr_get sm i =? id'); [|by apply Hp].
      simpl. rewrite length_take. unfold u8. rewrite Z.mod_small by lia. lia. }
  replace (Z.to_nat (0 + Z.of_nat (Z.to_nat n))) with (Z.to_nat n) in HP by lia.
  by apply HP.
Qed.

Lemma arr_get_take (s : list Z) (n i : Z) :
  0 <= i < n -> arr_get (take (Z.to_nat n) s) i = arr_get s i.
Proof.
  intros Hi. unfold arr_get. rewrite lookup_total_take.
  destruct (decide (Z.to_nat i < Z.to_nat n)%nat); [done | lia].
Qed.

(** The sorted copy of the sector map is the sorted list of its IDs. *)
Lemma sorted_smap_spec (n : Z) (sm : list Z) :
  0 <= n <= 255 -> length sm = 256%nat ->
  take (Z.to_nat n) (bubble_sort n (memcpy_arr zero_array sm n))
  = merge_sort Z.le (take (Z.to_nat n) sm).
Proof.
  intros Hn Hlen.
  rewrite bubble_sort_merge_sort
    by (rewrite memcpy_arr_length; rewrite ?zero_array_length; lia).
  f_equal. unfold memcpy_arr. apply take_app_length'.
  rewrite length_take. lia.
Qed.

(** The pairs of a list, by index. *)
Lemma spec_pairs_lookup (l : list Z) (n i : Z) :
  Z.of_nat (length l) = n -> 0 <= i < n ->
  spec_pairs l !! Z.to_nat i = Some (arr_get l i, arr_get l (Z.rem (i + 1) n)).
Proof.
  intros Hlen Hi. unfold spec_pairs, arr_get.
  rewrite lookup_zip_with.
  rewrite (list_lookup_lookup_total_lt l (Z.to_nat i)) by lia. simpl.
  destruct (decide (i + 1 < n)) as [Hlt|Hge].
  - rewrite Z.rem_small by lia.
    rewrite lookup_app_l by (rewrite length_drop; lia).
    rewrite lookup_drop.
    replace (1 + Z.to_nat i)%nat with (Z.to_nat (i + 1)) by lia.
    rewrite (list_lookup_lookup_total_lt l (Z.to_nat (i + 1))) by lia. done.
  - assert (i + 1 = n) as -> by lia.
    rewrite Z.rem_same by lia.
    rewrite lookup_app_r by (rewrite length_drop; lia).
    rewrite length_drop.
    replace (Z.to_nat i - (length l - 1))%nat with 0%nat by lia.
    rewrite lookup_take_lt by lia.
    rewrite (list_lookup_lookup_total_lt l 0) by lia. done.
Qed.

Lemma spec_pairs_length (l : list Z) : length (spec_pairs l) = length l.
Proof.
  unfold spec_pairs. rewrite length_zip_with, length_app, length_drop, length_take.
  lia.
Qed.

Lemma interleave_distance_mod (n pa pb : Z) :
  0 <= pa < n -> 0 <= pb < n ->
  interleave_distance n pa pb = (pb - pa) mod n.
Proof.
  intros Ha Hb. unfold interleave_distance.
  destruct (Z.geb_spec pb pa).
  - by rewrite Z.mod_small by lia.
  - apply (Z.mod_unique_pos _ _ (-1)); lia.
Qed.

(** The tallies the second loop leaves in [interleave_counts]. *)
Lemma count_distances_spec (n : Z) (sm : list Z) (d : Z) :
  2 <= n <= 255 -> byte_array sm -> 1 <= d < n ->
  arr_get (count_distances n (bubble_sort n (memcpy_arr zero_array sm n))
                           (build_sector_pos n sm)) d
  = spec_tally (take (Z.to_nat n) sm) d.
Proof.
  intros Hn Hsm Hd. pose proof Hsm as [Hlen Hall].
  set (ids := take (Z.to_nat n) sm).
  set (sorted := bubble_sort n (memcpy_arr zero_array sm n)).
  assert (Z.of_nat (length ids) = n) as Hids
    by (unfold ids; rewrite length_take; lia).
  assert (take (Z.to_nat n) sorted = merge_sort Z.le ids) as Hsorted
    by (apply sorted_smap_spec; [lia | done]).
  assert (Z.of_nat (length (merge_sort Z.le ids)) = n) as Hmlen
    by (rewrite merge_sort_Permutation; done).
  unfold spec_tally. rewrite Hids. fold ids.
  set (pairs := spec_pairs (merge_sort Z.le ids)).
  assert (length pairs = Z.to_nat n) as Hplen
    by (unfold pairs; rewrite spec_pairs_length; lia).
  (* every sorted ID has a position, which the first loop recorded *)
  assert (forall i, 0 <= i < n ->
            exists p, spec_pos ids (arr_get sorted i) = Some p
                      /\ (p < Z.to_nat n)%nat
                      /\ arr_get (build_sector_pos n sm) (arr_get sorted i)
                         = Z.of_nat p) as Hpos.
  { intros i Hi.
    assert (arr_get sorted i ∈ ids) as Hin.
    { assert (arr_get sorted i ∈ merge_sort Z.le ids) as Hin.
      { rewrite <- (arr_get_take sorted n i) by lia. rewrite Hsorted.
        unfold arr_get. apply list_elem_of_lookup_total_2. lia. }
      by rewrite merge_sort_Permutation in Hin. }
    destruct (spec_pos_elem ids _ Hin) as (p & Hp & Hlt).
    exists p. split; [done|]. split; [lia|].
    assert (is_byte (arr_get sorted i)) as Hb.
    { apply (proj1 (Forall_forall is_byte sm) Hall).
      apply elem_of_take in Hin as (k & Hk & _).
      by eapply list_elem_of_lookup_2. }
    unfold is_byte in Hb.
    rewrite build_sector_pos_spec by (try done; lia).
    fold ids. by rewrite Hp. }
  pose (Q := fun (i : Z) (counts : list Z) =>
    length counts = 256%nat /\
    forall d', 1 <= d' < n ->
      arr_get counts d'
      = Z.of_nat (length (filter (fun p => spec_distance n ids p.1 p.2 = Some d')
                                 (take (Z.to_nat i) pairs)))).
  unfold count_distances.
  match goal with
  | |- arr_get (for_range 0 (Z.to_nat n) ?body zero_array) d = _ =>
      assert (Q (0 + Z.of_nat (Z.to_nat n))
                (for_range 0 (Z.to_nat n) body zero_array)) as [_ HQ]
  end.
  { apply for_range_inv.
    - split; [done|]. intros d' Hd'. simpl. apply zero_array_get. lia.
    - intros i counts Hi [Hl Hc]. cbv zeta.
      assert (0 <= Z.rem (i + 1) n < n) as Hrem by (apply Z.rem_bound_pos; lia).
      destruct (Hpos i) as (pa & Hpa & Hpan & ->); [lia|].
      destruct (Hpos (Z.rem (i + 1) n)) as (pb & Hpb & Hpbn & ->); [lia|].
      unfold LIBIMD_INVALID_SECTOR_POS.
      destruct (Z.eqb_spec (Z.of_nat pa) 255); [lia|].
      destruct (Z.eqb_spec (Z.of_nat pb) 255); [lia|]. cbn [orb].
      rewrite interleave_distance_mod by lia.
      set (dist := (Z.of_nat pb - Z.of_nat pa) mod n).
      assert (0 <= dist < n) as Hdist by (apply Z.mod_pos_bound; lia).
      assert (pairs !! Z.to_nat i
              = Some (arr_get sorted i, arr_get sorted (Z.rem (i + 1) n))) as Hpair.
      { unfold pairs. rewrite (spec_pairs_lookup _ n i) by (done || lia).
        rewrite <- Hsorted. by rewrite !arr_get_take by lia. }
      assert (spec_distance n ids (arr_get sorted i) (arr_get sorted (Z.rem (i + 1) n))
              = Some dist) as Hsd.
      { unfold spec_distance. by rewrite Hpa, Hpb. }
      split.
      { destruct ((dist >? 0) && (dist <? n)); [by rewrite arr_set_length | done]. }
      intros d' Hd'.
      replace (Z.to_nat (i + 1)) with (Datatypes.S (Z.to_nat i)) by lia.
      rewrite (take_S_r _ _ _ Hpair), filter_app, length_app.
      destruct (decide (dist = d')) as [Heq|Hne].
      + rewrite filter_cons_True by (simpl; rewrite Hsd; congruence).
        destruct (Z.gtb_spec dist 0); [|lia].
        destruct (Z.ltb_spec dist n); [|lia]. cbn [andb].
        rewrite Heq, arr_get_set_eq by lia.
        rewrite Hc by done.
        pose proof (length_filter (fun p => spec_distance n ids p.1 p.2 = Some d')
                      (take (Z.to_nat i) pairs)) as Hle.
        rewrite length_take in Hle.
        unfold u8. rewrite Z.mod_small by lia. simpl. lia.
      + rewrite filter_cons_False by (simpl; rewrite Hsd; congruence).
        simpl. rewrite Nat.add_0_r, <- Hc by done.
        destruct ((dist >? 0) && (dist <? n)); [|done].
        apply arr_get_set_ne. lia. }
  rewrite HQ by done.
  replace (Z.to_nat (0 + Z.of_nat (Z.to_nat n))) with (length pairs) by lia.
  by rewrite firstn_all.
Qed.

(** The last loop returns the first index in 1..n-1 that holds the
    greatest count. *)
Lemma pick_best_spec (n : Z) (counts : list Z) :
  2 <= n ->
  (forall d, 1 <= d < n -> 0 <= arr_get counts d) ->
  let r := snd (pick_best n counts) in
  1 <= r < n /\
  forall d, 1 <= d < n ->
    arr_get counts d <= arr_get counts r
    /\ (arr_get counts d = arr_get counts r -> r <= d).
Proof.
  intros Hn Hnonneg r.
  pose (P := fun (i : Z) (st : Z * Z) =>
    1 <= snd st
    /\ (forall d, 1 <= d < i ->
          arr_get counts d <= fst st /\ (arr_get counts d = fst st -> snd st <= d))
    /\ ((fst st = arr_get counts (snd st) /\ snd st < i)
        \/ (i = 1 /\ st = (0, 1)))).
  assert (P (1 + Z.of_nat (Z.to_nat (n - 1))) (pick_best n counts)) as HP.
  { unfold pick_best. apply for_range_inv.
    - unfold P. simpl. split; [lia|]. split; [intros; lia | by right].
    - intros i [mx best] Hi (Hb & Hall & Hlast). unfold P in *. simpl in *.
      specialize (Hnonneg i).
      destruct (Z.gtb_spec (arr_get counts i) mx) as [Hgt|Hle]; simpl.
      + split; [lia|]. split; [|left; split; [done | lia]].
        intros d Hd. destruct (decide (d = i)) as [->|Hne]; [lia|].
        specialize (Hall d). lia.
      + split; [done|]. split.
        * intros d Hd. destruct (decide (d = i)) as [->|Hne].
          -- split; [done|]. intros _.
             destruct Hlast as [[_ ?]|[? [= _ ->]]]; lia.
          -- apply Hall. lia.
        * left. destruct Hlast as [[? ?]|[-> [= -> ->]]]; [lia|].
          split; lia. }
  replace (1 + Z.of_nat (Z.to_nat (n - 1))) with n in HP by lia.
  subst r. destruct (pick_best n counts) as [mx best].
  destruct HP as (Hb & Hall & Hlast). simpl in *.
  destruct Hlast as [[Hmx Hlt]|[? _]]; [|lia].
  split; [lia|]. intros d Hd. rewrite <- Hmx. by apply Hall.
Qed.

(** C8: on a track with [n] sectors, [imd_calculate_best_interleave]
    returns 1 when [n < 2]; otherwise it returns the distance in 1..n-1
    with the highest tally over the consecutive pairs of the sorted sector
    IDs (the pair (last, first) included), where the distance of a pair is
    the forward distance between the physical positions of its IDs modulo
    [n], and the smallest such distance when several share the highest
    tally.  In particular it returns 2 on the sector map
    [1,5,2,6,3,7,4,8] and 1 on the sector map [1,2,3,4,5,6,7,8]. *)
Theorem best_interleave_highest_tally (t : ImdTrackInfo) :
  0 <= num_sectors t <= 255 -> byte_array (smap t) ->
  let ids := take (Z.to_nat (num_sectors t)) (smap t) in
  let r := imd_calculate_best_interleave t in
  (num_sectors t < 2 -> r = 1)
  /\ (2 <= num_sectors t -> highest_tally ids r)
  /\ (ids = [1; 5; 2; 6; 3; 7; 4; 8] -> r = 2)
  /\ (ids = [1; 2; 3; 4; 5; 6; 7; 8] -> r = 1).
Proof.
  intros Hn Hsm ids r.
  assert (Z.of_nat (length ids) = num_sectors t) as Hlen.
  { unfold ids. rewrite length_take. destruct Hsm as [-> _]. lia. }
  assert (2 <= num_sectors t -> highest_tally ids r) as Hmain.
  { intros H2. unfold highest_tally. rewrite Hlen.
    unfold r, imd_calculate_best_interleave.
    destruct (Z.ltb_spec (num_sectors t) 2); [lia|]. cbv zeta.
    set (counts := count_distances _ _ _).
    assert (forall d, 1 <= d < num_sectors t ->
              arr_get counts d = spec_tally ids d) as Hc.
    { intros d Hd. unfold counts. apply count_distances_spec; [lia | done | done]. }
    destruct (pick_best_spec (num_sectors t) counts) as [Hr Hbest]; [done | |].
    { intros d Hd. rewrite Hc by done. unfold spec_tally. lia. }
    split; [done|]. intros d Hd.
    rewrite <- !Hc by done. by apply Hbest. }
  split; [|split; [done|split]].
  - intros Hlt. unfold r, imd_calculate_best_interleave.
    destruct (Z.ltb_spec (num_sectors t) 2); [done | lia].
  - intros E. rewrite E in Hlen, Hmain. simpl in Hlen.
    destruct Hmain as [Hr Hbest]; [lia|].
    change (Z.of_nat (length [1; 5; 2; 6; 3; 7; 4; 8])) with 8 in *.
    specialize (Hbest 2).
    assert (r = 1 \/ r = 2 \/ r = 3 \/ r = 4 \/ r = 5 \/ r = 6 \/ r = 7)
      as Hcases by lia.
    destruct Hbest as [Hle _]; [lia|].
    repeat (destruct Hcases as [Hc | Hcases]);
      try (rewrite Hc in Hle; vm_compute in Hle; by exfalso); try done.
    rewrite Hcases in Hle; vm_compute in Hle; by exfalso.
  - intros E. rewrite E in Hlen, Hmain. simpl in Hlen.
    destruct Hmain as [Hr Hbest]; [lia|].
    change (Z.of_nat (length [1; 2; 3; 4; 5; 6; 7; 8])) with 8 in *.
    specialize (Hbest 1).
    assert (r = 1 \/ r = 2 \/ r = 3 \/ r = 4 \/ r = 5 \/ r = 6 \/ r = 7)
      as Hcases by lia.
    destruct Hbest as [Hle _]; [lia|].
    repeat (destruct Hcases as [Hc | Hcases]);
      try (rewrite Hc in Hle; vm_compute in Hle; by exfalso); try done.
    rewrite Hcases in Hle; vm_compute in Hle; by exfalso.
Qed.

(** C8 (witness): the track laid out with an interleave of 2. *)
Lemma best_interleave_highest_tally_witness :
  imd_calculate_best_interleave interleaved_track = 2
  /\ highest_tally [1; 5; 2; 6; 3; 7; 4; 8] 2.
Proof.
  assert (0 <= num_sectors interleaved_track <= 255) as Hn
    by (vm_compute; split; congruence).
  assert (byte_array (smap interleaved_track)) as Hsm
    by (apply byte_arrayb_sound; vm_compute; reflexivity).
  destruct (best_interleave_highest_tally interleaved_track Hn Hsm)
    as (_ & Hmain & Hex & _).
  assert (imd_calculate_best_interleave interleaved_track = 2) as E
    by (apply Hex; reflexivity).
  split; [exact E|].
  rewrite <- E. apply Hmain. vm_compute. congruence.
Defined.

(** ** Writing a sector through the image layer *)

(** On the eight data-bearing codes the code chosen after a
    force-decompress rewrite is the normal code with the documented status
    bits of the sector. *)
Lemma normal_code_for_data_codes (s : Z) :
  1 <= s <= 8 ->
  normal_code_for s = combine_flag IMD_SDR_NORMAL (documented_dam s) (documented_err s).
Proof.
  intros H.
  assert (s = 1 \/ s = 2 \/ s = 3 \/ s = 4 \/ s = 5 \/ s = 6 \/ s = 7 \/ s = 8)
    as Hs by lia.
  repeat (destruct Hs as [-> | Hs]); try subst s; reflexivity.
Qed.

(** C2 (failing input): the image holds one track whose sector 1 is
    compressed (0x02) and whose sector 2 is unavailable (0x00);
    [imdf_write_sector] writes non-uniform data to sector 1.  The call
    succeeds and takes the force-decompress path: sector 1 becomes 0x01,
    but the unavailable sector, which has neither status bit, is set to
    0x07 (deleted, with data error) in memory, while the rewritten file
    still records it as 0x00. *)
Theorem write_sector_decompress_marks_unavailable :
  exists imdf' f',
    imdf_write_sector host_ok compressed_unavailable_image 0 0 1
      (Some mixed_sector) 128 = Some (IMDF_ERR_OK, imdf')
    /\ file_ptr imdf' = Some f'
    /\ arr_get (sflag compressed_unavailable_track) 0 = IMD_SDR_COMPRESSED
    /\ arr_get (sflag compressed_unavailable_track) 1 = IMD_SDR_UNAVAILABLE
    /\ arr_get (sflag (track_at imdf' 0)) 0 = IMD_SDR_NORMAL
    /\ arr_get (sflag (track_at imdf' 0)) 1 = IMD_SDR_DELETED_ERR
    /\ last (f_content f') = Some IMD_SDR_UNAVAILABLE.
Proof.
  eexists _, _. split; [vm_compute; reflexivity|].
  split; [reflexivity|]. vm_compute. repeat split.
Qed.

(** ** Writing to a stream *)

Lemma write_at_app (a b : list Z) :
  forall content p,
    write_at content p (a ++ b)
    = write_at (write_at content p a) (p + Z.of_nat (length a)) b.
Proof.
  induction a as [|x a IH]; intros content p; simpl.
  - by rewrite Z.add_0_r.
  - rewrite IH. f_equal. lia.
Qed.

Lemma wrote_nil (f : FILE) : wrote f f [].
Proof. split; simpl; [done | lia]. Qed.

Lemma wrote_app (f f1 f2 : FILE) (a b : list Z) :
  wrote f f1 a -> wrote f1 f2 b -> wrote f f2 (a ++ b).
Proof.
  intros [Ha Hpa] [Hb Hpb]. split.
  - by rewrite Hb, Ha, Hpa, write_at_app.
  - rewrite Hpb, Hpa, length_app. lia.
Qed.

Lemma fputc_wrote (c : Z) (f f' : FILE) :
  fputc c f = Some f' -> wrote f f' [u8 c].
Proof.
  unfold fputc. destruct (write_refused f (f_pos f)); [done|].
  intros [= <-]. split; simpl; [done | lia].
Qed.

Lemma fputc_all_wrote (cs : list Z) :
  forall f f', fputc_all cs f = inl f' -> wrote f f' (map u8 cs).
Proof.
  induction cs as [|c cs IH]; intros f f'; simpl.
  - intros [= <-]. apply wrote_nil.
  - destruct (fputc c f) as [f1|] eqn:E; [|done]. intros H.
    apply (wrote_app f f1 f' [u8 c]); [by apply fputc_wrote | by apply IH].
Qed.

Lemma fwrite_wrote (buf : list Z) :
  forall f k f',
    fwrite buf f = (k, f') -> k = Z.of_nat (length buf) ->
    wrote f f' (map u8 buf).
Proof.
  induction buf as [|b buf IH]; intros f k f'; simpl.
  - intros [= <- <-] _. apply wrote_nil.
  - destruct (fputc b f) as [f1|] eqn:E.
    + destruct (fwrite buf f1) as [k1 f2] eqn:E1. intros [= <- <-] Hk.
      apply (wrote_app f f1 f2 [u8 b]); [by apply fputc_wrote|].
      apply (IH f1 k1); [done | lia].
    + intros [= <- <-] Hk. lia.
Qed.

Lemma write_bytes_wrote (buf : list Z) (f f' : FILE) :
  write_bytes buf f = (0, f') -> wrote f f' (map u8 buf).
Proof.
  unfold write_bytes.
  destruct (Z.eqb_spec (Z.of_nat (length buf)) 0) as [H0|Hn0].
  - intros [= <-]. destruct buf; [apply wrote_nil | simpl in H0; lia].
  - destruct (fwrite buf f) as [k f1] eqn:E.
    destruct (Z.eqb_spec k (Z.of_nat (length buf))) as [Hk|Hk]; simpl.
    + intros [= <-]. by eapply fwrite_wrote.
    + by intros [= ? ?].
Qed.

Section LoopExits.
Context {S R : Type}.

(** Whatever a [for_range_exit] loop leaves with was produced by its body. *)
Lemma for_range_exit_inr (Q : R -> Prop) (body : Z -> S -> S + R) :
  (forall i s r, body i s = inr r -> Q r) ->
  forall count start s r, for_range_exit start count body s = inr r -> Q r.
Proof.
  intros HQ. induction count as [|k IH]; intros start s r; simpl; [done|].
  destruct (body start s) as [s'|r'] eqn:E.
  - apply IH.
  - intros [= <-]. by eapply HQ.
Qed.
End LoopExits.

(** ** The bytes of a track record *)

Lemma write_track_maps_wrote (t : ImdTrackInfo) (f f' : FILE) :
  write_track_maps t f = inl f' -> wrote f f' (map u8 (map_bytes t)).
Proof.
  unfold write_track_maps, map_bytes.
  destruct (num_sectors t >? 0); [|intros [= <-]; apply wrote_nil].
  destruct (write_bytes (buf_read (smap t) 0 (num_sectors t)) f) as [r1 f1] eqn:E1.
  destruct (Z.eq_dec r1 0) as [->|Hr1]; [|by destruct r1].
  apply write_bytes_wrote in E1.
  destruct (truthy (Z.land (hflag t) IMD_HFLAG_CMAP_PRES)).
  - destruct (write_bytes (buf_read (cmap t) 0 (num_sectors t)) f1) as [r2 f2] eqn:E2.
    destruct (Z.eq_dec r2 0) as [->|Hr2]; [|by destruct r2].
    apply write_bytes_wrote in E2.
    destruct (truthy (Z.land (hflag t) IMD_HFLAG_HMAP_PRES)).
    + destruct (write_bytes (buf_read (hmap t) 0 (num_sectors t)) f2) as [r3 f3] eqn:E3.
      destruct (Z.eq_dec r3 0) as [->|Hr3]; [|by destruct r3].
      apply write_bytes_wrote in E3. intros [= <-].
      rewrite !map_app. eauto using wrote_app.
    + intros [= <-]. rewrite !map_app, app_nil_r. eauto using wrote_app.
  - destruct (truthy (Z.land (hflag t) IMD_HFLAG_HMAP_PRES)).
    + destruct (write_bytes (buf_read (hmap t) 0 (num_sectors t)) f1) as [r3 f3] eqn:E3.
      destruct (Z.eq_dec r3 0) as [->|Hr3]; [|by destruct r3].
      apply write_bytes_wrote in E3. intros [= <-].
      rewrite !map_app. simpl. eauto using wrote_app.
    + intros [= <-]. rewrite !map_app, !app_nil_r. done.
Qed.

Lemma write_track_maps_error (t : ImdTrackInfo) (f : FILE) (e : Z * FILE) :
  write_track_maps t f = inr e -> fst e <> 0.
Proof.
  unfold write_track_maps.
  repeat match goal with
         | |- context [match ?x with _ => _ end] => destruct x
         | |- context [if ?x then _ else _] => destruct x
         end;
    intros [= <-]; done.
Qed.

Lemma write_sector_record_wrote (t : ImdTrackInfo) (final_sflag : list Z)
    (i : Z) (f f' : FILE) :
  write_sector_record t final_sflag i f = inl f' ->
  wrote f f' (map u8 (record_bytes t final_sflag i)).
Proof.
  unfold write_sector_record, record_bytes.
  destruct (fputc (arr_get final_sflag i) f) as [f1|] eqn:E1; [|done].
  apply fputc_wrote in E1. simpl map.
  destruct (IMD_SDR_HAS_DATA (arr_get final_sflag i));
    [|intros [= <-]; simpl; done].
  destruct (IMD_SDR_IS_COMPRESSED (arr_get final_sflag i)).
  - destruct (sector_pointer t i) as [p|]; [|done].
    destruct (fputc _ f1) as [f2|] eqn:E2; [|done]. intros [= <-].
    apply fputc_wrote in E2. apply (wrote_app f f1 f2 [_] [_]); done.
  - destruct (sector_size t >? 0);
      [|intros [= <-]; simpl; done].
    destruct (sector_pointer t i) as [p|]; [|done].
    destruct (write_bytes (buf_read p 0 (sector_size t)) f1) as [r f2] eqn:E2.
    destruct (Z.eq_dec r 0) as [->|Hr]; [|by destruct r].
    intros [= <-]. apply write_bytes_wrote in E2.
    apply (wrote_app f f1 f2 [_]); done.
Qed.

Lemma write_sector_record_error (t : ImdTrackInfo) (final_sflag : list Z)
    (i : Z) (f : FILE) (e : Z * FILE) :
  write_sector_record t final_sflag i f = inr e -> fst e <> 0.
Proof.
  unfold write_sector_record.
  repeat match goal with
         | |- context [match ?x with _ => _ end] => destruct x
         | |- context [if ?x then _ else _] => destruct x
         end;
    intros [= <-]; done.
Qed.

Lemma write_sector_records_wrote (t : ImdTrackInfo) (final_sflag : list Z)
    (count : nat) :
  forall start f f',
    for_range_exit start count (write_sector_record t final_sflag) f = inl f' ->
    wrote f f' (map u8 (records_from t final_sflag start count)).
Proof.
  induction count as [|k IH]; intros start f f';
    cbn [for_range_exit records_from].
  - intros [= <-]. apply wrote_nil.
  - destruct (write_sector_record t final_sflag start f) as [f1|e] eqn:E; [|done].
    intros H. rewrite map_app.
    apply (wrote_app f f1 f'); [by apply write_sector_record_wrote | by apply IH].
Qed.

(** ** The flags chosen for the records of a track *)

(** A loop that leaves at the first index satisfying a test. *)
Lemma for_range_exit_search {R : Type} (c : Z -> bool) (r : Z -> R) :
  forall count start,
    (for_range_exit start count
       (fun i (_ : unit) => if c i then inr (r i) else inl tt) tt = inl tt
     /\ forall i, start <= i < start + Z.of_nat count -> c i = false)
    \/ (exists i, start <= i < start + Z.of_nat count /\ c i = true
          /\ (forall j, start <= j < i -> c j = false)
          /\ for_range_exit start count
               (fun i (_ : unit) => if c i then inr (r i) else inl tt) tt
             = inr (r i)).
Proof.
  induction count as [|k IH]; intros start; cbn [for_range_exit].
  - left. split; [done | intros; lia].
  - destruct (c start) eqn:E.
    + right. exists start. repeat split; [lia | lia | done | intros; lia].
    + destruct (IH (start + 1)) as [[Hl Hall]|(i & Hi & Hc & Hbefore & Hr)].
      * left. split; [done|]. intros i Hi.
        destruct (decide (i = start)) as [->|]; [done | apply Hall; lia].
      * right. exists i. split; [lia|]. split; [done|]. split; [|done].
        intros j Hj. destruct (decide (j = start)) as [->|]; [done|].
        apply Hbefore. lia.
Qed.

(** [imd_is_uniform] on a buffer that holds the [size] bytes it reads. *)
Lemma imd_is_uniform_spec (p : list Z) (size fill_in : Z) :
  0 < size -> size <= Z.of_nat (length p) ->
  (fst (imd_is_uniform (Some p) size fill_in) = 1
   /\ uniform (take (Z.to_nat size) p))
  \/ (fst (imd_is_uniform (Some p) size fill_in) = 0
      /\ ~ uniform (take (Z.to_nat size) p)).
Proof.
  intros Hsize Hlen. unfold imd_is_uniform.
  destruct (Z.eqb_spec size 0); [lia|].
  assert (forall k, 0 <= k < size ->
            take (Z.to_nat size) p !! Z.to_nat k = Some (arr_get p k)) as Hget.
  { intros k Hk. rewrite lookup_take_lt by lia. unfold arr_get.
    apply list_lookup_lookup_total_lt. lia. }
  pose proof (for_range_exit_search
                (fun i => negb (arr_get p i =? arr_get p 0)) (fun _ => 0)
                (Z.to_nat (size - 1)) 1) as H.
  cbv beta in H. destruct H as [[-> Hall]|(i & Hi & Hc & _ & ->)]; cbn [fst].
  - left. split; [done|].
    assert (forall x, x ∈ take (Z.to_nat size) p -> x = arr_get p 0) as Hx.
    { intros x Hin. apply elem_of_take in Hin as (k & Hk & Hlt).
      destruct (decide (k = 0%nat)) as [->|Hne].
      - unfold arr_get. simpl. symmetry. by apply list_lookup_total_correct.
      - specialize (Hall (Z.of_nat k)). rewrite negb_false_iff in Hall.
        apply Z.eqb_eq in Hall; [|lia]. rewrite <- Hall.
        unfold arr_get. rewrite Nat2Z.id. symmetry.
        by apply list_lookup_total_correct. }
    intros x y Hxin Hyin. by rewrite (Hx x), (Hx y).
  - right. split; [done|]. intros Hu.
    apply negb_true_iff, Z.eqb_neq in Hc. apply Hc. apply Hu.
    + eapply list_elem_of_lookup_2. apply Hget. lia.
    + eapply list_elem_of_lookup_2. apply (Hget 0). lia.
Qed.

(** The flag a sector gets does not depend on the flags chosen before. *)
Lemma process_sector_flag_indep (opts : ImdWriteOpts) (t : ImdTrackInfo)
    (i : Z) (fs fs' : list Z) :
  process_sector_flag opts t i fs = inl fs' ->
  exists v, fs' = arr_set fs i v
            /\ forall fs2, process_sector_flag opts t i fs2 = inl (arr_set fs2 i v).
Proof.
  unfold process_sector_flag.
  destruct (arr_get (sflag t) i =? IMD_SDR_UNAVAILABLE).
  - intros [= <-]. by eexists.
  - destruct (is_null (sector_pointer t i) && (sector_size t >? 0)); [done|].
    intros [= <-]. by eexists.
Qed.

Lemma process_sector_flag_error (opts : ImdWriteOpts) (t : ImdTrackInfo)
    (i : Z) (fs : list Z) (rc : Z) :
  process_sector_flag opts t i fs = inr rc -> rc <> 0.
Proof.
  unfold process_sector_flag.
  destruct (arr_get (sflag t) i =? IMD_SDR_UNAVAILABLE); [done|].
  destruct (is_null (sector_pointer t i) && (sector_size t >? 0)); [|done].
  by intros [= <-].
Qed.

(** Every entry of [final_sflag] is the flag its own iteration chose. *)
Lemma process_sector_flags_get (opts : ImdWriteOpts) (t : ImdTrackInfo)
    (flags : list Z) (i : Z) :
  num_sectors t <= 256 ->
  process_sector_flags opts t = inl flags ->
  0 <= i < num_sectors t ->
  process_sector_flag opts t i zero_array
  = inl (arr_set zero_array i (arr_get flags i)).
Proof.
  intros Hn Hrun Hi. unfold process_sector_flags in Hrun.
  pose (P := fun (k : Z) (fs : list Z) =>
    length fs = 256%nat /\
    forall j, 0 <= j < k ->
      process_sector_flag opts t j zero_array
      = inl (arr_set zero_array j (arr_get fs j))).
  assert (P (0 + Z.of_nat (Z.to_nat (num_sectors t))) flags) as [_ HP].
  { eapply (for_range_exit_inl P); [exact Hrun | |].
    - split; [done | intros; lia].
    - intros k fs fs' Hk [Hl Hprev] Hstep.
      destruct (process_sector_flag_indep _ _ _ _ _ Hstep) as (v & -> & Hv).
      split; [by rewrite arr_set_length|]. intros j Hj.
      destruct (decide (j = k)) as [->|Hne].
      + rewrite arr_get_set_eq by lia. apply Hv.
      + rewrite arr_get_set_ne by lia. apply Hprev. lia. }
  apply HP. lia.
Qed.

(** ** Heap buffers *)

Lemma buf_read_length (b : list Z) (off len : Z) :
  0 <= off -> 0 <= len -> off + len <= Z.of_nat (length b) ->
  Z.of_nat (length (buf_read b off len)) = len.
Proof.
  intros Hoff Hlen Hb. unfold buf_read. rewrite length_take, length_drop. lia.
Qed.

Lemma buf_write_length (b : list Z) (off : Z) (src : list Z) :
  0 <= off -> off + Z.of_nat (length src) <= Z.of_nat (length b) ->
  length (buf_write b off src) = length b.
Proof.
  intros Hoff Hb. unfold buf_write.
  rewrite !length_app, length_take, length_drop. lia.
Qed.

Lemma buf_write_lookup (b : list Z) (off : Z) (src : list Z) (k : nat) :
  0 <= off -> off + Z.of_nat (length src) <= Z.of_nat (length b) ->
  buf_write b off src !! k =
    if decide (k < Z.to_nat off)%nat then b !! k
    else if decide (k < Z.to_nat off + length src)%nat
         then src !! (k - Z.to_nat off)%nat
         else b !! k.
Proof.
  intros Hoff Hb. unfold buf_write.
  destruct (decide (k < Z.to_nat off)%nat) as [Hlt|Hge].
  - rewrite lookup_app_l by (rewrite length_take; lia).
    by rewrite lookup_take_lt.
  - rewrite lookup_app_r by (rewrite length_take; lia).
    rewrite length_take.
    replace (k - Z.to_nat off `min` length b)%nat with (k - Z.to_nat off)%nat by lia.
    destruct (decide (k < Z.to_nat off + length src)%nat) as [Hin|Hout].
    + by rewrite lookup_app_l by lia.
    + rewrite lookup_app_r by lia. rewrite lookup_drop. f_equal. lia.
Qed.

Lemma buf_read_lookup (b : list Z) (off len : Z) (k : nat) :
  buf_read b off len !! k =
    if decide (k < Z.to_nat len)%nat then b !! (Z.to_nat off + k)%nat else None.
Proof.
  unfold buf_read. destruct (decide (k < Z.to_nat len)%nat).
  - by rewrite lookup_take_lt, lookup_drop.
  - by rewrite lookup_take_ge by lia.
Qed.

Lemma buf_read_write_same (b : list Z) (off : Z) (src : list Z) :
  0 <= off -> off + Z.of_nat (length src) <= Z.of_nat (length b) ->
  buf_read (buf_write b off src) off (Z.of_nat (length src)) = src.
Proof.
  intros Hoff Hb. apply list_eq. intros k.
  rewrite buf_read_lookup, Nat2Z.id.
  destruct (decide (k < length src)%nat) as [Hlt|Hge].
  - rewrite buf_write_lookup by done.
    destruct (decide (Z.to_nat off + k < Z.to_nat off)%nat); [lia|].
    destruct (decide (Z.to_nat off + k < Z.to_nat off + length src)%nat); [|lia].
    f_equal. lia.
  - symmetry. apply lookup_ge_None_2. lia.
Qed.

Lemma buf_read_write_other (b : list Z) (off off' len : Z) (src : list Z) :
  0 <= off -> 0 <= off' -> 0 <= len ->
  off + Z.of_nat (length src) <= Z.of_nat (length b) ->
  off' + len <= off \/ off + Z.of_nat (length src) <= off' ->
  buf_read (buf_write b off src) off' len = buf_read b off' len.
Proof.
  intros Hoff Hoff' Hlen Hb Hdisj. apply list_eq. intros k.
  rewrite !buf_read_lookup.
  destruct (decide (k < Z.to_nat len)%nat) as [Hlt|Hge]; [|done].
  rewrite buf_write_lookup by done.
  destruct (decide (Z.to_nat off' + k < Z.to_nat off)%nat); [done|].
  destruct (decide (Z.to_nat off' + k < Z.to_nat off + length src)%nat); [lia | done].
Qed.

Lemma buf_read_bytes (b : list Z) (off len : Z) :
  Forall is_byte b -> Forall is_byte (buf_read b off len).
Proof. intros H. unfold buf_read. by apply Forall_take, Forall_drop. Qed.

Lemma buf_write_bytes (b : list Z) (off : Z) (src : list Z) :
  Forall is_byte b -> Forall is_byte src -> Forall is_byte (buf_write b off src).
Proof.
  intros Hb Hs. unfold buf_write.
  repeat apply Forall_app_2; [by apply Forall_take | done | by apply Forall_drop].
Qed.

Lemma arr_set_bytes (a : list Z) (i v : Z) :
  byte_array a -> is_byte v -> byte_array (arr_set a i v).
Proof.
  intros [Hl Hall] Hv. split; [by rewrite arr_set_length|].
  unfold arr_set. by apply Forall_insert.
Qed.

Section MoreLoops.
Context {S : Type}.

(** A [for_range_opt] loop that returned kept the invariant. *)
Lemma for_range_opt_Some (P : Z -> S -> Prop) (body : Z -> S -> option S) :
  forall count start s sf,
    for_range_opt start count body s = Some sf ->
    P start s ->
    (forall i s' s'', start <= i < start + Z.of_nat count -> P i s' ->
                      body i s' = Some s'' -> P (i + 1) s'') ->
    P (start + Z.of_nat count) sf.
Proof.
  induction count as [|k IH]; intros start s sf Hrun H0 Hstep; simpl in Hrun.
  - injection Hrun as <-. rewrite ?Z.add_0_r; done.
  - destruct (body start s) as [s1|] eqn:Hb; [|done].
    assert (start + Z.of_nat (Datatypes.S k) = start + 1 + Z.of_nat k) as -> by lia.
    eapply IH; [exact Hrun | |].
    + eapply Hstep; [| exact H0 | exact Hb]. lia.
    + intros i s' s'' Hi. apply Hstep. lia.
Qed.

(** A loop that threads its state unchanged up to the first index
    satisfying a test, where it leaves. *)
Lemma for_range_exit_find {R : Type} (c : Z -> bool) (r : Z -> S -> R) (s : S) :
  forall count start,
    (for_range_exit start count
       (fun i s' => if c i then inr (r i s') else inl s') s = inl s
     /\ forall i, start <= i < start + Z.of_nat count -> c i = false)
    \/ (exists i, start <= i < start + Z.of_nat count /\ c i = true
          /\ (forall j, start <= j < i -> c j = false)
          /\ for_range_exit start count
               (fun i s' => if c i then inr (r i s') else inl s') s
             = inr (r i s)).
Proof.
  induction count as [|k IH]; intros start; cbn [for_range_exit].
  - left. split; [done | intros; lia].
  - destruct (c start) eqn:E.
    + right. exists start. repeat split; [lia | lia | done | intros; lia].
    + destruct (IH (start + 1)) as [[Hl Hall]|(i & Hi & Hc & Hbefore & Hr)].
      * left. split; [done|]. intros i Hi.
        destruct (decide (i = start)) as [->|]; [done | apply Hall; lia].
      * right. exists i. split; [lia|]. split; [done|]. split; [|done].
        intros j Hj. destruct (decide (j = start)) as [->|]; [done|].
        apply Hbefore. lia.
Qed.
End MoreLoops.

(** ** What [imd_apply_interleave] does to the sectors of a track *)

(** [logical_to_physical[i]] is the first index at which the original
    sector map holds the [i]-th sorted ID. *)
Lemma build_logical_to_physical_spec (n : Z) (osm sorted l2p : list Z) (i : Z) :
  0 <= n <= 255 ->
  build_logical_to_physical n osm sorted = inl l2p ->
  0 <= i < n ->
  0 <= arr_get l2p i < n
  /\ arr_get osm (arr_get l2p i) = arr_get sorted i
  /\ forall m, 0 <= m < arr_get l2p i -> arr_get osm m <> arr_get sorted i.
Proof.
  intros Hn Hrun Hi. unfold build_logical_to_physical in Hrun.
  pose (P := fun (k : Z) (l : list Z) =>
    length l = 256%nat /\
    forall j, 0 <= j < k ->
      0 <= arr_get l j < n
      /\ arr_get osm (arr_get l j) = arr_get sorted j
      /\ forall m, 0 <= m < arr_get l j -> arr_get osm m <> arr_get sorted j).
  assert (P (0 + Z.of_nat (Z.to_nat n)) l2p) as [_ HP].
  { eapply (for_range_exit_inl P); [exact Hrun | |].
    - split; [done | intros; lia].
    - intros k l l' Hk [Hl Hprev]. cbv zeta. unfold find_original_index.
      pose proof (for_range_exit_find
                    (fun m => arr_get osm m =? arr_get sorted k)
                    (fun m l0 => arr_set l0 k (u8 m))
                    (arr_set l k LIBIMD_INVALID_SECTOR_POS) (Z.to_nat n) 0) as Hfind.
      cbv beta in Hfind.
      destruct Hfind as [[-> _]|(m & Hm & Hc & Hfirst & ->)].
      + rewrite arr_get_set_eq by lia. by rewrite Z.eqb_refl.
      + assert (u8 m = m) as -> by (unfold u8; apply Z.mod_small; lia).
        rewrite arr_get_set_eq by (rewrite arr_set_length; lia).
        unfold LIBIMD_INVALID_SECTOR_POS.
        destruct (Z.eqb_spec m 255); [lia|]. intros [= <-].
        split; [by rewrite !arr_set_length|]. intros j Hj.
        destruct (decide (j = k)) as [->|Hne].
        * rewrite arr_get_set_eq by (rewrite arr_set_length; lia).
          split; [lia|]. split; [by apply Z.eqb_eq|].
          intros m' Hm'. apply Z.eqb_neq, Hfirst. lia.
        * rewrite !arr_get_set_ne by lia. apply Hprev. lia. }
  apply HP. lia.
Qed.

Lemma next_free_slot_spec (fuel : nat) (n : Z) (used : list Z) :
  forall cur c,
    0 <= cur < n ->
    next_free_slot fuel n used cur = Some c ->
    0 <= c < n /\ arr_get used c = 0.
Proof.
  assert (forall x, truthy x = false -> x = 0) as Hfalse.
  { intros x. unfold truthy. rewrite negb_false_iff. apply Z.eqb_eq. }
  induction fuel as [|k IH]; intros cur c Hcur; simpl;
    destruct (truthy (arr_get used cur)) eqn:E; try done.
  - intros [= <-]. auto.
  - apply IH. apply Z.rem_bound_pos; lia.
  - intros [= <-]. auto.
Qed.

(** The placement loop leaves, for every sorted position, a slot that
    holds the sector [logical_to_physical] names, and keeps the maps and
    the data buffer well formed. *)
Lemma place_sectors_spec (t : ImdTrackInfo) (d l2p : list Z) (k : Z)
    (st : Placement) :
  loaded_track t -> data t = Some d -> 2 <= num_sectors t -> 1 <= k ->
  (forall i, 0 <= i < num_sectors t -> 0 <= arr_get l2p i < num_sectors t) ->
  for_range_opt 0 (Z.to_nat (num_sectors t))
    (place_sector (num_sectors t) (sector_size t) k
       (memcpy_arr zero_array (smap t) (num_sectors t))
       (memcpy_arr zero_array (cmap t) (num_sectors t))
       (memcpy_arr zero_array (hmap t) (num_sectors t))
       (memcpy_arr zero_array (sflag t) (num_sectors t))
       (buf_read d 0 (data_size t)) l2p)
    (mkPlacement (smap t) (cmap t) (hmap t) (sflag t) d zero_array 0) = Some st ->
  byte_array (p_smap st) /\ byte_array (p_cmap st) /\ byte_array (p_hmap st)
  /\ byte_array (p_sflag st)
  /\ length (p_data st) = length d /\ Forall is_byte (p_data st)
  /\ forall j, 0 <= j < num_sectors t ->
       exists q, 0 <= q < num_sectors t
                 /\ placed_sector st (sector_size t) q
                    = track_sector t (arr_get l2p j).
Proof.
  intros [Hwf Hld Hsz Hds Hdata] Ed Hn Hk Hl2p Hrun.
  rewrite Ed in Hdata. destruct Hdata as [Hlen Hbytes].
  destruct Hwf as [_ _ _ _ [_ Hn255] _ _ Hsm Hcm Hhm Hsf _].
  set (n := num_sectors t) in *. set (size := sector_size t) in *.
  assert (buf_read d 0 (data_size t) = d) as Hod by (by apply buf_read_all).
  rewrite Hod in Hrun.
  pose (P := fun (i : Z) (s : Placement) =>
    byte_array (p_smap s) /\ byte_array (p_cmap s) /\ byte_array (p_hmap s)
    /\ byte_array (p_sflag s)
    /\ length (p_data s) = length d /\ Forall is_byte (p_data s)
    /\ length (p_used s) = 256%nat /\ 0 <= p_pos s < n
    /\ forall j, 0 <= j < i ->
         exists q, 0 <= q < n /\ arr_get (p_used s) q <> 0
                   /\ placed_sector s size q = track_sector t (arr_get l2p j)).
  assert (P (0 + Z.of_nat (Z.to_nat n)) st) as HP.
  { eapply (for_range_opt_Some P); [exact Hrun | |].
    - unfold P. cbn [p_smap p_cmap p_hmap p_sflag p_data p_used p_pos].
      split_and!; try done; try lia.
    - intros i s s' Hi (Bs & Bc & Bh & Bf & Ld & Bd & Lu & Hpos & Hplaced) Hstep.
      unfold place_sector in Hstep.
      destruct (next_free_slot (Z.to_nat n) n (p_used s) (p_pos s)) as [c|] eqn:Ec;
        [|done].
      apply next_free_slot_spec in Ec as [Hc Hfree]; [|done].
      cbn [mbind option_bind] in Hstep.
      destruct (c + k >? INT_MAX); [done|].
      injection Hstep as <-.
      destruct (Hl2p i) as [Hi0 Hin]; [lia|].
      set (idx := arr_get l2p i) in *.
      assert (Z.of_nat (length (buf_read d (idx * size) size)) = size) as Hsrc
        by (apply buf_read_length; nia).
      destruct (Z.gtb_spec size 0) as [_|]; [|lia].
      unfold P. cbn [p_smap p_cmap p_hmap p_sflag p_data p_used p_pos].
      rewrite !memcpy_arr_get_lt
        by (try lia; rewrite ?(proj1 Hsm), ?(proj1 Hcm), ?(proj1 Hhm), ?(proj1 Hsf); lia).
      split; [apply arr_set_bytes; [done | apply byte_array_get; [done | lia]]|].
      split; [apply arr_set_bytes; [done | apply byte_array_get; [done | lia]]|].
      split; [apply arr_set_bytes; [done | apply byte_array_get; [done | lia]]|].
      split; [apply arr_set_bytes; [done | apply byte_array_get; [done | lia]]|].
      split; [rewrite buf_write_length; [done | nia | nia]|].
      split; [apply buf_write_bytes; [done | by apply buf_read_bytes]|].
      split; [by rewrite arr_set_length|].
      split; [apply Z.rem_bound_pos; lia|].
      intros j Hj. destruct (decide (j = i)) as [->|Hne].
      + exists c. split; [done|]. split.
        { rewrite arr_get_set_eq by lia. done. }
        unfold placed_sector, track_sector, sector_bytes.
        cbn [p_smap p_cmap p_hmap p_sflag p_data]. rewrite Ed.
        rewrite !arr_get_set_eq
          by (rewrite ?(proj1 Bs), ?(proj1 Bc), ?(proj1 Bh), ?(proj1 Bf); lia).
        fold idx. fold size. f_equal.
        set (src := buf_read d (idx * size) size) in *.
        transitivity (buf_read (buf_write (p_data s) (c * size) src) (c * size)
                        (Z.of_nat (length src))); [by rewrite Hsrc|].
        apply buf_read_write_same; nia.
      + destruct (Hplaced j) as (q & Hq & Hused & Hsec); [lia|].
        assert (q <> c) as Hqc by (intros ->; done).
        exists q. split; [done|]. split.
        { rewrite arr_get_set_ne by lia. done. }
        rewrite <- Hsec. unfold placed_sector.
        cbn [p_smap p_cmap p_hmap p_sflag p_data].
        rewrite !arr_get_set_ne by lia.
        rewrite buf_read_write_other; [done | nia | nia | lia | nia | nia]. }
  replace (0 + Z.of_nat (Z.to_nat n)) with n in HP by lia.
  destruct HP as (Bs & Bc & Bh & Bf & Ld & Bd & _ & _ & Hplaced).
  split_and!; try done.
  intros j Hj. destruct (Hplaced j Hj) as (q & Hq & _ & Hsec). by exists q.
Qed.

(** ** The working copy of a track that is written *)

Lemma build_logical_to_physical_error (n : Z) (osm sorted : list Z) (rc : Z) :
  build_logical_to_physical n osm sorted = inr rc -> rc <> 0.
Proof.
  unfold build_logical_to_physical.
  apply (for_range_exit_inr (fun r => r <> 0)).
  intros i s r. cbv zeta.
  destruct (_ =? LIBIMD_INVALID_SECTOR_POS); [|done]. by intros [= <-].
Qed.

(** A successful [imd_apply_interleave] leaves a loaded track with the
    same header in which every sector that was the first with its ID is
    found again, whole, in some slot. *)
Lemma apply_interleave_sectors (h : Host) (t t' : ImdTrackInfo) (k : Z) :
  loaded_track t ->
  imd_apply_interleave h t k = Some (0, t') ->
  loaded_track t' /\ same_header t t'
  /\ forall src, 0 <= src < num_sectors t -> first_with_id t src ->
       exists q, 0 <= q < num_sectors t /\ track_sector t' q = track_sector t src.
Proof.
  intros Hlt Hrun. pose proof Hlt as [Hwf Hld Hsz Hds Hdata].
  pose proof Hwf as [Wm Wc Wh Wf [Wn0 Wn] Wcode Wsize Hsm Hcm Hhm Hsf Wds].
  unfold imd_apply_interleave in Hrun.
  destruct (data t) as [d|] eqn:Ed; [|by injection Hrun].
  destruct (negb (truthy (loaded t)) || (num_sectors t <? 2) || (k <? 1)) eqn:Eg;
    [by injection Hrun|].
  apply orb_false_iff in Eg as [Eg Ek]. apply orb_false_iff in Eg as [_ En].
  apply Z.ltb_ge in Ek, En. cbv zeta in Hrun.
  destruct (malloc_ok h (data_size t)); cbn [negb] in Hrun; [|by injection Hrun].
  set (n := num_sectors t) in *.
  set (osm := memcpy_arr zero_array (smap t) n) in *.
  set (sorted := bubble_sort n (memcpy_arr zero_array osm n)) in *.
  destruct (build_logical_to_physical n osm sorted) as [l2p|rc] eqn:El2p.
  2:{ apply build_logical_to_physical_error in El2p. by injection Hrun. }
  destruct (for_range_opt 0 (Z.to_nat n) _ _) as [st|] eqn:Est;
    cbn in Hrun; [|done].
  injection Hrun as <-.
  assert (forall i, 0 <= i < n ->
            0 <= arr_get l2p i < n
            /\ arr_get osm (arr_get l2p i) = arr_get sorted i
            /\ forall m, 0 <= m < arr_get l2p i -> arr_get osm m <> arr_get sorted i)
    as Hl2p.
  { intros i Hi. eapply build_logical_to_physical_spec; [|exact El2p | done]. lia. }
  destruct (place_sectors_spec t d l2p k st Hlt Ed En Ek) as
    (Bs & Bc & Bh & Bf & Ld & Bd & Hplaced); [intros i Hi; by apply Hl2p | exact Est |].
  assert (forall i, 0 <= i < n -> arr_get osm i = arr_get (smap t) i) as Hosm.
  { intros i Hi. apply memcpy_arr_get_lt; [done|]. rewrite (proj1 Hsm). lia. }
  split; [|split].
  - split; cbn; try done.
    split; [|done]. rewrite Ld. apply Hdata.
  - by repeat split.
  - intros src Hsrc Hfirst.
    assert (exists j, 0 <= j < n /\ arr_get sorted j = arr_get (smap t) src)
      as (j & Hj & Hsj).
    { assert (arr_get (smap t) src ∈ take (Z.to_nat n) sorted) as Hin.
      { unfold sorted. rewrite sorted_smap_spec
          by (try lia; unfold osm; rewrite memcpy_arr_length;
              rewrite ?zero_array_length, ?(proj1 Hsm); done).
        rewrite merge_sort_Permutation. rewrite <- Hosm by done.
        rewrite <- (arr_get_take osm n src) by lia. unfold arr_get.
        apply list_elem_of_lookup_total_2. rewrite length_take.
        unfold osm. rewrite memcpy_arr_length
          by (rewrite ?zero_array_length, ?(proj1 Hsm); done).
        rewrite zero_array_length. lia. }
      apply elem_of_take in Hin as (j & Hlk & Hlt').
      exists (Z.of_nat j). split; [lia|]. unfold arr_get. rewrite Nat2Z.id.
      by apply list_lookup_total_correct. }
    destruct (Hl2p j Hj) as (Hidx & Hat & Hbefore).
    assert (arr_get l2p j = src) as Hsame.
    { rewrite Hsj, Hosm in Hat by done.
      destruct (Z.lt_trichotomy (arr_get l2p j) src) as [Hlt'|[Heq|Hgt]]; [|done|].
      - exfalso. by apply (Hfirst (arr_get l2p j)); [lia|].
      - exfalso. apply (Hbefore src); [lia|]. rewrite Hosm, Hsj by done. done. }
    destruct (Hplaced j Hj) as (q & Hq & Hsec).
    exists q. split; [done|]. rewrite <- Hsame, <- Hsec. reflexivity.
Qed.

Lemma prepare_track_error (h : Host) (track : ImdTrackInfo) (opts : ImdWriteOpts)
    (rc : Z) :
  prepare_track_to_write h track opts = Some (inr rc) -> rc <> 0.
Proof.
  unfold prepare_track_to_write.
  destruct (_ && negb (malloc_ok h (data_size track))); [by intros [= <-]|].
  cbv zeta.
  destruct (negb (interleave_factor opts =? LIBIMD_IL_AS_READ) && _); [|done].
  destruct (imd_apply_interleave h _ _) as [[ret t']|]; [|done]. cbn.
  destruct (Z.eqb_spec ret 0); cbn; [done|]. by intros [= <-].
Qed.

(** The working copy of a loaded track: the track itself unless an
    interleave is applied, in which case every sector that was the first
    with its ID is found again in it. *)
Lemma prepare_track_sectors (h : Host) (track tw : ImdTrackInfo)
    (opts : ImdWriteOpts) :
  loaded_track track ->
  prepare_track_to_write h track opts = Some (inl tw) ->
  loaded_track tw /\ same_header track tw
  /\ (interleave_factor opts = LIBIMD_IL_AS_READ \/ num_sectors track <= 1 ->
      tw = track)
  /\ forall src, 0 <= src < num_sectors track -> first_with_id track src ->
       exists q, 0 <= q < num_sectors track
                 /\ track_sector tw q = track_sector track src.
Proof.
  intros Hlt Hrun.
  assert (tw = track ->
          loaded_track tw /\ same_header track tw
          /\ (interleave_factor opts = LIBIMD_IL_AS_READ \/ num_sectors track <= 1 ->
              tw = track)
          /\ forall src, 0 <= src < num_sectors track -> first_with_id track src ->
               exists q, 0 <= q < num_sectors track
                         /\ track_sector tw q = track_sector track src) as Hsame.
  { intros ->. split; [done|]. split; [by repeat split|]. split; [done|].
    intros src Hsrc _. by exists src. }
  unfold prepare_track_to_write in Hrun.
  destruct (Z.eqb_spec (interleave_factor opts) LIBIMD_IL_AS_READ) as [Hil|Hil].
  { cbn in Hrun. apply Hsame. by injection Hrun. }
  destruct (Z.gtb_spec (num_sectors track) 1) as [Hn|Hn].
  2:{ cbn in Hrun. destruct (Z.gtb_spec (num_sectors track) 1) as [|_]; [lia|].
      cbn in Hrun. apply Hsame. by injection Hrun. }
  pose proof Hlt as [Hwf Hld Hsz Hds Hdata].
  destruct (Z.gtb_spec (data_size track) 0) as [_|]; [|nia].
  cbn [negb andb] in Hrun.
  destruct (malloc_ok h (data_size track)); cbn [negb] in Hrun; [|done].
  destruct (data track) as [d|] eqn:Ed; [|lia].
  rewrite buf_read_all in Hrun by apply Hdata.
  assert (with_data track (Some d) = track) as Hcopy.
  { destruct track. cbn in *. by subst. }
  rewrite Hcopy in Hrun.
  destruct (Z.gtb_spec (num_sectors track) 1) as [_|]; [|lia].
  cbn [negb andb] in Hrun.
  destruct (imd_apply_interleave h track _) as [[ret t']|] eqn:Eil; [|done].
  cbn in Hrun. destruct (Z.eqb_spec ret 0) as [->|]; cbn in Hrun; [|done].
  injection Hrun as ->.
  destruct (apply_interleave_sectors _ _ _ _ Hlt Eil) as (Hl & Hh & Hs).
  split; [done|]. split; [done|]. split; [|done].
  intros [?|?]; [done | lia].
Qed.

(** A successful [imd_write_track_imd] wrote the record of its working
    copy with the flags of [final_sflag]. *)
Lemma write_track_emitted (h : Host) (fout f' : FILE) (track : ImdTrackInfo)
    (opts : ImdWriteOpts) :
  imd_write_track_imd h fout track opts = Some (0, f') ->
  exists tw final_sflag,
    prepare_track_to_write h track opts = Some (inl tw)
    /\ process_sector_flags opts tw = inl final_sflag
    /\ wrote fout f'
         (map u8 (track_bytes (translate_mode opts tw) tw final_sflag)).
Proof.
  unfold imd_write_track_imd.
  destruct (negb (truthy (loaded track))); [by intros [= ?]|].
  destruct (prepare_track_to_write h track opts) as [[tw|rc]|] eqn:Ep;
    cbn [mbind option_bind]; [| |done].
  2:{ apply prepare_track_error in Ep. by intros [= ?]. }
  destruct (process_sector_flags opts tw) as [fs|rc] eqn:Ef.
  2:{ unfold process_sector_flags in Ef.
      apply (for_range_exit_inr (fun r => r <> 0)) in Ef;
        [by intros [= ?] | apply process_sector_flag_error]. }
  destruct (write_track_header _ tw fout) as [f1|f1] eqn:Eh; [|by intros [= ?]].
  destruct (write_track_maps tw f1) as [f2|e] eqn:Em.
  2:{ apply write_track_maps_error in Em. intros [= ->]. done. }
  destruct (write_sector_records tw fs f2) as [f3|e] eqn:Er.
  2:{ unfold write_sector_records in Er.
      apply (for_range_exit_inr (fun e => fst e <> 0)) in Er;
        [intros [= ->]; done | apply write_sector_record_error]. }
  intros [= <-]. exists tw, fs. split; [done|]. split; [done|].
  unfold track_bytes. rewrite !map_app.
  apply (wrote_app fout f1 f3); [by apply fputc_all_wrote|].
  apply (wrote_app f1 f2 f3); [by apply write_track_maps_wrote|].
  by apply write_sector_records_wrote.
Qed.

(** ** The flags [imd_write_track_imd] emits *)

Lemma combine_flag_range (base : Z) (has_dam has_err : bool) :
  1 <= combine_flag base has_dam has_err <= 8.
Proof.
  unfold combine_flag.
  destruct (base =? IMD_SDR_NORMAL), has_dam, has_err; by vm_compute.
Qed.

Lemma combine_flag_compressed (base : Z) (has_dam has_err : bool) :
  IMD_SDR_IS_COMPRESSED (combine_flag base has_dam has_err)
  = negb (base =? IMD_SDR_NORMAL).
Proof.
  unfold combine_flag.
  by destruct (base =? IMD_SDR_NORMAL), has_dam, has_err.
Qed.

(** The flag chosen for sector [i] of a loaded track: 0x00 for an
    unavailable sector; otherwise the base type the compression mode asks
    for, given whether the bytes of the sector are uniform, combined with
    the status bits the options keep. *)
Lemma final_flag_of (opts : ImdWriteOpts) (tw : ImdTrackInfo)
    (final_sflag : list Z) (i : Z) :
  loaded_track tw ->
  process_sector_flags opts tw = inl final_sflag ->
  0 <= i < num_sectors tw ->
  (arr_get (sflag tw) i = IMD_SDR_UNAVAILABLE ->
   arr_get final_sflag i = IMD_SDR_UNAVAILABLE)
  /\ (arr_get (sflag tw) i <> IMD_SDR_UNAVAILABLE ->
      exists u,
        ((u = 1 /\ uniform (sector_bytes tw i))
         \/ (u = 0 /\ ~ uniform (sector_bytes tw i)))
        /\ arr_get final_sflag i
           = combine_flag (target_base_type opts (arr_get (sflag tw) i) u)
               (truthy (IMD_SDR_HAS_DAM (arr_get (sflag tw) i))
                && negb (truthy (force_non_deleted opts)))
               (truthy (IMD_SDR_HAS_ERR (arr_get (sflag tw) i))
                && negb (truthy (force_non_bad opts)))).
Proof.
  intros [Hwf Hld Hsz Hds Hdata] Hrun Hi.
  destruct Hwf as [_ _ _ _ [_ Hn255] _ _ _ _ _ _ _].
  pose proof (process_sector_flags_get opts tw final_sflag i) as Hget.
  specialize (Hget ltac:(lia) Hrun Hi).
  assert (forall a b, @inl (list Z) Z (arr_set zero_array i a)
                      = inl (arr_set zero_array i b) -> b = a) as Hinj.
  { intros a b [= E]. apply (f_equal (fun l => arr_get l i)) in E.
    rewrite !arr_get_set_eq in E by (rewrite zero_array_length; lia). done. }
  unfold process_sector_flag in Hget.
  destruct (Z.eqb_spec (arr_get (sflag tw) i) IMD_SDR_UNAVAILABLE) as [E0|E0].
  { split; [|done]. intros _. by apply Hinj in Hget. }
  split; [done|]. intros _.
  destruct (data tw) as [d|] eqn:Ed; [|lia]. destruct Hdata as [Hlen _].
  assert (sector_pointer tw i
          = Some (drop (Z.to_nat (i * sector_size tw)) d)) as Hptr.
  { unfold sector_pointer. rewrite Ed.
    destruct (Z.geb_spec (data_size tw) ((i + 1) * sector_size tw)); [done | nia]. }
  rewrite Hptr in Hget. cbn [is_null andb negb] in Hget.
  destruct (Z.gtb_spec (sector_size tw) 0); [|lia].
  apply Hinj in Hget.
  assert (sector_bytes tw i
          = take (Z.to_nat (sector_size tw))
              (drop (Z.to_nat (i * sector_size tw)) d)) as Hbytes.
  { unfold sector_bytes. by rewrite Ed. }
  rewrite Hbytes.
  destruct (imd_is_uniform_spec (drop (Z.to_nat (i * sector_size tw)) d)
              (sector_size tw) 0) as [[Hu Hall]|[Hu Hnot]];
    [lia | rewrite length_drop; nia | |].
  - exists 1. rewrite Hu in Hget. split; [by left | done].
  - exists 0. rewrite Hu in Hget. split; [by right | done].
Qed.

(** C7 (amended): when a loaded track is written successfully with
    [compression_mode = force-compress], the record of every sector [i]
    of the track as written (the track itself when the interleave is
    as-read or the track has fewer than two sectors, the re-ordered
    working copy otherwise) whose flag is not 0x00 gets a compressed
    (even, nonzero) flag if and only if the bytes of the sector at offsets
    [i * sector_size .. (i + 1) * sector_size] are all equal; a sector
    whose flag is 0x00 is written with the flag 0x00 whatever its
    bytes. *)
Theorem force_compress_even_iff_uniform (h : Host) (fout f' : FILE)
    (track : ImdTrackInfo) (opts : ImdWriteOpts) :
  loaded_track track ->
  compression_mode opts = IMD_COMPRESSION_FORCE_COMPRESS ->
  imd_write_track_imd h fout track opts = Some (0, f') ->
  exists tw final_sflag,
    prepare_track_to_write h track opts = Some (inl tw)
    /\ (interleave_factor opts = LIBIMD_IL_AS_READ \/ num_sectors track <= 1 ->
        tw = track)
    /\ wrote fout f' (map u8 (track_bytes (translate_mode opts tw) tw final_sflag))
    /\ forall i, 0 <= i < num_sectors tw ->
         (arr_get (sflag tw) i <> IMD_SDR_UNAVAILABLE ->
          (IMD_SDR_IS_COMPRESSED (arr_get final_sflag i) = true
           <-> uniform (sector_bytes tw i)))
         /\ (arr_get (sflag tw) i = IMD_SDR_UNAVAILABLE ->
             arr_get final_sflag i = IMD_SDR_UNAVAILABLE).
Proof.
  intros Hlt Hmode Hrun.
  destruct (write_track_emitted _ _ _ _ _ Hrun) as (tw & fs & Hp & Hf & Hw).
  destruct (prepare_track_sectors _ _ _ _ Hlt Hp) as (Hltw & _ & Hsame & _).
  exists tw, fs. split; [done|]. split; [done|]. split; [done|].
  intros i Hi.
  destruct (final_flag_of opts tw fs i Hltw Hf Hi) as [H0 Hdata].
  split; [|done]. intros Hne.
  destruct (Hdata Hne) as (u & Hu & ->).
  rewrite combine_flag_compressed. unfold target_base_type. rewrite Hmode. cbn.
  destruct Hu as [[-> Hall]|[-> Hnot]]; cbn; split; done.
Qed.

(** C7 (witness): a uniform sector and a sector that is not, written with
    force-compress. *)
Lemma force_compress_even_iff_uniform_witness :
  exists f' tw final_sflag,
    imd_write_track_imd host_ok (file_of []) uniform_mixed_track
      force_compress_opts = Some (0, f')
    /\ prepare_track_to_write host_ok uniform_mixed_track force_compress_opts
       = Some (inl tw)
    /\ wrote (file_of []) f'
         (map u8 (track_bytes (translate_mode force_compress_opts tw) tw final_sflag))
    /\ forall i, 0 <= i < num_sectors tw ->
         (arr_get (sflag tw) i <> IMD_SDR_UNAVAILABLE ->
          (IMD_SDR_IS_COMPRESSED (arr_get final_sflag i) = true
           <-> uniform (sector_bytes tw i)))
         /\ (arr_get (sflag tw) i = IMD_SDR_UNAVAILABLE ->
             arr_get final_sflag i = IMD_SDR_UNAVAILABLE).
Proof.
  assert (exists f', imd_write_track_imd host_ok (file_of []) uniform_mixed_track
                       force_compress_opts = Some (0, f')) as [f' E]
    by (eexists; vm_compute; reflexivity).
  assert (loaded_track uniform_mixed_track) as Hlt
    by (apply loaded_trackb_sound; vm_compute; reflexivity).
  destruct (force_compress_even_iff_uniform host_ok (file_of []) f'
              uniform_mixed_track force_compress_opts Hlt eq_refl E)
    as (tw & fs & Hp & _ & Hw & Hflags).
  exists f', tw, fs. exact (conj E (conj Hp (conj Hw Hflags))).
Defined.

(** C7 (counterexample): two unavailable sectors, the first with uniform
    bytes and the second not, written with force-compress.  Both records
    carry the flag 0x00: the uniform sector is not given a compressed
    code, and the sector given an even flag is not uniform. *)
Lemma force_compress_unavailable_not_compressed :
  exists f',
    imd_write_track_imd host_ok (file_of []) unavailable_pair_track
      force_compress_opts = Some (0, f')
    /\ f_content f' = [IMD_MODE_MFM_250; 0; 0; 2; 0; 1; 2; 0; 0]
    /\ uniform (sector_bytes unavailable_pair_track 0)
    /\ ~ uniform (sector_bytes unavailable_pair_track 1)
    /\ IMD_SDR_IS_COMPRESSED 0 = false /\ Z.even 0 = true.
Proof.
  eexists. split; [vm_compute; reflexivity|]. split; [reflexivity|].
  split; [|split; [|done]].
  - intros x y Hx Hy.
    change (sector_bytes unavailable_pair_track 0) with (replicate 128 229) in *.
    apply elem_of_replicate in Hx as [-> _].
    apply elem_of_replicate in Hy as [-> _]. done.
  - intros Hu. specialize (Hu 1 2).
    assert (1 = 2) as Habs; [|done].
    apply Hu; vm_compute; [left | right; left].
Qed.

(** Where the flag 0x00 is kept: when a loaded track is written
    successfully, under any write options, a record of the track as written (the track itself
    when the interleave is as-read or the track has fewer than two
    sectors, the re-ordered working copy otherwise) carries the flag 0x00
    exactly when the sector it is written from has the flag 0x00; and
    every unavailable sector of the input that is the first with its
    sector ID (every unavailable sector, when the IDs are distinct) is
    written, under its ID, as a record with the flag 0x00. *)
Theorem unavailable_stays_unavailable (h : Host) (fout f' : FILE)
    (track : ImdTrackInfo) (opts : ImdWriteOpts) :
  loaded_track track ->
  imd_write_track_imd h fout track opts = Some (0, f') ->
  exists tw final_sflag,
    prepare_track_to_write h track opts = Some (inl tw)
    /\ (interleave_factor opts = LIBIMD_IL_AS_READ \/ num_sectors track <= 1 ->
        tw = track)
    /\ num_sectors tw = num_sectors track
    /\ wrote fout f' (map u8 (track_bytes (translate_mode opts tw) tw final_sflag))
    /\ (forall i, 0 <= i < num_sectors tw ->
          (arr_get final_sflag i = IMD_SDR_UNAVAILABLE
           <-> arr_get (sflag tw) i = IMD_SDR_UNAVAILABLE))
    /\ (forall src, 0 <= src < num_sectors track ->
          first_with_id track src ->
          arr_get (sflag track) src = IMD_SDR_UNAVAILABLE ->
          exists q, 0 <= q < num_sectors tw
                    /\ arr_get (smap tw) q = arr_get (smap track) src
                    /\ arr_get final_sflag q = IMD_SDR_UNAVAILABLE).
Proof.
  intros Hlt Hrun.
  destruct (write_track_emitted _ _ _ _ _ Hrun) as (tw & fs & Hp & Hf & Hw).
  destruct (prepare_track_sectors _ _ _ _ Hlt Hp) as (Hltw & Hhdr & Hsame & Hsec).
  assert (num_sectors tw = num_sectors track) as Hn by apply Hhdr.
  exists tw, fs. split; [done|]. split; [done|]. split; [done|]. split; [done|].
  assert (forall i, 0 <= i < num_sectors tw ->
            (arr_get fs i = IMD_SDR_UNAVAILABLE
             <-> arr_get (sflag tw) i = IMD_SDR_UNAVAILABLE)) as Hiff.
  { intros i Hi.
    destruct (final_flag_of opts tw fs i Hltw Hf Hi) as [H0 Hdata].
    split; [|done]. intros Hz.
    destruct (decide (arr_get (sflag tw) i = IMD_SDR_UNAVAILABLE)) as [|Hne];
      [done|].
    destruct (Hdata Hne) as (u & _ & Hc). rewrite Hc in Hz.
    pose proof (combine_flag_range
                  (target_base_type opts (arr_get (sflag tw) i) u)
                  (truthy (IMD_SDR_HAS_DAM (arr_get (sflag tw) i))
                   && negb (truthy (force_non_deleted opts)))
                  (truthy (IMD_SDR_HAS_ERR (arr_get (sflag tw) i))
                   && negb (truthy (force_non_bad opts)))) as Hr.
    rewrite Hz in Hr. unfold IMD_SDR_UNAVAILABLE in Hr. lia. }
  split; [done|].
  intros src Hsrc Hfirst Hflag.
  destruct (Hsec src Hsrc Hfirst) as (q & Hq & Heq).
  unfold track_sector in Heq. injection Heq as Hs _ _ Hfl _.
  exists q. split; [lia|]. split; [done|].
  apply Hiff; [lia|]. by rewrite Hfl.
Qed.

(** [unavailable_stays_unavailable] on three sectors, the middle one
    unavailable, written with force-compress, both status bits forced off
    and an interleave of 2. *)
Lemma unavailable_stays_unavailable_witness :
  exists f' tw final_sflag,
    imd_write_track_imd host_ok (file_of []) middle_unavailable_track
      all_forcing_opts = Some (0, f')
    /\ prepare_track_to_write host_ok middle_unavailable_track all_forcing_opts
       = Some (inl tw)
    /\ wrote (file_of []) f'
         (map u8 (track_bytes (translate_mode all_forcing_opts tw) tw final_sflag))
    /\ (forall i, 0 <= i < num_sectors tw ->
          (arr_get final_sflag i = IMD_SDR_UNAVAILABLE
           <-> arr_get (sflag tw) i = IMD_SDR_UNAVAILABLE))
    /\ exists q, 0 <= q < num_sectors tw
                 /\ arr_get (smap tw) q = 2
                 /\ arr_get final_sflag q = IMD_SDR_UNAVAILABLE.
Proof.
  assert (exists f', imd_write_track_imd host_ok (file_of [])
                       middle_unavailable_track all_forcing_opts = Some (0, f'))
    as [f' E] by (eexists; vm_compute; reflexivity).
  assert (loaded_track middle_unavailable_track) as Hlt
    by (apply loaded_trackb_sound; vm_compute; reflexivity).
  destruct (unavailable_stays_unavailable host_ok (file_of []) f'
              middle_unavailable_track all_forcing_opts Hlt E)
    as (tw & fs & Hp & _ & _ & Hw & Hiff & Hin).
  exists f', tw, fs. split; [exact E|]. split; [exact Hp|]. split; [exact Hw|].
  split; [exact Hiff|].
  apply (Hin 1).
  - vm_compute. split; congruence.
  - intros m Hm. assert (m = 0) as -> by lia. vm_compute. congruence.
  - reflexivity.
Defined.

(** C6 (failing input): a loaded track of two sectors with the same ID,
    the second unavailable (0x00), written with an interleave factor
    of 1.  The write succeeds, and both records of the output carry the
    flag 0x01 and the bytes of the first sector: the unavailable sector
    is written as a data-bearing record, and no record with the flag 0x00
    is written at all.  ([imd_apply_interleave] looks every sorted ID up
    in the original sector map and stops at the first match, so the
    second sector with an ID is replaced by a copy of the first.) *)
Lemma duplicate_id_unavailable_dropped :
  loaded_track duplicate_id_track
  /\ exists f',
    imd_write_track_imd host_ok (file_of []) duplicate_id_track
      interleave_one_opts = Some (0, f')
    /\ arr_get (sflag duplicate_id_track) 1 = IMD_SDR_UNAVAILABLE
    /\ f_content f' = [IMD_MODE_MFM_250; 0; 0; 2; 0; 1; 1]
                      ++ (IMD_SDR_NORMAL :: mixed_sector)
                      ++ (IMD_SDR_NORMAL :: mixed_sector).
Proof.
  split; [apply loaded_trackb_sound; vm_compute; reflexivity|].
  eexists. split; [vm_compute; reflexivity|]. split; reflexivity.
Qed.

(** ** The order of the tracks of an image *)

Lemma key_lt_trans (a b c : Z * Z) : key_lt a b -> key_lt b c -> key_lt a c.
Proof. unfold key_lt. lia. Qed.

Lemma key_lt_irrefl (a : Z * Z) : ~ key_lt a a.
Proof. unfold key_lt. lia. Qed.

Lemma key_lt_total (a b : Z * Z) : ~ key_lt a b -> a <> b -> key_lt b a.
Proof.
  destruct a as [a1 a2], b as [b1 b2]. unfold key_lt. simpl. intros Hn Hne.
  destruct (decide (a1 = b1)) as [->|]; [|lia].
  destruct (decide (a2 = b2)) as [->|]; [done | lia].
Qed.

Lemma key_test (t : ImdTrackInfo) (c hd : Z) :
  (cyl t <? c) || ((cyl t =? c) && (head t <? hd)) = true
  <-> key_lt (track_key t) (c, hd).
Proof.
  unfold key_lt, track_key. simpl.
  rewrite orb_true_iff, andb_true_iff, !Z.ltb_lt, Z.eqb_eq. done.
Qed.

Lemma sorted_lookup (ks : list (Z * Z)) (i j : nat) (x y : Z * Z) :
  StronglySorted key_lt ks -> (i < j)%nat ->
  ks !! i = Some x -> ks !! j = Some y -> key_lt x y.
Proof.
  intros Hs Hij Hx Hy. rewrite <- (take_drop j ks) in Hs.
  eapply StronglySorted_app_1_elem_of; [exact Hs | |].
  - apply elem_of_take. by exists i.
  - apply (list_elem_of_lookup_2 _ 0%nat). by rewrite lookup_drop, Nat.add_0_r.
Qed.

Lemma sorted_NoDup (ks : list (Z * Z)) : StronglySorted key_lt ks -> NoDup ks.
Proof.
  induction 1 as [|a l Hs IH Hall]; constructor; [|done].
  intros Hin. apply (key_lt_irrefl a).
  by apply (proj1 (Forall_forall _ _) Hall).
Qed.

(** Inserting a key between the keys below it and the keys above it. *)
Lemma insert_sorted (ks : list (Z * Z)) (k : Z * Z) (i : nat) :
  StronglySorted key_lt ks ->
  (forall j x, (j < i)%nat -> ks !! j = Some x -> key_lt x k) ->
  (forall j x, (i <= j)%nat -> ks !! j = Some x -> key_lt k x) ->
  StronglySorted key_lt (take i ks ++ k :: drop i ks).
Proof.
  intros Hs Hbelow Habove.
  rewrite <- (take_drop i ks) in Hs. apply StronglySorted_app in Hs as (Hcross & Ht & Hd).
  apply StronglySorted_app. split; [|split; [done|]].
  - intros x1 x2 H1 H2. apply elem_of_cons in H2 as [->|H2]; [|by apply Hcross].
    apply elem_of_take in H1 as (j & Hj & Hlt). by apply (Hbelow j).
  - apply StronglySorted_cons. split; [|done].
    apply Forall_forall. intros x Hx.
    apply list_elem_of_lookup_1 in Hx as (j & Hj). rewrite lookup_drop in Hj.
    apply (Habove (i + j)%nat); [lia | done].
Qed.

Lemma track_at_lookup (imdf : ImdImageFile) (i : Z) (t : ImdTrackInfo) :
  tracks imdf !! Z.to_nat i = Some t -> track_at imdf i = t.
Proof. unfold track_at. by intros ->. Qed.

(** The binary search returns, within its bound on the iterations, the
    index that separates the keys below (cyl, head) from the others. *)
Lemma find_insertion_loop_spec (imdf : ImdImageFile) (c hd : Z) :
  tracks_sorted (tracks imdf) ->
  forall fuel low high,
    0 <= low <= high -> high <= num_tracks imdf ->
    high - low <= Z.of_nat fuel ->
    (forall j t, 0 <= j < low -> tracks imdf !! Z.to_nat j = Some t ->
                 key_lt (track_key t) (c, hd)) ->
    (forall j t, high <= j -> tracks imdf !! Z.to_nat j = Some t ->
                 ~ key_lt (track_key t) (c, hd)) ->
    exists idx,
      find_insertion_loop fuel imdf c hd low high = Some idx
      /\ 0 <= idx <= num_tracks imdf
      /\ (forall j t, 0 <= j < idx -> tracks imdf !! Z.to_nat j = Some t ->
                      key_lt (track_key t) (c, hd))
      /\ (forall j t, idx <= j -> tracks imdf !! Z.to_nat j = Some t ->
                      ~ key_lt (track_key t) (c, hd)).
Proof.
  intros Hsorted. unfold num_tracks.
  assert (forall i j ti tj, 0 <= i < j ->
            tracks imdf !! Z.to_nat i = Some ti ->
            tracks imdf !! Z.to_nat j = Some tj ->
            key_lt (track_key ti) (track_key tj)) as Hord.
  { intros i j ti tj Hij Hi Hj.
    apply (sorted_lookup (map track_key (tracks imdf)) (Z.to_nat i) (Z.to_nat j));
      [done | lia | |]; by rewrite list_lookup_fmap, ?Hi, ?Hj. }
  induction fuel as [|k IH]; intros low high Hlow Hhigh Hfuel Hbelow Habove;
    cbn [find_insertion_loop]; destruct (Z.ltb_spec low high) as [Hlt|Hge].
  - lia.
  - exists low. split; [done|]. split; [lia|]. split; [done|].
    intros j t Hj. apply Habove. lia.
  - set (mid := low + (high - low) / 2).
    assert (low <= mid < high) as Hmid.
    { assert (0 <= (high - low) / 2 < high - low); [|unfold mid; lia].
      split; [apply Z.div_pos; lia | apply Z.div_lt; lia]. }
    destruct (lookup_lt_is_Some_2 (tracks imdf) (Z.to_nat mid)) as [tm Htm]; [lia|].
    rewrite (track_at_lookup imdf mid tm Htm).
    destruct ((cyl tm <? c) || ((cyl tm =? c) && (head tm <? hd))) eqn:Etest.
    + apply key_test in Etest.
      apply IH; [lia | lia | lia | | done].
      intros j t Hj Ht. destruct (decide (j = mid)) as [->|Hne].
      * rewrite Htm in Ht. by injection Ht as <-.
      * destruct (decide (j < low)) as [|Hjl]; [apply (Hbelow j); [lia | done]|].
        eapply key_lt_trans; [|exact Etest]. apply (Hord j mid); [lia | done | done].
    + assert (~ key_lt (track_key tm) (c, hd)) as Hnot.
      { intros Hk. apply key_test in Hk. congruence. }
      apply IH; [lia | lia | lia | done |].
      intros j t Hj Ht. destruct (decide (j = mid)) as [->|Hne].
      * rewrite Htm in Ht. by injection Ht as <-.
      * intros Hk. apply Hnot. eapply key_lt_trans; [|exact Hk].
        apply (Hord mid j); [lia | done | done].
  - exists low. split; [done|]. split; [lia|]. split; [done|].
    intros j t Hj. apply Habove. lia.
Qed.

Lemma find_insertion_index_spec (imdf : ImdImageFile) (c hd : Z) :
  tracks_sorted (tracks imdf) ->
  exists idx,
    find_insertion_index imdf c hd = Some idx
    /\ 0 <= idx <= num_tracks imdf
    /\ (forall j t, 0 <= j < idx -> tracks imdf !! Z.to_nat j = Some t ->
                    key_lt (track_key t) (c, hd))
    /\ (forall j t, idx <= j -> tracks imdf !! Z.to_nat j = Some t ->
                    ~ key_lt (track_key t) (c, hd)).
Proof.
  intros Hsorted. unfold find_insertion_index.
  apply find_insertion_loop_spec; try done.
  - unfold num_tracks. lia.
  - unfold find_insertion_fuel, num_tracks. lia.
  - intros; lia.
  - intros j t Hj Ht. apply lookup_lt_Some in Ht. unfold num_tracks in Hj. lia.
Qed.

Lemma find_track_from_none (ts : list ImdTrackInfo) (c hd : Z) :
  forall i, 0 <= i -> find_track_from ts i c hd < 0 ->
            Forall (fun t => track_key t <> (c, hd)) ts.
Proof.
  induction ts as [|t ts IH]; intros i Hi; cbn [find_track_from]; [done|].
  destruct ((cyl t =? c) && (head t =? hd)) eqn:E; [lia|]. intros Hr.
  constructor; [|apply (IH (i + 1)); [lia | done]].
  unfold track_key. intros [= Hc Hh]. rewrite Hc, Hh, !Z.eqb_refl in E. done.
Qed.

Lemma find_track_from_found (ts : list ImdTrackInfo) (c hd : Z) :
  forall i, 0 <= i -> 0 <= find_track_from ts i c hd ->
    i <= find_track_from ts i c hd
    /\ exists t, ts !! Z.to_nat (find_track_from ts i c hd - i) = Some t
                 /\ track_key t = (c, hd).
Proof.
  induction ts as [|t ts IH]; intros i Hi; cbn [find_track_from]; [lia|].
  destruct ((cyl t =? c) && (head t =? hd)) eqn:E.
  - intros _. split; [lia|]. exists t. rewrite Z.sub_diag. split; [done|].
    apply andb_true_iff in E as [Ec Eh]. unfold track_key.
    apply Z.eqb_eq in Ec, Eh. by rewrite Ec, Eh.
  - intros Hr. destruct (IH (i + 1)) as (Hle & t' & Ht' & Hk); [lia | done |].
    split; [lia|]. exists t'. split; [|done].
    replace (Z.to_nat (find_track_from ts (i + 1) c hd - i))
      with (Datatypes.S (Z.to_nat (find_track_from ts (i + 1) c hd - (i + 1))))
      by lia.
    done.
Qed.

Lemma imd_alloc_track_data_key (h : Host) (t t' : ImdTrackInfo) (rc : Z) :
  imd_alloc_track_data h t = (rc, t') -> track_key t' = track_key t.
Proof.
  unfold imd_alloc_track_data.
  repeat match goal with
         | |- context [if ?x then _ else _] => destruct x
         end;
    by intros [= <- <-].
Qed.

Lemma populate_track_key (h : Host) (c hd num_sectors sector_size_code
    sector_size fill_byte : Z) (smap_arg cmap_arg hmap_arg : option (list Z))
    (t : ImdTrackInfo) :
  populate_track h c hd num_sectors sector_size_code sector_size fill_byte
    smap_arg cmap_arg hmap_arg = inl t ->
  track_key t = (c, hd).
Proof.
  unfold populate_track.
  destruct (num_sectors >? 0); [|by intros [= <-]].
  destruct (imd_alloc_track_data h _) as [rc t1] eqn:E.
  apply imd_alloc_track_data_key in E.
  destruct rc; [|done|done].
  destruct (for_range 0 (Z.to_nat num_sectors) _ _) as [sf sm].
  by intros [= <-].
Qed.

Lemma imd_alloc_track_data_result (h : Host) (t t' : ImdTrackInfo) (rc : Z) :
  imd_alloc_track_data h t = (rc, t') ->
  rc = 0 \/ rc = IMD_ERR_ALLOC \/ rc = IMD_ERR_INVALID_ARG.
Proof.
  unfold imd_alloc_track_data.
  repeat match goal with
         | |- context [if ?x then _ else _] => destruct x
         end;
    intros [= <- _]; auto.
Qed.

Lemma populate_track_error (h : Host) (c hd num_sectors sector_size_code
    sector_size fill_byte : Z) (smap_arg cmap_arg hmap_arg : option (list Z))
    (rc : Z) (t : ImdTrackInfo) :
  populate_track h c hd num_sectors sector_size_code sector_size fill_byte
    smap_arg cmap_arg hmap_arg = inr (rc, t) ->
  rc <> IMDF_ERR_OK.
Proof.
  unfold populate_track.
  destruct (num_sectors >? 0); [|done].
  destruct (imd_alloc_track_data h _) as [rc1 t1] eqn:E.
  apply imd_alloc_track_data_result in E as [-> | [-> | ->]].
  - by destruct (for_range 0 (Z.to_nat num_sectors) _ _).
  - by intros [= <- _].
  - by intros [= <- _].
Qed.

(** C5 (amended): when the track sequence of the image is strictly sorted
    by (cyl, head) before the call, it is strictly sorted by (cyl, head),
    with no duplicate (cyl, head) pair, after every successful
    [imdf_write_track], and holds a track at the (cyl, head) written. *)
Theorem write_track_keeps_sorted (h : Host) (imdf imdf' : ImdImageFile)
    (c hd num_sectors sector_size fill_byte : Z)
    (smap_arg cmap_arg hmap_arg : option (list Z)) :
  tracks_sorted (tracks imdf) ->
  imdf_write_track h imdf c hd num_sectors sector_size fill_byte
    smap_arg cmap_arg hmap_arg = Some (IMDF_ERR_OK, imdf') ->
  tracks_sorted (tracks imdf')
  /\ NoDup (map track_key (tracks imdf'))
  /\ (c, hd) ∈ map track_key (tracks imdf').
Proof.
  intros Hsorted Hrun.
  assert (exists i t ts1,
            track_key t = (c, hd)
            /\ map track_key (tracks imdf') = <[i := (c, hd)]> (map track_key ts1)
            /\ ((map track_key (tracks imdf) !! i = Some (c, hd)
                 /\ map track_key ts1 = <[i := track_key zero_track]>
                                           (map track_key (tracks imdf)))
                \/ ((i <= length (tracks imdf))%nat
                    /\ Forall (fun t => track_key t <> (c, hd)) (tracks imdf)
                    /\ (forall j t, (j < i)%nat -> tracks imdf !! j = Some t ->
                                    key_lt (track_key t) (c, hd))
                    /\ (forall j t, (i <= j)%nat -> tracks imdf !! j = Some t ->
                                    ~ key_lt (track_key t) (c, hd))
                    /\ ts1 = take i (tracks imdf) ++ zero_track
                             :: drop i (tracks imdf)))) as Hshape.
  { unfold imdf_write_track in Hrun.
    destruct (truthy (write_protected imdf)); [by injection Hrun|].
    destruct (geometry_exceeded imdf c hd); [by injection Hrun|].
    destruct ((num_sectors >? 0) && is_null smap_arg && _); [by injection Hrun|].
    destruct (get_sector_size_code sector_size) as [code|]; [|by injection Hrun].
    cbv zeta in Hrun. unfold find_track_index_internal in Hrun.
    set (idx := find_track_from (tracks imdf) 0 c hd) in *.
    assert (forall (im1 : ImdImageFile) (i : Z) (cleanup : ImdImageFile -> ImdImageFile),
              match populate_track h c hd num_sectors code sector_size
                      fill_byte smap_arg cmap_arg hmap_arg with
              | inr (rc, t) => Some (rc, cleanup (set_track im1 i t))
              | inl t =>
                  '(rewrite_res, f') ← rewrite_image_file h (set_track im1 i t) i
                      (Some (with_compression default_libimdf_write_opts
                               IMD_COMPRESSION_FORCE_COMPRESS));
                  if negb (rewrite_res =? IMDF_ERR_OK)
                  then Some (rewrite_res, cleanup (with_file (set_track im1 i t) f'))
                  else Some (IMDF_ERR_OK,
                             if num_sectors >? 0
                             then set_track (with_file (set_track im1 i t) f') i
                                    (mark_track_compressed t)
                             else with_file (set_track im1 i t) f')
              end = Some (IMDF_ERR_OK, imdf') ->
              exists t, track_key t = (c, hd)
                        /\ map track_key (tracks imdf')
                           = <[Z.to_nat i := (c, hd)]> (map track_key (tracks im1)))
      as Htail.
    { intros im1 i cleanup Hm.
      destruct (populate_track _ _ _ _ _ _ _ _ _ _) as [t|[rc t]] eqn:Ep.
      2:{ injection Hm as Hrc _. by apply populate_track_error in Ep. }
      apply populate_track_key in Ep.
      destruct (rewrite_image_file _ _ _ _) as [[res f']|]; [|done].
      cbn [mbind option_bind] in Hm.
      destruct (Z.eqb_spec res IMDF_ERR_OK) as [->|Hres]; cbn [negb] in Hm.
      2:{ injection Hm as Hrc _. done. }
      exists t. split; [done|]. injection Hm as <-.
      destruct (num_sectors >? 0); cbn;
        rewrite !list_fmap_insert, ?list_insert_insert_eq;
        unfold mark_track_compressed, track_key in *; cbn; by rewrite ?Ep. }
    destruct (Z.geb_spec idx 0) as [Hex|Hnew].
    - cbn [mbind option_bind] in Hrun.
      destruct (Htail (set_track imdf idx zero_track) idx (fun im => im) Hrun)
        as (t & Hk & Hkeys).
      destruct (find_track_from_found (tracks imdf) c hd 0) as (_ & t0 & Ht0 & Hk0);
        [lia | done |].
      fold idx in Ht0. rewrite Z.sub_0_r in Ht0.
      exists (Z.to_nat idx), t, (<[Z.to_nat idx := zero_track]> (tracks imdf)).
      split; [done|]. split; [exact Hkeys|]. left. split.
      + by rewrite list_lookup_fmap, Ht0, <- Hk0.
      + by rewrite list_fmap_insert.
    - destruct (find_insertion_index_spec imdf c hd Hsorted)
        as (ins & Eins & Hins & Hbelow & Habove).
      rewrite Eins in Hrun. cbn [mbind option_bind] in Hrun.
      destruct ((num_tracks imdf >=? track_capacity imdf) && _);
        [by injection Hrun|].
      destruct (Htail _ ins (fun im => remove_track im ins) Hrun)
        as (t & Hk & Hkeys).
      exists (Z.to_nat ins), t,
        (take (Z.to_nat ins) (tracks imdf) ++ zero_track
         :: drop (Z.to_nat ins) (tracks imdf)).
      split; [done|]. split; [exact Hkeys|]. right.
      unfold num_tracks in Hins. split; [lia|].
      split; [apply (find_track_from_none _ c hd 0); [lia | fold idx; lia]|].
      split; [|split; [|done]].
      + intros j t' Hj Ht'. apply (Hbelow (Z.of_nat j)); [lia|].
        by rewrite Nat2Z.id.
      + intros j t' Hj Ht'. apply (Habove (Z.of_nat j)); [lia|].
        by rewrite Nat2Z.id. }
  destruct Hshape as (i & t & ts1 & Hk & Hkeys & Hcase).
  assert (StronglySorted key_lt (map track_key (tracks imdf'))
          /\ (c, hd) ∈ map track_key (tracks imdf')) as [Hs Hin].
  { rewrite Hkeys. destruct Hcase as [[Hat ->]|(Hi & Hnone & Hbelow & Habove & ->)].
    - rewrite list_insert_insert_eq, list_insert_id by done.
      split; [done|]. by eapply list_elem_of_lookup_2.
    - rewrite map_app, map_cons.
      assert (<[i:=(c, hd)]> (map track_key (take i (tracks imdf))
                              ++ track_key zero_track
                              :: map track_key (drop i (tracks imdf)))
              = take i (map track_key (tracks imdf))
                ++ (c, hd) :: drop i (map track_key (tracks imdf))) as ->.
      { rewrite insert_app_r_alt by (rewrite length_map, length_take; lia).
        rewrite length_map, length_take.
        replace (i - i `min` length (tracks imdf))%nat with 0%nat by lia.
        cbn [insert list_insert]. by rewrite fmap_take, fmap_drop. }
      split; [|apply elem_of_app; right; by left].
      apply insert_sorted; [done | |].
      + intros j x Hj Hx. rewrite list_lookup_fmap in Hx.
        destruct (tracks imdf !! j) as [tj|] eqn:Ej; [|done].
        injection Hx as <-. by apply (Hbelow j).
      + intros j x Hj Hx. rewrite list_lookup_fmap in Hx.
        destruct (tracks imdf !! j) as [tj|] eqn:Ej; [|done].
        injection Hx as <-. apply key_lt_total; [by apply (Habove j)|].
        apply (proj1 (Forall_forall _ _) Hnone). by eapply list_elem_of_lookup_2. }
  split; [done|]. split; [by apply sorted_NoDup | done].
Qed.

(** C5 (witness): a track at (0, 1) written into an image that holds the
    tracks (0, 0) and (1, 0). *)
Lemma write_track_keeps_sorted_witness :
  exists imdf',
    imdf_write_track host_ok two_track_image 0 1 1 128 0xE5 None None None
    = Some (IMDF_ERR_OK, imdf')
    /\ tracks_sorted (tracks imdf')
    /\ NoDup (map track_key (tracks imdf'))
    /\ (0, 1) ∈ map track_key (tracks imdf').
Proof.
  assert (exists imdf',
            imdf_write_track host_ok two_track_image 0 1 1 128 0xE5
              None None None = Some (IMDF_ERR_OK, imdf')) as [imdf' E]
    by (eexists; vm_compute; reflexivity).
  exists imdf'. split; [exact E|].
  apply (write_track_keeps_sorted host_ok two_track_image imdf' 0 1 1 128 0xE5
           None None None); [|exact E].
  unfold tracks_sorted.
  change (map track_key (tracks two_track_image)) with [(0, 0); (1, 0)].
  apply SSorted_cons; [apply SSorted_cons; [apply SSorted_nil | apply Forall_nil_2]|].
  apply Forall_cons_2; [|apply Forall_nil_2]. left. reflexivity.
Defined.

(** C5 (counterexample): [imdf_open] keeps the tracks in the order of the
    file, here (1, 0) then (0, 0); a successful [imdf_write_track] at
    (1, 0) overwrites the first entry and leaves the sequence unsorted. *)
Lemma write_track_on_unsorted_image :
  exists imdf imdf',
    imdf_open host_ok (bytes_of_string "a.imd") (Some unsorted_image_file) 0
    = Some (IMDF_ERR_OK, Some imdf)
    /\ imdf_write_track host_ok imdf 1 0 1 128 0xE5 None None None
       = Some (IMDF_ERR_OK, imdf')
    /\ map track_key (tracks imdf') = [(1, 0); (0, 0)]
    /\ ~ tracks_sorted (tracks imdf').
Proof.
  assert (exists imdf,
            imdf_open host_ok (bytes_of_string "a.imd")
              (Some unsorted_image_file) 0 = Some (IMDF_ERR_OK, Some imdf)
            /\ exists imdf',
                 imdf_write_track host_ok imdf 1 0 1 128 0xE5 None None None
                 = Some (IMDF_ERR_OK, imdf')
                 /\ map track_key (tracks imdf') = [(1, 0); (0, 0)])
    as (imdf & Eo & imdf' & Ew & Ek).
  { eexists. split; [vm_compute; reflexivity|].
    eexists. split; vm_compute; reflexivity. }
  exists imdf, imdf'. split; [exact Eo|]. split; [exact Ew|]. split; [exact Ek|].
  unfold tracks_sorted. rewrite Ek. intros Hs.
  apply StronglySorted_inv in Hs as [_ Hall]. apply Forall_inv in Hall.
  unfold key_lt in Hall. simpl in Hall. lia.
Qed.

(** ** Reading a track record moves the stream forward *)

Lemma fgetc_content (f f' : FILE) (r : getc_result) :
  fgetc f = (r, f') -> f_content f' = f_content f.
Proof.
  unfold fgetc. destruct (read_faults f (f_pos f)); [by intros [= <- <-]|].
  destruct (f_content f !! Z.to_nat (f_pos f)); [|by intros [= <- <-]].
  destruct (f_pos f <? 0); by intros [= <- <-].
Qed.

Lemma fgetc_pos (f f' : FILE) (r : getc_result) :
  fgetc f = (r, f') ->
  match r with
  | GotByte _ => 0 <= f_pos f < Z.of_nat (length (f_content f))
                 /\ f_pos f' = f_pos f + 1
  | _ => f_pos f' = f_pos f
  end.
Proof.
  unfold fgetc. destruct (read_faults f (f_pos f)); [by intros [= <- <-]|].
  destruct (f_content f !! Z.to_nat (f_pos f)) as [b|] eqn:E;
    [|by intros [= <- <-]].
  destruct (Z.ltb_spec (f_pos f) 0); intros [= <- <-]; [done|].
  apply lookup_lt_Some in E. cbn. lia.
Qed.

(** The three results of [read_byte]. *)
Lemma read_byte_cases (f : FILE) :
  (exists b f', read_byte f = (1, b, f')
                /\ f_content f' = f_content f
                /\ 0 <= f_pos f < Z.of_nat (length (f_content f))
                /\ f_pos f' = f_pos f + 1)
  \/ (exists f', read_byte f = (0, 0, f'))
  \/ (exists f', read_byte f = (IMD_ERR_READ_ERROR, 0, f')).
Proof.
  unfold read_byte. destruct (fgetc f) as [[b| |] f'] eqn:E.
  - left. exists (u8 b), f'. split; [done|].
    split; [by eapply fgetc_content|]. by apply fgetc_pos in E.
  - right. left. by exists f'.
  - right. right. by exists f'.
Qed.

Lemma read_header_rest_inl (k : nat) :
  forall f got start_pos got' f1,
    read_header_rest k f got start_pos = inl (got', f1) ->
    f_content f1 = f_content f
    /\ f_pos f1 = f_pos f + Z.of_nat k
    /\ (0 < Z.of_nat k ->
        0 <= f_pos f /\ f_pos f + Z.of_nat k <= Z.of_nat (length (f_content f))).
Proof.
  induction k as [|k IH]; intros f got start_pos got' f1; cbn [read_header_rest].
  - intros [= _ <-]. split; [done|]. split; lia.
  - destruct (read_byte_cases f) as [(b & f' & -> & Hc & Hp & Hp')|[[f' ->]|[f' ->]]];
      [|done|done].
    intros H. apply IH in H as (Hc1 & Hp1 & Hb).
    split; [congruence|]. split; [lia|]. intros _. rewrite Hc in Hb.
    destruct k; [lia|]. lia.
Qed.

Lemma read_track_header_bytes_inl (f : FILE) (start_pos : Z) (got : list Z)
    (f1 : FILE) :
  read_track_header_bytes f start_pos = inl (got, f1) ->
  f_content f1 = f_content f
  /\ 0 <= f_pos f
  /\ f_pos f + 5 <= Z.of_nat (length (f_content f))
  /\ f_pos f1 = f_pos f + 5.
Proof.
  unfold read_track_header_bytes.
  destruct (read_byte_cases f) as [(b & f' & -> & Hc & Hp & Hp')|[[f' ->]|[f' ->]]];
    [|done|done].
  intros H. apply read_header_rest_inl in H as (Hc1 & Hp1 & Hb).
  rewrite Hc in Hb. split; [congruence|]. lia.
Qed.

Lemma read_track_header_bytes_inr (f : FILE) (start_pos : Z) (rc : Z)
    (f1 : FILE) (got : list Z) :
  read_track_header_bytes f start_pos = inr (rc, f1, got) -> rc <= 0.
Proof.
  assert (forall k f0 got0 rc0 f2 got2,
            read_header_rest k f0 got0 start_pos = inr (rc0, f2, got2) -> rc0 <= 0)
    as Hrest.
  { induction k as [|k IH]; intros f0 got0 rc0 f2 got2; cbn [read_header_rest];
      [done|].
    destruct (read_byte_cases f0) as [(b & f' & -> & _)|[[f' ->]|[f' ->]]].
    - apply IH.
    - by intros [= <- _ _].
    - by intros [= <- _ _]. }
  unfold read_track_header_bytes.
  destruct (read_byte_cases f) as [(b & f' & -> & _)|[[f' ->]|[f' ->]]].
  - apply Hrest.
  - cbn. by intros [= <- _ _].
  - cbn. by intros [= <- _ _].
Qed.

Lemma fread_forward (size : nat) :
  forall f bytes f',
    fread size f = (bytes, f') ->
    f_content f' = f_content f /\ f_pos f <= f_pos f'.
Proof.
  induction size as [|k IH]; intros f bytes f'; cbn [fread].
  - by intros [= _ <-].
  - destruct (fgetc f) as [[b| |] f1] eqn:E.
    + destruct (fread k f1) as [bs f2] eqn:E2. intros [= _ <-].
      apply IH in E2 as [Hc Hp]. pose proof (fgetc_content _ _ _ E).
      apply fgetc_pos in E. split; [congruence | lia].
    + intros [= _ <-]. pose proof (fgetc_content _ _ _ E).
      apply fgetc_pos in E. split; [done | lia].
    + intros [= _ <-]. pose proof (fgetc_content _ _ _ E).
      apply fgetc_pos in E. split; [done | lia].
Qed.

Lemma read_map_forward (present : bool) (n : Z) (absent : list Z) (f f' : FILE)
    (m : list Z) (ok : bool) :
  read_map present n absent f = (m, ok, f') ->
  f_content f' = f_content f /\ f_pos f <= f_pos f'.
Proof.
  unfold read_map, read_bytes. destruct present; [|intros [= _ _ <-]; split; [done|lia]].
  destruct (n =? 0).
  - intros [= _ _ <-]. split; [done | lia].
  - destruct (fread (Z.to_nat n) f) as [bytes f1] eqn:E. intros [= _ _ <-].
    by apply fread_forward in E.
Qed.

Lemma read_track_maps_forward (t t2 : ImdTrackInfo) (synthesize ok : bool)
    (f f2 : FILE) :
  read_track_maps t synthesize f = (t2, ok, f2) ->
  f_content f2 = f_content f /\ f_pos f <= f_pos f2
  /\ sector_size t2 = sector_size t /\ num_sectors t2 = num_sectors t
  /\ cyl t2 = cyl t /\ head t2 = head t.
Proof.
  unfold read_track_maps.
  destruct (num_sectors t >? 0); [|intros [= <- _ <-]; repeat split; lia].
  destruct (read_map true _ _ f) as [[sm ok1] f1] eqn:E1.
  apply read_map_forward in E1 as [Hc1 Hp1].
  destruct ok1; cbn [negb]; [|intros [= <- _ <-]; repeat split; done].
  destruct (read_map _ _ _ f1) as [[cm ok2] f2'] eqn:E2.
  apply read_map_forward in E2 as [Hc2 Hp2].
  destruct ok2; cbn [negb];
    [|intros [= <- _ <-]; repeat split; try done; [congruence | lia]].
  destruct (read_map _ _ _ f2') as [[hm ok3] f3] eqn:E3.
  apply read_map_forward in E3 as [Hc3 Hp3].
  intros [= <- _ <-]. repeat split; try done; [congruence | lia].
Qed.

Lemma skip_by_reading_result (fuel : nat) :
  forall remaining_skip track_start_pos f rc f',
    skip_by_reading fuel remaining_skip track_start_pos f = (rc, f') ->
    rc <= 0 /\ (rc = 0 -> f_content f' = f_content f /\ f_pos f <= f_pos f').
Proof.
  induction fuel as [|k IH]; intros rem start f rc f'; cbn [skip_by_reading].
  - intros [= <- <-]. split; [lia|]. intros _. split; [done | lia].
  - destruct (rem >? 0); [|intros [= <- <-]; split; [lia|]; intros _; split; [done|lia]].
    destruct (fread _ f) as [bytes f1] eqn:E. apply fread_forward in E as [Hc Hp].
    destruct (_ <? _).
    + intros [= <- <-]. split; [done|]. done.
    + intros H. apply IH in H as [Hrc H0]. split; [done|].
      intros Hz. destruct (H0 Hz) as [Hc' Hp']. split; [congruence | lia].
Qed.

Lemma skip_sector_data_result (f f' : FILE)
    (sector_flag sector_size track_start_pos rc : Z) :
  skip_sector_data f sector_flag sector_size track_start_pos = (rc, f') ->
  rc <= 0
  /\ (rc = 0 -> 0 <= sector_size ->
      f_content f' = f_content f /\ f_pos f <= f_pos f').
Proof.
  unfold skip_sector_data.
  set (d := if sector_flag =? IMD_SDR_UNAVAILABLE then Some 0
            else if IMD_SDR_IS_COMPRESSED sector_flag then Some 1
            else if (sector_flag =? IMD_SDR_NORMAL)
                    || (sector_flag =? IMD_SDR_NORMAL_DAM)
                    || (sector_flag =? IMD_SDR_NORMAL_ERR)
                    || (sector_flag =? IMD_SDR_DELETED_ERR)
            then Some sector_size else None).
  assert (forall x, d = Some x -> 0 <= sector_size -> 0 <= x) as Hd.
  { intros x. unfold d.
    destruct (sector_flag =? IMD_SDR_UNAVAILABLE); [intros [= <-]; lia|].
    destruct (IMD_SDR_IS_COMPRESSED sector_flag); [intros [= <-]; lia|].
    destruct (_ || _); [intros [= <-]; lia | done]. }
  destruct d as [x|]; [|by intros [= <- <-]].
  specialize (Hd x eq_refl).
  destruct (x =? 0); [intros [= <- <-]; split; [lia|]; intros; split; [done|lia]|].
  unfold ftell, fseek_cur, fseek_set. cbn [clearerr with_error f_seekable f_pos].
  destruct (f_seekable f) eqn:Es; [|by intros [= <- <-]].
  destruct (Z.ltb_spec (f_pos f) 0); [by intros [= <- <-]|]. cbn [andb].
  destruct (Z.leb_spec 0 (f_pos f + x)) as [Hle|Hgt].
  - cbn. rewrite Es.
    destruct (Z.ltb_spec (f_pos f + x) 0); [lia|].
    rewrite Z.eqb_refl. intros [= <- <-]. split; [lia|].
    intros _ Hs. cbn. split; [done | lia].
  - cbn. rewrite Es.
    destruct (Z.leb_spec 0 (f_pos f)); [|lia]. cbn.
    intros Hskip. apply skip_by_reading_result in Hskip as [Hrc Hzero].
    split; [done|]. intros Hz _. destruct (Hzero Hz) as [Hc Hp]. cbn in *.
    split; [done | lia].
Qed.

Lemma read_flag_and_skip_inl (start_pos i : Z) (f f' : FILE)
    (t t' : ImdTrackInfo) :
  read_flag_and_skip start_pos i (f, t) = inl (f', t') ->
  0 <= sector_size t ->
  f_content f' = f_content f /\ f_pos f <= f_pos f'
  /\ sector_size t' = sector_size t /\ cyl t' = cyl t /\ head t' = head t
  /\ num_sectors t' = num_sectors t.
Proof.
  unfold read_flag_and_skip.
  destruct (read_byte_cases f) as [(b & f1 & -> & Hc & Hp & Hp')|[[f1 ->]|[f1 ->]]];
    [|done|done].
  destruct (skip_sector_data f1 b _ start_pos) as [rc f2] eqn:E.
  apply skip_sector_data_result in E as [Hrc H0].
  destruct (Z.eq_dec rc 0) as [->|Hne]; [|by destruct rc].
  intros [= <- <-] Hs. destruct (H0 eq_refl Hs) as [Hc2 Hp2].
  repeat split; try done; [congruence | lia].
Qed.

Lemma read_flag_and_skip_inr (start_pos i : Z) (st : FILE * ImdTrackInfo)
    (e : Z * FILE * ImdTrackInfo) :
  read_flag_and_skip start_pos i st = inr e -> fst (fst e) < 0.
Proof.
  unfold read_flag_and_skip. destruct st as [f t].
  destruct (read_byte_cases f) as [(b & f1 & -> & _)|[[f1 ->]|[f1 ->]]];
    [|by intros [= <-]|by intros [= <-]].
  destruct (skip_sector_data f1 b _ start_pos) as [rc f2] eqn:E.
  apply skip_sector_data_result in E as [Hrc _].
  destruct (Z.eq_dec rc 0) as [->|Hne]; [done|].
  destruct rc; [done | lia |]; intros [= <-]; cbn; lia.
Qed.

Lemma sector_size_lookup_positive (code : Z) :
  code < SECTOR_SIZE_LOOKUP_COUNT -> 0 < arr_get SECTOR_SIZE_LOOKUP code.
Proof.
  unfold SECTOR_SIZE_LOOKUP_COUNT. intros H.
  destruct (decide (code <= 0)) as [Hle|Hgt].
  - unfold arr_get. replace (Z.to_nat code) with 0%nat by lia. by vm_compute.
  - assert (code = 1 \/ code = 2 \/ code = 3 \/ code = 4 \/ code = 5 \/ code = 6)
      as Hc by lia.
    repeat (destruct Hc as [-> | Hc]); try subst code; by vm_compute.
Qed.

Lemma validate_track_header_inl (t t' : ImdTrackInfo) :
  validate_track_header t = inl t' ->
  0 < sector_size t' /\ cyl t' = cyl t /\ head t' = head t
  /\ num_sectors t' = num_sectors t.
Proof.
  unfold validate_track_header.
  destruct (_ || _) eqn:E; [done|].
  apply orb_false_iff in E as [_ E]. rewrite Z.geb_leb in E. apply Z.leb_gt in E.
  destruct (_ =? 0); [done|]. intros [= <-]. cbn.
  split; [by apply sector_size_lookup_positive | done].
Qed.

(** A successful [imd_read_track_header_and_flags] found the five header
    bytes inside the file and left the stream at least five bytes
    further, over the same content. *)
Lemma read_track_progress (f f' : FILE) (t0 t : ImdTrackInfo) (r : Z) :
  imd_read_track_header_and_flags f t0 = (r, f', t) ->
  0 < r ->
  f_content f' = f_content f
  /\ 0 <= f_pos f
  /\ f_pos f + 5 <= Z.of_nat (length (f_content f))
  /\ f_pos f + 5 <= f_pos f'.
Proof.
  unfold imd_read_track_header_and_flags.
  destruct (ftell f <? 0); [intros [= <- _ _]; by vm_compute|].
  destruct (read_track_header_bytes (clearerr f) (ftell f))
    as [[got f1]|[[rc f1] got]] eqn:Eh.
  2:{ apply read_track_header_bytes_inr in Eh. intros [= <- _ _]. lia. }
  apply read_track_header_bytes_inl in Eh as (Hc1 & Hp0 & Hlen & Hp1).
  cbn in Hc1, Hp0, Hlen, Hp1.
  destruct (validate_track_header (header_fields got)) as [t1|t1] eqn:Ev;
    [|intros [= <- _ _]; by vm_compute].
  apply validate_track_header_inl in Ev as (Hsz & _).
  destruct (read_track_maps t1 false f1) as [[t2 ok] f2] eqn:Em.
  apply read_track_maps_forward in Em as (Hc2 & Hp2 & Hs2 & _).
  destruct ok; [|intros [= <- _ _]; by vm_compute].
  destruct (for_range_exit 0 (Z.to_nat (num_sectors t2))
              (read_flag_and_skip (ftell f)) (f2, t2)) as [[f3 t3]|e] eqn:El.
  2:{ apply (for_range_exit_inr (fun e => fst (fst e) < 0)) in El;
        [|intros i st e'; apply read_flag_and_skip_inr].
      destruct e as [[rc fe] te]. intros [= <- _ _]. cbn in El. lia. }
  intros [= _ <- _] _.
  pose (P := fun (_ : Z) (st : FILE * ImdTrackInfo) =>
    f_content (fst st) = f_content f2 /\ f_pos f2 <= f_pos (fst st)
    /\ sector_size (snd st) = sector_size t2).
  assert (P (0 + Z.of_nat (Z.to_nat (num_sectors t2))) (f3, t3)) as (Hc3 & Hp3 & _).
  { eapply (for_range_exit_inl P); [exact El | by unfold P |].
    intros i [fa ta] [fb tb] _ (Ha & Hb & Hs) Hstep. cbn in Ha, Hb, Hs.
    apply read_flag_and_skip_inl in Hstep as (Hc & Hp & Hs' & _); [|lia].
    unfold P. cbn. split; [congruence|]. split; [lia | congruence]. }
  cbn in Hc3, Hp3. split; [congruence|]. lia.
Qed.

(** The results of [imd_read_track_header_and_flags] other than success
    are 0 and the negative error codes. *)
Lemma read_track_success (f f' : FILE) (t0 t : ImdTrackInfo) (r : Z) :
  imd_read_track_header_and_flags f t0 = (r, f', t) -> 0 < r -> r = 1.
Proof.
  unfold imd_read_track_header_and_flags.
  destruct (ftell f <? 0); [intros [= <- _ _]; by vm_compute|].
  destruct (read_track_header_bytes (clearerr f) (ftell f))
    as [[got f1]|[[rc f1] got]] eqn:Eh.
  2:{ apply read_track_header_bytes_inr in Eh. intros [= <- _ _]. lia. }
  destruct (validate_track_header (header_fields got)) as [t1|t1];
    [|intros [= <- _ _]; by vm_compute].
  destruct (read_track_maps t1 false f1) as [[t2 ok] f2].
  destruct ok; [|intros [= <- _ _]; by vm_compute].
  destruct (for_range_exit 0 (Z.to_nat (num_sectors t2))
              (read_flag_and_skip (ftell f)) (f2, t2)) as [[f3 t3]|e] eqn:El.
  2:{ apply (for_range_exit_inr (fun e => fst (fst e) < 0)) in El;
        [|intros i st e'; apply read_flag_and_skip_inr].
      destruct e as [[rc fe] te]. intros [= <- _ _]. cbn in El. lia. }
  by intros [= <- _ _].
Qed.

(** ** The header line and the comment leave the content of the file *)

Lemma fgets_loop_content (room : nat) :
  forall f acc r f', fgets_loop room f acc = (r, f') -> f_content f' = f_content f.
Proof.
  induction room as [|k IH]; intros f acc r f'; cbn [fgets_loop].
  - by intros [= _ <-].
  - destruct (fgetc f) as [[b| |] f1] eqn:E; apply fgetc_content in E.
    + destruct (b =? 10); [by intros [= _ <-]|].
      intros H. apply IH in H. congruence.
    + by intros [= _ <-].
    + by intros [= _ <-].
Qed.

Lemma imd_read_file_header_stream (h : Host) (f : FILE) (want_info : bool)
    (buf_size : option Z) :
  exists f', snd (fst (fst (imd_read_file_header h (Some f) want_info buf_size)))
             = Some f'
             /\ f_content f' = f_content f.
Proof.
  unfold imd_read_file_header, fgets.
  destruct (fgets_loop _ (clearerr f) []) as [[raw|] f1] eqn:E;
    apply fgets_loop_content in E; cbn in E.
  - destruct (negb (has_prefix _ _)); by exists f1.
  - by exists f1.
Qed.

Lemma read_until_marker_total (fuel : nat) :
  forall f acc,
    (1 <= fuel)%nat ->
    f_pos f < 0 \/ Z.of_nat (length (f_content f)) - f_pos f < Z.of_nat fuel ->
    exists found acc' f',
      read_until_marker fuel f acc = Some (found, acc', f')
      /\ f_content f' = f_content f.
Proof.
  induction fuel as [|k IH]; intros f acc Hfuel Hbound; [lia|].
  cbn [read_until_marker].
  destruct (fgetc f) as [[b| |] f1] eqn:E; pose proof (fgetc_content _ _ _ E) as Hc;
    apply fgetc_pos in E.
  - destruct (b =? LIBIMD_COMMENT_EOF_MARKER); [by eexists _, _, _|].
    destruct (IH f1 (acc ++ [b])) as (found & acc' & f' & Hr & Hc');
      [lia | right; rewrite Hc; lia |].
    exists found, acc', f'. split; [done | congruence].
  - by eexists _, _, _.
  - by eexists _, _, _.
Qed.

Lemma imd_skip_comment_block_total (f : FILE) :
  exists rc f', imd_skip_comment_block f = Some (rc, f')
                /\ f_content f' = f_content f.
Proof.
  unfold imd_skip_comment_block, comment_fuel.
  destruct (read_until_marker_total (Datatypes.S (length (f_content f)))
              (clearerr f) []) as (found & acc' & f' & -> & Hc).
  - lia.
  - cbn. destruct (decide (f_pos f < 0)); [by left | right; lia].
  - destruct found; by eexists _, _.
Qed.

(** ** The SeqHeadOrder bit *)

Lemma raise_other_bit (r : ImdChkResults) (bit : Z) :
  Z.land bit CHECK_BIT_SEQ_HEAD_ORDER = 0 ->
  head_order_bit (raise_bit r bit) = head_order_bit r.
Proof.
  intros H. unfold head_order_bit, raise_bit. cbn.
  by rewrite Z.land_lor_distr_l, H, Z.lor_0_r.
Qed.

Lemma raise_head_order_bit (r : ImdChkResults) :
  head_order_bit (raise_bit r CHECK_BIT_SEQ_HEAD_ORDER) <> 0.
Proof.
  unfold head_order_bit, raise_bit. cbn.
  rewrite Z.land_lor_distr_l, Z.land_diag. intros H.
  apply Z.lor_eq_0_iff in H as [_ H]. discriminate H.
Qed.

Lemma raise_bit_keeps (r : ImdChkResults) (bit : Z) :
  head_order_bit r <> 0 -> head_order_bit (raise_bit r bit) <> 0.
Proof.
  unfold head_order_bit, raise_bit. cbn.
  rewrite Z.land_lor_distr_l. intros Hr H.
  by apply Z.lor_eq_0_iff in H as [H _].
Qed.

Lemma check_smap_consistency_bit (track : ImdTrackInfo) (r : ImdChkResults) :
  head_order_bit (check_smap_consistency_internal track r) = head_order_bit r.
Proof.
  unfold check_smap_consistency_internal.
  destruct (num_sectors track <=? 1); [done|].
  apply (for_range_inv (fun _ st => head_order_bit (snd st) = head_order_bit r));
    [done|].
  intros i [seen res] _ Hres. cbn in Hres.
  destruct (truthy _); cbn; [|done].
  by rewrite raise_other_bit.
Qed.

Lemma check_sflag_consistency_bit (track : ImdTrackInfo) (r : ImdChkResults) :
  head_order_bit (check_sflag_consistency_and_stats_internal track r)
  = head_order_bit r.
Proof.
  unfold check_sflag_consistency_and_stats_internal.
  destruct (num_sectors track =? 0); [done|].
  match goal with
  | |- context [for_range 0 ?n ?body ?init] =>
      pose proof (for_range_inv
                    (fun _ st => head_order_bit (fst (fst st)) = head_order_bit r)
                    body n 0 init eq_refl) as H;
      destruct (for_range 0 n body init) as [[res e] d]
  end.
  assert (head_order_bit res = head_order_bit r) as Hres.
  { apply H. intros i [[res' e'] d'] _ Hr. cbn in Hr.
    assert (head_order_bit
              (if arr_get (sflag track) i >? IMD_SDR_COMPRESSED_DEL_ERR
               then raise_bit res' CHECK_BIT_INV_SFLAG_VALUE else res')
            = head_order_bit r) as Hr'.
    { destruct (_ >? _); [by rewrite raise_other_bit | done]. }
    destruct (negb (IMD_SDR_HAS_DATA _)); exact Hr'. }
  destruct e, d; rewrite ?raise_other_bit; done.
Qed.

(** A sequence failure that is in the error mask, when the cylinder bit
    is not, is a head-order failure. *)
Lemma sequence_skip_bit (mask failures : Z) :
  Z.land mask CHECK_BIT_SEQ_CYL_DEC = 0 ->
  Z.land (Z.land mask (Z.lor CHECK_BIT_SEQ_CYL_DEC CHECK_BIT_SEQ_HEAD_ORDER))
    failures <> 0 ->
  Z.land failures CHECK_BIT_SEQ_HEAD_ORDER <> 0.
Proof.
  intros Hm Hskip Hz. apply Hskip.
  rewrite Z.land_lor_distr_r, Hm, Z.lor_0_l.
  rewrite <- Z.land_assoc, (Z.land_comm CHECK_BIT_SEQ_HEAD_ORDER), Hz.
  apply Z.land_0_r.
Qed.

Lemma truthy_true (z : Z) : truthy z = true <-> z <> 0.
Proof. unfold truthy. rewrite negb_true_iff. apply Z.eqb_neq. Qed.

Lemma truthy_false (z : Z) : truthy z = false <-> z = 0.
Proof. unfold truthy. rewrite negb_false_iff. apply Z.eqb_eq. Qed.

Lemma head_out_of_order_spec (track prev : ImdTrackInfo) :
  head_out_of_order track (cyl prev) (head prev) = true
  <-> head_order_violation prev track.
Proof.
  unfold head_out_of_order, head_order_violation.
  rewrite !andb_true_iff, negb_true_iff, andb_false_iff.
  rewrite Z.eqb_eq, Z.leb_le, Z.eqb_neq, Z.gtb_ltb, Z.ltb_ge. lia.
Qed.

(** ** One iteration of the track loop *)

(** When [ftell] fails or the track reader does not succeed, and both
    failures are fatal, the loop is left with the bit as it was. *)
Lemma scan_track_stop (options : ImdChkOptions) (s : ScanState) :
  Z.land (error_mask options) CHECK_BIT_TRACK_READ <> 0 ->
  Z.land (error_mask options) CHECK_BIT_FTELL <> 0 ->
  (ftell (sc_file s) <? 0) = true
  \/ fst (fst (imd_read_track_header_and_flags (sc_file s) zero_track)) <= 0 ->
  exists s', scan_track options s = inr s'
             /\ head_order_bit (sc_results s') = head_order_bit (sc_results s).
Proof.
  intros Hread Hftell Hstop. unfold scan_track. cbv zeta.
  destruct (ftell (sc_file s) <? 0) eqn:Et.
  - apply truthy_true in Hftell. rewrite Hftell.
    eexists. split; [reflexivity|]. cbn. by apply raise_other_bit.
  - destruct Hstop as [|Hle]; [done|].
    destruct (imd_read_track_header_and_flags (sc_file s) zero_track)
      as [[r f1] t] eqn:E.
    cbn in Hle. destruct r as [|p|p]; [| lia |].
    + eexists. split; [reflexivity|]. done.
    + cbn. apply truthy_true in Hread. rewrite Hread.
      eexists. split; [reflexivity|]. cbn. by apply raise_other_bit.
Qed.

(** A track that is read is checked against the track remembered in
    [last_cyl] and [last_head], which it then replaces. *)
Lemma scan_track_go (options : ImdChkOptions) (s : ScanState) (f1 : FILE)
    (track : ImdTrackInfo) :
  Z.land (error_mask options) CHECK_BIT_SEQ_CYL_DEC = 0 ->
  no_constraint_skips options ->
  (ftell (sc_file s) <? 0) = false ->
  imd_read_track_header_and_flags (sc_file s) zero_track = (1, f1, track) ->
  exists s',
    scan_track options s = inl s' /\ sc_file s' = f1
    /\ (head_order_bit (sc_results s) <> 0 -> head_order_bit (sc_results s') <> 0)
    /\ (head_order_bit (sc_results s) = 0 ->
        (first_track s = 0
         /\ head_out_of_order track (last_cyl s) (last_head s) = true ->
         head_order_bit (sc_results s') <> 0)
        /\ (~ (first_track s = 0
               /\ head_out_of_order track (last_cyl s) (last_head s) = true) ->
            head_order_bit (sc_results s') = 0
            /\ last_cyl s' = cyl track /\ last_head s' = head track
            /\ first_track s' = 0)).
Proof.
  intros Hcyl Hnc Ht Hread. unfold scan_track. cbv zeta.
  rewrite Ht, Hread. cbv beta iota.
  change (1 <? 0) with false. cbv beta iota.
  set (r0 := with_summary (sc_results s) (track_read_count (sc_results s) + 1)
               _ _ _ _).
  set (c1 := negb (max_allowed_cyl options =? -1)
             && (cyl track >? max_allowed_cyl options)).
  set (c2 := negb (required_head options =? -1)
             && negb (head track =? required_head options)).
  set (c3 := negb (max_allowed_sectors options =? -1)
             && (num_sectors track >? max_allowed_sectors options)).
  set (r1 := if c1 then raise_bit r0 CHECK_BIT_CON_CYL else r0).
  set (r2 := if c2 then raise_bit r1 CHECK_BIT_CON_HEAD else r1).
  set (r3 := if c3 then raise_bit r2 CHECK_BIT_CON_SECTORS else r2).
  set (r4 := with_summary r3 _ _ _ _ _).
  assert (head_order_bit r4 = head_order_bit (sc_results s)) as Hr4.
  { transitivity (head_order_bit r3); [reflexivity|].
    unfold r3, r2, r1. destruct c1, c2, c3; rewrite ?raise_other_bit by done;
      reflexivity. }
  assert ((c1 || c2 || c3)
          && truthy (Z.land (error_mask options)
                       (Z.lor CHECK_BIT_CON_CYL
                          (Z.lor CHECK_BIT_CON_HEAD CHECK_BIT_CON_SECTORS)))
          = false) as ->.
  { destruct Hnc as [(H1 & H2 & H3)|Hm].
    - unfold c1, c2, c3. by rewrite H1, H2, H3.
    - rewrite Hm. apply andb_false_r. }
  clearbody r4. clear r0 r1 r2 r3 c1 c2 c3.
  set (r5 := if cyl track <? last_cyl s
             then raise_bit r4 CHECK_BIT_SEQ_CYL_DEC else r4).
  assert (head_order_bit r5 = head_order_bit (sc_results s)) as Hr5.
  { unfold r5. destruct (cyl track <? last_cyl s); rewrite ?raise_other_bit; done. }
  clearbody r5.
  (* the end of the body, for the results [R] of the sequence check *)
  assert (forall R,
            exists s',
              (if truthy (Z.land (Z.land (error_mask options) CHECK_BIT_DUPE_SID)
                            (check_failures_mask
                               (check_smap_consistency_internal track R)))
               then inl (mkScan f1 (check_smap_consistency_internal track R)
                           (cyl track) (head track) 0)
               else inl (mkScan f1
                           (check_sflag_consistency_and_stats_internal track
                              (check_smap_consistency_internal track R))
                           (cyl track) (head track) 0))
              = @inl ScanState ScanState s'
              /\ sc_file s' = f1
              /\ head_order_bit (sc_results s') = head_order_bit R
              /\ last_cyl s' = cyl track /\ last_head s' = head track
              /\ first_track s' = 0) as Htail.
  { intros R. destruct (truthy _); eexists; (split; [reflexivity|]); cbn;
      rewrite ?check_sflag_consistency_bit, check_smap_consistency_bit; done. }
  destruct (truthy (first_track s)) eqn:Eft; cbn [negb]; cbv beta iota.
  - apply truthy_true in Eft.
    destruct (Htail r4) as (s' & -> & Hf & Hb & Hlc & Hlh & Hft).
    exists s'. split; [done|]. split; [done|]. rewrite Hb, Hr4.
    split; [done|]. intros Hz. split; [by intros [? _]|]. done.
  - apply truthy_false in Eft.
    destruct (head_out_of_order track (last_cyl s) (last_head s)) eqn:Eh.
    + destruct (truthy _).
      * eexists. split; [reflexivity|]. cbn.
        pose proof (raise_head_order_bit r5). split; [done|]. split; [done|].
        intros _. split; [done|]. intros Hn. by destruct Hn.
      * destruct (Htail (raise_bit r5 CHECK_BIT_SEQ_HEAD_ORDER))
          as (s' & -> & Hf & Hb & Hlc & Hlh & Hft).
        pose proof (raise_head_order_bit r5).
        exists s'. split; [done|]. split; [done|]. rewrite Hb.
        split; [done|]. intros _. split; [done|]. intros Hn. by destruct Hn.
    + destruct (truthy _) eqn:Es.
      * apply truthy_true, (sequence_skip_bit _ _ Hcyl) in Es.
        fold (head_order_bit r5) in Es. rewrite Hr5 in Es.
        eexists. split; [reflexivity|]. cbn. rewrite Hr5.
        split; [done|]. split; [done|]. done.
      * destruct (Htail r5) as (s' & -> & Hf & Hb & Hlc & Hlh & Hft).
        exists s'. split; [done|]. split; [done|]. rewrite Hb, Hr5.
        split; [done|]. intros Hz. split; [by intros [_ ?]|]. done.
Qed.

(** ** The track loop of the scanner *)

Lemma violation_from_lookup (ts : list ImdTrackInfo) :
  forall prev,
    violation_from prev ts
    <-> (exists p c, prev = Some p /\ ts !! 0%nat = Some c
                     /\ head_order_violation p c)
        \/ (exists i p c, ts !! i = Some p /\ ts !! Datatypes.S i = Some c
                          /\ head_order_violation p c).
Proof.
  induction ts as [|t rest IH]; intros prev; cbn [violation_from].
  - split; [done|]. intros [(p & c & _ & H & _)|(i & p & c & H & _)]; done.
  - rewrite IH. split.
    + intros [Hp|[(p & c & [= <-] & Hc & Hv)|(i & p & c & Hi & Hs & Hv)]].
      * destruct prev as [p|]; [|done]. left. by exists p, t.
      * right. by exists 0%nat, t, c.
      * right. by exists (Datatypes.S i), p, c.
    + intros [(p & c & -> & [= <-] & Hv)|(i & p & c & Hi & Hs & Hv)].
      * by left.
      * right. destruct i as [|i].
        -- injection Hi as <-. left. by exists t, c.
        -- right. by exists i, p, c.
Qed.

(** With enough fuel for the bytes left in the file, the loop ends, and
    the bit is then set exactly when it was set before or some track read
    is out of order with the one before it. *)
Lemma scan_loop_spec (options : ImdChkOptions) :
  Z.land (error_mask options) CHECK_BIT_TRACK_READ <> 0 ->
  Z.land (error_mask options) CHECK_BIT_FTELL <> 0 ->
  Z.land (error_mask options) CHECK_BIT_SEQ_CYL_DEC = 0 ->
  no_constraint_skips options ->
  forall fuel s prev,
    scan_remembers s prev ->
    (1 <= fuel)%nat ->
    f_pos (sc_file s) < 0
    \/ Z.of_nat (length (f_content (sc_file s))) - f_pos (sc_file s)
       < Z.of_nat fuel ->
    exists s',
      scan_loop fuel options s = Some s'
      /\ (head_order_bit (sc_results s') <> 0
          <-> head_order_bit (sc_results s) <> 0
              \/ violation_from prev (scanned_tracks fuel (sc_file s))).
Proof.
  intros Hread Hftell Hcyl Hnc.
  induction fuel as [|k IH]; intros s prev Hrem Hfuel Hbound; [lia|].
  cbn [scan_loop scanned_tracks].
  assert (forall s', scan_track options s = inr s' ->
            head_order_bit (sc_results s') = head_order_bit (sc_results s) ->
            exists s'', match scan_track options s with
                        | inl s1 => scan_loop k options s1
                        | inr s1 => Some s1
                        end = Some s''
                        /\ (head_order_bit (sc_results s'') <> 0
                            <-> head_order_bit (sc_results s) <> 0
                                \/ violation_from prev [])) as Hstop.
  { intros s' -> Hb. exists s'. split; [done|]. rewrite Hb. cbn.
    split; [by left | by intros [?|[]]]. }
  destruct (ftell (sc_file s) <? 0) eqn:Et.
  { destruct (scan_track_stop options s Hread Hftell) as (s' & Es & Hb);
      [by left | by apply (Hstop s')]. }
  destruct (imd_read_track_header_and_flags (sc_file s) zero_track)
    as [[r f1] t] eqn:E.
  destruct (Z.leb_spec r 0) as [Hle|Hgt].
  { destruct (scan_track_stop options s Hread Hftell) as (s' & Es & Hb);
      [right; by rewrite E | by apply (Hstop s')]. }
  pose proof (read_track_success _ _ _ _ _ E Hgt) as ->.
  destruct (read_track_progress _ _ _ _ _ E Hgt) as (Hc & Hp0 & Hlen & Hp1).
  destruct (scan_track_go options s f1 t Hcyl Hnc Et E)
    as (s1 & -> & Hf1 & Hkeep & Hzero).
  assert (head_order_bit (sc_results s1) <> 0
          <-> head_order_bit (sc_results s) <> 0
              \/ match prev with
                 | Some p => head_order_violation p t
                 | None => False
                 end) as Hstep.
  { destruct (decide (head_order_bit (sc_results s) = 0)) as [Hz|Hnz];
      [|split; [by left | by intros; apply Hkeep]].
    destruct (Hzero Hz) as [Hviol Hnone].
    destruct Hrem as [Hb|[[Hft ->]|(Hft & p & -> & Hlc & Hlh)]]; [done | |].
    - destruct Hnone as (Hb & _); [by intros [? _]|]. rewrite Hb.
      split; [done | by intros [?|[]]].
    - rewrite <- head_out_of_order_spec, <- Hlc, <- Hlh.
      destruct (head_out_of_order t (last_cyl s) (last_head s)) eqn:Eh.
      + split; [by right | intros _; by apply Hviol].
      + destruct Hnone as (Hb & _); [by intros [_ ?]|]. rewrite Hb.
        split; [done | intros [?|?]; done]. }
  assert (scan_remembers s1 (Some t)) as Hrem1.
  { destruct (decide (head_order_bit (sc_results s1) = 0)) as [Hz1|]; [|by left].
    right. right.
    destruct (decide (head_order_bit (sc_results s) = 0)) as [Hz|Hnz];
      [|by apply Hkeep in Hnz].
    destruct (Hzero Hz) as [Hviol Hnone].
    destruct Hnone as (_ & Hlc & Hlh & Hft).
    { intros Hv. by apply Hviol in Hv. }
    split; [done|]. by exists t. }
  destruct (IH s1 (Some t) Hrem1) as (s' & Hrun & Hiff).
  - lia.
  - right. rewrite Hf1, Hc. lia.
  - exists s'. split; [done|]. rewrite Hiff, Hstep, Hf1.
    cbn [violation_from].
    split; [intros [[?|?]|?] | intros [?|[?|?]]]; auto.
Qed.

(** C4 (amended): when read and [ftell] failures are fatal, the
    cylinder-decrease bit is not in the error mask and no track is
    skipped for a constraint, [imdchk_check_file] returns, and it sets the
    SeqHeadOrder failure bit exactly when the file was processed and some
    successfully read track has the same cylinder as the track read
    before it and a head that does not exceed the head of that track,
    unless it is head 0 following a head above 0: a return to head 0 is
    never reported, also when the cylinder does not advance. *)
Theorem head_order_bit_iff (h : Host) (file : FILE) (options : ImdChkOptions)
    (fuel : nat) :
  Z.land (error_mask options) CHECK_BIT_TRACK_READ <> 0 ->
  Z.land (error_mask options) CHECK_BIT_FTELL <> 0 ->
  Z.land (error_mask options) CHECK_BIT_SEQ_CYL_DEC = 0 ->
  no_constraint_skips options ->
  (length (f_content file) < fuel)%nat ->
  exists rc res,
    imdchk_check_file h fuel (Some file) options = Some (rc, res)
    /\ (head_order_bit res <> 0
        <-> rc = 0
            /\ exists i prev cur,
                 tracks_after_prologue h fuel file !! i = Some prev
                 /\ tracks_after_prologue h fuel file !! Datatypes.S i = Some cur
                 /\ head_order_violation prev cur).
Proof.
  intros Hread Hftell Hcyl Hnc Hfuel.
  unfold imdchk_check_file, tracks_after_prologue.
  destruct (imd_read_file_header_stream h file true None) as (f1 & Ef1 & Hc1).
  destruct (imd_read_file_header h (Some file) true None)
    as [[[result f1o] info] stored].
  cbn in Ef1. subst f1o. cbv zeta.
  set (r0 := if negb (result =? 0)
             then raise_bit initial_results CHECK_BIT_HEADER
             else initial_results).
  assert (head_order_bit r0 = 0) as Hr0.
  { unfold r0. destruct (negb (result =? 0)); [by rewrite raise_other_bit | done]. }
  destruct (negb (result =? 0) && _).
  { exists (-1), r0. split; [done|]. rewrite Hr0.
    split; [done | by intros [? _]]. }
  destruct (imd_skip_comment_block_total f1) as (r2 & f2 & -> & Hc2).
  cbn [mbind option_bind].
  set (r1 := if negb (r2 =? 0)
             then raise_bit r0 CHECK_BIT_COMMENT_TERM else r0).
  assert (head_order_bit r1 = 0) as Hr1.
  { unfold r1. destruct (negb (r2 =? 0)); [by rewrite raise_other_bit | done]. }
  destruct (negb (r2 =? 0) && _).
  { exists (-1), r1. split; [done|]. rewrite Hr1.
    split; [done | by intros [? _]]. }
  destruct (scan_loop_spec options Hread Hftell Hcyl Hnc fuel
              (mkScan f2 r1 0 1 1) None) as (s' & -> & Hiff).
  - right. left. by split.
  - lia.
  - cbn. destruct (decide (f_pos f2 < 0)); [by left|].
    right. rewrite Hc2, Hc1. lia.
  - cbn [mbind option_bind].
    eexists 0, _. split; [reflexivity|].
    assert (forall r : ImdChkResults,
              head_order_bit
                (if (max_head_seen r >? 0) && negb (max_cyl_side0 r =? -1)
                    && negb (max_cyl_side1 r =? -1)
                    && negb (max_cyl_side0 r =? max_cyl_side1 r)
                 then raise_bit r CHECK_BIT_DIFF_MAX_CYL else r)
              = head_order_bit r) as Hlast.
    { intros r. destruct (_ && _); [by rewrite raise_other_bit | done]. }
    rewrite Hlast, Hiff. cbn [sc_results sc_file]. rewrite Hr1.
    rewrite violation_from_lookup. split.
    + intros [?|[(p & c & [=] & _)|Hex]]; [done|]. by split.
    + intros [_ Hex]. right. by right.
Qed.

(** C4 (witness): the default options on a file whose two track records
    are both at cylinder 0, head 0. *)
Lemma head_order_bit_iff_witness :
  exists rc res,
    imdchk_check_file host_ok 60 (Some repeated_track_file) default_chk_options
    = Some (rc, res)
    /\ (head_order_bit res <> 0
        <-> rc = 0
            /\ exists i prev cur,
                 tracks_after_prologue host_ok 60 repeated_track_file !! i
                 = Some prev
                 /\ tracks_after_prologue host_ok 60 repeated_track_file
                    !! Datatypes.S i = Some cur
                 /\ head_order_violation prev cur).
Proof.
  apply (head_order_bit_iff host_ok repeated_track_file default_chk_options 60).
  - by vm_compute.
  - by vm_compute.
  - reflexivity.
  - left. split; [reflexivity|]. split; reflexivity.
  - vm_compute. lia.
Defined.

(** C4 (counterexample): a file whose track records are (0, 1) then
    (0, 0), scanned with the default options.  The second track has the
    cylinder of the first and a head that does not exceed its head, yet
    the SeqHeadOrder bit is not set. *)
Lemma head_one_then_zero_not_reported :
  exists res t1 t2,
    imdchk_check_file host_ok 60 (Some head_one_then_zero_file)
      default_chk_options = Some (0, res)
    /\ tracks_after_prologue host_ok 60 head_one_then_zero_file = [t1; t2]
    /\ cyl t2 = cyl t1 /\ head t1 = 1 /\ head t2 = 0
    /\ head_order_bit res = 0.
Proof.
  assert (exists res,
            imdchk_check_file host_ok 60 (Some head_one_then_zero_file)
              default_chk_options = Some (0, res)
            /\ head_order_bit res = 0) as (res & E & Hb)
    by (eexists; split; vm_compute; reflexivity).
  assert (exists t1 t2,
            tracks_after_prologue host_ok 60 head_one_then_zero_file = [t1; t2]
            /\ cyl t2 = cyl t1 /\ head t1 = 1 /\ head t2 = 0)
    as (t1 & t2 & Et & Hc & H1 & H2)
    by (eexists _, _; split; [vm_compute; reflexivity|]; vm_compute; auto).
  exists res, t1, t2.
  exact (conj E (conj Et (conj Hc (conj H1 (conj H2 Hb))))).
Qed.

(** ** Hexadecimal digits and base names *)

Lemma hex_digit_strings :
  bytes_of_string "0123456789abcdef"
  = [48; 49; 50; 51; 52; 53; 54; 55; 56; 57; 97; 98; 99; 100; 101; 102]
  /\ bytes_of_string "0123456789ABCDEF"
     = [48; 49; 50; 51; 52; 53; 54; 55; 56; 57; 65; 66; 67; 68; 69; 70].
Proof. split; reflexivity. Qed.

(** [imd_ctoh] returns the value of a hexadecimal digit, in either case,
    as its place in the digit string, and -1 for every other character. *)
Theorem imd_ctoh_digit_value (c : Z) :
  imd_ctoh c = match hex_digit_value c with Some v => v | None => -1 end.
Proof.
  unfold hex_digit_value.
  destruct hex_digit_strings as [-> ->]. cbn [index_of].
  repeat match goal with
         | |- context [?x =? c] =>
             destruct (Z.eqb_spec x c); [subst c; reflexivity|]
         end.
  unfold imd_ctoh, isdigit, tolower. rewrite !Z.geb_leb.
  repeat match goal with
         | |- context [?a <=? ?b] => destruct (Z.leb_spec a b); cbn [andb]
         end; cbn [andb] in *; lia.
Qed.

Lemma basename_loop_spec (p : list Z) :
  forall dir mid,
    Forall (fun c => ~ is_separator c) mid ->
    dir = [] \/ (exists d s, dir = d ++ [s] /\ is_separator s) ->
    exists dir',
      dir ++ mid ++ p = dir' ++ basename_loop p (mid ++ p)
      /\ Forall (fun c => ~ is_separator c) (basename_loop p (mid ++ p))
      /\ (dir' = [] \/ exists d s, dir' = d ++ [s] /\ is_separator s).
Proof.
  induction p as [|c p IH]; intros dir mid Hmid Hdir; cbn [basename_loop].
  - exists dir. by rewrite app_nil_r.
  - destruct ((c =? 47) || (c =? 92)) eqn:E.
    + destruct (IH (dir ++ mid ++ [c]) []) as (dir' & Heq & Hb & Hd).
      * constructor.
      * right. exists (dir ++ mid), c. split; [by rewrite <- app_assoc|].
        apply orb_true_iff in E as [E|E]; apply Z.eqb_eq in E; [by left|by right].
      * cbn [app] in Heq, Hb. exists dir'. split; [|done]. rewrite <- Heq.
        by rewrite <- !app_assoc.
    + destruct (IH dir (mid ++ [c])) as (dir' & Heq & Hb & Hd).
      * apply Forall_app. split; [done|]. constructor; [|done].
        apply orb_false_iff in E as [E1 E2].
        apply Z.eqb_neq in E1, E2. by intros [?|?].
      * done.
      * rewrite <- !app_assoc in Heq, Hb. cbn in Heq, Hb. by exists dir'.
Qed.

(** [imd_get_basename] returns the part of the path after its last
    separator: the path is a directory part, empty or ending in [/] or
    [\], followed by the result, which holds no separator. *)
Theorem imd_get_basename_suffix (path : list Z) :
  exists dir base,
    imd_get_basename (Some path) = Some base
    /\ path = dir ++ base
    /\ Forall (fun c => ~ is_separator c) base
    /\ (dir = [] \/ exists d s, dir = d ++ [s] /\ is_separator s).
Proof.
  destruct (basename_loop_spec path [] []) as (dir & Heq & Hb & Hd);
    [constructor | by left |].
  exists dir, (basename_loop path path). by cbn in *.
Qed.

(** ** The sector size table *)

Lemma get_sector_size_code_cases (sector_size : Z) :
  get_sector_size_code sector_size
  = if 128 =? sector_size then Some 0
    else if 256 =? sector_size then Some 1
    else if 512 =? sector_size then Some 2
    else if 1024 =? sector_size then Some 3
    else if 2048 =? sector_size then Some 4
    else if 4096 =? sector_size then Some 5
    else if 8192 =? sector_size then Some 6
    else None.
Proof.
  unfold get_sector_size_code.
  change (Z.to_nat SECTOR_SIZE_LOOKUP_COUNT) with 7%nat.
  cbn [for_range_exit].
  repeat match goal with
         | |- context [arr_get SECTOR_SIZE_LOOKUP ?i =? sector_size] =>
             let v := eval vm_compute in (arr_get SECTOR_SIZE_LOOKUP i) in
             change (arr_get SECTOR_SIZE_LOOKUP i) with v;
             destruct (v =? sector_size); [reflexivity|]
         end.
  reflexivity.
Qed.

(** [get_sector_size_code] inverts the size table: it yields a code
    exactly for the sizes 128 * 2^code with code below 7, and
    [imd_get_sector_size] maps a track with that code back to the size. *)
Theorem sector_size_code_round_trip (size code : Z) :
  (get_sector_size_code size = Some code
   <-> 0 <= code < SECTOR_SIZE_LOOKUP_COUNT /\ size = 128 * 2 ^ code)
  /\ (forall t, get_sector_size_code size = Some code ->
                sector_size_code t = code -> imd_get_sector_size t = size).
Proof.
  rewrite get_sector_size_code_cases.
  assert (forall k, 0 <= k < 7 ->
            k = 0 \/ k = 1 \/ k = 2 \/ k = 3 \/ k = 4 \/ k = 5 \/ k = 6) as Hk
    by (intros; lia).
  split; [split|].
  - repeat match goal with
           | |- context [?x =? size] =>
               destruct (Z.eqb_spec x size);
               [intros [= <-]; subst size; by vm_compute|]
           end.
    done.
  - intros [Hc ->]. apply Hk in Hc.
    repeat (destruct Hc as [-> | Hc]); try subst code; reflexivity.
  - intros t H Ht. unfold imd_get_sector_size. rewrite Ht.
    repeat match goal with
           | _ : context [?x =? size] |- _ =>
               destruct (Z.eqb_spec x size);
               [injection H as <-; subst size; reflexivity|]
           end.
    done.
Qed.

(** [sector_size_code_round_trip] at the size 512. *)
Lemma sector_size_code_round_trip_witness :
  (get_sector_size_code 512 = Some 2
   <-> 0 <= 2 < SECTOR_SIZE_LOOKUP_COUNT /\ 512 = 128 * 2 ^ 2)
  /\ (forall t, get_sector_size_code 512 = Some 2 ->
                sector_size_code t = 2 -> imd_get_sector_size t = 512).
Proof. exact (sector_size_code_round_trip 512 2). Defined.

(** ** Looking up a track and a sector *)

Lemma track_key_test (t : ImdTrackInfo) (c hd : Z) :
  (cyl t =? c) && (head t =? hd) = true <-> track_key t = (c, hd).
Proof.
  unfold track_key. rewrite andb_true_iff, !Z.eqb_eq.
  split; [by intros [-> ->] | by intros [= -> ->]].
Qed.

Lemma find_track_from_spec (ts : list ImdTrackInfo) (c hd : Z) :
  forall i,
    (find_track_from ts i c hd = -1
     /\ Forall (fun t => track_key t <> (c, hd)) ts)
    \/ (exists k t,
          find_track_from ts i c hd = i + Z.of_nat k
          /\ ts !! k = Some t /\ track_key t = (c, hd)
          /\ forall j t', (j < k)%nat -> ts !! j = Some t' ->
                          track_key t' <> (c, hd)).
Proof.
  induction ts as [|t ts IH]; intros i; cbn [find_track_from].
  - left. by split.
  - destruct ((cyl t =? c) && (head t =? hd)) eqn:E.
    + right. exists 0%nat, t. apply track_key_test in E.
      split; [lia|]. split; [done|]. split; [done|]. intros j t' Hj. lia.
    + assert (track_key t <> (c, hd)) as Hne.
      { intros Hk. apply track_key_test in Hk. congruence. }
      destruct (IH (i + 1)) as [[Hr Hall]|(k & t1 & Hr & Hk & Hkey & Hfirst)].
      * left. split; [done|]. by constructor.
      * right. exists (Datatypes.S k), t1. split; [lia|]. split; [done|].
        split; [done|]. intros [|j] t' Hj Ht'.
        -- by injection Ht' as <-.
        -- apply (Hfirst j); [lia | done].
Qed.

Lemma find_track_index_spec (imdf : ImdImageFile) (c hd : Z) :
  (find_track_index_internal imdf c hd = -1
   /\ Forall (fun t => track_key t <> (c, hd)) (tracks imdf))
  \/ (exists i t, find_track_index_internal imdf c hd = i
                  /\ first_track_at imdf c hd i t).
Proof.
  unfold find_track_index_internal.
  destruct (find_track_from_spec (tracks imdf) c hd 0)
    as [?|(k & t & Hr & Hk & Hkey & Hfirst)]; [by left|].
  right. exists (Z.of_nat k), t. split; [lia|].
  split; [lia|]. rewrite Nat2Z.id. split; [done|]. split; [done|].
  intros j t' Hj. apply Hfirst. lia.
Qed.

Lemma first_track_at_unique (imdf : ImdImageFile) (c hd i i' : Z)
    (t t' : ImdTrackInfo) :
  first_track_at imdf c hd i t -> first_track_at imdf c hd i' t' ->
  i = i' /\ t = t'.
Proof.
  intros (Hi & Ht & Hk & Hf) (Hi' & Ht' & Hk' & Hf').
  assert (i = i') as <-.
  { destruct (Z.lt_trichotomy i i') as [Hlt|[?|Hlt]]; [|done|].
    - by destruct (Hf' i t).
    - by destruct (Hf i' t'). }
  split; [done | congruence].
Qed.

Lemma find_sector_index_spec (t : ImdTrackInfo) (id : Z) :
  (find_sector_index_internal t id = -1
   /\ forall i, 0 <= i < num_sectors t -> arr_get (smap t) i <> id)
  \/ (exists i, find_sector_index_internal t id = i /\ first_sector_with t id i).
Proof.
  unfold find_sector_index_internal, first_sector_with.
  destruct (for_range_exit_search (fun i => arr_get (smap t) i =? id)
              (fun i => i) (Z.to_nat (num_sectors t)) 0)
    as [[-> Hnone]|(i & Hi & Hc & Hfirst & ->)].
  - left. split; [done|]. intros i Hi. apply Z.eqb_neq, Hnone. lia.
  - right. exists i. split; [done|]. split; [lia|].
    split; [by apply Z.eqb_eq|]. intros j Hj. by apply Z.eqb_neq, Hfirst.
Qed.

Lemma first_sector_with_unique (t : ImdTrackInfo) (id i i' : Z) :
  first_sector_with t id i -> first_sector_with t id i' -> i = i'.
Proof.
  intros (Hi & Hs & Hf) (Hi' & Hs' & Hf').
  destruct (Z.lt_trichotomy i i') as [Hlt|[?|Hlt]]; [|done|].
  - destruct (Hf' i); [lia | done].
  - destruct (Hf i'); [lia | done].
Qed.

(** The geometry test of [imdf_read_sector]. *)
Lemma read_geometry_test (imdf : ImdImageFile) (c hd id : Z) :
  (negb (max_cyl imdf =? 0xFF) && (c >? max_cyl imdf))
  || (negb (max_head imdf =? 0xFF) && (hd >? max_head imdf))
  || (negb (max_spt imdf =? 0xFF) && (id >? max_spt imdf) && negb (id =? 0))
  = false
  <-> (max_cyl imdf = 0xFF \/ c <= max_cyl imdf)
      /\ (max_head imdf = 0xFF \/ hd <= max_head imdf)
      /\ (max_spt imdf = 0xFF \/ id <= max_spt imdf \/ id = 0).
Proof.
  rewrite !orb_false_iff, !andb_false_iff, !negb_false_iff, !Z.eqb_eq.
  rewrite !Z.gtb_ltb, !Z.ltb_ge. tauto.
Qed.

(** The bytes of a sector of a loaded track. *)
Lemma loaded_sector_bytes (t : ImdTrackInfo) (i : Z) :
  loaded_track t -> 0 <= i < num_sectors t ->
  exists d, data t = Some d
            /\ data_size t = num_sectors t * sector_size t
            /\ Z.of_nat (length d) = data_size t
            /\ i * sector_size t + sector_size t <= data_size t
            /\ sector_bytes t i = buf_read d (i * sector_size t) (sector_size t)
            /\ Z.of_nat (length (sector_bytes t i)) = sector_size t.
Proof.
  intros Hl Hi. pose proof (lt_size _ Hl) as Hsz.
  pose proof (lt_data_size _ Hl) as Hds. pose proof (lt_data _ Hl) as Hd.
  unfold sector_bytes. destruct (data t) as [d|]; [|lia].
  destruct Hd as [Hlen _]. exists d.
  assert (i * sector_size t + sector_size t <= data_size t) by nia.
  split_and!; try done. apply buf_read_length; lia.
Qed.

(** [imdf_read_sector] succeeds exactly when the geometry limits allow
    the request, the image holds a track at the cylinder and head, this
    track (the first such) holds a sector with the ID, this sector (the
    first such) is not unavailable and the buffer is large enough; the
    buffer then starts with the bytes of that sector. *)
Theorem imdf_read_sector_ok_iff (imdf : ImdImageFile) (c hd id : Z)
    (buf : list Z) (size : Z) (out : option (list Z)) :
  image_loaded imdf ->
  imdf_read_sector imdf c hd id (Some buf) size = (IMDF_ERR_OK, out)
  <-> ((max_cyl imdf = 0xFF \/ c <= max_cyl imdf)
       /\ (max_head imdf = 0xFF \/ hd <= max_head imdf)
       /\ (max_spt imdf = 0xFF \/ id <= max_spt imdf \/ id = 0))
      /\ exists ti t si,
           first_track_at imdf c hd ti t /\ first_sector_with t id si
           /\ arr_get (sflag t) si <> IMD_SDR_UNAVAILABLE
           /\ sector_size t <= size
           /\ out = Some (sector_bytes t si
                          ++ drop (Z.to_nat (sector_size t)) buf).
Proof.
  intros Himg. rewrite <- read_geometry_test. unfold imdf_read_sector.
  destruct (_ || _ || _).
  { split; [by intros [=] | by intros [[=] _]]. }
  destruct (find_track_index_spec imdf c hd)
    as [[-> Hnone]|(ti & t & -> & Hti)].
  { change (-1 <? 0) with true. cbv beta iota.
    split; [by intros [=]|]. intros [_ (ti & t & si & (_ & Ht & Hk & _) & _)].
    apply (proj1 (Forall_lookup _ _) Hnone) in Ht. done. }
  pose proof Hti as (Hti0 & Hlk & _ & _).
  destruct (Z.ltb_spec ti 0) as [|_]; [lia|].
  rewrite (track_at_lookup _ _ _ Hlk).
  assert (loaded_track t) as Hlt
    by exact (proj1 (Forall_lookup _ _) Himg _ _ Hlk).
  destruct (find_sector_index_spec t id) as [[-> Hnone]|(si & -> & Hsi)].
  { change (-1 <? 0) with true. cbv beta iota.
    split; [by intros [=]|].
    intros [_ (ti' & t' & si & Hti' & (Hsi & Hs & _) & _)].
    destruct (first_track_at_unique _ _ _ _ _ _ _ Hti Hti') as [_ <-].
    by destruct (Hnone si). }
  pose proof Hsi as (Hsi0 & _ & _).
  destruct (Z.ltb_spec si 0) as [|_]; [lia|].
  destruct (loaded_sector_bytes t si Hlt Hsi0)
    as (d & Hd & Hds & Hlen & Hfit & Hbytes & Hblen).
  assert (forall ti' t' si',
            first_track_at imdf c hd ti' t' -> first_sector_with t' id si' ->
            t' = t /\ si' = si) as Huniq.
  { intros ti' t' si' Hti' Hsi'.
    destruct (first_track_at_unique _ _ _ _ _ _ _ Hti Hti') as [_ <-].
    split; [done|]. by apply (first_sector_with_unique t id). }
  destruct (Z.eqb_spec (arr_get (sflag t) si) IMD_SDR_UNAVAILABLE) as [Hu|Hu].
  { split; [by intros [=]|].
    intros [_ (ti' & t' & si' & Hti' & Hsi' & Hne & _)].
    destruct (Huniq _ _ _ Hti' Hsi') as [-> ->]. done. }
  destruct (Z.ltb_spec size (sector_size t)) as [Hsmall|Hbig].
  { split; [by intros [=]|].
    intros [_ (ti' & t' & si' & Hti' & Hsi' & _ & Hle & _)].
    destruct (Huniq _ _ _ Hti' Hsi') as [-> ->]. lia. }
  rewrite Hd.
  destruct (Z.ltb_spec (data_size t) (si * sector_size t + sector_size t));
    [lia|].
  assert (buf_write buf 0 (buf_read d (si * sector_size t) (sector_size t))
          = sector_bytes t si ++ drop (Z.to_nat (sector_size t)) buf) as ->.
  { unfold buf_write. rewrite <- Hbytes.
    change (Z.to_nat 0) with 0%nat. cbn [take app Nat.add].
    by replace (length (sector_bytes t si)) with (Z.to_nat (sector_size t))
      by lia. }
  split.
  - intros [= <-]. split; [done|]. by exists ti, t, si.
  - intros [_ (ti' & t' & si' & Hti' & Hsi' & _ & _ & ->)].
    destruct (Huniq _ _ _ Hti' Hsi') as [-> ->]. done.
Qed.

(** What [imdf_read_sector] returns once the track and the sector are
    known. *)
Lemma imdf_read_sector_found (imdf : ImdImageFile) (c hd id : Z) (buf : list Z)
    (size ti si : Z) (t : ImdTrackInfo) :
  (max_cyl imdf = 0xFF \/ c <= max_cyl imdf)
  /\ (max_head imdf = 0xFF \/ hd <= max_head imdf)
  /\ (max_spt imdf = 0xFF \/ id <= max_spt imdf \/ id = 0) ->
  first_track_at imdf c hd ti t -> loaded_track t ->
  first_sector_with t id si ->
  imdf_read_sector imdf c hd id (Some buf) size
  = if arr_get (sflag t) si =? IMD_SDR_UNAVAILABLE
    then (IMDF_ERR_UNAVAILABLE, Some buf)
    else if size <? sector_size t then (IMDF_ERR_BUFFER_SIZE, Some buf)
    else (IMDF_ERR_OK,
          Some (sector_bytes t si ++ drop (Z.to_nat (sector_size t)) buf)).
Proof.
  intros Hgeo Hti Hlt Hsi. apply read_geometry_test in Hgeo.
  unfold imdf_read_sector. rewrite Hgeo.
  destruct (find_track_index_spec imdf c hd)
    as [[_ Hnone]|(ti' & t' & -> & Hti')].
  { destruct Hti as (_ & Ht & Hk & _).
    apply (proj1 (Forall_lookup _ _) Hnone) in Ht. done. }
  destruct (first_track_at_unique _ _ _ _ _ _ _ Hti Hti') as [<- <-].
  pose proof Hti as (Hti0 & Hlk & _ & _).
  destruct (Z.ltb_spec ti 0) as [|_]; [lia|].
  rewrite (track_at_lookup _ _ _ Hlk).
  destruct (find_sector_index_spec t id) as [[_ Hnone]|(si' & -> & Hsi')].
  { destruct Hsi as (Hsi0 & Hs & _). by destruct (Hnone si). }
  rewrite <- (first_sector_with_unique _ _ _ _ Hsi Hsi').
  pose proof Hsi as (Hsi0 & _ & _).
  destruct (Z.ltb_spec si 0) as [|_]; [lia|].
  destruct (loaded_sector_bytes t si Hlt Hsi0)
    as (d & Hd & Hds & Hlen & Hfit & Hbytes & Hblen).
  destruct (arr_get (sflag t) si =? IMD_SDR_UNAVAILABLE); [done|].
  destruct (size <? sector_size t); [done|].
  rewrite Hd.
  destruct (Z.ltb_spec (data_size t) (si * sector_size t + sector_size t));
    [lia|].
  unfold buf_write. rewrite <- Hbytes.
  change (Z.to_nat 0) with 0%nat. cbn [take app Nat.add].
  by replace (length (sector_bytes t si)) with (Z.to_nat (sector_size t))
    by lia.
Qed.

Lemma two_track_image_loaded : image_loaded two_track_image.
Proof.
  constructor; [|constructor; [|constructor]];
    apply loaded_trackb_sound; vm_compute; reflexivity.
Qed.

(** [imdf_read_sector_ok_iff] for sector 1 of the track (1, 0) of an
    image with two tracks, read into a buffer of 130 bytes. *)
Lemma imdf_read_sector_ok_iff_witness :
  imdf_read_sector two_track_image 1 0 1 (Some (replicate 130 0)) 130
  = (IMDF_ERR_OK, Some (replicate 128 0xE5 ++ [0; 0]))
  <-> ((max_cyl two_track_image = 0xFF \/ 1 <= max_cyl two_track_image)
       /\ (max_head two_track_image = 0xFF \/ 0 <= max_head two_track_image)
       /\ (max_spt two_track_image = 0xFF \/ 1 <= max_spt two_track_image
           \/ 1 = 0))
      /\ exists ti t si,
           first_track_at two_track_image 1 0 ti t /\ first_sector_with t 1 si
           /\ arr_get (sflag t) si <> IMD_SDR_UNAVAILABLE
           /\ sector_size t <= 130
           /\ Some (replicate 128 0xE5 ++ [0; 0])
              = Some (sector_bytes t si
                      ++ drop (Z.to_nat (sector_size t)) (replicate 130 0)).
Proof.
  apply (imdf_read_sector_ok_iff two_track_image 1 0 1 (replicate 130 0) 130).
  exact two_track_image_loaded.
Defined.

(** ** Write protection and geometry limits *)

Lemma set_write_protect_read_only (imdf : ImdImageFile) (protect : Z) :
  read_only_open imdf <> 0 -> write_protected imdf <> 0 ->
  read_only_open (snd (imdf_set_write_protect imdf protect)) <> 0
  /\ write_protected (snd (imdf_set_write_protect imdf protect)) <> 0.
Proof.
  intros Hro Hwp. unfold imdf_set_write_protect.
  apply truthy_true in Hro as Hro'. rewrite Hro', andb_true_r.
  unfold truthy. rewrite negb_involutive.
  destruct (Z.eqb_spec protect 0); cbn; done.
Qed.

(** An image opened read-only stays write-protected whatever is asked of
    [imdf_set_write_protect] afterwards, and [imdf_write_track] and
    [imdf_write_sector] then refuse with [IMDF_ERR_WRITE_PROTECTED] and
    leave the image as it is. *)
Theorem read_only_image_refuses_writes (h : Host) (path : list Z)
    (file : option FILE) (read_only : Z) (imdf : ImdImageFile)
    (protects : list Z) :
  imdf_open h path file read_only = Some (IMDF_ERR_OK, Some imdf) ->
  read_only <> 0 ->
  let imdf' :=
    fold_left (fun im p => snd (imdf_set_write_protect im p)) protects imdf in
  write_protected imdf' <> 0
  /\ imdf_get_write_protect imdf' true = (IMDF_ERR_OK, Some (write_protected imdf'))
  /\ (forall c hd n size fill sm cm hm,
        imdf_write_track h imdf' c hd n size fill sm cm hm
        = Some (IMDF_ERR_WRITE_PROTECTED, imdf'))
  /\ (forall c hd id buf size,
        imdf_write_sector h imdf' c hd id (Some buf) size
        = Some (IMDF_ERR_WRITE_PROTECTED, imdf')).
Proof.
  intros Hopen Hro imdf'.
  assert (read_only_open imdf <> 0 /\ write_protected imdf <> 0) as Hstart.
  { unfold imdf_open in Hopen.
    destruct file as [f|]; [|done].
    destruct (negb (malloc_ok h SIZEOF_ImdImageFile)); [done|].
    destruct (negb (malloc_ok h _)); [done|].
    destruct (imd_read_file_header h (Some f) true None)
      as [[[rc f1] hi] line].
    destruct rc as [| |]; try done. destruct f1 as [f1|]; [|done].
    destruct hi as [hi|]; [|done].
    destruct (imd_read_comment_block h f1) as [[[cmt|] f2]|]; try done.
    cbn [mbind option_bind] in Hopen.
    destruct (negb (malloc_ok h _)); [done|].
    destruct (open_tracks h _ f2 [] _) as [[[[rc f3] ts] cap]|]; [|done].
    cbn [mbind option_bind] in Hopen.
    destruct rc; try done. injection Hopen as <-. cbn.
    apply truthy_true in Hro. by rewrite Hro. }
  assert (read_only_open imdf' <> 0 /\ write_protected imdf' <> 0) as [_ Hwp].
  { subst imdf'. clear Hopen. revert imdf Hstart.
    induction protects as [|p ps IH]; intros imdf [Hr Hw]; [done|].
    cbn [fold_left]. apply IH.
    by apply set_write_protect_read_only. }
  split; [done|]. split; [done|].
  apply truthy_true in Hwp. split.
  - intros. unfold imdf_write_track. by rewrite Hwp.
  - intros. unfold imdf_write_sector. by rewrite Hwp.
Qed.

(** [read_only_image_refuses_writes] on an image file opened read-only,
    after the requests unprotect, protect, unprotect. *)
Lemma read_only_image_refuses_writes_witness :
  exists imdf,
    imdf_open host_ok (bytes_of_string "a.imd") (Some unsorted_image_file) 1
    = Some (IMDF_ERR_OK, Some imdf)
    /\ 1 <> 0
    /\ let imdf' :=
         fold_left (fun im p => snd (imdf_set_write_protect im p)) [0; 1; 0]
           imdf in
       write_protected imdf' <> 0
       /\ imdf_get_write_protect imdf' true
          = (IMDF_ERR_OK, Some (write_protected imdf'))
       /\ (forall c hd n size fill sm cm hm,
             imdf_write_track host_ok imdf' c hd n size fill sm cm hm
             = Some (IMDF_ERR_WRITE_PROTECTED, imdf'))
       /\ (forall c hd id buf size,
             imdf_write_sector host_ok imdf' c hd id (Some buf) size
             = Some (IMDF_ERR_WRITE_PROTECTED, imdf')).
Proof.
  assert (exists imdf,
            imdf_open host_ok (bytes_of_string "a.imd")
              (Some unsorted_image_file) 1 = Some (IMDF_ERR_OK, Some imdf))
    as [imdf E] by (eexists; vm_compute; reflexivity).
  assert (1 <> 0) as Hone by lia.
  exists imdf. split; [exact E|]. split; [exact Hone|].
  exact (read_only_image_refuses_writes host_ok _ _ 1 imdf [0; 1; 0] E Hone).
Defined.

(** The geometry limits set by [imdf_set_geometry] are what
    [imdf_get_geometry] returns, and a cylinder or head beyond a limit in
    use is refused with [IMDF_ERR_GEOMETRY] by [imdf_read_sector],
    [imdf_write_sector] and [imdf_write_track], which leave the buffer
    and the image as they are. *)
Theorem geometry_limits_refuse (h : Host) (imdf : ImdImageFile)
    (mc mh ms c hd : Z) :
  write_protected imdf = 0 ->
  (mc <> 0xFF /\ mc < c) \/ (mh <> 0xFF /\ mh < hd) ->
  let imdf' := snd (imdf_set_geometry imdf mc mh ms) in
  fst (imdf_set_geometry imdf mc mh ms) = IMDF_ERR_OK
  /\ imdf_get_geometry imdf' = (IMDF_ERR_OK, (mc, mh, ms))
  /\ (forall id buf size,
        imdf_read_sector imdf' c hd id (Some buf) size
        = (IMDF_ERR_GEOMETRY, Some buf))
  /\ (forall id buf size,
        imdf_write_sector h imdf' c hd id (Some buf) size
        = Some (IMDF_ERR_GEOMETRY, imdf'))
  /\ (forall n size fill sm cm hm,
        imdf_write_track h imdf' c hd n size fill sm cm hm
        = Some (IMDF_ERR_GEOMETRY, imdf')).
Proof.
  intros Hwp Hbeyond imdf'. split; [done|]. split; [done|].
  assert ((negb (max_cyl imdf' =? 0xFF) && (c >? max_cyl imdf'))
          || (negb (max_head imdf' =? 0xFF) && (hd >? max_head imdf')) = true)
    as Hgeo.
  { cbn. rewrite !Z.gtb_ltb. apply orb_true_iff.
    destruct Hbeyond as [[Hn Hlt]|[Hn Hlt]]; [left|right];
      apply andb_true_iff; split;
      [by apply negb_true_iff, Z.eqb_neq | by apply Z.ltb_lt
      |by apply negb_true_iff, Z.eqb_neq | by apply Z.ltb_lt]. }
  assert (truthy (write_protected imdf') = false) as Hwp'
    by (cbn; by rewrite Hwp).
  split; [|split].
  - intros. unfold imdf_read_sector. by rewrite Hgeo.
  - intros. unfold imdf_write_sector, geometry_exceeded. by rewrite Hwp', Hgeo.
  - intros. unfold imdf_write_track, geometry_exceeded. by rewrite Hwp', Hgeo.
Qed.

Lemma geometry_limits_refuse_witness :
  write_protected two_track_image = 0
  /\ ((39 <> 0xFF /\ 39 < 40) \/ (1 <> 0xFF /\ 1 < 0))
  /\ let imdf' := snd (imdf_set_geometry two_track_image 39 1 18) in
     fst (imdf_set_geometry two_track_image 39 1 18) = IMDF_ERR_OK
     /\ imdf_get_geometry imdf' = (IMDF_ERR_OK, (39, 1, 18))
     /\ (forall id buf size,
           imdf_read_sector imdf' 40 0 id (Some buf) size
           = (IMDF_ERR_GEOMETRY, Some buf))
     /\ (forall id buf size,
           imdf_write_sector host_ok imdf' 40 0 id (Some buf) size
           = Some (IMDF_ERR_GEOMETRY, imdf'))
     /\ (forall n size fill sm cm hm,
           imdf_write_track host_ok imdf' 40 0 n size fill sm cm hm
           = Some (IMDF_ERR_GEOMETRY, imdf')).
Proof.
  assert ((39 <> 0xFF /\ 39 < 40) \/ (1 <> 0xFF /\ 1 < 0)) as Hb
    by (left; lia).
  split; [reflexivity|]. split; [exact Hb|].
  exact (geometry_limits_refuse host_ok two_track_image 39 1 18 40 0
           eq_refl Hb).
Defined.

(** ** A sector written through the image is read back *)

Lemma normal_code_for_range (s : Z) : 1 <= normal_code_for s <= 7.
Proof.
  unfold normal_code_for.
  destruct (truthy (IMD_SDR_HAS_DAM s)), (truthy (IMD_SDR_HAS_ERR s));
    by vm_compute.
Qed.

(** The flags after the loop of [mark_track_uncompressed]. *)
Lemma mark_uncompressed_flags (n : Z) (sf0 : list Z) :
  byte_array sf0 -> 0 <= n <= 256 ->
  let sf := for_range 0 (Z.to_nat n)
              (fun i sf => arr_set sf i (normal_code_for (arr_get sf i))) sf0 in
  byte_array sf
  /\ forall i, 0 <= i < n -> arr_get sf i = normal_code_for (arr_get sf0 i).
Proof.
  intros Hb Hn sf.
  pose proof (for_range_inv
                (fun k sf => byte_array sf
                   /\ forall i, 0 <= i < 256 ->
                        arr_get sf i = if i <? k
                                       then normal_code_for (arr_get sf0 i)
                                       else arr_get sf0 i)
                (fun i sf => arr_set sf i (normal_code_for (arr_get sf i)))
                (Z.to_nat n) 0 sf0) as Hinv.
  destruct Hinv as [Hbytes Hget].
  - split; [done|]. intros i Hi. by destruct (Z.ltb_spec i 0); [lia|].
  - intros k s Hk [Hsb Hs]. split.
    + apply arr_set_bytes; [done|].
      pose proof (normal_code_for_range (arr_get s k)). unfold is_byte. lia.
    + intros i Hi. destruct Hsb as [Hlen _].
      rewrite arr_get_set by lia.
      destruct (Z.eqb_spec k i) as [->|Hne].
      * rewrite Hs by lia.
        destruct (Z.ltb_spec i i); [lia|].
        by destruct (Z.ltb_spec i (i + 1)); [|lia].
      * rewrite Hs by lia.
        destruct (Z.ltb_spec i k), (Z.ltb_spec i (k + 1)); try done; lia.
  - split; [done|]. intros i Hi. fold sf in Hget. rewrite Hget by lia.
    by destruct (Z.ltb_spec i (0 + Z.of_nat (Z.to_nat n))); [|lia].
Qed.

(** A loaded track stays loaded when its flags and its buffer are
    replaced by flags that are bytes and a buffer of the same size. *)
Lemma loaded_track_update (t : ImdTrackInfo) (sf d : list Z) :
  loaded_track t -> byte_array sf -> Forall is_byte d ->
  Z.of_nat (length d) = data_size t ->
  loaded_track (with_maps t (smap t) (cmap t) (hmap t) sf (Some d)).
Proof.
  intros Hl Hsf Hd Hlen. destruct Hl as [Hwf ? ? ? ?]. destruct Hwf.
  constructor; cbn; try done; constructor; cbn; done.
Qed.

(** Replacing a track of the image by one at the same cylinder and head
    keeps the first track at every cylinder and head where it was. *)
Lemma first_track_at_set (imdf imdf' : ImdImageFile) (c hd ti : Z)
    (t t' : ImdTrackInfo) :
  first_track_at imdf c hd ti t ->
  tracks imdf' = <[Z.to_nat ti := t']> (tracks imdf) ->
  track_key t' = track_key t ->
  first_track_at imdf' c hd ti t'.
Proof.
  intros (Hi & Ht & Hk & Hf) Hts Hkey. split; [done|]. rewrite Hts.
  split; [|split; [congruence|]].
  - apply list_lookup_insert_eq. by apply lookup_lt_Some in Ht.
  - intros j t1 Hj Ht1. rewrite list_lookup_insert_ne in Ht1 by lia.
    by apply (Hf j).
Qed.

(** After a successful [imdf_write_sector] of a buffer of bytes,
    [imdf_read_sector] of the same cylinder, head and sector ID into a
    buffer that is large enough succeeds and returns the bytes written,
    whatever the flag of the sector was before (unavailable included). *)
Theorem write_sector_then_read (h : Host) (imdf imdf' : ImdImageFile)
    (c hd id : Z) (buf : list Z) (size : Z) :
  image_loaded imdf ->
  Forall is_byte buf -> Z.of_nat (length buf) = size ->
  imdf_write_sector h imdf c hd id (Some buf) size = Some (IMDF_ERR_OK, imdf') ->
  forall out osize,
    size <= osize ->
    imdf_read_sector imdf' c hd id (Some out) osize
    = (IMDF_ERR_OK, Some (buf ++ drop (Z.to_nat size) out)).
Proof.
  intros Himg Hbuf Hlen Hrun out osize Hos.
  unfold imdf_write_sector in Hrun.
  destruct (truthy (write_protected imdf)); [by injection Hrun|].
  destruct (geometry_exceeded imdf c hd) eqn:Eg; [by injection Hrun|].
  cbv zeta in Hrun.
  destruct (find_track_index_spec imdf c hd) as [[E _]|(ti & t & E & Hti)];
    rewrite E in Hrun.
  { change (-1 <? 0) with true in Hrun. by injection Hrun. }
  pose proof Hti as (Hti0 & Hlk & Hkey & _).
  destruct (Z.ltb_spec ti 0) as [|_]; [lia|].
  rewrite (track_at_lookup _ _ _ Hlk) in Hrun.
  assert (loaded_track t) as Hlt
    by exact (proj1 (Forall_lookup _ _) Himg _ _ Hlk).
  destruct (find_sector_index_spec t id) as [[Es _]|(si & Es & Hsi)];
    rewrite Es in Hrun.
  { change (-1 <? 0) with true in Hrun. by injection Hrun. }
  pose proof Hsi as (Hsi0 & _ & _).
  destruct (Z.ltb_spec si 0) as [|_]; [lia|].
  destruct (negb (max_spt imdf =? 0xFF) && (id >? max_spt imdf)
            && negb (id =? 0)) eqn:Espt; [by injection Hrun|].
  destruct (Z.eqb_spec size (sector_size t)) as [Hsz|]; cbn [negb] in Hrun;
    [|by injection Hrun].
  destruct (loaded_sector_bytes t si Hlt Hsi0)
    as (d & Hd & Hds & Hdlen & Hfit & Hbytes & Hblen).
  rewrite Hd in Hrun.
  destruct (Z.ltb_spec (data_size t) (si * sector_size t + sector_size t));
    [lia|].
  rewrite (buf_read_all buf (sector_size t)) in Hrun by lia.
  set (dnew := buf_write d (si * sector_size t) buf) in Hrun.
  set (track1 := with_data t (Some dnew)) in Hrun.
  destruct (rewrite_image_file h (set_track imdf ti track1) ti _)
    as [[res f']|]; [|done].
  cbn [mbind option_bind] in Hrun.
  destruct (Z.eqb_spec res IMDF_ERR_OK) as [->|]; cbn [negb] in Hrun;
    [|by injection Hrun].
  assert (forall sf,
            byte_array sf -> arr_get sf si <> IMD_SDR_UNAVAILABLE ->
            imdf_read_sector
              (set_track (with_file (set_track imdf ti track1) f') ti
                 (with_sflag track1 sf)) c hd id (Some out) osize
            = (IMDF_ERR_OK, Some (buf ++ drop (Z.to_nat size) out))) as Hfin.
  { intros sf Hsf Hflag.
    set (tnew := with_sflag track1 sf).
    rewrite (imdf_read_sector_found _ c hd id out osize ti si tnew).
    - change (arr_get (sflag tnew) si) with (arr_get sf si).
      destruct (Z.eqb_spec (arr_get sf si) IMD_SDR_UNAVAILABLE); [done|].
      change (sector_size tnew) with (sector_size t).
      destruct (Z.ltb_spec osize (sector_size t)); [lia|].
      do 3 f_equal; [|by rewrite Hsz].
      change (sector_bytes tnew si)
        with (buf_read dnew (si * sector_size t) (sector_size t)).
      unfold dnew. rewrite <- Hsz, <- Hlen.
      apply buf_read_write_same; lia.
    - apply read_geometry_test. cbn.
      unfold geometry_exceeded in Eg. by rewrite Eg, Espt.
    - apply (first_track_at_set imdf _ c hd ti t tnew Hti); [|done].
      cbn. apply list_insert_insert_eq.
    - apply (loaded_track_update t sf dnew Hlt Hsf).
      + pose proof (lt_data _ Hlt) as Hdd. rewrite Hd in Hdd.
        apply buf_write_bytes; [by destruct Hdd | done].
      + unfold dnew.
        assert (length (buf_write d (si * sector_size t) buf) = length d)
          as -> by (apply buf_write_length; lia).
        done.
    - exact Hsi. }
  pose proof (wf_sflag _ (lt_wf _ Hlt)) as Hsfb.
  pose proof (wf_num_sectors _ (lt_wf _ Hlt)) as Hnb.
  destruct (_ && _) in Hrun; injection Hrun as <-.
  - unfold mark_track_uncompressed.
    destruct (mark_uncompressed_flags (num_sectors t) (sflag t) Hsfb)
      as [Hb Hget]; [unfold is_byte in Hnb; lia|].
    apply Hfin; [exact Hb|].
    change (sflag track1) with (sflag t).
    change (num_sectors track1) with (num_sectors t).
    rewrite Hget by lia.
    pose proof (normal_code_for_range (arr_get (sflag t) si)).
    unfold IMD_SDR_UNAVAILABLE. lia.
  - change (sflag track1) with (sflag t).
    match goal with
    | |- context [predicted_sflag ?o ?a ?b] =>
        pose proof (combine_flag_range) as Hr;
        set (p := predicted_sflag o a b);
        assert (1 <= p <= 8) as Hp by apply Hr
    end.
    destruct Hsfb as [Hl256 Hall].
    apply Hfin.
    + apply arr_set_bytes; [done | unfold is_byte; lia].
    + rewrite arr_get_set_eq by (unfold is_byte in Hnb; lia).
      unfold IMD_SDR_UNAVAILABLE. lia.
Qed.

(** [write_sector_then_read] for non-uniform data written to the
    compressed sector 1 of a track whose other sector is unavailable. *)
Lemma write_sector_then_read_witness :
  exists imdf',
    imdf_write_sector host_ok compressed_unavailable_image 0 0 1
      (Some mixed_sector) 128 = Some (IMDF_ERR_OK, imdf')
    /\ forall out osize,
         128 <= osize ->
         imdf_read_sector imdf' 0 0 1 (Some out) osize
         = (IMDF_ERR_OK, Some (mixed_sector ++ drop (Z.to_nat 128) out)).
Proof.
  assert (exists imdf',
            imdf_write_sector host_ok compressed_unavailable_image 0 0 1
              (Some mixed_sector) 128 = Some (IMDF_ERR_OK, imdf'))
    as [imdf' E] by (eexists; vm_compute; reflexivity).
  exists imdf'. split; [exact E|].
  apply (write_sector_then_read host_ok compressed_unavailable_image imdf'
           0 0 1 mixed_sector 128); [| | reflexivity | exact E].
  - constructor; [|constructor].
    apply loaded_trackb_sound; vm_compute; reflexivity.
  - apply bytes_check; vm_compute; reflexivity.
Defined.

(** ** The content of a stream after a write *)

Lemma padded_length (content : list Z) (p : Z) :
  (Z.to_nat p <= length (padded content p))%nat
  /\ (length content <= length (padded content p))%nat.
Proof. unfold padded. rewrite length_app, length_replicate. lia. Qed.

Lemma store_byte_shape (content : list Z) (p c : Z) :
  store_byte content p c
  = take (Z.to_nat p) (padded content p) ++ c :: drop (Z.to_nat p + 1) content.
Proof.
  unfold store_byte. fold (padded content p). cbn [app]. do 2 f_equal.
  unfold padded. rewrite drop_app, (drop_ge (replicate _ _)), app_nil_r; [done|].
  rewrite length_replicate. lia.
Qed.

(** The bytes [b :: bs] written at the offset [p] stand between the part
    of the file before [p] and the part after the last byte written. *)
Lemma write_at_shape (bs : list Z) :
  forall content p b,
    0 <= p ->
    write_at content p (b :: bs)
    = take (Z.to_nat p) (padded content p) ++ (b :: bs)
      ++ drop (Z.to_nat p + length (b :: bs)) content.
Proof.
  induction bs as [|b' bs IH]; intros content p b Hp.
  - cbn [write_at length]. apply store_byte_shape.
  - change (write_at content p (b :: b' :: bs))
      with (write_at (store_byte content p b) (p + 1) (b' :: bs)).
    rewrite IH by lia. rewrite store_byte_shape.
    set (A := take (Z.to_nat p) (padded content p)).
    assert (length A = Z.to_nat p) as HA.
    { unfold A. rewrite length_take. pose proof (padded_length content p). lia. }
    assert (padded (A ++ b :: drop (Z.to_nat p + 1) content) (p + 1)
            = A ++ b :: drop (Z.to_nat p + 1) content) as ->.
    { unfold padded. rewrite length_app, HA. cbn [length].
      replace (Z.to_nat (p + 1) - _)%nat with 0%nat by lia.
      apply app_nil_r. }
    replace (Z.to_nat (p + 1)) with (length A + 1)%nat by lia.
    rewrite (take_app_add' A) by done.
    cbn [take app]. rewrite <- app_assoc. cbn [app]. do 3 f_equal.
    rewrite drop_app_ge by (cbn [length]; lia).
    rewrite HA. cbn [length].
    replace (Z.to_nat p + 1 + Datatypes.S (length bs) - Z.to_nat p)%nat
      with (Datatypes.S (Datatypes.S (length bs))) by lia.
    cbn [drop]. rewrite drop_drop, take_0. cbn [app].
    by replace (Z.to_nat p + 1 + Datatypes.S (length bs))%nat
      with (Z.to_nat p + Datatypes.S (Datatypes.S (length bs)))%nat by lia.
Qed.

(** Bytes written to a stream are read back from the offset they were
    written at. *)
Lemma wrote_holds (f f' : FILE) (bs : list Z) :
  wrote f f' bs -> 0 <= f_pos f ->
  buf_read (f_content f') (f_pos f) (Z.of_nat (length bs)) = bs.
Proof.
  intros [Hc _] Hp. rewrite Hc. destruct bs as [|b bs].
  - by unfold buf_read.
  - rewrite write_at_shape by done. unfold buf_read.
    pose proof (padded_length (f_content f) (f_pos f)).
    rewrite drop_app_length' by (rewrite length_take; lia).
    rewrite Nat2Z.id. apply take_app_length.
Qed.

(** The streams the model's writers leave differ from the stream they
    started with in the content and the position only. *)
Lemma fputc_settings (c : Z) (f f' : FILE) :
  fputc c f = Some f' ->
  f_read_fault f' = f_read_fault f /\ f_seekable f' = f_seekable f
  /\ f_error f' = f_error f /\ f_write_limit f' = f_write_limit f
  /\ f_flush_ok f' = f_flush_ok f /\ f_truncate_ok f' = f_truncate_ok f.
Proof. unfold fputc. destruct (write_refused _ _); [done|]. by intros [= <-]. Qed.

Lemma fwrite_settings (buf : list Z) :
  forall f k f',
    fwrite buf f = (k, f') ->
    f_read_fault f' = f_read_fault f /\ f_seekable f' = f_seekable f
    /\ f_error f' = f_error f /\ f_write_limit f' = f_write_limit f
    /\ f_flush_ok f' = f_flush_ok f /\ f_truncate_ok f' = f_truncate_ok f.
Proof.
  induction buf as [|b bs IH]; intros f k f'; cbn [fwrite].
  - by intros [= _ <-].
  - destruct (fputc b f) as [f1|] eqn:E; [|by intros [= _ <-]].
    apply fputc_settings in E.
    destruct (fwrite bs f1) as [k1 f2] eqn:E2. apply IH in E2.
    intros [= _ <-]. destruct E as (? & ? & ? & ? & ? & ?).
    destruct E2 as (? & ? & ? & ? & ? & ?). split_and!; congruence.
Qed.

Lemma u8_byte (b : Z) : is_byte b -> u8 b = b.
Proof. unfold is_byte, u8. intros H. by apply Z.mod_small; lia. Qed.

Lemma map_u8_bytes (bs : list Z) : Forall is_byte bs -> map u8 bs = bs.
Proof.
  induction 1 as [|b bs Hb _ IH]; [done|]. cbn. by rewrite u8_byte, IH.
Qed.

Lemma write_bytes_settings (buf : list Z) (f f' : FILE) (rc : Z) :
  write_bytes buf f = (rc, f') ->
  f_read_fault f' = f_read_fault f /\ f_seekable f' = f_seekable f
  /\ f_error f' = f_error f /\ f_write_limit f' = f_write_limit f
  /\ f_flush_ok f' = f_flush_ok f /\ f_truncate_ok f' = f_truncate_ok f.
Proof.
  unfold write_bytes. destruct (_ =? 0); [by intros [= _ <-]|].
  destruct (fwrite buf f) as [k f1] eqn:E. apply fwrite_settings in E.
  by destruct (negb _); intros [= _ <-].
Qed.

(** ** The comment block *)

(** A successful [imd_write_comment_block] writes the comment and the
    end marker. *)
Lemma imd_write_comment_block_wrote (fout f1 : FILE) (c : list Z) :
  imd_write_comment_block fout (Some c) (Z.of_nat (length c)) = (0, f1) ->
  wrote fout f1 (map u8 c ++ [LIBIMD_COMMENT_EOF_MARKER])
  /\ f_read_fault f1 = f_read_fault fout.
Proof.
  unfold imd_write_comment_block.
  assert (forall f0, (wrote fout f0 (map u8 c)
                      /\ f_read_fault f0 = f_read_fault fout) ->
            match fputc LIBIMD_COMMENT_EOF_MARKER f0 with
            | Some f2 => (0, f2)
            | None => (IMD_ERR_WRITE_ERROR, f0)
            end = (0, f1) ->
            wrote fout f1 (map u8 c ++ [LIBIMD_COMMENT_EOF_MARKER])
            /\ f_read_fault f1 = f_read_fault fout) as Hend.
  { intros f0 [Hw Hf] H.
    destruct (fputc LIBIMD_COMMENT_EOF_MARKER f0) as [f2|] eqn:E; [|done].
    injection H as <-. split.
    - apply (wrote_app _ f0); [done|]. by apply fputc_wrote in E.
    - apply fputc_settings in E as (-> & _). done. }
  destruct (Z.gtb_spec (Z.of_nat (length c)) 0) as [Hpos|Hzero].
  - rewrite (buf_read_all c) by done.
    destruct (write_bytes c fout) as [rc f0] eqn:E.
    destruct (Z.eq_dec rc 0) as [->|Hrc].
    + apply Hend. split; [by apply write_bytes_wrote|].
      by apply write_bytes_settings in E as (-> & _).
    + destruct rc; [done| |]; by intros [=].
  - destruct c; [|cbn in Hzero; lia]. apply Hend. split; [apply wrote_nil|done].
Qed.

(** The reading loop on a stream that holds a comment and its marker. *)
Lemma read_comment_loop_holds (h : Host) (c : list Z) :
  forall fuel f acc capacity,
    never_out_of_memory h -> 0 < capacity ->
    holds_at f (c ++ [LIBIMD_COMMENT_EOF_MARKER]) ->
    Forall (fun b => b <> LIBIMD_COMMENT_EOF_MARKER) c ->
    (length c < fuel)%nat ->
    read_comment_loop h fuel f acc capacity
    = Some (Some (acc ++ c), with_pos f (f_pos f + Z.of_nat (length c) + 1)).
Proof.
  induction c as [|b c IH]; intros fuel f acc capacity Hmem Hcap Hh Hc Hfuel;
    (destruct fuel as [|fuel]; [cbn in Hfuel; lia|]);
    cbn [read_comment_loop]; apply holds_at_cons in Hh as [-> Hh].
  - rewrite Z.eqb_refl, app_nil_r. cbn [length]. do 3 f_equal. lia.
  - apply Forall_cons in Hc as [Hb Hc].
    destruct (Z.eqb_spec b LIBIMD_COMMENT_EOF_MARKER) as [|_]; [done|].
    assert (forall cap, 0 < cap ->
              read_comment_loop h fuel (with_pos f (f_pos f + 1)) (acc ++ [b]) cap
              = Some (Some (acc ++ b :: c),
                      with_pos f (f_pos f + Z.of_nat (length (b :: c)) + 1)))
      as Hrec.
    { intros cap Hcap'.
      rewrite (IH fuel _ (acc ++ [b]) cap) by (try done; cbn in Hfuel; lia).
      rewrite <- app_assoc. cbn [app length with_pos f_pos].
      do 3 f_equal. unfold with_pos. cbn. f_equal. lia. }
    destruct (_ >=? _); [|by apply Hrec].
    destruct (Z.leb_spec (capacity * 2) capacity); [lia|].
    rewrite Hmem. cbn [negb]. apply Hrec. lia.
Qed.

Lemma read_until_marker_holds (c : list Z) :
  forall fuel f acc,
    holds_at f (c ++ [LIBIMD_COMMENT_EOF_MARKER]) ->
    Forall (fun b => b <> LIBIMD_COMMENT_EOF_MARKER) c ->
    (length c < fuel)%nat ->
    read_until_marker fuel f acc
    = Some (true, acc ++ c, with_pos f (f_pos f + Z.of_nat (length c) + 1)).
Proof.
  induction c as [|b c IH]; intros fuel f acc Hh Hc Hfuel;
    (destruct fuel as [|fuel]; [cbn in Hfuel; lia|]);
    cbn [read_until_marker]; apply holds_at_cons in Hh as [-> Hh].
  - rewrite Z.eqb_refl, app_nil_r. cbn [length]. do 3 f_equal. lia.
  - apply Forall_cons in Hc as [Hb Hc].
    destruct (Z.eqb_spec b LIBIMD_COMMENT_EOF_MARKER) as [|_]; [done|].
    rewrite (IH fuel _ (acc ++ [b])) by (try done; cbn in Hfuel; lia).
    rewrite <- app_assoc. cbn [app length with_pos f_pos].
    do 2 f_equal. unfold with_pos. cbn. f_equal. lia.
Qed.

(** A stream holds at an offset the bytes that were written there. *)
Lemma wrote_rewound_holds (f f' : FILE) (bs : list Z) :
  wrote f f' bs -> 0 <= f_pos f -> f_read_fault f' = f_read_fault f ->
  reads_below f (f_pos f + Z.of_nat (length bs)) ->
  holds_at (rewound f' (f_pos f)) bs
  /\ (length bs <= length (f_content f'))%nat.
Proof.
  intros Hw Hp Hf Hr. pose proof (wrote_holds _ _ _ Hw Hp) as Hb.
  split.
  - split; [done|]. split; [done|]. cbn. rewrite Hf. apply Hr.
  - rewrite <- Hb at 1. unfold buf_read. rewrite length_take, length_drop. lia.
Qed.

(** A comment written by [imd_write_comment_block] is read back by
    [imd_read_comment_block] from the offset it was written at, and
    [imd_skip_comment_block] leaves the stream where the reader leaves
    it: just after the end marker. *)
Theorem comment_block_round_trip (h : Host) (fout f1 : FILE) (c : list Z) :
  never_out_of_memory h ->
  Forall is_byte c ->
  Forall (fun b => b <> LIBIMD_COMMENT_EOF_MARKER) c ->
  0 <= f_pos fout ->
  reads_below fout (f_pos fout + Z.of_nat (length c) + 1) ->
  imd_write_comment_block fout (Some c) (Z.of_nat (length c)) = (0, f1) ->
  imd_read_comment_block h (rewound f1 (f_pos fout))
  = Some (Some c, rewound f1 (f_pos f1))
  /\ imd_skip_comment_block (rewound f1 (f_pos fout))
     = Some (0, rewound f1 (f_pos f1))
  /\ f_pos f1 = f_pos fout + Z.of_nat (length c) + 1.
Proof.
  intros Hmem Hbytes Hc Hp Hr Hw.
  apply imd_write_comment_block_wrote in Hw as [Hw Hf].
  rewrite (map_u8_bytes c Hbytes) in Hw.
  assert (f_pos f1 = f_pos fout + Z.of_nat (length c) + 1) as Hpos.
  { destruct Hw as [_ ->]. rewrite length_app. cbn [length]. lia. }
  destruct (wrote_rewound_holds _ _ _ Hw Hp Hf) as [Hh Hlen].
  { intros k Hk. apply Hr in Hk. rewrite length_app. cbn [length]. lia. }
  rewrite length_app in Hlen. cbn [length] in Hlen.
  split; [|split; [|done]].
  - unfold imd_read_comment_block. rewrite Hmem. cbn [negb].
    rewrite (read_comment_loop_holds h c _ _ [] 1024 Hmem eq_refl
               (holds_at_clearerr _ _ Hh) Hc)
      by (unfold comment_fuel; cbn; lia).
    cbn [app]. do 2 f_equal. unfold rewound, clearerr, with_error, with_pos.
    cbn. f_equal. lia.
  - unfold imd_skip_comment_block.
    rewrite (read_until_marker_holds c _ _ [] (holds_at_clearerr _ _ Hh) Hc)
      by (unfold comment_fuel; cbn; lia).
    do 2 f_equal. unfold rewound, clearerr, with_error, with_pos.
    cbn. f_equal. lia.
Qed.

(** [comment_block_round_trip] for the comment "test" written at the
    start of an empty file. *)
Lemma comment_block_round_trip_witness :
  exists f1,
    imd_write_comment_block (file_of []) (Some (bytes_of_string "test"))
      (Z.of_nat (length (bytes_of_string "test"))) = (0, f1)
    /\ imd_read_comment_block host_ok (rewound f1 (f_pos (file_of [])))
       = Some (Some (bytes_of_string "test"), rewound f1 (f_pos f1))
    /\ imd_skip_comment_block (rewound f1 (f_pos (file_of [])))
       = Some (0, rewound f1 (f_pos f1))
    /\ f_pos f1
       = f_pos (file_of []) + Z.of_nat (length (bytes_of_string "test")) + 1.
Proof.
  eexists. split; [reflexivity|].
  apply (comment_block_round_trip host_ok (file_of []) _
           (bytes_of_string "test")).
  - intros size. reflexivity.
  - apply bytes_check. reflexivity.
  - repeat constructor; by vm_compute.
  - reflexivity.
  - intros k Hk. discriminate Hk.
  - reflexivity.
Defined.

(** ** Scanning what [imd_write_file_header] prints *)

Lemma span_while_app (keep : Z -> bool) (l rest : list Z) :
  Forall (fun c => keep c = true) l ->
  span_while keep (l ++ rest) = l ++ span_while keep rest.
Proof.
  induction 1 as [|c l Hc _ IH]; [done|]. cbn. by rewrite Hc, IH.
Qed.

Lemma span_while_all (keep : Z -> bool) (l : list Z) :
  Forall (fun c => keep c = true) l -> span_while keep l = l.
Proof.
  intros H. rewrite <- (app_nil_r l) at 1. rewrite span_while_app by done.
  apply app_nil_r.
Qed.

Lemma span_while_stop (keep : Z -> bool) (l rest : list Z) (x : Z) :
  Forall (fun c => keep c = true) l -> keep x = false ->
  span_while keep (l ++ x :: rest) = l.
Proof.
  intros H Hx. rewrite span_while_app by done. cbn. rewrite Hx. apply app_nil_r.
Qed.

Lemma skip_space_nonspace (l : list Z) :
  match l with c :: _ => isspace c = false | [] => True end ->
  skip_space l = l.
Proof. destruct l as [|c l]; [done|]. cbn. by intros ->. Qed.

Lemma isdigit_not_space (c : Z) : isdigit c = true -> isspace c = false.
Proof.
  unfold isdigit, isspace. intros H. apply andb_true_iff in H as [H1 H2].
  apply Z.leb_le in H1, H2. apply orb_false_iff. split.
  - apply Z.eqb_neq. lia.
  - apply andb_false_iff. right. apply Z.leb_gt. lia.
Qed.

Lemma scan_int_digits (h : Host) (d : Z) (ds rest : list Z) :
  Forall (fun c => isdigit c = true) (d :: ds) ->
  match rest with c :: _ => isdigit c = false | [] => True end ->
  INT_MIN <= decimal_value (d :: ds) <= INT_MAX ->
  scan_int h ((d :: ds) ++ rest) = Some (decimal_value (d :: ds), rest).
Proof.
  intros Hds Hrest Hrange. unfold scan_int. cbn [app].
  pose proof (Forall_inv Hds) as Hd. cbn beta in Hd.
  assert (48 <= d) as Hd48.
  { unfold isdigit in Hd. apply andb_true_iff in Hd as [Hd _].
    by apply Z.leb_le. }
  destruct (Z.eqb_spec d 45); [lia|]. destruct (Z.eqb_spec d 43); [lia|].
  assert (span_while isdigit (d :: ds ++ rest) = d :: ds) as ->.
  { change (d :: ds ++ rest) with ((d :: ds) ++ rest).
    destruct rest as [|x rest].
    - rewrite app_nil_r. by apply span_while_all.
    - by apply span_while_stop. }
  destruct (Z.leb_spec INT_MIN (decimal_value (d :: ds))); [|lia].
  destruct (Z.leb_spec (decimal_value (d :: ds)) INT_MAX); [|lia].
  cbn [andb]. do 2 f_equal.
  change (d :: ds ++ rest) with ((d :: ds) ++ rest). apply drop_app_length.
Qed.

Lemma sscanf_lit (h : Host) (fmt : list directive) (c : Z) (rest : list Z)
    (acc : list scanned) :
  sscanf_run h (DLit c :: fmt) (c :: rest) acc = sscanf_run h fmt rest acc.
Proof. cbn. by rewrite Z.eqb_refl. Qed.

Lemma sscanf_blank (h : Host) (fmt : list directive) (rest : list Z)
    (acc : list scanned) :
  match rest with c :: _ => isspace c = false | [] => True end ->
  sscanf_run h (DSpace :: fmt) (32 :: rest) acc = sscanf_run h fmt rest acc.
Proof.
  intros H. cbn [sscanf_run skip_space]. change (isspace 32) with true.
  cbv iota. by rewrite skip_space_nonspace.
Qed.

Lemma sscanf_scanset (h : Host) (fmt : list directive) (width : nat)
    (stop : Z) (tok rest : list Z) (acc : list scanned) :
  tok <> [] -> (length tok <= width)%nat -> Forall (fun c => c <> stop) tok ->
  sscanf_run h (DScanset width stop :: fmt) (tok ++ stop :: rest) acc
  = sscanf_run h fmt (stop :: rest) (acc ++ [SStr tok]).
Proof.
  intros Hne Hw Hall. cbn [sscanf_run].
  assert (span_while (fun c => negb (c =? stop)) (tok ++ stop :: rest) = tok)
    as ->.
  { apply span_while_stop; [|by rewrite Z.eqb_refl].
    eapply Forall_impl; [exact Hall|]. intros c Hc. cbn.
    by apply negb_true_iff, Z.eqb_neq. }
  rewrite take_ge by done. rewrite drop_app_length.
  destruct tok as [|x tok]; [done|]. done.
Qed.

Lemma sscanf_int (h : Host) (fmt : list directive) (d : Z) (ds rest : list Z)
    (acc : list scanned) :
  Forall (fun c => isdigit c = true) (d :: ds) ->
  match rest with c :: _ => isdigit c = false | [] => True end ->
  INT_MIN <= decimal_value (d :: ds) <= INT_MAX ->
  sscanf_run h (DInt :: fmt) ((d :: ds) ++ rest) acc
  = sscanf_run h fmt rest (acc ++ [SInt (decimal_value (d :: ds))]).
Proof.
  intros Hds Hrest Hrange. cbn [sscanf_run app].
  rewrite skip_space_nonspace
    by (cbn; apply isdigit_not_space, (Forall_inv Hds)).
  pose proof (scan_int_digits h d ds rest Hds Hrest Hrange) as Hs.
  cbn [app] in Hs. by rewrite Hs.
Qed.

Lemma two_digits_value (n : Z) :
  0 <= n <= 99 ->
  Forall (fun c => isdigit c = true) (two_digits n)
  /\ decimal_value (two_digits n) = n.
Proof.
  intros Hn. split.
  - unfold two_digits, isdigit.
    repeat constructor; apply andb_true_iff; split; apply Z.leb_le;
      Z.div_mod_to_equations; lia.
  - unfold decimal_value, two_digits. cbn [fold_left].
    Z.div_mod_to_equations. lia.
Qed.

Lemma four_digits_value (n : Z) :
  0 <= n <= 9999 ->
  Forall (fun c => isdigit c = true) (four_digits n)
  /\ decimal_value (four_digits n) = n.
Proof.
  intros Hn. split.
  - unfold four_digits, isdigit.
    repeat constructor; apply andb_true_iff; split; apply Z.leb_le;
      Z.div_mod_to_equations; lia.
  - unfold decimal_value, four_digits. cbn [fold_left].
    Z.div_mod_to_equations. lia.
Qed.

Lemma two_digits_head (n : Z) (rest : list Z) :
  0 <= n <= 99 ->
  match two_digits n ++ rest with c :: _ => isspace c = false | [] => True end.
Proof.
  intros Hn. destruct (two_digits_value n Hn) as [Hd _].
  unfold two_digits in *. cbn [app]. apply isdigit_not_space, (Forall_inv Hd).
Qed.

Lemma sscanf_two_digits (h : Host) (fmt : list directive) (n : Z)
    (rest : list Z) (acc : list scanned) :
  0 <= n <= 99 ->
  match rest with c :: _ => isdigit c = false | [] => True end ->
  sscanf_run h (DInt :: fmt) (two_digits n ++ rest) acc
  = sscanf_run h fmt rest (acc ++ [SInt n]).
Proof.
  intros Hn Hrest. destruct (two_digits_value n Hn) as [Hd Hv].
  unfold two_digits in *. rewrite sscanf_int; [by rewrite Hv | done | done |].
  rewrite Hv. unfold INT_MIN, INT_MAX. lia.
Qed.

Lemma sscanf_four_digits (h : Host) (fmt : list directive) (n : Z)
    (rest : list Z) (acc : list scanned) :
  0 <= n <= 9999 ->
  match rest with c :: _ => isdigit c = false | [] => True end ->
  sscanf_run h (DInt :: fmt) (four_digits n ++ rest) acc
  = sscanf_run h fmt rest (acc ++ [SInt n]).
Proof.
  intros Hn Hrest. destruct (four_digits_value n Hn) as [Hd Hv].
  unfold four_digits in *. rewrite sscanf_int; [by rewrite Hv | done | done |].
  rewrite Hv. unfold INT_MIN, INT_MAX. lia.
Qed.

(** The seven fields [sscanf] converts from a printed header line. *)
Lemma sscanf_header_line (h : Host) (v : list Z) (hi : ImdHeaderInfo) :
  version_text v -> clock_time hi ->
  sscanf h (header_line_text v hi) header_format
  = (7, [SStr v; SInt (day hi); SInt (month hi); SInt (year hi);
         SInt (hour hi); SInt (minute hi); SInt (second hi)]).
Proof.
  intros (Hlen & Hall & Hfirst) ((Hmo & Hd & Hh & Hmi & Hs) & Hy).
  unfold sscanf, header_line_text, header_format, timestamp_text.
  change (bytes_of_string "IMD ") with [73; 77; 68; 32].
  change (bytes_of_string ": ") with [58; 32].
  unfold lit_I, lit_M, lit_D, lit_colon, lit_slash.
  rewrite <- (app_nil_r (two_digits (second hi))).
  destruct v as [|c v]; [done|]. cbn [app].
  rewrite !sscanf_lit. rewrite sscanf_blank by exact Hfirst.
  change (c :: v ++ 58 :: 32 :: ?x) with ((c :: v) ++ 58 :: 32 :: x).
  rewrite sscanf_scanset; [|done|lia|].
  2:{ eapply Forall_impl; [exact Hall|]. intros x Hx. cbn in Hx. tauto. }
  rewrite sscanf_lit.
  rewrite sscanf_blank by (apply two_digits_head; lia).
  rewrite sscanf_two_digits by (done || lia). rewrite sscanf_lit.
  rewrite sscanf_two_digits by (done || lia). rewrite sscanf_lit.
  rewrite sscanf_four_digits by (done || lia).
  rewrite sscanf_blank by (apply two_digits_head; lia).
  rewrite sscanf_two_digits by (done || lia). rewrite sscanf_lit.
  rewrite sscanf_two_digits by (done || lia). rewrite sscanf_lit.
  rewrite sscanf_two_digits by (done || lia).
  reflexivity.
Qed.

Lemma parse_header_line_printed (h : Host) (v : list Z) (hi : ImdHeaderInfo) :
  version_text v -> clock_time hi ->
  parse_header_line h (header_line_text v hi)
  = mkHeader v (day hi) (month hi) (year hi) (hour hi) (minute hi) (second hi).
Proof.
  intros Hv Hc. unfold parse_header_line.
  rewrite (sscanf_header_line h v hi Hv Hc).
  change (7 <? 7) with false. cbv iota. cbn [store_scanned lookup list_lookup].
  set (hi0 := store_scanned _ _).
  assert (date_time_out_of_range hi0 = false) as ->; [|done].
  apply date_time_range_spec. exact (proj1 Hc).
Qed.

Lemma header_line_chars (v : list Z) (hi : ImdHeaderInfo) :
  version_text v -> clock_time hi ->
  Forall (fun c => is_byte c /\ c <> 0 /\ c <> 10 /\ c <> 13)
    (header_line_text v hi).
Proof.
  intros (_ & Hall & _) ((Hmo & Hd & Hh & Hmi & Hs) & Hy).
  assert (forall ds, Forall (fun c => isdigit c = true) ds ->
            Forall (fun c => is_byte c /\ c <> 0 /\ c <> 10 /\ c <> 13) ds)
    as Hdig.
  { intros ds H. eapply Forall_impl; [exact H|]. intros c Hc. cbn in Hc.
    unfold isdigit in Hc. apply andb_true_iff in Hc as [H1 H2].
    apply Z.leb_le in H1, H2. unfold is_byte. lia. }
  assert (forall c, 14 <= c <= 255 ->
            is_byte c /\ c <> 0 /\ c <> 10 /\ c <> 13) as Hlit
    by (unfold is_byte; intros; lia).
  unfold header_line_text, timestamp_text.
  change (bytes_of_string "IMD ") with [73; 77; 68; 32].
  change (bytes_of_string ": ") with [58; 32].
  unfold lit_slash, lit_colon.
  repeat (apply Forall_app; split);
    try (apply Hdig, two_digits_value; lia);
    try (apply Hdig, four_digits_value; lia);
    try (repeat constructor; apply Hlit; lia).
  eapply Forall_impl; [exact Hall|]. intros c Hc. cbn in Hc. tauto.
Qed.

(** [fgets] on a stream that holds a line ending in LF. *)
Lemma fgets_loop_holds (l : list Z) :
  forall room f acc,
    holds_at f (l ++ [10]) -> Forall (fun c => c <> 10) l ->
    (length l < room)%nat ->
    fgets_loop room f acc
    = (Some (acc ++ l ++ [10]),
       with_pos f (f_pos f + Z.of_nat (length l) + 1)).
Proof.
  induction l as [|b l IH]; intros room f acc Hh Hl Hroom;
    (destruct room as [|room]; [cbn in Hroom; lia|]);
    cbn [fgets_loop]; apply holds_at_cons in Hh as [-> Hh].
  - change (10 =? 10) with true. cbv iota. cbn [length app].
    do 2 f_equal. lia.
  - apply Forall_cons in Hl as [Hb Hl].
    destruct (Z.eqb_spec b 10) as [|_]; [done|].
    rewrite (IH room _ (acc ++ [b])) by (try done; cbn in Hroom; lia).
    rewrite <- app_assoc. cbn [app length with_pos f_pos].
    f_equal. unfold with_pos. cbn. f_equal. lia.
Qed.

Lemma fwrite_count (buf : list Z) :
  forall f k f', fwrite buf f = (k, f') -> k <= Z.of_nat (length buf).
Proof.
  induction buf as [|b bs IH]; intros f k f'; cbn [fwrite].
  - intros [= <- _]. done.
  - destruct (fputc b f) as [f1|]; [|intros [= <- _]; lia].
    destruct (fwrite bs f1) as [k1 f2] eqn:E. apply IH in E.
    intros [= <- _]. cbn [length]. lia.
Qed.



(** ** The binary dump of a track *)

(** [imd_write_track_bin] prepares its working copy as
    [imd_write_track_imd] does. *)
Lemma imd_write_track_bin_prepare (h : Host) (fout : FILE)
    (track : ImdTrackInfo) (opts : ImdWriteOpts) :
  truthy (loaded track) = true ->
  imd_write_track_bin h fout track opts
  = (prepared ← prepare_track_to_write h track opts;
     match prepared with
     | inr rc => Some (rc, fout)
     | inl track_copy =>
         match data track_copy with
         | Some d =>
             if (num_sectors track_copy >? 0) && (data_size track_copy >? 0)
             then
               match write_bytes (buf_read d 0 (data_size track_copy)) fout with
               | (0, f') => Some (0, f')
               | (_, f') => Some (IMD_ERR_WRITE_ERROR, f')
               end
             else if (num_sectors track_copy >? 0)
                     && (data_size track_copy =? 0)
             then Some (IMD_ERR_INVALID_ARG, fout)
             else Some (0, fout)
         | None =>
             if num_sectors track_copy >? 0 then Some (IMD_ERR_INVALID_ARG, fout)
             else Some (0, fout)
         end
     end).
Proof.
  intros Hl. unfold imd_write_track_bin, prepare_track_to_write.
  rewrite Hl. cbn [negb]. cbv zeta.
  destruct (negb (interleave_factor opts =? LIBIMD_IL_AS_READ)
            && (num_sectors track >? 1) && (data_size track >? 0)) eqn:Ec;
    cbn [andb].
  - destruct (negb (malloc_ok h (data_size track))); [done|]. cbv iota.
    change (num_sectors (with_data track ?d)) with (num_sectors track).
    destruct (negb _ && (num_sectors track >? 1)); [|done].
    change (imd_calculate_best_interleave (with_data track ?d))
      with (imd_calculate_best_interleave track).
    destruct (imd_apply_interleave h _ _) as [[rc t']|]; [|done].
    cbn [mbind option_bind]. by destruct (negb (rc =? 0)).
  - cbv iota. destruct (negb _ && (num_sectors track >? 1)); [|done].
    destruct (imd_apply_interleave h _ _) as [[rc t']|]; [|done].
    cbn [mbind option_bind]. by destruct (negb (rc =? 0)).
Qed.

(** A successful [imd_write_track_bin] writes the data buffer of the
    track as written (the track itself when the interleave is as-read or
    the track has fewer than two sectors, the re-ordered working copy
    otherwise) and nothing else: [num_sectors * sector_size] bytes, in
    which every sector of the input track that is the first with its
    sector ID stands, whole, at a sector boundary, where the working copy
    has that ID. *)
Theorem write_track_bin_dump (h : Host) (fout f' : FILE)
    (track : ImdTrackInfo) (opts : ImdWriteOpts) :
  loaded_track track ->
  imd_write_track_bin h fout track opts = Some (0, f') ->
  exists tw,
    prepare_track_to_write h track opts = Some (inl tw)
    /\ (interleave_factor opts = LIBIMD_IL_AS_READ \/ num_sectors track <= 1 ->
        tw = track)
    /\ wrote fout f' (track_data tw)
    /\ Z.of_nat (length (track_data tw)) = num_sectors track * sector_size track
    /\ forall src, 0 <= src < num_sectors track -> first_with_id track src ->
         exists q, 0 <= q < num_sectors track
                   /\ arr_get (smap tw) q = arr_get (smap track) src
                   /\ buf_read (track_data tw) (q * sector_size track)
                        (sector_size track)
                      = sector_bytes track src.
Proof.
  intros Hlt Hrun.
  rewrite imd_write_track_bin_prepare in Hrun
    by (rewrite (lt_loaded _ Hlt); reflexivity).
  destruct (prepare_track_to_write h track opts) as [[tw|rc]|] eqn:Ep;
    [| |done]; cbn [mbind option_bind] in Hrun.
  2:{ apply prepare_track_error in Ep. by injection Hrun. }
  destruct (prepare_track_sectors h track tw opts Hlt Ep)
    as (Hltw & Hsame & Hid & Hsec).
  destruct Hsame as (_ & _ & _ & _ & Hn & _ & Hsz & Hds & _).
  assert (forall src, 0 <= src < num_sectors track -> first_with_id track src ->
            exists q, 0 <= q < num_sectors track
                      /\ arr_get (smap tw) q = arr_get (smap track) src
                      /\ buf_read (track_data tw) (q * sector_size track)
                           (sector_size track)
                         = sector_bytes track src) as Hin.
  { intros src Hsrc Hfirst.
    destruct (Hsec src Hsrc Hfirst) as (q & Hq & Heq).
    unfold track_sector in Heq. injection Heq as Hs _ _ _ Hb.
    exists q. split; [done|]. split; [done|].
    rewrite <- Hb, <- Hsz. unfold track_data, sector_bytes.
    destruct (data tw) as [d|] eqn:Ed; [done|].
    pose proof (lt_data _ Hltw) as Hd. rewrite Ed in Hd.
    pose proof (lt_data_size _ Hltw) as Hdsz.
    pose proof (lt_size _ Hltw) as Hpos. nia. }
  revert Hin. generalize (sector_bytes track). intros src_bytes Hin.
  pose proof (lt_data _ Hltw) as Hd. pose proof (lt_data_size _ Hltw) as Hdsz.
  pose proof (lt_size _ Hltw) as Hpos.
  pose proof (wf_num_sectors _ (lt_wf _ Hltw)) as Hnb. unfold is_byte in Hnb.
  exists tw. split; [done|]. split; [done|].
  unfold track_data in Hin |- *. destruct (data tw) as [d|].
  - destruct Hd as [Hlen Hbytes].
    assert (wrote fout f' d) as Hw.
    { destruct (Z.gtb_spec (num_sectors tw) 0) as [Hn0|Hn0].
      - destruct (Z.gtb_spec (data_size tw) 0) as [_|]; [|nia].
        cbn [andb] in Hrun. rewrite (buf_read_all d) in Hrun by done.
        destruct (write_bytes d fout) as [rc f1] eqn:E.
        destruct (Z.eq_dec rc 0) as [->|].
        + injection Hrun as <-. apply write_bytes_wrote in E.
          by rewrite (map_u8_bytes d Hbytes) in E.
        + destruct rc; [done| |]; by injection Hrun.
      - cbn [andb] in Hrun. injection Hrun as <-.
        assert (d = []) as -> by (apply nil_length_inv; nia).
        apply wrote_nil. }
    split; [done|]. split; [lia|]. exact Hin.
  - destruct (Z.gtb_spec (num_sectors tw) 0); [by injection Hrun|].
    injection Hrun as <-. split; [apply wrote_nil|].
    split; [cbn; lia|]. intros src Hsrc. lia.
Qed.

(** ** The file after a rewrite of the image *)

Lemma imd_write_file_header_wrote (h : Host) (f f' : FILE) (v : list Z) :
  imd_write_file_header h f v = (0, f') ->
  exists timestamp,
    local_timestamp h = Some timestamp
    /\ wrote f f' (map u8 (bytes_of_string "IMD " ++ v ++ bytes_of_string ": "
                           ++ timestamp ++ [13; 10])).
Proof.
  unfold imd_write_file_header.
  destruct (local_timestamp h) as [ts|]; [|done].
  destruct (fwrite _ f) as [k f0] eqn:E.
  pose proof (fwrite_count _ _ _ _ E) as Hk.
  destruct (Z.ltb_spec k (Z.of_nat (length (bytes_of_string "IMD " ++ v
              ++ bytes_of_string ": " ++ ts ++ [13; 10])))); [done|].
  intros [= <-]. exists ts. split; [done|]. apply (fwrite_wrote _ _ _ _ E). lia.
Qed.

Lemma imd_write_comment_block_bytes (f f' : FILE) (c : option (list Z))
    (len : Z) :
  imd_write_comment_block f c len = (0, f') ->
  wrote f f'
    (map u8 (if len >? 0
             then buf_read (match c with Some c => c | None => [] end) 0 len
             else [])
     ++ [LIBIMD_COMMENT_EOF_MARKER]).
Proof.
  unfold imd_write_comment_block.
  assert (forall f0 bs, wrote f f0 bs ->
            match fputc LIBIMD_COMMENT_EOF_MARKER f0 with
            | Some f2 => (0, f2)
            | None => (IMD_ERR_WRITE_ERROR, f0)
            end = (0, f') ->
            wrote f f' (bs ++ [LIBIMD_COMMENT_EOF_MARKER])) as Hend.
  { intros f0 bs Hw H.
    destruct (fputc LIBIMD_COMMENT_EOF_MARKER f0) as [f2|] eqn:E; [|done].
    injection H as <-. apply (wrote_app _ f0); [done|].
    by apply fputc_wrote in E. }
  destruct c as [c|].
  - destruct (len >? 0).
    + destruct (write_bytes (buf_read c 0 len) f) as [rc f0] eqn:E.
      destruct (Z.eq_dec rc 0) as [->|].
      * apply Hend. by apply write_bytes_wrote.
      * destruct rc; [done| |]; by intros [=].
    + apply Hend, wrote_nil.
  - assert (map u8 (if len >? 0 then buf_read [] 0 len else []) = []) as ->.
    { destruct (len >? 0); [|done]. unfold buf_read. by rewrite drop_nil, take_nil. }
    apply Hend, wrote_nil.
Qed.

Lemma rewrite_tracks_wrote (h : Host) (ts : list ImdTrackInfo) :
  forall i idx opts f f',
    rewrite_tracks h ts i idx opts f = Some (inl f') ->
    wrote f f' (emitted_tracks h ts i idx opts).
Proof.
  induction ts as [|t ts IH]; intros i idx opts f f';
    cbn [rewrite_tracks emitted_tracks].
  - intros [= <-]. apply wrote_nil.
  - fold (rewrite_opts idx opts i).
    destruct (negb (truthy (loaded t))); [done|].
    destruct (imd_write_track_imd h f t (rewrite_opts idx opts i))
      as [[res f1]|] eqn:E; [|done].
    cbn [mbind option_bind].
    destruct (Z.eqb_spec res 0) as [->|]; cbn [negb]; [|done].
    intros Hrest. apply IH in Hrest. apply (wrote_app _ f1); [|done].
    destruct (write_track_emitted _ _ _ _ _ E) as (tw & fs & Hp & Hf & Hw).
    unfold emitted_track. by rewrite Hp, Hf.
Qed.

(** [write_track_bin_dump] for a track of three sectors written with an
    interleave of 2: the sector with ID 3 is found in the dump. *)
Lemma write_track_bin_dump_witness :
  exists f' tw,
    imd_write_track_bin host_ok (file_of []) middle_unavailable_track
      all_forcing_opts = Some (0, f')
    /\ prepare_track_to_write host_ok middle_unavailable_track
         all_forcing_opts = Some (inl tw)
    /\ wrote (file_of []) f' (track_data tw)
    /\ Z.of_nat (length (track_data tw))
       = num_sectors middle_unavailable_track
         * sector_size middle_unavailable_track
    /\ exists q, 0 <= q < num_sectors middle_unavailable_track
                 /\ arr_get (smap tw) q = 3
                 /\ buf_read (track_data tw)
                      (q * sector_size middle_unavailable_track)
                      (sector_size middle_unavailable_track)
                    = sector_bytes middle_unavailable_track 2.
Proof.
  assert (exists f',
            imd_write_track_bin host_ok (file_of []) middle_unavailable_track
              all_forcing_opts = Some (0, f')) as [f' E]
    by (eexists; vm_compute; reflexivity).
  assert (loaded_track middle_unavailable_track) as Hlt
    by (apply loaded_trackb_sound; vm_compute; reflexivity).
  destruct (write_track_bin_dump host_ok (file_of []) f'
              middle_unavailable_track all_forcing_opts Hlt E)
    as (tw & Hp & _ & Hw & Hlen & Hin).
  exists f', tw. split; [exact E|]. split; [exact Hp|]. split; [exact Hw|].
  split; [exact Hlen|].
  apply (Hin 2).
  - vm_compute. split; congruence.
  - intros m Hm.
    assert (m = 0 \/ m = 1) as [-> | ->] by lia; vm_compute; congruence.
Defined.

(** ** Writers change the content and the position of a stream only *)

Lemma same_settings_refl (f : FILE) : same_settings f f.
Proof. by repeat split. Qed.

Lemma same_settings_trans (f f1 f2 : FILE) :
  same_settings f f1 -> same_settings f1 f2 -> same_settings f f2.
Proof.
  intros (? & ? & ? & ? & ? & ?) (? & ? & ? & ? & ? & ?).
  unfold same_settings. split_and!; congruence.
Qed.

Lemma fputc_all_settings (cs : list Z) :
  forall f f', fputc_all cs f = inl f' -> same_settings f f'.
Proof.
  induction cs as [|c cs IH]; intros f f'; cbn [fputc_all].
  - intros [= <-]. apply same_settings_refl.
  - destruct (fputc c f) as [f1|] eqn:E; [|done]. intros H.
    apply (same_settings_trans _ f1); [by apply (fputc_settings c) | by apply IH].
Qed.

Lemma write_bytes_same_settings (buf : list Z) (f f' : FILE) (rc : Z) :
  write_bytes buf f = (rc, f') -> same_settings f f'.
Proof. apply write_bytes_settings. Qed.

Lemma write_track_maps_settings (t : ImdTrackInfo) (f f' : FILE) :
  write_track_maps t f = inl f' -> same_settings f f'.
Proof.
  unfold write_track_maps. destruct (num_sectors t >? 0).
  2:{ intros [= <-]. apply same_settings_refl. }
  destruct (write_bytes _ f) as [rc1 f1] eqn:E1.
  apply write_bytes_same_settings in E1.
  destruct rc1; try done.
  assert (forall (present : bool) m fa rc fb,
            (if present then write_bytes m fa else (0, fa)) = (rc, fb) ->
            same_settings fa fb) as Hopt.
  { intros [] m fa rc fb H; [by apply write_bytes_same_settings in H|].
    injection H as _ <-. apply same_settings_refl. }
  destruct (if truthy (Z.land (hflag t) IMD_HFLAG_CMAP_PRES) then _ else _)
    as [rc2 f2] eqn:E2.
  apply Hopt in E2. destruct rc2; try done.
  destruct (if truthy (Z.land (hflag t) IMD_HFLAG_HMAP_PRES) then _ else _)
    as [rc3 f3] eqn:E3.
  apply Hopt in E3. destruct rc3; try done. intros [= <-].
  eauto using same_settings_trans.
Qed.

Lemma write_sector_record_settings (t : ImdTrackInfo) (final_sflag : list Z)
    (i : Z) (f f' : FILE) :
  write_sector_record t final_sflag i f = inl f' -> same_settings f f'.
Proof.
  unfold write_sector_record.
  destruct (fputc (arr_get final_sflag i) f) as [f1|] eqn:E1; [|done].
  apply fputc_settings in E1. fold (same_settings f f1) in E1.
  destruct (IMD_SDR_HAS_DATA _); [|by intros [= <-]].
  destruct (IMD_SDR_IS_COMPRESSED _).
  - destruct (sector_pointer t i); [|done].
    destruct (fputc _ f1) as [f2|] eqn:E2; [|done]. intros [= <-].
    apply fputc_settings in E2. by apply (same_settings_trans _ f1).
  - destruct (sector_size t >? 0); [|by intros [= <-]].
    destruct (sector_pointer t i); [|done].
    destruct (write_bytes _ f1) as [rc f2] eqn:E2.
    apply write_bytes_same_settings in E2.
    destruct rc; try done. intros [= <-]. by apply (same_settings_trans _ f1).
Qed.

Lemma write_sector_records_settings (t : ImdTrackInfo) (final_sflag : list Z)
    (count : nat) :
  forall start f f',
    for_range_exit start count (write_sector_record t final_sflag) f = inl f' ->
    same_settings f f'.
Proof.
  induction count as [|k IH]; intros start f f'; cbn [for_range_exit].
  - intros [= <-]. apply same_settings_refl.
  - destruct (write_sector_record t final_sflag start f) as [f1|e] eqn:E;
      [|done].
    intros H. apply write_sector_record_settings in E. apply IH in H.
    by apply (same_settings_trans _ f1).
Qed.

Lemma imd_write_track_imd_settings (h : Host) (f f' : FILE)
    (t : ImdTrackInfo) (opts : ImdWriteOpts) :
  imd_write_track_imd h f t opts = Some (0, f') -> same_settings f f'.
Proof.
  unfold imd_write_track_imd.
  destruct (negb (truthy (loaded t))); [done|].
  destruct (prepare_track_to_write h t opts) as [[tw|rc]|] eqn:Ep;
    [| |done]; cbn [mbind option_bind].
  2:{ apply prepare_track_error in Ep. by intros [= ? _]. }
  destruct (process_sector_flags opts tw) as [fs|rc] eqn:Ef.
  2:{ intros [= -> _].
      apply (for_range_exit_inr (fun r => r <> 0)) in Ef; [done|].
      intros i s r. apply process_sector_flag_error. }
  destruct (write_track_header _ tw f) as [f1|f1] eqn:E1; [|done].
  apply fputc_all_settings in E1.
  destruct (write_track_maps tw f1) as [f2|e] eqn:E2.
  2:{ apply write_track_maps_error in E2. by intros [= ->]. }
  apply write_track_maps_settings in E2.
  destruct (write_sector_records tw fs f2) as [f3|e] eqn:E3.
  2:{ intros [= ->]. unfold write_sector_records in E3.
      apply (for_range_exit_inr (fun e => fst e <> 0)) in E3; [done|].
      intros i s r. apply write_sector_record_error. }
  apply write_sector_records_settings in E3. intros [= <-].
  eauto using same_settings_trans.
Qed.

Lemma rewrite_tracks_settings (h : Host) (ts : list ImdTrackInfo) :
  forall i idx opts f f',
    rewrite_tracks h ts i idx opts f = Some (inl f') -> same_settings f f'.
Proof.
  induction ts as [|t ts IH]; intros i idx opts f f'; cbn [rewrite_tracks].
  - intros [= <-]. apply same_settings_refl.
  - destruct (negb (truthy (loaded t))); [done|].
    destruct (imd_write_track_imd h f t _) as [[res f1]|] eqn:E; [|done].
    cbn [mbind option_bind].
    destruct (Z.eqb_spec res 0) as [->|]; cbn [negb]; [|done].
    intros H. apply IH in H. apply imd_write_track_imd_settings in E.
    by apply (same_settings_trans _ f1).
Qed.

(** ** Result codes of the writers *)

Lemma imd_write_file_header_result (h : Host) (f f' : FILE) (v : list Z)
    (rc : Z) :
  imd_write_file_header h f v = (rc, f') -> rc = 0 \/ rc = IMD_ERR_WRITE_ERROR.
Proof.
  unfold imd_write_file_header.
  destruct (local_timestamp h); [|intros [= <- _]; by right].
  destruct (fwrite _ f). destruct (_ <? _); intros [= <- _]; [by right|by left].
Qed.

Lemma imd_write_comment_block_result (f f' : FILE) (c : option (list Z))
    (len rc : Z) :
  imd_write_comment_block f c len = (rc, f') ->
  rc = 0 \/ rc = IMD_ERR_WRITE_ERROR.
Proof.
  unfold imd_write_comment_block.
  assert (forall f0, match fputc LIBIMD_COMMENT_EOF_MARKER f0 with
                     | Some f2 => (0, f2)
                     | None => (IMD_ERR_WRITE_ERROR, f0)
                     end = (rc, f') -> rc = 0 \/ rc = IMD_ERR_WRITE_ERROR)
    as Hend.
  { intros f0. destruct (fputc _ f0); intros [= <- _]; [by left|by right]. }
  destruct c as [c|]; [|apply Hend].
  destruct (len >? 0); [|apply Hend].
  destruct (write_bytes _ f) as [r f0]. destruct r; [apply Hend | |];
    intros [= <- _]; by right.
Qed.

Lemma imd_apply_interleave_result (h : Host) (t t' : ImdTrackInfo) (k rc : Z) :
  imd_apply_interleave h t k = Some (rc, t') -> rc <= 0.
Proof.
  unfold imd_apply_interleave.
  destruct (data t) as [d|]; [|by intros [= <- _]].
  destruct (negb (truthy (loaded t)) || _ || _); [by intros [= <- _]|].
  cbv zeta. destruct (negb (malloc_ok h (data_size t))); [by intros [= <- _]|].
  destruct (build_logical_to_physical _ _ _) as [l2p|e] eqn:E.
  - destruct (for_range_opt _ _ _ _); [|done]. by intros [= <- _].
  - intros [= <- _]. revert E. unfold build_logical_to_physical.
    apply (for_range_exit_inr (fun r => r <= 0)).
    intros i s r. cbv zeta.
    destruct (_ =? LIBIMD_INVALID_SECTOR_POS); [|done]. by intros [= <-].
Qed.

Lemma imd_write_track_imd_result (h : Host) (f f' : FILE) (t : ImdTrackInfo)
    (opts : ImdWriteOpts) (rc : Z) :
  imd_write_track_imd h f t opts = Some (rc, f') -> rc <= 0.
Proof.
  unfold imd_write_track_imd.
  destruct (negb (truthy (loaded t))); [by intros [= <- _]|].
  destruct (prepare_track_to_write h t opts) as [[tw|e]|] eqn:Ep;
    [| |done]; cbn [mbind option_bind].
  2:{ intros [= <- _]. unfold prepare_track_to_write in Ep.
      destruct (_ && negb (malloc_ok h (data_size t))); [by injection Ep as <-|].
      cbv zeta in Ep.
      destruct (negb (interleave_factor opts =? LIBIMD_IL_AS_READ) && _);
        [|done].
      destruct (imd_apply_interleave h _ _) as [[ret t']|] eqn:Ea; [|done].
      apply imd_apply_interleave_result in Ea. cbn in Ep.
      destruct (negb (ret =? 0)); [by injection Ep as <- | done]. }
  destruct (process_sector_flags opts tw) as [fs|e] eqn:Ef.
  2:{ intros [= <- _]. revert Ef. unfold process_sector_flags.
      apply (for_range_exit_inr (fun r => r <= 0)).
      intros i s r. unfold process_sector_flag.
      destruct (_ =? IMD_SDR_UNAVAILABLE); [done|].
      destruct (is_null _ && _); [|done]. by intros [= <-]. }
  destruct (write_track_header _ tw f) as [f1|f1]; [|by intros [= <- _]].
  destruct (write_track_maps tw f1) as [f2|e] eqn:E2.
  2:{ intros [= ->]. revert E2. unfold write_track_maps.
      repeat match goal with
             | |- context [match ?x with _ => _ end] => destruct x
             | |- context [if ?x then _ else _] => destruct x
             end; intros [= <-]; done. }
  destruct (write_sector_records tw fs f2) as [f3|e] eqn:E3;
    [by intros [= <- _]|].
  intros [= ->]. revert E3. unfold write_sector_records.
  apply (for_range_exit_inr (fun e => fst e <= 0)).
  intros i s r. unfold write_sector_record.
  repeat match goal with
         | |- context [match ?x with _ => _ end] => destruct x
         | |- context [if ?x then _ else _] => destruct x
         end; intros [= <-]; done.
Qed.

Lemma rewrite_tracks_failure (h : Host) (ts : list ImdTrackInfo) :
  forall i idx opts f rc f',
    rewrite_tracks h ts i idx opts f = Some (inr (rc, f')) -> rc <> IMDF_ERR_OK.
Proof.
  induction ts as [|t ts IH]; intros i idx opts f rc f'; cbn [rewrite_tracks];
    [done|].
  destruct (negb (truthy (loaded t))); [by intros [= <- _]|].
  destruct (imd_write_track_imd h f t _) as [[res f1]|] eqn:E; [|done].
  cbn [mbind option_bind]. apply imd_write_track_imd_result in E.
  destruct (Z.eqb_spec res 0) as [->|Hres]; cbn [negb]; [apply IH|].
  intros [= <- _]. unfold map_libimd_error.
  destruct (Z.eqb_spec res 0); [done|]. destruct (Z.eqb_spec res 1); [lia|].
  repeat match goal with
         | |- (if ?c then _ else _) <> _ => destruct c; [done|]
         end.
  done.
Qed.

Lemma imd_write_file_header_settings (h : Host) (f f' : FILE) (v : list Z) :
  imd_write_file_header h f v = (0, f') -> same_settings f f'.
Proof.
  unfold imd_write_file_header. destruct (local_timestamp h); [|done].
  destruct (fwrite _ f) as [k f0] eqn:E. apply fwrite_settings in E.
  by destruct (_ <? _); intros [= <-].
Qed.

Lemma imd_write_comment_block_settings (f f' : FILE) (c : option (list Z))
    (len : Z) :
  imd_write_comment_block f c len = (0, f') -> same_settings f f'.
Proof.
  unfold imd_write_comment_block.
  assert (forall f0, same_settings f f0 ->
            match fputc LIBIMD_COMMENT_EOF_MARKER f0 with
            | Some f2 => (0, f2)
            | None => (IMD_ERR_WRITE_ERROR, f0)
            end = (0, f') -> same_settings f f') as Hend.
  { intros f0 Hs. destruct (fputc _ f0) as [f2|] eqn:E; [|done].
    intros [= <-]. apply fputc_settings in E.
    by apply (same_settings_trans _ f0). }
  destruct c as [c|]; [|apply Hend, same_settings_refl].
  destruct (len >? 0); [|apply Hend, same_settings_refl].
  destruct (write_bytes _ f) as [r f0] eqn:E.
  apply write_bytes_same_settings in E.
  destruct r; [by apply Hend | |]; done.
Qed.

(** ** The file after a rewrite of the image *)

(** Bytes written from the start of a file are its first bytes. *)
Lemma wrote_from_start (f f' : FILE) (bs : list Z) :
  wrote f f' bs -> f_pos f = 0 ->
  f_pos f' = Z.of_nat (length bs)
  /\ take (length bs) (f_content f') = bs
  /\ (length bs <= length (f_content f'))%nat.
Proof.
  intros [Hc Hp] H0. rewrite H0 in *. split; [lia|]. rewrite Hc.
  destruct bs as [|b bs]; [split; [done | cbn; lia]|].
  rewrite write_at_shape by done. change (Z.to_nat 0) with 0%nat.
  rewrite take_0. cbn [Nat.add]. rewrite app_nil_l. split.
  - apply (take_app_length (b :: bs)).
  - rewrite length_app. lia.
Qed.

(** After a successful [rewrite_image_file] the file holds the header
    line with the version of the image and the time stamp of the host,
    the comment, the end marker and the records of all the tracks, from
    its first byte on, and the stream stands at their end; when the file
    can be truncated it holds nothing else. *)
Theorem rewrite_image_file_content (h : Host) (imdf : ImdImageFile)
    (idx : Z) (opts : option ImdWriteOpts) (f0 f' : FILE) :
  file_ptr imdf = Some f0 ->
  rewrite_image_file h imdf idx opts = Some (IMDF_ERR_OK, Some f') ->
  exists timestamp,
    local_timestamp h = Some timestamp
    /\ let bs := image_bytes h imdf timestamp idx opts in
       f_pos f' = Z.of_nat (length bs)
       /\ take (length bs) (f_content f') = bs
       /\ (f_truncate_ok f0 = true -> f_content f' = bs).
Proof.
  intros Hf0 Hrun. unfold rewrite_image_file in Hrun. rewrite Hf0 in Hrun.
  unfold fseek_set in Hrun.
  destruct (f_seekable f0) eqn:Eseek; [|by injection Hrun].
  change (true && (0 <=? 0)) with true in Hrun. cbv iota in Hrun.
  set (f1 := with_pos f0 0) in Hrun.
  destruct (imd_write_file_header h f1 _) as [rc2 f2] eqn:Eh.
  destruct (imd_write_file_header_result _ _ _ _ _ Eh) as [->| ->];
    [|by injection Hrun].
  destruct (imd_write_comment_block f2 _ _) as [rc3 f3] eqn:Ec.
  destruct (imd_write_comment_block_result _ _ _ _ _ Ec) as [->| ->];
    [|by injection Hrun].
  destruct (rewrite_tracks h (tracks imdf) 0 idx opts f3) as [[f4|[rc f4]]|]
    eqn:Et; [| |done]; cbn [mbind option_bind] in Hrun.
  2:{ apply rewrite_tracks_failure in Et. by injection Hrun as -> _. }
  assert (same_settings f1 f4) as (_ & Hseek & _ & _ & _ & Htrunc).
  { apply (same_settings_trans _ f2);
      [by apply imd_write_file_header_settings in Eh|].
    apply (same_settings_trans _ f3);
      [by apply imd_write_comment_block_settings in Ec|].
    by apply rewrite_tracks_settings in Et. }
  destruct (imd_write_file_header_wrote _ _ _ _ Eh) as (ts & Hts & Hw1).
  apply imd_write_comment_block_bytes in Ec.
  apply rewrite_tracks_wrote in Et.
  pose proof (wrote_app _ _ _ _ _ Hw1 (wrote_app _ _ _ _ _ Ec Et)) as Hw.
  rewrite <- app_assoc in Hw.
  fold (image_bytes h imdf ts idx opts) in Hw.
  destruct (wrote_from_start _ _ _ Hw eq_refl) as (Hpos & Htake & Hlen).
  exists ts. split; [done|]. cbv zeta.
  set (bs := image_bytes h imdf ts idx opts) in *. clearbody bs.
  destruct (negb (fflush f4 =? 0)); [by injection Hrun|].
  assert (ftell f4 = Z.of_nat (length bs)) as Htell.
  { unfold ftell. cbn in Hseek. by rewrite Hseek, Eseek. }
  rewrite Htell in Hrun.
  destruct (Z.ltb_spec (Z.of_nat (length bs)) 0) as [|_]; [lia|].
  unfold ftruncate in Hrun. cbn in Htrunc.
  destruct (f_truncate_ok f4) eqn:Etr.
  - cbn [snd] in Hrun.
    destruct (negb (fflush _ =? 0)); [by injection Hrun|].
    injection Hrun as <-. cbn [f_pos f_content with_content].
    rewrite Nat2Z.id.
    replace (length bs - length (f_content f4))%nat with 0%nat by lia.
    cbn [replicate]. rewrite app_nil_r, Htake.
    split; [done|]. split; [|done]. by rewrite take_ge by done.
  - cbn [snd] in Hrun.
    destruct (negb (fflush f4 =? 0)); [by injection Hrun|].
    injection Hrun as <-. split; [done|]. split; [done|]. congruence.
Qed.

(** [rewrite_image_file_content] for an image of two tracks. *)
Lemma rewrite_image_file_content_witness :
  exists f' timestamp,
    file_ptr two_track_image
    = Some (file_of (image_prologue ++ one_sector_record 0 0 0xE5
                     ++ one_sector_record 1 0 0xE5))
    /\ rewrite_image_file host_ok two_track_image 0 None
       = Some (IMDF_ERR_OK, Some f')
    /\ local_timestamp host_ok = Some timestamp
    /\ let bs := image_bytes host_ok two_track_image timestamp 0 None in
       f_pos f' = Z.of_nat (length bs)
       /\ take (length bs) (f_content f') = bs
       /\ (f_truncate_ok
             (file_of (image_prologue ++ one_sector_record 0 0 0xE5
                       ++ one_sector_record 1 0 0xE5)) = true ->
           f_content f' = bs).
Proof.
  assert (exists f',
            rewrite_image_file host_ok two_track_image 0 None
            = Some (IMDF_ERR_OK, Some f')) as [f' E]
    by (eexists; vm_compute; reflexivity).
  destruct (rewrite_image_file_content host_ok two_track_image 0 None _ f'
              eq_refl E) as (ts & Hts & H).
  exists f', ts. exact (conj eq_refl (conj E (conj Hts H))).
Defined.

(** ** Reading from a stream: what every read leaves *)

Section LoopOutcome.
Context {S R : Type}.

(** A loop with exits: an invariant of the states and a property of the
    values it is left with. *)
Lemma for_range_exit_both (P : Z -> S -> Prop) (Q : R -> Prop)
    (body : Z -> S -> S + R) :
  forall count start s,
    P start s ->
    (forall i s', start <= i < start + Z.of_nat count -> P i s' ->
                  match body i s' with
                  | inl s'' => P (i + 1) s''
                  | inr r => Q r
                  end) ->
    match for_range_exit start count body s with
    | inl sf => P (start + Z.of_nat count) sf
    | inr r => Q r
    end.
Proof.
  induction count as [|k IH]; intros start s Hs Hstep; cbn [for_range_exit].
  - by replace (start + Z.of_nat 0) with start by lia.
  - pose proof (Hstep start s ltac:(lia) Hs) as H1.
    destruct (body start s) as [s1|r]; [|done].
    replace (start + Z.of_nat (Datatypes.S k)) with (start + 1 + Z.of_nat k)
      by lia.
    apply IH; [done|]. intros i s' Hi. apply Hstep. lia.
Qed.

End LoopOutcome.

Lemma fgetc_seekable (f f' : FILE) (r : getc_result) :
  fgetc f = (r, f') ->
  f_seekable f' = f_seekable f /\ f_read_fault f' = f_read_fault f.
Proof.
  unfold fgetc. destruct (read_faults f (f_pos f)); [by intros [= _ <-]|].
  destruct (f_content f !! _); [|by intros [= _ <-]].
  by destruct (f_pos f <? 0); intros [= _ <-].
Qed.

(** The three outcomes of [read_byte]. *)
Lemma read_byte_outcome (f f' : FILE) (rc b : Z) :
  read_byte f = (rc, b, f') ->
  f_content f' = f_content f /\ f_seekable f' = f_seekable f
  /\ f_read_fault f' = f_read_fault f
  /\ ((rc = 1 /\ is_byte b /\ f_pos f' = f_pos f + 1 /\ 0 <= f_pos f
       /\ exists raw, f_content f !! Z.to_nat (f_pos f) = Some raw
                      /\ b = u8 raw)
      \/ (rc = 0 /\ f_pos f' = f_pos f
          /\ (f_pos f < 0 \/ Z.of_nat (length (f_content f)) <= f_pos f))
      \/ (rc = IMD_ERR_READ_ERROR /\ f_pos f' = f_pos f)).
Proof.
  unfold read_byte. destruct (fgetc f) as [r f1] eqn:E.
  pose proof (fgetc_content _ _ _ E) as Hc.
  pose proof (fgetc_seekable _ _ _ E) as [Hs Hf].
  pose proof (fgetc_pos _ _ _ E) as Hp.
  destruct r as [raw| |]; intros [= <- <- <-]; split_and!; try done.
  - left. destruct Hp as [Hr Hp].
    assert (is_byte (u8 raw))
      by (unfold is_byte, u8; pose proof (Z.mod_pos_bound raw 256); lia).
    split_and!; try done; try lia. exists raw. split; [|done].
    unfold fgetc in E. destruct (read_faults f (f_pos f)); [done|].
    destruct (f_content f !! Z.to_nat (f_pos f)) as [x|]; [|done].
    destruct (f_pos f <? 0); [done|]. by injection E as ->.
  - right. left. split; [done|]. split; [done|].
    unfold fgetc in E. destruct (read_faults f (f_pos f)); [done|].
    destruct (f_content f !! Z.to_nat (f_pos f)) as [x|] eqn:El.
    + destruct (Z.ltb_spec (f_pos f) 0); [by left | done].
    + apply lookup_ge_None in El.
      destruct (Z.lt_ge_cases (f_pos f) 0); [by left|]. right. lia.
  - right. right. done.
Qed.

Lemma read_on_refl (f : FILE) : read_on f f.
Proof. by repeat split. Qed.

Lemma read_on_trans (f f1 f2 : FILE) :
  read_on f f1 -> read_on f1 f2 -> read_on f f2.
Proof.
  intros (? & ? & ?) (? & ? & ?). unfold read_on. split_and!; congruence.
Qed.

Lemma read_on_clearerr (f : FILE) : read_on f (clearerr f).
Proof. by repeat split. Qed.


Lemma read_byte_read_on (f f' : FILE) (rc b : Z) :
  read_byte f = (rc, b, f') -> read_on f f'.
Proof. intros H. by apply read_byte_outcome in H as (? & ? & ? & _). Qed.

(** [fseek] back to an offset on a stream that can seek. *)
Lemma seek_back_restores (f0 f : FILE) (p : Z) :
  read_on f0 f -> f_seekable f0 = true -> 0 <= p ->
  read_on f0 (seek_back f p) /\ f_pos (seek_back f p) = p.
Proof.
  intros (Hc & Hs & Hf) Hseek Hp. unfold seek_back, fseek_set.
  rewrite Hs, Hseek. destruct (Z.leb_spec 0 p); [|lia]. cbn. by repeat split.
Qed.

(** [fread]: the bytes obtained are the next bytes of the file. *)
Lemma fread_outcome (size : nat) :
  forall f bs f',
    fread size f = (bs, f') ->
    read_on f f' /\ f_pos f' = f_pos f + Z.of_nat (length bs)
    /\ (length bs <= size)%nat
    /\ bs = buf_read (f_content f) (f_pos f) (Z.of_nat (length bs)).
Proof.
  induction size as [|k IH]; intros f bs f'; cbn [fread].
  - intros [= <- <-]. split; [apply read_on_refl|]. cbn. split; [lia|].
    split; [lia|]. by unfold buf_read.
  - destruct (fgetc f) as [r f1] eqn:E.
    pose proof (fgetc_content _ _ _ E) as Hc.
    pose proof (fgetc_seekable _ _ _ E) as [Hs Hf].
    pose proof (fgetc_pos _ _ _ E) as Hp.
    assert (read_on f f1) as Hon by done.
    destruct r as [b| |].
    + destruct (fread k f1) as [bs1 f2] eqn:E2. intros [= <- <-].
      apply IH in E2 as (Hon2 & Hp2 & Hl2 & Hb2). destruct Hp as [Hr Hp].
      split; [by apply (read_on_trans _ f1)|]. cbn [length].
      split; [lia|]. split; [lia|].
      assert (f_content f !! Z.to_nat (f_pos f) = Some b) as Hb.
      { unfold fgetc in E. destruct (read_faults f (f_pos f)); [done|].
        destruct (f_content f !! Z.to_nat (f_pos f)) as [x|]; [|done].
        destruct (f_pos f <? 0); [done|]. by injection E as ->. }
      unfold buf_read in *. rewrite (drop_S _ _ _ Hb).
      rewrite Nat2Z.id in *. cbn [take]. f_equal.
      rewrite Hb2 at 1. rewrite Hc, Hp.
      by replace (Z.to_nat (f_pos f + 1)) with (Datatypes.S (Z.to_nat (f_pos f)))
        by lia.
    + intros [= <- <-]. split; [done|]. cbn. split; [lia|]. split; [lia|].
      by unfold buf_read.
    + intros [= <- <-]. split; [done|]. cbn. split; [lia|]. split; [lia|].
      by unfold buf_read.
Qed.

Lemma read_bytes_outcome (size : Z) (f f' : FILE) (bs : list Z) :
  read_bytes size f = (bs, f') ->
  read_on f f' /\ f_pos f' = f_pos f + Z.of_nat (length bs)
  /\ (Z.of_nat (length bs) <= Z.max 0 size)
  /\ bs = buf_read (f_content f) (f_pos f) (Z.of_nat (length bs)).
Proof.
  unfold read_bytes. destruct (size =? 0).
  - intros [= <- <-]. split; [apply read_on_refl|]. cbn. split; [lia|].
    split; [lia|]. by unfold buf_read.
  - intros H. apply fread_outcome in H as (? & ? & ? & ?).
    split_and!; try done. lia.
Qed.

(** The header bytes: five bytes, or an early return that leaves the
    stream where it was. *)
Lemma read_header_rest_outcome (k : nat) :
  forall f0 f got start_pos,
    read_on f0 f -> f_seekable f0 = true -> 0 <= start_pos ->
    Forall is_byte got ->
    match read_header_rest k f got start_pos with
    | inl (got', f1) =>
        read_on f0 f1 /\ f_pos f1 = f_pos f + Z.of_nat k
        /\ Forall is_byte got' /\ length got' = (length got + k)%nat
    | inr (rc, f1, _) =>
        rc = IMD_ERR_READ_ERROR /\ read_on f0 f1 /\ f_pos f1 = start_pos
    end.
Proof.
  induction k as [|k IH]; intros f0 f got start_pos Hon Hseek Hstart Hgot;
    cbn [read_header_rest].
  - split; [done|]. split; [lia|]. split; [done|]. lia.
  - destruct (read_byte f) as [[rc b] f1] eqn:E.
    pose proof (read_byte_read_on _ _ _ _ E) as Hon1.
    apply read_byte_outcome in E as (_ & _ & _ & E).
    assert (read_on f0 f1) as Hon01 by (by apply (read_on_trans _ f)).
    destruct E as [(-> & Hb & Hp & _)|[(-> & _)|(-> & _)]].
    + pose proof (IH f0 f1 (got ++ [b]) start_pos Hon01 Hseek Hstart) as H.
      destruct (read_header_rest k f1 (got ++ [b]) start_pos)
        as [[got' f2]|[[rc f2] g]].
      * destruct H as (? & ? & ? & Hl);
          [apply Forall_app; split; [done | by constructor]|].
        rewrite length_app in Hl. cbn in Hl. split_and!; try done; lia.
      * apply H. apply Forall_app. split; [done | by constructor].
    + split; [done|]. by apply seek_back_restores.
    + split; [done|]. by apply seek_back_restores.
Qed.

Lemma read_track_header_bytes_outcome (f0 f : FILE) :
  read_on f0 f -> f_seekable f0 = true -> 0 <= f_pos f ->
  match read_track_header_bytes f (f_pos f) with
  | inl (got, f1) =>
      read_on f0 f1 /\ f_pos f1 = f_pos f + 5
      /\ Forall is_byte got /\ length got = 5%nat
  | inr (rc, f1, _) =>
      read_on f0 f1 /\ f_pos f1 = f_pos f
      /\ (rc = IMD_ERR_READ_ERROR \/ (rc = 0 /\ at_end f))
  end.
Proof.
  intros Hon Hseek Hpos. unfold read_track_header_bytes.
  destruct (read_byte f) as [[rc b] f1] eqn:E.
  pose proof (read_byte_read_on _ _ _ _ E) as Hon1.
  apply read_byte_outcome in E as (_ & _ & _ & E).
  assert (read_on f0 f1) as Hon01 by (by apply (read_on_trans _ f)).
  destruct E as [(-> & Hb & Hp & _)|[(-> & Hp & Hend)|(-> & Hp)]].
  - pose proof (read_header_rest_outcome 4 f0 f1 [b] (f_pos f) Hon01 Hseek Hpos)
      as H.
    destruct (read_header_rest 4 f1 [b] (f_pos f)) as [[got' f2]|[[rc f2] g]].
    + destruct H as (? & ? & ? & ?); [constructor; [done | constructor]|].
      split_and!; try done. lia.
    + destruct H as (-> & ? & ?); [constructor; [done | constructor]|].
      split_and!; try done. by left.
  - change (0 <? 0) with false. cbv iota. split_and!; try done.
    right. split; [done|]. unfold at_end. lia.
  - change (IMD_ERR_READ_ERROR <? 0) with true. cbv iota.
    destruct (seek_back_restores f0 f1 (f_pos f) Hon01 Hseek Hpos).
    split_and!; try done. by left.
Qed.

(** ** The header, the maps and the buffer of a track that is read *)

Lemma land_byte (x m : Z) : is_byte x -> 0 <= m -> is_byte (Z.land x m).
Proof.
  intros [Hx0 Hx] Hm. split; [apply Z.land_nonneg; by left|].
  destruct (Z.eq_dec (Z.land x m) 0) as [->|Hne]; [lia|].
  assert (0 < Z.land x m) as Hpos.
  { assert (0 <= Z.land x m) by (apply Z.land_nonneg; by left). lia. }
  assert (0 < x) as Hxpos.
  { destruct (Z.eq_dec x 0) as [->|]; [by rewrite Z.land_0_l in Hne | lia]. }
  assert (Z.land x m < 2 ^ 8); [|lia].
  apply Z.log2_lt_pow2; [done|].
  pose proof (Z.log2_land x m Hx0 Hm).
  assert (Z.log2 x < 8) by (apply Z.log2_lt_pow2; lia). lia.
Qed.

Lemma zero_array_bytes : byte_array zero_array.
Proof.
  split; [apply zero_array_length|].
  apply Forall_replicate. unfold is_byte. lia.
Qed.

Lemma header_field_byte (got : list Z) (k : nat) :
  Forall is_byte got ->
  is_byte (match got !! k with Some b => b | None => 0 end).
Proof.
  intros H. destruct (got !! k) as [b|] eqn:E.
  - exact (proj1 (Forall_lookup _ _) H _ _ E).
  - unfold is_byte. lia.
Qed.

Lemma header_fields_wf (got : list Z) :
  Forall is_byte got ->
  wf_track (header_fields got) /\ data (header_fields got) = None
  /\ data_size (header_fields got) = 0.
Proof.
  intros H. split; [|done].
  constructor; cbn; try apply header_field_byte; try apply zero_array_bytes;
    try done; try lia.
  - apply land_byte; [by apply header_field_byte|]. by vm_compute.
  - apply land_byte; [by apply header_field_byte|]. by vm_compute.
Qed.

Lemma sector_size_lookup_range (code : Z) :
  code < SECTOR_SIZE_LOOKUP_COUNT ->
  0 < arr_get SECTOR_SIZE_LOOKUP code <= LIBIMD_MAX_SECTOR_SIZE.
Proof.
  intros H. unfold arr_get.
  destruct (Z.to_nat code) as [|[|[|[|[|[|[|n]]]]]]] eqn:E;
    first [by vm_compute | unfold SECTOR_SIZE_LOOKUP_COUNT in H; lia].
Qed.

(** A header that passes the validation: the fields are kept, the sector
    size is the one of the table. *)
Lemma validate_track_header_outcome (t : ImdTrackInfo) :
  wf_track t -> data t = None ->
  match validate_track_header t with
  | inl t' =>
      wf_track t' /\ data t' = None /\ data_size t' = data_size t
      /\ mode t' = mode t /\ cyl t' = cyl t /\ head t' = head t
      /\ hflag t' = hflag t /\ num_sectors t' = num_sectors t
      /\ sector_size_code t' = sector_size_code t
      /\ smap t' = smap t /\ cmap t' = cmap t /\ hmap t' = hmap t
      /\ sflag t' = sflag t
      /\ mode t < LIBIMD_NUM_MODES /\ head t <= 1
      /\ sector_size_code t < SECTOR_SIZE_LOOKUP_COUNT
      /\ sector_size t' = arr_get SECTOR_SIZE_LOOKUP (sector_size_code t)
      /\ 0 < sector_size t' <= LIBIMD_MAX_SECTOR_SIZE
  | inr t' => data t' = None
  end.
Proof.
  intros Hwf Hd. unfold validate_track_header.
  destruct (Z.geb_spec (mode t) LIBIMD_NUM_MODES) as [|Hm]; [done|].
  destruct (Z.gtb_spec (head t) 1) as [|Hh]; [done|].
  destruct (Z.geb_spec (sector_size_code t) SECTOR_SIZE_LOOKUP_COUNT) as [|Hc];
    [done|].
  cbn [orb]. pose proof (sector_size_lookup_range _ Hc) as Hr.
  cbn [sector_size set_sector_size set_header].
  destruct (Z.eqb_spec (arr_get SECTOR_SIZE_LOOKUP (sector_size_code t)) 0);
    [done|].
  split; [|split_and!; cbn; try done; lia].
  destruct Hwf. constructor; cbn; try done.
  unfold LIBIMD_MAX_SECTOR_SIZE in Hr. lia.
Qed.

Lemma memcpy_arr_bytes (bs : list Z) :
  Forall is_byte bs -> (length bs <= 256)%nat ->
  byte_array (memcpy_arr zero_array bs (Z.of_nat (length bs))).
Proof.
  intros Hb Hl. unfold memcpy_arr. rewrite Nat2Z.id. split.
  - rewrite length_app, length_take, length_drop, zero_array_length. lia.
  - apply Forall_app. split; [by apply Forall_take|].
    apply Forall_drop, zero_array_bytes.
Qed.

Lemma memset_arr_bytes (c n : Z) :
  is_byte c -> 0 <= n <= 256 -> byte_array (memset_arr zero_array c n).
Proof.
  intros Hc Hn. unfold memset_arr. split.
  - rewrite length_app, length_replicate, length_drop, zero_array_length. lia.
  - apply Forall_app. split; [by apply Forall_replicate|].
    apply Forall_drop, zero_array_bytes.
Qed.

Lemma read_map_outcome (present : bool) (n : Z) (absent : list Z)
    (f f' : FILE) (m : list Z) (ok : bool) :
  read_map present n absent f = (m, ok, f') ->
  Forall is_byte (f_content f) -> byte_array absent -> 0 <= n <= 256 ->
  read_on f f' /\ f_pos f <= f_pos f' /\ byte_array m.
Proof.
  unfold read_map. destruct present.
  - destruct (read_bytes n f) as [bs f1] eqn:E. intros [= <- _ <-] Hc _ Hn.
    apply read_bytes_outcome in E as (Hon & Hp & Hl & Hb).
    split; [done|]. split; [lia|]. apply memcpy_arr_bytes; [|lia].
    rewrite Hb. by apply buf_read_bytes.
  - intros [= <- _ <-] _ Ha _. split; [apply read_on_refl|]. split; [lia|done].
Qed.

(** The maps: the track keeps its header and its buffer. *)
Lemma read_track_maps_outcome (t t2 : ImdTrackInfo) (synthesize ok : bool)
    (f f2 : FILE) :
  read_track_maps t synthesize f = (t2, ok, f2) ->
  wf_track t -> Forall is_byte (f_content f) ->
  read_on f f2 /\ f_pos f <= f_pos f2
  /\ wf_track t2 /\ same_header t t2 /\ data t2 = data t /\ sflag t2 = sflag t.
Proof.
  intros Hrun Hwf Hc. unfold read_track_maps in Hrun.
  assert (same_header t t /\ data t = data t /\ sflag t = sflag t) as Hsame
    by (by repeat split).
  destruct (Z.gtb_spec (num_sectors t) 0) as [Hn|Hn].
  2:{ injection Hrun as <- _ <-. split; [apply read_on_refl|]. split; [lia|].
      by split. }
  pose proof (wf_num_sectors _ Hwf) as Hnb. unfold is_byte in Hnb.
  pose proof (wf_cyl _ Hwf) as Hcb. pose proof (wf_head _ Hwf) as Hhb.
  assert (forall sm cm hm,
            byte_array sm -> byte_array cm -> byte_array hm ->
            wf_track (with_maps t sm cm hm (sflag t) (data t))) as Hwith.
  { intros sm cm hm ? ? ?. destruct Hwf. constructor; cbn; done. }
  destruct (read_map true (num_sectors t) zero_array f) as [[sm ok1] f1] eqn:E1.
  apply read_map_outcome in E1 as (Hon1 & Hp1 & Hsm);
    [|done|apply zero_array_bytes|lia].
  destruct ok1; cbn [negb] in Hrun.
  2:{ injection Hrun as <- _ <-. split_and!; try done.
      apply Hwith; [done|apply Hwf|apply Hwf]. }
  assert (Forall is_byte (f_content f1)) as Hc1
    by (destruct Hon1 as (-> & _); done).
  destruct (read_map _ (num_sectors t) _ f1) as [[cm ok2] f2'] eqn:E2.
  apply read_map_outcome in E2 as (Hon2 & Hp2 & Hcm); [|done| |lia].
  2:{ destruct synthesize; [apply memset_arr_bytes; [done|lia]
                           | apply zero_array_bytes]. }
  destruct ok2; cbn [negb] in Hrun.
  2:{ injection Hrun as <- _ <-. split_and!; try done.
      - by apply (read_on_trans _ f1).
      - lia.
      - apply Hwith; [done|done|apply Hwf]. }
  assert (Forall is_byte (f_content f2')) as Hc2
    by (destruct Hon2 as (-> & _); done).
  destruct (read_map _ (num_sectors t) _ f2') as [[hm ok3] f3] eqn:E3.
  apply read_map_outcome in E3 as (Hon3 & Hp3 & Hhm); [|done| |lia].
  2:{ destruct synthesize; [apply memset_arr_bytes; [done|lia]
                           | apply zero_array_bytes]. }
  injection Hrun as <- _ <-. split_and!; try done.
  - apply (read_on_trans _ f1); [done|]. by apply (read_on_trans _ f2').
  - lia.
  - by apply Hwith.
Qed.

(** The allocation of the buffer of a validated track. *)
Lemma imd_alloc_track_data_outcome (h : Host) (t t3 : ImdTrackInfo) (rc : Z) :
  imd_alloc_track_data h t = (rc, t3) ->
  wf_track t -> data t = None ->
  sector_size_code t < SECTOR_SIZE_LOOKUP_COUNT ->
  sector_size t = arr_get SECTOR_SIZE_LOOKUP (sector_size_code t) ->
  same_header (set_buffer t None (data_size t3) (loaded t)) t3
  /\ smap t3 = smap t /\ cmap t3 = cmap t /\ hmap t3 = hmap t
  /\ sflag t3 = sflag t
  /\ ((rc = 0 /\ data_size t3 = num_sectors t * sector_size t
       /\ ((num_sectors t = 0 /\ data t3 = None)
           \/ (num_sectors t <> 0
               /\ data t3 = Some (replicate (Z.to_nat (num_sectors t
                                                       * sector_size t)) 0))))
      \/ (rc = IMD_ERR_ALLOC /\ data t3 = None)).
Proof.
  intros Hrun Hwf Hd Hcode Hsize. unfold imd_alloc_track_data in Hrun.
  rewrite Hd in Hrun. cbn [is_null negb] in Hrun.
  unfold imd_get_sector_size in Hrun.
  destruct (Z.geb_spec (sector_size_code t) SECTOR_SIZE_LOOKUP_COUNT); [lia|].
  rewrite <- Hsize in Hrun.
  pose proof (sector_size_lookup_range _ Hcode) as Hr. rewrite <- Hsize in Hr.
  destruct (Z.eqb_spec (sector_size t) 0); [lia|].
  cbn [num_sectors set_sector_size set_header] in Hrun.
  destruct (Z.eqb_spec (num_sectors t) 0) as [Hn|Hn].
  - injection Hrun as <- <-. split; [by repeat split|].
    split_and!; try done. left. cbn. split; [done|]. split; [lia|]. by left.
  - destruct (negb (malloc_ok h _)); injection Hrun as <- <-.
    + split; [by repeat split|]. split_and!; try done. right. by cbn.
    + split; [by repeat split|]. split_and!; try done. left. cbn.
      split; [done|]. split; [done|]. by right.
Qed.

(** ** The sector loop of [imd_load_track] *)

Lemma load_fail_outcome (f0 f : FILE) (t : ImdTrackInfo) (start : Z) :
  read_on f0 f -> f_seekable f0 = true -> 0 <= start ->
  read_on f0 (seek_back f start) /\ f_pos (seek_back f start) = start
  /\ data (imd_free_track_data t) = None.
Proof.
  intros Hon Hseek Hstart.
  destruct (seek_back_restores f0 f start Hon Hseek Hstart) as [H1 H2].
  split_and!; try done. unfold imd_free_track_data.
  by destruct (data t) eqn:E; cbn.
Qed.

Lemma loading_store (f0 f f1 : FILE) (p n i off sector_type : Z)
    (t : ImdTrackInfo) (bytes : list Z) :
  loading f0 p n i (f, t, off) -> read_on f0 f1 -> p <= f_pos f1 ->
  0 <= i < n -> is_byte sector_type -> Forall is_byte bytes ->
  Z.of_nat (length bytes) = sector_size t ->
  let t1 := with_sflag t (arr_set (sflag t) i sector_type) in
  loading f0 p n (i + 1)
    (f1,
     with_data t1
       (Some (buf_write (match data t1 with Some d => d | None => [] end)
                off bytes)),
     off + sector_size t1).
Proof.
  intros (Hon & Hp & (Hwf & Hv) & Hn & Hs & Hds & Hoff & d & Hd & Hl & Hb)
    Hon1 Hp1 Hi Hty Hbytes Hlen t1.
  unfold loading. cbn [t1 with_data with_sflag with_maps data sector_size
    num_sectors data_size]. rewrite Hd.
  split_and!; try done; try lia.
  - destruct Hwf. constructor; cbn; try done. by apply arr_set_bytes.
  - exists (buf_write d off bytes). split; [done|].
    split; [|by apply buf_write_bytes].
    rewrite buf_write_length; [done|nia|]. rewrite Hlen, Hl, Hds. nia.
Qed.

Lemma IMD_SDR_HAS_DATA_byte (ty : Z) :
  IMD_SDR_HAS_DATA ty = true -> is_byte ty.
Proof. unfold IMD_SDR_HAS_DATA, is_byte. lia. Qed.

Lemma load_sector_step (fill start p n i : Z) (f0 : FILE)
    (st : FILE * ImdTrackInfo * Z) :
  is_byte fill -> f_seekable f0 = true -> 0 <= start ->
  Forall is_byte (f_content f0) -> 0 <= i < n ->
  loading f0 p n i st ->
  match load_sector fill start i st with
  | inl st' => loading f0 p n (i + 1) st'
  | inr (rc, f', t') =>
      rc = IMD_ERR_READ_ERROR /\ read_on f0 f' /\ f_pos f' = start
      /\ data t' = None
  end.
Proof.
  intros Hfill Hseek Hstart Hc Hi Hinv. destruct st as [[f t] off].
  pose proof Hinv as (Hon & Hp & (Hwf & Hv) & Hn & Hs & Hds & Hoff & d & Hd & Hl & Hb).
  unfold load_sector.
  destruct (read_byte f) as [[rc ty] f1] eqn:E1.
  pose proof (read_byte_read_on _ _ _ _ E1) as Hon1.
  apply read_byte_outcome in E1 as (_ & _ & _ & E1).
  assert (read_on f0 f1) as Hon01 by (by apply (read_on_trans _ f)).
  destruct E1 as [(-> & Hty & Hp1 & _)|[(-> & _)|(-> & _)]].
  2,3: by (split; [done|]; apply load_fail_outcome).
  cbv beta iota zeta.
  destruct (IMD_SDR_HAS_DATA ty) eqn:Ehas.
  - destruct (IMD_SDR_IS_COMPRESSED ty) eqn:Ecomp.
    + destruct (read_byte f1) as [[rc2 fv] f2] eqn:E2.
      pose proof (read_byte_read_on _ _ _ _ E2) as Hon2.
      apply read_byte_outcome in E2 as (_ & _ & _ & E2).
      assert (read_on f0 f2) as Hon02 by (by apply (read_on_trans _ f1)).
      destruct E2 as [(-> & Hfv & Hp2 & _)|[(-> & _)|(-> & _)]].
      2,3: by (split; [done|]; apply load_fail_outcome).
      apply (loading_store f0 f); try done; try lia.
      * by apply Forall_replicate.
      * rewrite length_replicate. cbn. lia.
    + cbn [with_sflag with_maps sector_size].
      destruct (Z.gtb_spec (sector_size t) LIBIMD_MAX_SECTOR_SIZE) as [|_];
        [lia|].
      destruct (read_bytes (sector_size t) f1) as [bytes f2] eqn:E2.
      apply read_bytes_outcome in E2 as (Hon2 & Hp2 & Hl2 & Hb2).
      assert (read_on f0 f2) as Hon02 by (by apply (read_on_trans _ f1)).
      destruct (Z.eqb_spec (Z.of_nat (length bytes)) (sector_size t)) as [He|He];
        cbn [negb].
      * apply (loading_store f0 f); try done; try lia.
        rewrite Hb2. apply buf_read_bytes. destruct Hon01 as (-> & _). done.
      * split; [done|]. by apply load_fail_outcome.
  - destruct (Z.eqb_spec ty IMD_SDR_UNAVAILABLE) as [->|Hne].
    + apply (loading_store f0 f); try done; try lia.
      * by apply Forall_replicate.
      * rewrite length_replicate. cbn. lia.
    + split; [done|]. by apply load_fail_outcome.
Qed.

Lemma load_sectors_outcome (fill start p : Z) (f0 f : FILE)
    (t : ImdTrackInfo) :
  is_byte fill -> f_seekable f0 = true -> 0 <= start ->
  Forall is_byte (f_content f0) ->
  loading f0 p (num_sectors t) 0 (f, t, 0) ->
  match for_range_exit 0 (Z.to_nat (num_sectors t))
          (load_sector fill start) (f, t, 0) with
  | inl st' => loading f0 p (num_sectors t) (num_sectors t) st'
  | inr (rc, f', t') =>
      rc = IMD_ERR_READ_ERROR /\ read_on f0 f' /\ f_pos f' = start
      /\ data t' = None
  end.
Proof.
  intros Hfill Hseek Hstart Hc Hinv.
  pose proof Hinv as (_ & _ & (Hwf & _) & _).
  pose proof (wf_num_sectors _ Hwf) as Hnb. unfold is_byte in Hnb.
  pose proof (for_range_exit_both
    (fun i st => loading f0 p (num_sectors t) i st)
    (fun r : Z * FILE * ImdTrackInfo =>
       let '(rc, f', t') := r in
       rc = IMD_ERR_READ_ERROR /\ read_on f0 f' /\ f_pos f' = start
       /\ data t' = None)
    (load_sector fill start) (Z.to_nat (num_sectors t)) 0 (f, t, 0) Hinv) as H.
  replace (0 + Z.of_nat (Z.to_nat (num_sectors t))) with (num_sectors t) in H
    by lia.
  apply H. intros i st' Hi Hst.
  pose proof (load_sector_step fill start p (num_sectors t) i f0 st'
                Hfill Hseek Hstart Hc Hi Hst) as Hstep.
  by destruct (load_sector fill start i st') as [st''|[[rc f'] t']].
Qed.

(** ** [imd_load_track]: what every call leaves *)

Lemma header_fields_partial_no_buffer (got : list Z) :
  data (header_fields_partial got) = None.
Proof. done. Qed.

Lemma header_fields_hflag (got : list Z) :
  Z.land (hflag (header_fields got)) IMD_HFLAG_HEAD_MASK = 0.
Proof.
  cbn [header_fields set_header hflag]. rewrite <- Z.land_assoc.
  change (Z.land IMD_HFLAG_MASK IMD_HFLAG_HEAD_MASK) with 0.
  apply Z.land_0_r.
Qed.

Lemma loaded_of_loading (f0 f : FILE) (p : Z) (t : ImdTrackInfo) (off : Z) :
  loading f0 p (num_sectors t) (num_sectors t) (f, t, off) ->
  loaded_track (set_buffer t (data t) (data_size t) 1)
  /\ valid_header (set_buffer t (data t) (data_size t) 1).
Proof.
  intros (Hon & Hp & (Hwf & Hv) & Hn & Hs & Hds & Hoff & d & Hd & Hl & Hb).
  split; [|done].
  constructor; cbn [set_buffer loaded sector_size data_size num_sectors data];
    try done; try lia.
  - destruct Hwf. constructor; cbn; done.
  - by rewrite Hd.
Qed.

(** The three ways a call on a seekable stream ends. *)
Lemma load_track_cases (h : Host) (f f' : FILE)
    (track t' : ImdTrackInfo) (fill_byte rc : Z) :
  f_seekable f = true -> 0 <= f_pos f -> Forall is_byte (f_content f) ->
  is_byte fill_byte ->
  imd_load_track h f track fill_byte = (rc, f', t') ->
  read_on f f'
  /\ ((rc = 1 /\ loaded_track t' /\ valid_header t'
       /\ f_pos f + 5 <= f_pos f')
      \/ (rc = 0 /\ at_end f /\ f_pos f' = f_pos f /\ data t' = None)
      \/ ((rc = IMD_ERR_READ_ERROR \/ rc = IMD_ERR_ALLOC)
          /\ f_pos f' = f_pos f /\ data t' = None)).
Proof.
  intros Hseek Hpos Hc Hfill Hrun. unfold imd_load_track, ftell in Hrun.
  rewrite Hseek in Hrun.
  destruct (Z.ltb_spec (f_pos f) 0) as [|_]; [lia|].
  pose proof (read_track_header_bytes_outcome f (clearerr f)
                (read_on_clearerr f) Hseek Hpos) as Hhdr.
  change (f_pos (clearerr f)) with (f_pos f) in Hhdr.
  destruct (read_track_header_bytes (clearerr f) (f_pos f))
    as [[got f1]|[[rc0 f0] got]].
  2:{ injection Hrun as <- <- <-. destruct Hhdr as (Hon & Hp & Hrc).
      split; [done|]. destruct Hrc as [->|[-> Hend]].
      - right. right. split_and!; try done. by left.
      - right. left. split_and!; try done. }
  destruct Hhdr as (Hon1 & Hp1 & Hgot & Hlen).
  pose proof (header_fields_wf got Hgot) as (Hwf0 & Hd0 & Hds0).
  pose proof (validate_track_header_outcome _ Hwf0 Hd0) as Hval.
  assert (forall fx, read_on f fx ->
            read_on f (seek_back fx (f_pos f))
            /\ f_pos (seek_back fx (f_pos f)) = f_pos f) as Hback.
  { intros fx Hx. by apply seek_back_restores. }
  destruct (validate_track_header (header_fields got)) as [t1|t1].
  2:{ injection Hrun as <- <- <-. destruct (Hback f1 Hon1).
      split; [done|]. right. right. split_and!; try done. by left. }
  destruct Hval as (Hwf1 & Hd1 & Hds1 & Hm1 & Hc1 & Hh1 & Hf1 & Hn1 & Hsc1
                    & _ & _ & _ & _ & Hmode & Hhead & Hcode & Hsize & Hrange).
  destruct (Z.gtb_spec (num_sectors t1) LIBIMD_MAX_SECTORS_PER_TRACK).
  { injection Hrun as <- <- <-. destruct (Hback f1 Hon1).
    split; [done|]. right. right. split_and!; try done. by left. }
  assert (Forall is_byte (f_content f1)) as Hcf1
    by (destruct Hon1 as (-> & _); done).
  destruct (read_track_maps t1 true f1) as [[t2 ok] f2] eqn:Emaps.
  apply read_track_maps_outcome in Emaps
    as (Hon2 & Hp2 & Hwf2 & Hsame2 & Hd2 & Hsf2); [|done|done].
  assert (read_on f f2) as Hon02 by (by apply (read_on_trans _ f1)).
  destruct Hsame2 as (Hm2 & Hc2 & Hh2 & Hf2 & Hn2 & Hsc2 & Hss2 & Hds2 & Hld2).
  destruct ok.
  2:{ injection Hrun as <- <- <-. destruct (Hback f2 Hon02).
      split; [done|]. right. right. split_and!; try done.
      - by left.
      - congruence. }
  destruct (imd_alloc_track_data h t2) as [rc3 t3] eqn:Ealloc.
  apply imd_alloc_track_data_outcome in Ealloc
    as (Hsame3 & Hsm3 & Hcm3 & Hhm3 & Hsf3 & Hres); [|done|congruence| |].
  2:{ by rewrite Hsc2, Hsc1. }
  2:{ rewrite Hss2, Hsc2, Hsize. by rewrite Hsc1. }
  destruct Hsame3 as (Hm3 & Hc3 & Hh3 & Hf3 & Hn3 & Hsc3 & Hss3 & Hds3 & Hld3).
  cbn [set_buffer mode cyl head hflag num_sectors sector_size_code sector_size
       data_size loaded] in Hm3, Hc3, Hh3, Hf3, Hn3, Hsc3, Hss3, Hds3, Hld3.
  destruct Hres as [(-> & Hsize3 & Hbuf)|(-> & Hnone)].
  2:{ injection Hrun as <- <- <-. destruct (Hback f2 Hon02).
      split; [done|]. right. right. split_and!; try done. by right. }
  pose proof (wf_num_sectors _ Hwf2) as Hnb. unfold is_byte in Hnb.
  assert (wf_track t3 /\ valid_header t3) as [Hwf3 Hv3].
  { split.
    - destruct Hwf2. constructor; try congruence. rewrite Hsize3. nia.
    - unfold valid_header. rewrite Hm3, Hm2, Hh3, Hh2, Hsc3, Hsc2, Hss3, Hss2.
      rewrite Hf3, Hf2, Hm1, Hh1, Hsc1, Hf1. split_and!; try done.
      apply header_fields_hflag. }
  destruct (Z.eqb_spec (num_sectors t3) 0) as [Hz|Hnz].
  { injection Hrun as <- <- <-. split; [done|]. left.
    split; [done|]. split; [|split; [done|lia]].
    constructor; cbn [set_buffer loaded sector_size data_size num_sectors data];
      try done; try lia.
    - destruct Hwf3. constructor; cbn; done.
    - destruct Hbuf as [(_ & ->)|(Hne & _)]; [done|congruence]. }
  destruct Hbuf as [(Hz & _)|(_ & Hbuf)]; [congruence|].
  rewrite Hbuf in Hrun. cbn [is_null] in Hrun.
  assert (loading f (f_pos f + 5) (num_sectors t3) 0 (f2, t3, 0)) as Hinit.
  { unfold loading. split; [done|]. split; [lia|]. split; [done|].
    split; [done|]. split; [lia|]. split; [rewrite Hsize3; congruence|].
    split; [lia|]. eexists. split; [done|]. rewrite length_replicate.
    split; [|apply Forall_replicate; unfold is_byte; lia].
    rewrite Hsize3. nia. }
  pose proof (load_sectors_outcome fill_byte (f_pos f) (f_pos f + 5) f f2 t3
                Hfill Hseek Hpos Hc Hinit) as Hloop.
  destruct (for_range_exit 0 (Z.to_nat (num_sectors t3))
              (load_sector fill_byte (f_pos f)) (f2, t3, 0))
    as [[[f3 t4] off]|[[rc4 f4] t4]].
  - injection Hrun as <- <- <-.
    pose proof Hloop as (Hon3 & Hp3 & _ & Hn4 & _).
    rewrite <- Hn4 in Hloop. apply loaded_of_loading in Hloop as [Hl Hv].
    split; [done|]. left. by split_and!.
  - injection Hrun as <- <- <-.
    destruct Hloop as (-> & Hon4 & Hp4 & Hd4).
    split; [done|]. right. right. split_and!; try done. by left.
Qed.

(** ** [imd_load_track]: the four ways a call ends *)

Lemma load_track_started (h : Host) (f f' : FILE) (track t' : ImdTrackInfo)
    (fill_byte rc : Z) :
  imd_load_track h f track fill_byte = (rc, f', t') ->
  (f_seekable f = true /\ 0 <= f_pos f)
  \/ (ftell f < 0 /\ rc = IMD_ERR_SEEK_ERROR /\ f' = f /\ t' = track).
Proof.
  unfold imd_load_track, ftell. destruct (f_seekable f).
  - destruct (Z.ltb_spec (f_pos f) 0); [|left; split; [done|lia]].
    intros [= <- <- <-]. by right.
  - change (-1 <? 0) with true. cbv iota. intros [= <- <- <-]. right.
    split; [lia|done].
Qed.

(** A call of [imd_load_track] on a file of bytes never changes the file
    and ends in one of four ways.  With 1, the track is fully loaded, its
    header is valid and the stream has advanced over at least the five
    header bytes.  With 0, the stream was at the end of the input and has
    not moved.  With [IMD_ERR_READ_ERROR] or [IMD_ERR_ALLOC], the stream
    is back at the position of the call and the track holds no buffer.
    With [IMD_ERR_SEEK_ERROR], [ftell] has failed and neither the stream
    nor the caller's track has been touched. *)
Theorem imd_load_track_outcome (h : Host) (f f' : FILE)
    (track t' : ImdTrackInfo) (fill_byte rc : Z) :
  Forall is_byte (f_content f) -> is_byte fill_byte ->
  imd_load_track h f track fill_byte = (rc, f', t') ->
  read_on f f'
  /\ ((rc = 1 /\ 0 <= ftell f /\ loaded_track t' /\ valid_header t'
       /\ f_pos f + 5 <= f_pos f')
      \/ (rc = 0 /\ 0 <= ftell f /\ at_end f /\ f_pos f' = f_pos f
          /\ data t' = None)
      \/ ((rc = IMD_ERR_READ_ERROR \/ rc = IMD_ERR_ALLOC) /\ 0 <= ftell f
          /\ f_pos f' = f_pos f /\ data t' = None)
      \/ (rc = IMD_ERR_SEEK_ERROR /\ ftell f < 0 /\ f' = f /\ t' = track)).
Proof.
  intros Hc Hfill Hrun.
  destruct (load_track_started _ _ _ _ _ _ _ Hrun)
    as [[Hseek Hpos]|(Htell & -> & -> & ->)].
  - assert (0 <= ftell f) as Htell by (unfold ftell; by rewrite Hseek).
    destruct (load_track_cases h f f' track t' fill_byte rc Hseek Hpos Hc
                Hfill Hrun) as [Hon [H|[H|H]]].
    + split; [done|]. left. destruct H as (? & ? & ? & ?). by split_and!.
    + split; [done|]. right. left. destruct H as (? & ? & ? & ?).
      by split_and!.
    + split; [done|]. right. right. left. destruct H as (? & ? & ?).
      by split_and!.
  - split; [apply read_on_refl|]. by do 3 right.
Qed.

(** [imd_load_track_outcome] on a record with one compressed sector. *)
Lemma imd_load_track_outcome_witness :
  exists f' t',
    imd_load_track host_ok (file_of (one_sector_record 0 0 0xE5)) zero_track
      0xE5 = (1, f', t')
    /\ read_on (file_of (one_sector_record 0 0 0xE5)) f'
    /\ loaded_track t' /\ valid_header t' /\ 5 <= f_pos f'.
Proof.
  assert (exists f' t',
            imd_load_track host_ok (file_of (one_sector_record 0 0 0xE5))
              zero_track 0xE5 = (1, f', t')) as (f' & t' & E)
    by (do 2 eexists; vm_compute; reflexivity).
  exists f', t'. split; [exact E|].
  destruct (imd_load_track_outcome host_ok
              (file_of (one_sector_record 0 0 0xE5)) f' zero_track t' 0xE5 1)
    as [Hon [H|[H|[H|H]]]];
    [apply bytesb_sound; reflexivity | unfold is_byte; lia | exact E | ..].
  - destruct H as (_ & _ & Hl & Hv & Hp). exact (conj Hon (conj Hl (conj Hv Hp))).
  - destruct H as (H & _). discriminate H.
  - destruct H as ([H|H] & _); discriminate H.
  - destruct H as (H & _). discriminate H.
Defined.

(** ** [imdf_open]: the tracks of an opened image *)

Lemma read_comment_loop_content (h : Host) (fuel : nat) :
  forall f acc capacity r f',
    read_comment_loop h fuel f acc capacity = Some (r, f') ->
    f_content f' = f_content f.
Proof.
  induction fuel as [|k IH]; intros f acc capacity r f';
    cbn [read_comment_loop]; [done|].
  destruct (fgetc f) as [[b| |] f1] eqn:E; apply fgetc_content in E.
  - destruct (b =? LIBIMD_COMMENT_EOF_MARKER); [by intros [= _ <-]|].
    destruct (Z.of_nat (length acc) >=? capacity - 1).
    + destruct (capacity * 2 <=? capacity); [by intros [= _ <-]|].
      destruct (negb (malloc_ok h (capacity * 2))); [by intros [= _ <-]|].
      intros H. apply IH in H. congruence.
    + intros H. apply IH in H. congruence.
  - by intros [= _ <-].
  - by intros [= _ <-].
Qed.

(** The track loop of [imdf_open]: every track it keeps is fully loaded,
    and it ends with [IMDF_ERR_OK] only at the end of the input. *)
Lemma open_tracks_outcome (h : Host) (fuel : nat) :
  forall f ts capacity rc f' ts' capacity',
    Forall is_byte (f_content f) ->
    Forall (fun t => loaded_track t /\ valid_header t) ts ->
    open_tracks h fuel f ts capacity = Some (rc, f', ts', capacity') ->
    f_content f' = f_content f
    /\ Forall (fun t => loaded_track t /\ valid_header t) ts'
    /\ (rc = IMDF_ERR_OK -> f_seekable f' = true /\ at_end f').
Proof.
  induction fuel as [|k IH]; intros f ts capacity rc f' ts' capacity' Hc Hts;
    cbn [open_tracks]; [done|].
  destruct (_ && _); [by intros [= <- <- <- _]|].
  set (cap := if Z.of_nat (length ts) >=? capacity then _ else _).
  clearbody cap.
  destruct (imd_load_track h f zero_track LIBIMD_FILL_BYTE_DEFAULT)
    as [[rc1 f1] t1] eqn:E.
  destruct (load_track_started _ _ _ _ _ _ _ E)
    as [[Hseek Hpos]|(_ & -> & -> & _)].
  2:{ by intros [= <- <- <- _]. }
  apply load_track_cases in E as (Hon & Hcase); try done.
  pose proof Hon as (Hcont & Hs & _).
  destruct Hcase as [(-> & Hl & Hv & Hp)|[(-> & Hend & Hp & _)|([->| ->] & _)]].
  - intros Hrun. apply IH in Hrun as (Hc' & Hts' & Hok).
    + split; [congruence|]. by split.
    + by rewrite Hcont.
    + apply Forall_app. split; [done|]. by constructor.
  - intros [= <- <- <- _]. split; [done|]. split; [done|]. intros _.
    split; [congruence|]. unfold at_end in *. rewrite Hcont, Hp. done.
  - by intros [= <- <- <- _].
  - by intros [= <- <- <- _].
Qed.

(** An image that [imdf_open] opens from a file of bytes holds only
    fully loaded tracks with valid headers, and the whole file has been
    read: the stream of the image is seekable, at or past the end of the
    file, and the content of the file is unchanged. *)
Theorem imdf_open_loads_whole_file (h : Host) (path : list Z) (f : FILE)
    (read_only : Z) (imdf : ImdImageFile) :
  Forall is_byte (f_content f) ->
  imdf_open h path (Some f) read_only = Some (IMDF_ERR_OK, Some imdf) ->
  image_loaded imdf /\ Forall valid_header (tracks imdf)
  /\ exists f3, file_ptr imdf = Some f3 /\ f_content f3 = f_content f
                /\ f_seekable f3 = true /\ at_end f3.
Proof.
  intros Hc Hopen. unfold imdf_open in Hopen.
  destruct (negb (malloc_ok h SIZEOF_ImdImageFile)); [done|].
  destruct (negb (malloc_ok h _)); [done|].
  destruct (imd_read_file_header_stream h f true None) as (fh & Hfh & Hch).
  destruct (imd_read_file_header h (Some f) true None)
    as [[[rc f1] hi] line].
  destruct rc as [| |]; try done. destruct f1 as [f1|]; [|done].
  destruct hi as [hi|]; [|done]. cbn in Hfh. injection Hfh as ->.
  destruct (imd_read_comment_block h fh) as [[[cmt|] f2]|] eqn:Ecmt; try done.
  cbn [mbind option_bind] in Hopen.
  assert (f_content f2 = f_content fh) as Hc2.
  { unfold imd_read_comment_block in Ecmt.
    destruct (negb (malloc_ok h 1024)); [done|].
    by apply read_comment_loop_content in Ecmt. }
  destruct (negb (malloc_ok h _)); [done|].
  destruct (open_tracks h _ f2 [] _) as [[[[rc f3] ts] cap]|] eqn:Eopen;
    [|done].
  cbn [mbind option_bind] in Hopen.
  apply open_tracks_outcome in Eopen as (Hc3 & Hts & Hok);
    [|by rewrite Hc2, Hch|by constructor].
  destruct rc; try done. injection Hopen as <-.
  destruct (Hok eq_refl) as [Hseek Hend].
  unfold image_loaded. cbn [tracks file_ptr]. split_and!.
  - eapply Forall_impl; [exact Hts|]. by intros t [? ?].
  - eapply Forall_impl; [exact Hts|]. by intros t [? ?].
  - exists f3. split_and!; try done. congruence.
Qed.

(** [imdf_open_loads_whole_file] on a file with two track records. *)
Lemma imdf_open_loads_whole_file_witness :
  exists imdf,
    imdf_open host_ok (bytes_of_string "a.imd") (Some unsorted_image_file) 0
    = Some (IMDF_ERR_OK, Some imdf)
    /\ image_loaded imdf /\ Forall valid_header (tracks imdf)
    /\ exists f3, file_ptr imdf = Some f3
                  /\ f_content f3 = f_content unsorted_image_file
                  /\ f_seekable f3 = true /\ at_end f3.
Proof.
  assert (exists imdf,
            imdf_open host_ok (bytes_of_string "a.imd")
              (Some unsorted_image_file) 0 = Some (IMDF_ERR_OK, Some imdf))
    as [imdf E] by (eexists; vm_compute; reflexivity).
  exists imdf. split; [exact E|].
  apply (imdf_open_loads_whole_file host_ok (bytes_of_string "a.imd")
           unsorted_image_file 0 imdf); [|exact E].
  apply bytesb_sound. reflexivity.
Defined.

(** ** Looking a track up by cylinder and head *)

(** [imdf_find_track_by_ch] answers [IMDF_ERR_NOT_FOUND] exactly when no
    track of the image is at ([c], [hd]); otherwise it stores the index of
    the first such track, and [imdf_get_track_info] at that index gives
    that track. *)
Theorem imdf_find_track_lookup (imdf : ImdImageFile) (c hd : Z) :
  (imdf_find_track_by_ch imdf c hd true = (IMDF_ERR_NOT_FOUND, None)
   /\ Forall (fun t => track_key t <> (c, hd)) (tracks imdf))
  \/ (exists i t,
        imdf_find_track_by_ch imdf c hd true = (IMDF_ERR_OK, Some i)
        /\ first_track_at imdf c hd i t
        /\ imdf_get_track_info imdf i = Some t).
Proof.
  unfold imdf_find_track_by_ch. cbn [negb].
  destruct (find_track_index_spec imdf c hd) as [[-> Hnone]|(i & t & -> & Hf)].
  - left. by split.
  - right. exists i, t. pose proof Hf as (Hi & Hl & _).
    destruct (Z.ltb_spec i 0); [lia|]. split; [done|]. split; [done|].
    unfold imdf_get_track_info, num_tracks.
    apply lookup_lt_Some in Hl as Hlt.
    destruct (Z.geb_spec i (Z.of_nat (length (tracks imdf)))); [lia|].
    by rewrite (track_at_lookup _ _ _ Hl).
Qed.

(** ** Skipping and reading the comment *)

Lemma read_comment_loop_skip (h : Host) (fuel : nat) :
  never_out_of_memory h ->
  forall f acc capacity r f2,
    0 < capacity ->
    read_comment_loop h fuel f acc capacity = Some (r, f2) ->
    exists passed,
      read_until_marker fuel f acc = Some (negb (is_null r), passed, f2)
      /\ match r with Some cmt => passed = cmt | None => True end.
Proof.
  intros Hmem. induction fuel as [|k IH]; intros f acc capacity r f2 Hcap;
    cbn [read_comment_loop read_until_marker]; [done|].
  destruct (fgetc f) as [[b| |] f1].
  - destruct (b =? LIBIMD_COMMENT_EOF_MARKER).
    + intros [= <- <-]. by exists acc.
    + destruct (Z.of_nat (length acc) >=? capacity - 1).
      * destruct (Z.leb_spec (capacity * 2) capacity); [lia|].
        rewrite Hmem. cbn [negb]. apply IH. lia.
      * by apply IH.
  - intros [= <- <-]. by exists acc.
  - intros [= <- <-]. by exists acc.
Qed.

(** When memory never runs out, [imd_skip_comment_block] passes over
    exactly what [imd_read_comment_block] reads: it leaves the stream as
    the reader leaves it, with 0 where the reader returned the comment
    and [IMD_ERR_READ_ERROR] where it returned NULL. *)
Theorem skip_comment_matches_read (h : Host) (f f2 : FILE)
    (r : option (list Z)) :
  never_out_of_memory h ->
  imd_read_comment_block h f = Some (r, f2) ->
  imd_skip_comment_block f
  = Some (if negb (is_null r) then 0 else IMD_ERR_READ_ERROR, f2).
Proof.
  intros Hmem. unfold imd_read_comment_block, imd_skip_comment_block.
  rewrite Hmem. cbn [negb]. intros Hrun.
  change (comment_fuel (clearerr f)) with (comment_fuel f) in *.
  apply (read_comment_loop_skip h _ Hmem) in Hrun as (passed & -> & _); [|lia].
  by destruct r.
Qed.

(** [skip_comment_matches_read] on the prologue of an image file. *)
Lemma skip_comment_matches_read_witness :
  exists f2,
    imd_read_comment_block host_ok (file_of (bytes_of_string "test" ++ [0x1A; 7]))
    = Some (Some (bytes_of_string "test"), f2)
    /\ imd_skip_comment_block (file_of (bytes_of_string "test" ++ [0x1A; 7]))
       = Some (0, f2).
Proof.
  assert (exists f2,
            imd_read_comment_block host_ok
              (file_of (bytes_of_string "test" ++ [0x1A; 7]))
            = Some (Some (bytes_of_string "test"), f2)) as [f2 E]
    by (eexists; vm_compute; reflexivity).
  exists f2. split; [exact E|].
  exact (skip_comment_matches_read host_ok _ f2 _ (fun _ => eq_refl) E).
Defined.

(** ** The scanner: duplicate sector IDs *)

Lemma land_bit_test (a k : Z) :
  0 <= k -> (Z.land a (Z.shiftl 1 k) <> 0 <-> Z.testbit a k = true).
Proof.
  intros Hk. rewrite Z.shiftl_1_l. split.
  - intros Hne. destruct (Z.testbit a k) eqn:E; [done|]. exfalso. apply Hne.
    apply Z.bits_inj'. intros n Hn.
    rewrite Z.land_spec, Z.bits_0, Z.pow2_bits_eqb by done.
    destruct (Z.eqb_spec k n) as [->|]; [by rewrite E | by rewrite andb_false_r].
  - intros Hb Hz.
    assert (Z.testbit (Z.land a (2 ^ k)) k = true) as Ht.
    { rewrite Z.land_spec, Hb, Z.pow2_bits_eqb by done. by rewrite Z.eqb_refl. }
    rewrite Hz, Z.bits_0 in Ht. done.
Qed.

Lemma u8_testbit_low (a k : Z) :
  0 <= k < 8 -> Z.testbit (u8 a) k = Z.testbit a k.
Proof.
  intros Hk. unfold u8. change 256 with (2 ^ 8).
  apply Z.mod_pow2_bits_low. lia.
Qed.

Lemma SEEN_GET_test (seen_ids : list Z) (id : Z) :
  0 <= id ->
  (SEEN_GET seen_ids id <> 0
   <-> Z.testbit (arr_get seen_ids (id / 8)) (id mod 8) = true).
Proof.
  intros Hid. unfold SEEN_GET. rewrite Z.rem_mod_nonneg by lia.
  apply land_bit_test. apply Z.mod_pos_bound. lia.
Qed.

(** The bit set after [SEEN_SET]: the new ID and the ones before. *)
Lemma SEEN_SET_get (seen_ids : list Z) (cur id : Z) :
  length seen_ids = 32%nat -> is_byte cur -> is_byte id ->
  (SEEN_GET (SEEN_SET seen_ids cur) id <> 0
   <-> id = cur \/ SEEN_GET seen_ids id <> 0).
Proof.
  intros Hlen [Hc0 Hc] [Hi0 Hi].
  rewrite !SEEN_GET_test by done. unfold SEEN_SET.
  assert (0 <= cur / 8 < 32) as Hq by (split; Z.div_mod_to_equations; lia).
  assert (0 <= id / 8 < 32) as Hq' by (split; Z.div_mod_to_equations; lia).
  assert (0 <= id mod 8 < 8) as Hm by (apply Z.mod_pos_bound; lia).
  assert (0 <= cur mod 8 < 8) as Hm' by (apply Z.mod_pos_bound; lia).
  rewrite arr_get_set by lia.
  destruct (Z.eqb_spec (cur / 8) (id / 8)) as [Hsame|Hdiff].
  - rewrite u8_testbit_low, Z.lor_spec by done.
    rewrite Z.rem_mod_nonneg by lia. rewrite Z.shiftl_1_l.
    rewrite Z.pow2_bits_eqb by lia. rewrite Hsame.
    destruct (Z.eqb_spec (cur mod 8) (id mod 8)) as [Hmod|Hmod].
    + rewrite orb_true_r. split; [|done]. intros _. left.
      pose proof (Z.div_mod id 8). pose proof (Z.div_mod cur 8). lia.
    + rewrite orb_false_r. split; [by right|].
      intros [->|H]; [done|exact H].
  - split; [by right|]. intros [->|H]; [done|exact H].
Qed.

Lemma raise_bit_twice (r : ImdChkResults) (bit : Z) :
  raise_bit (raise_bit r bit) bit = raise_bit r bit.
Proof.
  unfold raise_bit. cbn. f_equal.
  by rewrite <- Z.lor_assoc, Z.lor_diag.
Qed.

Lemma seen_below_start (smap : list Z) : seen_below (replicate 32 0) smap 0.
Proof.
  split; [done|]. intros id [Hid0 Hid]. split.
  - intros H. exfalso. apply H. unfold SEEN_GET.
    replace (arr_get (replicate 32 0) (id / 8)) with 0; [done|].
    unfold arr_get. symmetry. apply list_lookup_total_correct.
    apply lookup_replicate_2. Z.div_mod_to_equations. lia.
  - intros (j & Hj & _). lia.
Qed.

(** One iteration of the loop of [check_smap_consistency_internal]. *)
Lemma check_smap_step (track : ImdTrackInfo) (r : ImdChkResults) (i : Z)
    (seen_ids : list Z) (res : ImdChkResults) :
  byte_array (smap track) -> 0 <= i < 256 ->
  seen_below seen_ids (smap track) i ->
  (duplicate_below (smap track) i /\ res = raise_bit r CHECK_BIT_DUPE_SID)
  \/ (~ duplicate_below (smap track) i /\ res = r) ->
  let st' :=
    (let current_id := arr_get (smap track) i in
     if truthy (SEEN_GET seen_ids current_id)
     then (seen_ids, raise_bit res CHECK_BIT_DUPE_SID)
     else (SEEN_SET seen_ids current_id, res)) in
  seen_below (fst st') (smap track) (i + 1)
  /\ ((duplicate_below (smap track) (i + 1)
       /\ snd st' = raise_bit r CHECK_BIT_DUPE_SID)
      \/ (~ duplicate_below (smap track) (i + 1) /\ snd st' = r)).
Proof.
  intros Hsm Hi [Hlen Hseen] Hinv.
  pose proof (byte_array_get _ i Hsm Hi) as Hcur.
  set (cur := arr_get (smap track) i) in *. cbv zeta.
  assert (duplicate_below (smap track) i
          -> duplicate_below (smap track) (i + 1)) as Hup.
  { intros (a & b & Hab & Hb & Heq). exists a, b.
    split; [lia|]. split; [lia|done]. }
  destruct (truthy (SEEN_GET seen_ids cur)) eqn:Et; cbn [fst snd].
  - apply truthy_true in Et. apply (Hseen cur Hcur) in Et as (j & Hj & Hjc).
    assert (duplicate_below (smap track) (i + 1)) as Hnow.
    { exists j, i. split; [lia|]. split; [lia|done]. }
    split.
    + split; [done|]. intros id Hid. rewrite (Hseen id Hid). split.
      * intros (k & Hk & Hkc). exists k. split; [lia|done].
      * intros (k & Hk & Hkc). destruct (Z.eq_dec k i) as [->|].
        -- exists j. split; [done|]. by rewrite Hjc.
        -- exists k. split; [lia|done].
    + left. split; [done|]. destruct Hinv as [[_ ->]|[_ ->]]; [|done].
      apply raise_bit_twice.
  - apply truthy_false in Et.
    assert (duplicate_below (smap track) (i + 1)
            -> duplicate_below (smap track) i) as Hback.
    { intros (a & b & Hab & Hb & Heq). destruct (Z.eq_dec b i) as [->|].
      - exfalso. assert (SEEN_GET seen_ids cur <> 0); [|done].
        apply (Hseen cur Hcur). exists a. split; [lia|done].
      - exists a, b. split; [lia|]. split; [lia|done]. }
    split.
    + split; [unfold SEEN_SET; by rewrite arr_set_length|]. intros id Hid.
      rewrite (SEEN_SET_get _ _ _ Hlen Hcur Hid), (Hseen id Hid). split.
      * intros [->|(k & Hk & Hkc)].
        -- exists i. split; [lia|done].
        -- exists k. split; [lia|done].
      * intros (k & Hk & Hkc). destruct (Z.eq_dec k i) as [->|].
        -- by left.
        -- right. exists k. split; [lia|done].
    + destruct Hinv as [[Hd ->]|[Hd ->]].
      * left. split; [by apply Hup | done].
      * right. split; [|done]. intros H. by apply Hd, Hback.
Qed.

(** [check_smap_consistency_internal] raises [CHECK_BIT_DUPE_SID] exactly
    when two of the first [num_sectors] entries of the sector map hold the
    same ID, and changes nothing else in the results. *)
Theorem check_smap_duplicates (track : ImdTrackInfo) (r : ImdChkResults) :
  wf_track track ->
  (duplicate_below (smap track) (num_sectors track)
   /\ check_smap_consistency_internal track r
      = raise_bit r CHECK_BIT_DUPE_SID)
  \/ (~ duplicate_below (smap track) (num_sectors track)
      /\ check_smap_consistency_internal track r = r).
Proof.
  intros Hwf. pose proof (wf_num_sectors _ Hwf) as Hn. unfold is_byte in Hn.
  unfold check_smap_consistency_internal.
  destruct (Z.leb_spec (num_sectors track) 1) as [Hle|Hgt].
  { right. split; [|done]. intros (a & b & Hab & Hb & _). lia. }
  pose proof (for_range_inv
    (fun i (st : list Z * ImdChkResults) =>
       seen_below (fst st) (smap track) i
       /\ ((duplicate_below (smap track) i
            /\ snd st = raise_bit r CHECK_BIT_DUPE_SID)
           \/ (~ duplicate_below (smap track) i /\ snd st = r)))
    (fun i '(seen_ids, res) =>
       let current_id := arr_get (smap track) i in
       if truthy (SEEN_GET seen_ids current_id)
       then (seen_ids, raise_bit res CHECK_BIT_DUPE_SID)
       else (SEEN_SET seen_ids current_id, res))
    (Z.to_nat (num_sectors track)) 0 (replicate 32 0, r)) as H.
  replace (0 + Z.of_nat (Z.to_nat (num_sectors track)))
    with (num_sectors track) in H by lia.
  apply H.
  - split; [apply seen_below_start|]. cbn [snd]. right. split; [|done].
    intros (a & b & Hab & Hb & _). lia.
  - intros i [seen_ids res] Hi (Hseen & Hinv). cbn [fst snd] in *.
    apply check_smap_step; try done; [apply Hwf | lia].
Qed.

(** [check_smap_duplicates] on a track whose map holds the ID 1 twice. *)
Lemma check_smap_duplicates_witness :
  check_smap_consistency_internal
    (track_of 0 0 [1; 2; 1] [1; 1; 1] (replicate 384 0xE5)) initial_results
  = raise_bit initial_results CHECK_BIT_DUPE_SID.
Proof.
  destruct (check_smap_duplicates
              (track_of 0 0 [1; 2; 1] [1; 1; 1] (replicate 384 0xE5))
              initial_results) as [[_ H]|[Hno _]].
  - apply wf_trackb_sound. vm_compute. reflexivity.
  - exact H.
  - exfalso. apply Hno. exists 0, 2. vm_compute. repeat split; discriminate.
Defined.

(** ** Reading bytes the stream holds *)

Lemma holds_at_nil_app (f : FILE) (bs rest : list Z) :
  holds_at f (bs ++ rest) -> holds_at f bs.
Proof.
  intros (Hp & Hb & Hf). split; [done|]. split.
  - unfold buf_read in *. rewrite length_app in Hb.
    apply (f_equal (take (length bs))) in Hb.
    rewrite Nat2Z.id in *. rewrite take_take, take_app_length in Hb.
    by rewrite Nat.min_l in Hb by lia.
  - intros k Hk. specialize (Hf k Hk). rewrite length_app in Hf. lia.
Qed.

Lemma read_past_refl (f : FILE) (rest : list Z) :
  holds_at f rest -> read_past f f 0 rest.
Proof. intros H. split; [done|]. split; [lia|done]. Qed.

Lemma read_past_trans (f f1 f2 : FILE) (k1 k2 : Z) (mid rest : list Z) :
  read_past f f1 k1 mid -> read_past f1 f2 k2 rest ->
  read_past f f2 (k1 + k2) rest.
Proof.
  intros (_ & Hp1 & Hs1) (Hh & Hp2 & Hs2). split; [done|].
  split; [lia|congruence].
Qed.

(** One byte. *)
Lemma read_byte_next (f : FILE) (b : Z) (rest : list Z) :
  holds_at f (b :: rest) -> is_byte b ->
  exists f', read_byte f = (1, b, f') /\ read_past f f' 1 rest.
Proof.
  intros H Hb. destruct (read_byte_holds f b rest H Hb) as [E Hrest].
  eexists. split; [exact E|]. by split.
Qed.

(** A block of bytes with [fread]. *)
Lemma fread_holds (bs : list Z) :
  forall f rest,
    holds_at f (bs ++ rest) ->
    exists f', fread (length bs) f = (bs, f')
               /\ read_past f f' (Z.of_nat (length bs)) rest.
Proof.
  induction bs as [|b bs IH]; intros f rest H; cbn [length fread app] in *.
  - exists f. split; [done|]. by apply read_past_refl.
  - destruct (holds_at_cons f b (bs ++ rest) H) as [-> H1].
    destruct (IH _ _ H1) as (f' & -> & Hh & Hp & Hs).
    exists f'. split; [done|]. split; [done|]. cbn in Hp, Hs.
    split; [lia|done].
Qed.

Lemma read_bytes_holds (bs : list Z) (f : FILE) (rest : list Z) :
  holds_at f (bs ++ rest) ->
  exists f', read_bytes (Z.of_nat (length bs)) f = (bs, f')
             /\ read_past f f' (Z.of_nat (length bs)) rest.
Proof.
  intros H. unfold read_bytes.
  destruct (Z.eqb_spec (Z.of_nat (length bs)) 0) as [Hz|Hnz].
  - destruct bs; [|cbn in Hz; lia]. exists f. split; [done|].
    by apply read_past_refl.
  - rewrite Nat2Z.id. by apply fread_holds.
Qed.

(** The five header bytes. *)
Lemma read_track_header_bytes_holds (f : FILE) (b0 b1 b2 b3 b4 : Z)
    (rest : list Z) (start_pos : Z) :
  holds_at f (b0 :: b1 :: b2 :: b3 :: b4 :: rest) ->
  is_byte b0 -> is_byte b1 -> is_byte b2 -> is_byte b3 -> is_byte b4 ->
  exists f', read_track_header_bytes f start_pos
             = inl ([b0; b1; b2; b3; b4], f')
             /\ read_past f f' 5 rest.
Proof.
  intros H H0 H1 H2 H3 H4. unfold read_track_header_bytes.
  destruct (read_byte_next _ _ _ H H0) as (f1 & -> & R1).
  cbn [read_header_rest].
  destruct (read_byte_next _ _ _ (proj1 R1) H1) as (f2 & -> & R2).
  destruct (read_byte_next _ _ _ (proj1 R2) H2) as (f3 & -> & R3).
  destruct (read_byte_next _ _ _ (proj1 R3) H3) as (f4 & -> & R4).
  destruct (read_byte_next _ _ _ (proj1 R4) H4) as (f5 & -> & R5).
  exists f5. split; [done|].
  pose proof (read_past_trans _ _ _ _ _ _ _ R1 R2) as R12.
  pose proof (read_past_trans _ _ _ _ _ _ _ R12 R3) as R13.
  pose proof (read_past_trans _ _ _ _ _ _ _ R13 R4) as R14.
  exact (read_past_trans _ _ _ _ _ _ _ R14 R5).
Qed.

(** ** The maps of a record *)

Lemma byte_array_prefix (a : list Z) (n : Z) :
  byte_array a -> 0 <= n <= 256 ->
  Z.of_nat (length (buf_read a 0 n)) = n /\ Forall is_byte (buf_read a 0 n).
Proof.
  intros [Hl Hb] Hn. split.
  - apply buf_read_length; lia.
  - by apply buf_read_bytes.
Qed.

Lemma arr_get_prefix (a : list Z) (n i : Z) :
  0 <= i < n -> arr_get (buf_read a 0 n) i = arr_get a i.
Proof.
  intros Hi. unfold arr_get, buf_read. change (Z.to_nat 0) with 0%nat.
  rewrite drop_0. rewrite !list_lookup_total_alt, lookup_take_lt by lia. done.
Qed.

(** One map: read from the record when it is there. *)
Lemma read_map_holds (present : bool) (n : Z) (written absent : list Z)
    (f : FILE) (rest : list Z) :
  byte_array written -> 0 < n <= 256 ->
  holds_at f ((if present then buf_read written 0 n else []) ++ rest) ->
  exists m f',
    read_map present n absent f = (m, true, f')
    /\ read_past f f'
         (Z.of_nat (length (if present then buf_read written 0 n else [])))
         rest
    /\ (present = true -> forall i, 0 <= i < n -> arr_get m i = arr_get written i)
    /\ (present = false -> m = absent).
Proof.
  intros Hw Hn H. unfold read_map. destruct present.
  - destruct (byte_array_prefix written n Hw) as [Hlen Hb]; [lia|].
    destruct (read_bytes_holds _ _ _ H) as (f' & E & R).
    rewrite Hlen in E. rewrite E. rewrite Hlen, Z.eqb_refl.
    eexists _, f'. split; [done|]. split; [by rewrite Hlen in R|].
    split; [|done]. intros _ i Hi.
    rewrite memcpy_arr_get_lt by lia. by apply arr_get_prefix.
  - exists absent, f. split; [done|]. cbn [app length] in *.
    split; [by apply read_past_refl|]. by split.
Qed.

Lemma memset_arr_get_lt (dst : list Z) (c n i : Z) :
  0 <= i < n -> arr_get (memset_arr dst c n) i = c.
Proof.
  intros Hi. unfold arr_get, memset_arr.
  rewrite lookup_total_app_l by (rewrite length_replicate; lia).
  apply lookup_total_replicate_2. lia.
Qed.

(** The maps of the record of [tw], read into a track with its header. *)
Lemma read_track_maps_holds (t1 tw : ImdTrackInfo) (synthesize : bool)
    (f : FILE) (rest : list Z) :
  wf_track tw -> num_sectors t1 = num_sectors tw -> hflag t1 = hflag tw ->
  holds_at f (map_bytes tw ++ rest) ->
  exists t2 f2,
    read_track_maps t1 synthesize f = (t2, true, f2)
    /\ read_past f f2 (Z.of_nat (length (map_bytes tw))) rest
    /\ same_header t1 t2 /\ data t2 = data t1 /\ sflag t2 = sflag t1
    /\ agree_below (num_sectors tw) (smap t2) (smap tw)
    /\ map_read_back (truthy (Z.land (hflag tw) IMD_HFLAG_CMAP_PRES))
         (num_sectors tw) (cmap tw) (if synthesize then cyl t1 else 0)
         (cmap t2)
    /\ map_read_back (truthy (Z.land (hflag tw) IMD_HFLAG_HMAP_PRES))
         (num_sectors tw) (hmap tw) (if synthesize then head t1 else 0)
         (hmap t2).
Proof.
  intros Hwf Hn Hf H. unfold read_track_maps, map_bytes in *.
  rewrite Hn, Hf.
  pose proof (wf_num_sectors _ Hwf) as Hnb. unfold is_byte in Hnb.
  destruct (Z.gtb_spec (num_sectors tw) 0) as [Hpos|Hzero].
  2:{ exists t1, f. split; [done|]. cbn [app length] in *.
      split; [by apply read_past_refl|]. split; [by repeat split|].
      split; [done|]. split; [done|].
      split; [intros i Hi; lia|]. split; intros i Hi; lia. }
  set (n := num_sectors tw) in *.
  set (cp := truthy (Z.land (hflag tw) IMD_HFLAG_CMAP_PRES)) in *.
  set (hp := truthy (Z.land (hflag tw) IMD_HFLAG_HMAP_PRES)) in *.
  rewrite <- !app_assoc in H.
  destruct (read_map_holds true n (smap tw) zero_array f _ (wf_smap _ Hwf)
              ltac:(lia) H) as (sm & f1 & -> & R1 & Hsm & _).
  cbn [negb].
  destruct (read_map_holds cp n (cmap tw)
              (if synthesize then memset_arr zero_array (cyl t1) n
               else zero_array) f1 _ (wf_cmap _ Hwf)
              ltac:(lia) (proj1 R1)) as (cm & f2 & -> & R2 & Hcm & Hcm').
  cbn [negb].
  destruct (read_map_holds hp n (hmap tw)
              (if synthesize then memset_arr zero_array (head t1) n
               else zero_array) f2 _ (wf_hmap _ Hwf)
              ltac:(lia) (proj1 R2)) as (hm & f3 & -> & R3 & Hhm & Hhm').
  eexists _, f3. split; [done|]. split.
  - pose proof (read_past_trans _ _ _ _ _ _ _
                  (read_past_trans _ _ _ _ _ _ _ R1 R2) R3) as R.
    rewrite !length_app. rewrite !Nat2Z.inj_add, Z.add_assoc. exact R.
  - split; [by repeat split|]. split; [done|]. split; [done|].
    cbn [with_maps smap cmap hmap]. split; [exact (Hsm eq_refl)|].
    split; intros i Hi.
    + destruct cp; [by apply Hcm|]. rewrite Hcm' by done.
      destruct synthesize; [by apply memset_arr_get_lt|].
      apply zero_array_get. lia.
    + destruct hp; [by apply Hhm|]. rewrite Hhm' by done.
      destruct synthesize; [by apply memset_arr_get_lt|].
      apply zero_array_get. lia.
Qed.

(** ** The sector records of a track, read back *)

Lemma sector_pointer_loaded (t : ImdTrackInfo) (i : Z) :
  loaded_track t -> 0 <= i < num_sectors t ->
  exists d, data t = Some d
            /\ Z.of_nat (length d) = num_sectors t * sector_size t
            /\ sector_pointer t i
               = Some (drop (Z.to_nat (i * sector_size t)) d)
            /\ buf_read (drop (Z.to_nat (i * sector_size t)) d) 0
                 (sector_size t) = sector_bytes t i
            /\ Z.of_nat (length (sector_bytes t i)) = sector_size t.
Proof.
  intros Hl Hi.
  destruct (loaded_sector_bytes t i Hl Hi) as (d & Hd & Hds & Hlen & Hin & Hsb & Hsl).
  exists d. split; [done|]. split; [lia|]. unfold sector_pointer. rewrite Hd.
  destruct (Z.geb_spec (data_size t) ((i + 1) * sector_size t)); [|lia].
  split; [done|]. split; [|done]. rewrite Hsb. unfold buf_read.
  change (Z.to_nat 0) with 0%nat. by rewrite drop_0.
Qed.

(** One record: the loader stores the flag and [read_back] of the
    sector. *)
Lemma load_sector_record (fill p : Z) (tw : ImdTrackInfo) (fs : list Z)
    (i : Z) (f : FILE) (t : ImdTrackInfo) (d rest : list Z) :
  loaded_track tw -> sector_size tw <= LIBIMD_MAX_SECTOR_SIZE ->
  0 <= i < num_sectors tw -> 0 <= arr_get fs i <= 8 ->
  holds_at f (map u8 (record_bytes tw fs i) ++ rest) ->
  sector_size t = sector_size tw -> data t = Some d ->
  exists f1,
    load_sector fill p i (f, t, i * sector_size tw)
    = inl (f1,
           with_data (with_sflag t (arr_set (sflag t) i (arr_get fs i)))
             (Some (buf_write d (i * sector_size tw)
                      (read_back tw fs fill i))),
           i * sector_size tw + sector_size tw)
    /\ read_past f f1 (Z.of_nat (length (record_bytes tw fs i))) rest.
Proof.
  intros Hl Hmax Hi Hflag H Hss Hd.
  destruct (sector_pointer_loaded tw i Hl Hi) as (d0 & Hd0 & Hlen0 & Hptr & Hbr & Hsl).
  pose proof (lt_size _ Hl) as Hpos.
  unfold record_bytes, read_back in *. cbv zeta in *.
  set (flag := arr_get fs i) in *.
  assert (is_byte flag) as Hfb by (unfold is_byte; lia).
  cbn [map app] in H. rewrite (u8_byte _ Hfb) in H.
  unfold load_sector.
  destruct (read_byte_next _ _ _ H Hfb) as (f1 & -> & R1).
  cbv beta iota zeta.
  cbn [with_sflag with_maps data sector_size]. rewrite Hd, Hss.
  destruct (IMD_SDR_HAS_DATA flag) eqn:Ehas.
  - destruct (IMD_SDR_IS_COMPRESSED flag) eqn:Ecomp.
    + destruct R1 as (Hr1 & Hp1 & Hs1). cbn [map app] in Hr1.
      assert (is_byte (u8 (snd (imd_is_uniform (sector_pointer tw i)
                                  (sector_size tw) 0)))) as Hvb.
      { unfold is_byte, u8.
        pose proof (Z.mod_pos_bound
                      (snd (imd_is_uniform (sector_pointer tw i)
                              (sector_size tw) 0)) 256). lia. }
      destruct (read_byte_next _ _ _ Hr1 Hvb) as (f2 & -> & (H2 & Hp2 & Hs2)).
      cbv beta iota zeta. exists f2. split; [done|].
      split; [done|]. cbn [length]. split; [lia|congruence].
    + destruct (Z.gtb_spec (sector_size tw) LIBIMD_MAX_SECTOR_SIZE); [lia|].
      destruct (Z.gtb_spec (sector_size tw) 0); [|lia].
      rewrite Hptr, Hbr in *.
      destruct R1 as (Hr1 & Hp1 & Hs1).
      destruct (read_bytes_holds _ _ _ Hr1) as (f2 & E & (H2 & Hp2 & Hs2)).
      rewrite length_map, Hsl in E, Hp2. rewrite E.
      rewrite length_map, Hsl, Z.eqb_refl. cbn [negb].
      exists f2. split; [done|]. split; [done|]. cbn [length].
      split; [lia|congruence].
  - assert (flag = 0) as Hz by (unfold IMD_SDR_HAS_DATA in Ehas; lia).
    rewrite Hz. change (0 =? IMD_SDR_UNAVAILABLE) with true. cbv iota.
    exists f1. split; [done|]. cbn [length map app] in *. done.
Qed.

Lemma read_back_length (tw : ImdTrackInfo) (fs : list Z) (fill i : Z) :
  loaded_track tw -> 0 <= i < num_sectors tw ->
  Z.of_nat (length (read_back tw fs fill i)) = sector_size tw.
Proof.
  intros Hl Hi. pose proof (lt_size _ Hl) as Hpos.
  destruct (sector_pointer_loaded tw i Hl Hi) as (_ & _ & _ & _ & _ & Hsl).
  unfold read_back. cbv zeta.
  destruct (IMD_SDR_HAS_DATA _); [destruct (IMD_SDR_IS_COMPRESSED _)|];
    rewrite ?length_replicate, ?length_map; lia.
Qed.

(** The sector loop of [imd_load_track] on the records of [tw]. *)
Lemma load_records (fill p : Z) (tw : ImdTrackInfo) (fs : list Z) :
  loaded_track tw -> sector_size tw <= LIBIMD_MAX_SECTOR_SIZE ->
  forall count start f t d rest,
    0 <= start -> start + Z.of_nat count <= num_sectors tw ->
    (forall i, start <= i < start + Z.of_nat count ->
               0 <= arr_get fs i <= 8) ->
    holds_at f (map u8 (records_from tw fs start count) ++ rest) ->
    sector_size t = sector_size tw -> data t = Some d ->
    Z.of_nat (length d) = num_sectors tw * sector_size tw ->
    length (sflag t) = 256%nat ->
    exists f' t' d',
      for_range_exit start count (load_sector fill p)
        (f, t, start * sector_size tw)
      = inl (f', t', (start + Z.of_nat count) * sector_size tw)
      /\ read_past f f'
           (Z.of_nat (length (records_from tw fs start count))) rest
      /\ same_header t t' /\ smap t' = smap t /\ cmap t' = cmap t
      /\ hmap t' = hmap t
      /\ data t' = Some d'
      /\ Z.of_nat (length d') = num_sectors tw * sector_size tw
      /\ length (sflag t') = 256%nat
      /\ (forall i, start <= i < start + Z.of_nat count ->
            arr_get (sflag t') i = arr_get fs i
            /\ buf_read d' (i * sector_size tw) (sector_size tw)
               = read_back tw fs fill i)
      /\ (forall i, 0 <= i < start ->
            arr_get (sflag t') i = arr_get (sflag t) i
            /\ buf_read d' (i * sector_size tw) (sector_size tw)
               = buf_read d (i * sector_size tw) (sector_size tw)).
Proof.
  intros Hl Hmax. pose proof (lt_size _ Hl) as Hpos.
  pose proof (wf_num_sectors _ (lt_wf _ Hl)) as Hnb. unfold is_byte in Hnb.
  induction count as [|k IH]; intros start f t d rest Hs Hend Hfs H Hss Hd
    Hlen Hsf; cbn [records_from for_range_exit].
  - exists f, t, d. replace (start + Z.of_nat 0) with start by lia.
    split; [done|]. split; [by apply read_past_refl|].
    split; [by repeat split|]. split_and!; try done. intros i Hi. lia.
  - cbn [records_from] in H. rewrite map_app, <- app_assoc in H.
    destruct (load_sector_record fill p tw fs start f t d _ Hl Hmax
                ltac:(lia) (Hfs start ltac:(lia)) H Hss Hd) as (f1 & -> & R1).
    pose proof (read_back_length tw fs fill start Hl ltac:(lia)) as Hrb.
    set (rb := read_back tw fs fill start) in *.
    set (t1 := with_data _ _).
    assert (start + 1 <= num_sectors tw) as Hs1 by lia.
    assert (start * sector_size tw + sector_size tw
            <= num_sectors tw * sector_size tw) as Hfit by nia.
    replace (start * sector_size tw + sector_size tw)
      with ((start + 1) * sector_size tw) by lia.
    assert (Z.of_nat (length (buf_write d (start * sector_size tw) rb))
            = num_sectors tw * sector_size tw) as Hlen1.
    { rewrite buf_write_length; [done|nia|]. by rewrite Hrb, Hlen. }
    destruct (IH (start + 1) f1 t1 _ rest ltac:(lia) ltac:(lia)
                ltac:(intros i Hi; apply Hfs; lia) (proj1 R1) Hss eq_refl
                Hlen1 ltac:(subst t1; cbn; by rewrite arr_set_length))
      as (f' & t' & d' & -> & R2 & Hsame & Hsm & Hcm & Hhm & Hd' & Hlen'
          & Hsf' & Hin & Hbelow).
    exists f', t', d'.
    replace (start + 1 + Z.of_nat k) with (start + Z.of_nat (Datatypes.S k))
      by lia.
    split; [done|]. split.
    { rewrite length_app, Nat2Z.inj_add.
      exact (read_past_trans _ _ _ _ _ _ _ R1 R2). }
    split; [exact Hsame|]. split_and!; try done.
    + intros i Hi. destruct (Z.eq_dec i start) as [->|Hne].
      * destruct (Hbelow start ltac:(lia)) as [Hf1 Hb1]. split.
        -- rewrite Hf1. subst t1. cbn [with_data with_sflag with_maps sflag].
           apply arr_get_set_eq. lia.
        -- rewrite Hb1.
           pose proof (buf_read_write_same d (start * sector_size tw) rb
                         ltac:(nia) ltac:(rewrite Hrb, Hlen; exact Hfit))
             as Hw.
           by rewrite Hrb in Hw.
      * apply Hin. lia.
    + intros i Hi. destruct (Hbelow i ltac:(lia)) as [Hf1 Hb1]. split.
      * rewrite Hf1. subst t1. cbn [with_data with_sflag with_maps sflag].
        apply arr_get_set_ne. lia.
      * rewrite Hb1. apply buf_read_write_other; nia.
Qed.

(** ** A whole track record, read back by [imd_load_track] *)

Lemma head_byte_table :
  forallb
    (fun hf =>
       implb (Z.land hf IMD_HFLAG_HEAD_MASK =? 0)
         (forallb
            (fun hd =>
               (0 <=? Z.lor hd hf) && (Z.lor hd hf <=? 255)
               && (Z.land (Z.lor hd hf) IMD_HFLAG_HEAD_MASK =? hd)
               && (Z.land (Z.lor hd hf) IMD_HFLAG_MASK =? hf))
            [0; 1]))
    (seqZ 0 256) = true.
Proof. vm_compute. reflexivity. Qed.

(** The head byte of a record decodes to the head and the flags it was
    made of. *)
Lemma head_byte_decode (hd hf : Z) :
  0 <= hd <= 1 -> is_byte hf -> Z.land hf IMD_HFLAG_HEAD_MASK = 0 ->
  is_byte (Z.lor hd hf)
  /\ Z.land (Z.lor hd hf) IMD_HFLAG_HEAD_MASK = hd
  /\ Z.land (Z.lor hd hf) IMD_HFLAG_MASK = hf.
Proof.
  intros Hhd Hhf Hclean. pose proof head_byte_table as Ht.
  rewrite forallb_forall in Ht.
  assert (List.In hf (seqZ 0 256)) as Hin.
  { apply list_elem_of_In, elem_of_seqZ. unfold is_byte in Hhf. lia. }
  specialize (Ht hf Hin). rewrite Hclean in Ht. cbn [Z.eqb implb] in Ht.
  rewrite forallb_forall in Ht.
  assert (List.In hd [0; 1]) as Hin'.
  { assert (hd = 0 \/ hd = 1) as [-> | ->] by lia; cbn; tauto. }
  specialize (Ht hd Hin'). unfold is_byte. lia.
Qed.

(** The header of the record of [tw], decoded and validated. *)
Lemma validate_header_of_record (m : Z) (tw : ImdTrackInfo) :
  wf_track tw -> valid_header tw -> 0 <= m < LIBIMD_NUM_MODES ->
  exists t1,
    validate_track_header
      (header_fields [m; cyl tw; Z.lor (head tw) (hflag tw); num_sectors tw;
                      sector_size_code tw]) = inl t1
    /\ mode t1 = m /\ cyl t1 = cyl tw /\ head t1 = head tw
    /\ hflag t1 = hflag tw /\ num_sectors t1 = num_sectors tw
    /\ sector_size_code t1 = sector_size_code tw
    /\ sector_size t1 = sector_size tw
    /\ data t1 = None /\ data_size t1 = 0 /\ loaded t1 = 0
    /\ sflag t1 = zero_array /\ wf_track t1.
Proof.
  intros Hwf (Hmode & Hhead & Hcode & Hsize & Hclean) Hm.
  pose proof (wf_head _ Hwf) as Hhb. unfold is_byte in Hhb.
  destruct (head_byte_decode (head tw) (hflag tw) ltac:(lia) (wf_hflag _ Hwf)
              Hclean) as (Hb & Hdh & Hdf).
  pose proof (sector_size_lookup_range _ Hcode) as Hr.
  unfold validate_track_header, header_fields.
  cbn [lookup list_lookup set_header zero_track mode head sector_size_code
       sector_size set_sector_size cyl hflag num_sectors smap cmap hmap sflag
       data data_size loaded].
  rewrite Hdh, Hdf.
  destruct (Z.geb_spec m LIBIMD_NUM_MODES); [lia|].
  destruct (Z.gtb_spec (head tw) 1); [lia|].
  destruct (Z.geb_spec (sector_size_code tw) SECTOR_SIZE_LOOKUP_COUNT); [lia|].
  cbn [orb]. rewrite <- Hsize.
  destruct (Z.eqb_spec (sector_size tw) 0); [lia|].
  eexists. split; [done|]. cbn. split_and!; try done.
  unfold LIBIMD_NUM_MODES, LIBIMD_MAX_SECTOR_SIZE in *.
  destruct Hwf. constructor; cbn; try done; try apply zero_array_bytes;
    unfold is_byte; lia.
Qed.

(** The buffer of a validated track, when the memory is there. *)
Lemma imd_alloc_track_data_ok (h : Host) (t : ImdTrackInfo) :
  data t = None -> sector_size_code t < SECTOR_SIZE_LOOKUP_COUNT ->
  sector_size t = arr_get SECTOR_SIZE_LOOKUP (sector_size_code t) ->
  malloc_ok h (num_sectors t * sector_size t) = true ->
  exists t3,
    imd_alloc_track_data h t = (0, t3)
    /\ mode t3 = mode t /\ cyl t3 = cyl t /\ head t3 = head t
    /\ hflag t3 = hflag t /\ num_sectors t3 = num_sectors t
    /\ sector_size_code t3 = sector_size_code t
    /\ sector_size t3 = sector_size t
    /\ smap t3 = smap t /\ cmap t3 = cmap t /\ hmap t3 = hmap t
    /\ sflag t3 = sflag t
    /\ (num_sectors t = 0 -> data t3 = None /\ data_size t3 = 0)
    /\ (num_sectors t <> 0 ->
        data t3 = Some (replicate (Z.to_nat (num_sectors t * sector_size t)) 0)
        /\ data_size t3 = num_sectors t * sector_size t).
Proof.
  intros Hd Hcode Hsize Hmem. unfold imd_alloc_track_data.
  rewrite Hd. cbn [is_null negb]. unfold imd_get_sector_size.
  destruct (Z.geb_spec (sector_size_code t) SECTOR_SIZE_LOOKUP_COUNT); [lia|].
  rewrite <- Hsize.
  pose proof (sector_size_lookup_range _ Hcode) as Hr. rewrite <- Hsize in Hr.
  destruct (Z.eqb_spec (sector_size t) 0); [lia|].
  cbn [num_sectors set_sector_size set_header].
  destruct (Z.eqb_spec (num_sectors t) 0) as [Hn|Hn].
  - eexists. split; [done|]. cbn. split_and!; try done.
  - rewrite Hmem. cbn [negb]. eexists. split; [done|]. cbn.
    split_and!; try done.
Qed.

Lemma map_bytes_bytes (tw : ImdTrackInfo) :
  wf_track tw -> Forall is_byte (map_bytes tw).
Proof.
  intros Hwf. unfold map_bytes. destruct (num_sectors tw >? 0); [|done].
  repeat apply Forall_app_2.
  - apply buf_read_bytes, (wf_smap _ Hwf).
  - destruct (truthy _); [|done]. apply buf_read_bytes, (wf_cmap _ Hwf).
  - destruct (truthy _); [|done]. apply buf_read_bytes, (wf_hmap _ Hwf).
Qed.

(** [imd_load_track] on a stream that holds the record of the track [tw]
    with the mode [m] and the flags [fs]. *)
Lemma load_track_of_record (h : Host) (f : FILE) (track : ImdTrackInfo)
    (fill m : Z) (tw : ImdTrackInfo) (fs rest : list Z) :
  f_seekable f = true ->
  loaded_track tw -> valid_header tw -> 0 <= m < LIBIMD_NUM_MODES ->
  (forall i, 0 <= i < num_sectors tw -> 0 <= arr_get fs i <= 8) ->
  malloc_ok h (num_sectors tw * sector_size tw) = true ->
  holds_at f (map u8 (track_bytes m tw fs) ++ rest) ->
  exists f' t',
    imd_load_track h f track fill = (1, f', t')
    /\ read_past f f' (Z.of_nat (length (track_bytes m tw fs))) rest
    /\ (mode t' = m /\ cyl t' = cyl tw /\ head t' = head tw
        /\ hflag t' = hflag tw /\ num_sectors t' = num_sectors tw
        /\ sector_size_code t' = sector_size_code tw
        /\ sector_size t' = sector_size tw)
    /\ agree_below (num_sectors tw) (smap t') (smap tw)
    /\ map_read_back (truthy (Z.land (hflag tw) IMD_HFLAG_CMAP_PRES))
         (num_sectors tw) (cmap tw) (cyl tw) (cmap t')
    /\ map_read_back (truthy (Z.land (hflag tw) IMD_HFLAG_HMAP_PRES))
         (num_sectors tw) (hmap tw) (head tw) (hmap t')
    /\ forall i, 0 <= i < num_sectors tw ->
         arr_get (sflag t') i = arr_get fs i
         /\ sector_bytes t' i = read_back tw fs fill i.
Proof.
  intros Hseek Hl Hv Hm Hfs Hmem H.
  pose proof (lt_wf _ Hl) as Hwf. pose proof (lt_size _ Hl) as Hpos.
  pose proof Hv as (_ & Hhead & Hcode & Hsize & Hclean).
  pose proof (wf_head _ Hwf) as Hhb. unfold is_byte in Hhb.
  pose proof (wf_num_sectors _ Hwf) as Hnb.
  destruct (head_byte_decode (head tw) (hflag tw) ltac:(lia) (wf_hflag _ Hwf)
              Hclean) as (Hb & _ & _).
  pose proof (sector_size_lookup_range _ Hcode) as Hr. rewrite <- Hsize in Hr.
  assert (is_byte m) as Hmb
    by (unfold is_byte, LIBIMD_NUM_MODES in *; lia).
  unfold track_bytes, header_bytes in H.
  rewrite !map_app, <- !app_assoc in H. cbn [map app] in H.
  rewrite (u8_byte _ Hmb), (u8_byte _ (wf_cyl _ Hwf)), (u8_byte _ Hb),
    (u8_byte _ Hnb), (u8_byte _ (wf_size_code _ Hwf)),
    (map_u8_bytes _ (map_bytes_bytes _ Hwf)) in H.
  assert (0 <= f_pos f) as Hp0 by apply H.
  unfold imd_load_track, ftell. rewrite Hseek.
  destruct (Z.ltb_spec (f_pos f) 0); [lia|].
  destruct (read_track_header_bytes_holds (clearerr f) _ _ _ _ _ _ (f_pos f)
              (holds_at_clearerr _ _ H) Hmb (wf_cyl _ Hwf) Hb Hnb
              (wf_size_code _ Hwf)) as (f1 & -> & R1).
  change (read_past f f1 5
            (map_bytes tw
             ++ map u8 (records_from tw fs 0 (Z.to_nat (num_sectors tw)))
             ++ rest)) in R1.
  destruct (validate_header_of_record m tw Hwf Hv Hm)
    as (t1 & -> & Hm1 & Hc1 & Hh1 & Hf1 & Hn1 & Hsc1 & Hss1 & Hd1 & Hds1
        & Hld1 & Hsf1 & Hwf1).
  unfold is_byte in Hnb.
  destruct (Z.gtb_spec (num_sectors t1) LIBIMD_MAX_SECTORS_PER_TRACK);
    [unfold LIBIMD_MAX_SECTORS_PER_TRACK in *; lia|].
  destruct (read_track_maps_holds t1 tw true f1 _ Hwf Hn1 Hf1 (proj1 R1))
    as (t2 & f2 & -> & R2 & Hsame2 & Hd2 & Hsf2 & Hsm & Hcm & Hhm).
  destruct Hsame2 as (Hm2 & Hc2 & Hh2 & Hf2 & Hn2 & Hsc2 & Hss2 & Hds2 & Hld2).
  destruct (imd_alloc_track_data_ok h t2) as
    (t3 & -> & Hm3 & Hc3 & Hh3 & Hf3 & Hn3 & Hsc3 & Hss3 & Hsm3 & Hcm3 & Hhm3
     & Hsf3 & Hzero & Hnonzero);
    [congruence | congruence | congruence | by rewrite Hn2, Hn1, Hss2, Hss1 |].
  pose proof (read_past_trans _ _ _ _ _ _ _ R1 R2) as R12.
  assert (Z.of_nat (length (header_bytes m tw ++ map_bytes tw
                            ++ records_from tw fs 0
                                 (Z.to_nat (num_sectors tw))))
          = 5 + Z.of_nat (length (map_bytes tw))
            + Z.of_nat (length (records_from tw fs 0
                                  (Z.to_nat (num_sectors tw))))) as Hlen.
  { rewrite !length_app. cbn [header_bytes length]. lia. }
  unfold track_bytes. rewrite Hlen. cbv beta iota.
  rewrite Hc1 in Hcm. rewrite Hh1 in Hhm.
  destruct (Z.eqb_spec (num_sectors t3) 0) as [Hz|Hnz].
  - assert (num_sectors tw = 0) as Hz' by congruence.
    destruct (Hzero ltac:(congruence)) as [Hd3 Hds3].
    rewrite Hz' in *. change (Z.to_nat 0) with 0%nat in *.
    cbn [records_from map app length] in *.
    eexists _, _. split; [done|]. split; [by rewrite Z.add_0_r|].
    cbn [set_buffer mode cyl head hflag num_sectors sector_size_code
         sector_size smap cmap hmap].
    split; [split_and!; congruence|]. split; [intros i Hi; lia|].
    split; [intros i Hi; lia|]. split; intros i Hi; lia.
  - assert (num_sectors tw <> 0) as Hnz' by congruence.
    destruct (Hnonzero ltac:(congruence)) as [Hd3 Hds3].
    rewrite Hd3. cbn [is_null].
    destruct (load_records fill (f_pos f) tw fs Hl ltac:(lia)
                (Z.to_nat (num_sectors tw)) 0 f2 t3 _ rest ltac:(lia)
                ltac:(lia) ltac:(intros i Hi; apply Hfs; lia) (proj1 R2)
                ltac:(congruence) Hd3
                ltac:(rewrite length_replicate; rewrite Hn2, Hn1, Hss2, Hss1;
                      nia)
                ltac:(rewrite Hsf3, Hsf2, Hsf1; apply zero_array_length))
      as (f' & t4 & d' & E & R3 & Hsame4 & Hsm4 & Hcm4 & Hhm4 & Hd4 & Hlen4
          & _ & Hin & _).
    change (0 * sector_size tw) with 0 in E.
    rewrite Hn3, Hn2, Hn1, E.
    destruct Hsame4 as (Hm4 & Hc4 & Hh4 & Hf4 & Hn4 & Hsc4 & Hss4 & _ & _).
    eexists _, _. split; [done|].
    split; [exact (read_past_trans _ _ _ _ _ _ _ R12 R3)|].
    cbn [set_buffer mode cyl head hflag num_sectors sector_size_code
         sector_size smap cmap hmap sflag].
    split; [split_and!; congruence|].
    split; [by rewrite Hsm4, Hsm3|]. split; [by rewrite Hcm4, Hcm3|].
    split; [by rewrite Hhm4, Hhm3|].
    intros i Hi. destruct (Hin i ltac:(lia)) as [Hflag Hbytes].
    split; [done|]. unfold sector_bytes.
    cbn [set_buffer data sector_size]. rewrite Hd4.
    replace (sector_size t4) with (sector_size tw) by congruence. done.
Qed.

(** ** Writing a track and reading it back *)

Lemma uniform_replicate (l : list Z) :
  uniform l -> l = replicate (length l) (arr_get l 0).
Proof.
  intros Hu. apply list_eq. intros k.
  destruct (l !! k) as [x|] eqn:E.
  - assert (x = arr_get l 0) as Hx.
    { apply list_elem_of_lookup_2 in E as Hin.
      destruct l as [|y l']; [done|]. apply Hu; [done|].
      unfold arr_get. cbn. apply list_elem_of_here. }
    rewrite Hx in *. symmetry. apply lookup_replicate_2.
    by apply lookup_lt_Some in E.
  - symmetry. apply lookup_ge_None_2. rewrite length_replicate.
    by apply lookup_ge_None in E.
Qed.

Lemma imd_is_uniform_fill (p : list Z) (size : Z) :
  size <> 0 -> snd (imd_is_uniform (Some p) size 0) = arr_get p 0.
Proof.
  intros Hs. unfold imd_is_uniform.
  destruct (Z.eqb_spec size 0); [done|].
  by destruct (for_range_exit _ _ _ _).
Qed.

Lemma target_base_compressed (opts : ImdWriteOpts) (flag u : Z) :
  target_base_type opts flag u <> IMD_SDR_NORMAL -> u <> 0.
Proof.
  unfold target_base_type. intros H Hu. subst u.
  change (truthy 0) with false in H.
  by repeat (destruct (_ =? _) || destruct (IMD_SDR_IS_COMPRESSED _)).
Qed.

(** What the loader stores for a sector written with its final flag is
    what the track held, for every sector that is not unavailable. *)
Lemma read_back_written (opts : ImdWriteOpts) (tw : ImdTrackInfo)
    (fs : list Z) (fill i : Z) :
  loaded_track tw -> process_sector_flags opts tw = inl fs ->
  0 <= i < num_sectors tw ->
  0 <= arr_get fs i <= 8
  /\ (arr_get fs i = IMD_SDR_UNAVAILABLE
      <-> arr_get (sflag tw) i = IMD_SDR_UNAVAILABLE)
  /\ (arr_get (sflag tw) i <> IMD_SDR_UNAVAILABLE ->
      read_back tw fs fill i = sector_bytes tw i)
  /\ (arr_get (sflag tw) i = IMD_SDR_UNAVAILABLE ->
      read_back tw fs fill i = replicate (Z.to_nat (sector_size tw)) fill).
Proof.
  intros Hl Hfs Hi. pose proof (lt_size _ Hl) as Hpos.
  destruct (final_flag_of opts tw fs i Hl Hfs Hi) as [Hun Hav].
  destruct (sector_pointer_loaded tw i Hl Hi)
    as (d & Hd & Hlen & Hptr & Hbr & Hsl).
  assert (Forall is_byte (sector_bytes tw i)) as Hbytes.
  { rewrite <- Hbr. apply buf_read_bytes, Forall_drop.
    pose proof (lt_data _ Hl) as Hdd. rewrite Hd in Hdd. apply Hdd. }
  destruct (Z.eq_dec (arr_get (sflag tw) i) IMD_SDR_UNAVAILABLE) as [Hz|Hnz].
  - specialize (Hun Hz). split; [rewrite Hun; by vm_compute|].
    split; [done|]. split; [done|]. intros _. unfold read_back.
    by rewrite Hun.
  - destruct (Hav Hnz) as (u & Hu & Hflag).
    pose proof (combine_flag_range
                  (target_base_type opts (arr_get (sflag tw) i) u)
                  (truthy (IMD_SDR_HAS_DAM (arr_get (sflag tw) i))
                   && negb (truthy (force_non_deleted opts)))
                  (truthy (IMD_SDR_HAS_ERR (arr_get (sflag tw) i))
                   && negb (truthy (force_non_bad opts)))) as Hrange.
    rewrite <- Hflag in Hrange.
    split; [lia|]. split; [unfold IMD_SDR_UNAVAILABLE in *; split; lia|].
    split; [|done]. intros _. unfold read_back. cbv zeta.
    assert (IMD_SDR_HAS_DATA (arr_get fs i) = true) as ->
      by (unfold IMD_SDR_HAS_DATA; lia).
    destruct (IMD_SDR_IS_COMPRESSED (arr_get fs i)) eqn:Ecomp.
    + rewrite Hflag, combine_flag_compressed in Ecomp.
      apply negb_true_iff, Z.eqb_neq, target_base_compressed in Ecomp.
      destruct Hu as [[-> Huni]|[-> _]]; [|done].
      rewrite Hptr, imd_is_uniform_fill by lia.
      assert (is_byte (arr_get (sector_bytes tw i) 0)) as Hb0.
      { unfold arr_get. eapply Forall_lookup_1; [exact Hbytes|].
        apply list_lookup_lookup_total_lt. lia. }
      assert (arr_get (drop (Z.to_nat (i * sector_size tw)) d) 0
              = arr_get (sector_bytes tw i) 0) as ->.
      { rewrite <- Hbr. unfold buf_read. change (Z.to_nat 0) with 0%nat.
        rewrite drop_0. by rewrite arr_get_take by lia. }
      rewrite (u8_byte _ Hb0).
      etrans; [|symmetry; apply (uniform_replicate _ Huni)].
      f_equal. lia.
    + by apply map_u8_bytes.
Qed.

(** A track written by [imd_write_track_imd] to a stream that can be
    positioned and read back is read by [imd_load_track] from where the
    record starts, when the allocation of the data buffer
    ([num_sectors * sector_size] bytes) succeeds: the call returns 1 and
    stops where the writer stopped; the track it leaves has the header of
    the written track (with the translated mode), its sector IDs, its
    cylinder and head maps (the cylinder and head themselves when a map is
    not in the record), the same unavailable sectors, filled with the
    caller's fill byte, and for every other sector the bytes the track
    held, whatever the compression mode.  The written track is the
    caller's own when the interleave is kept. *)
Theorem write_track_then_load (h : Host) (fout f1 : FILE)
    (track any : ImdTrackInfo) (opts : ImdWriteOpts) (fill : Z) :
  loaded_track track -> valid_header track ->
  0 <= translate_mode opts track < LIBIMD_NUM_MODES ->
  0 <= f_pos fout -> f_seekable fout = true ->
  reads_below fout (f_pos f1) ->
  malloc_ok h (num_sectors track * sector_size track) = true ->
  imd_write_track_imd h fout track opts = Some (0, f1) ->
  exists tw f2 t',
    prepare_track_to_write h track opts = Some (inl tw)
    /\ (interleave_factor opts = LIBIMD_IL_AS_READ \/ num_sectors track <= 1
        -> tw = track)
    /\ imd_load_track h (rewound f1 (f_pos fout)) any fill = (1, f2, t')
    /\ f_pos f2 = f_pos f1
    /\ (mode t' = translate_mode opts track /\ cyl t' = cyl track
        /\ head t' = head track /\ hflag t' = hflag track
        /\ num_sectors t' = num_sectors track
        /\ sector_size_code t' = sector_size_code track
        /\ sector_size t' = sector_size track)
    /\ agree_below (num_sectors track) (smap t') (smap tw)
    /\ map_read_back (truthy (Z.land (hflag track) IMD_HFLAG_CMAP_PRES))
         (num_sectors track) (cmap tw) (cyl track) (cmap t')
    /\ map_read_back (truthy (Z.land (hflag track) IMD_HFLAG_HMAP_PRES))
         (num_sectors track) (hmap tw) (head track) (hmap t')
    /\ forall i, 0 <= i < num_sectors track ->
         (arr_get (sflag t') i = IMD_SDR_UNAVAILABLE
          <-> arr_get (sflag tw) i = IMD_SDR_UNAVAILABLE)
         /\ (arr_get (sflag tw) i <> IMD_SDR_UNAVAILABLE ->
             sector_bytes t' i = sector_bytes tw i)
         /\ (arr_get (sflag tw) i = IMD_SDR_UNAVAILABLE ->
             sector_bytes t' i
             = replicate (Z.to_nat (sector_size track)) fill).
Proof.
  intros Hl Hv Hm Hpos Hseek Hreads Hmem Hw.
  pose proof (imd_write_track_imd_settings _ _ _ _ _ Hw)
    as (Hfault & Hseek1 & _).
  destruct (write_track_emitted _ _ _ _ _ Hw) as (tw & fs & Hprep & Hfs & Hwrote).
  destruct (prepare_track_sectors _ _ _ _ Hl Hprep)
    as (Hltw & Hsame & Hkeep & _).
  destruct Hsame as (Hm' & Hc' & Hh' & Hf' & Hn' & Hsc' & Hss' & _ & _).
  assert (valid_header tw) as Hvtw.
  { destruct Hv as (? & ? & ? & ? & ?). unfold valid_header.
    rewrite Hm', Hh', Hsc', Hss', Hf'. by split_and!. }
  assert (translate_mode opts tw = translate_mode opts track) as Hmode
    by (unfold translate_mode; by rewrite Hm').
  rewrite Hmode in Hwrote.
  destruct (wrote_rewound_holds _ _ _ Hwrote Hpos Hfault) as [Hholds _].
  { destruct Hwrote as [_ <-]. exact Hreads. }
  rewrite <- (app_nil_r (map u8 _)) in Hholds.
  destruct (load_track_of_record h (rewound f1 (f_pos fout)) any fill
              (translate_mode opts track) tw fs [])
    as (f2 & t' & Hload & (_ & Hp2 & _) & Hhdr & Hsm & Hcm & Hhm & Hsec);
    try done.
  - cbn. congruence.
  - intros i Hi. by destruct (read_back_written opts tw fs fill i Hltw Hfs Hi).
  - by rewrite Hn', Hss'.
  - exists tw, f2, t'. split; [done|]. split; [done|]. split; [done|].
    split.
    { destruct Hwrote as [_ ->]. rewrite Hp2. cbn [rewound clearerr with_error
        with_pos f_pos]. by rewrite length_map. }
    rewrite Hn', Hc', Hh', Hf', Hsc', Hss' in *.
    split; [done|]. split; [done|]. split; [done|]. split; [done|].
    intros i Hi. destruct (Hsec i Hi) as [Hflag Hbytes].
    destruct (read_back_written opts tw fs fill i Hltw Hfs ltac:(lia))
      as (_ & Hun & Hav & Hfill).
    rewrite Hflag, Hbytes. rewrite Hss' in Hfill. done.
Qed.

(** [write_track_then_load] on a track with one uniform sector, written
    to an empty file. *)
Lemma write_track_then_load_witness :
  exists f1 f2 t',
    imd_write_track_imd host_ok (file_of [])
      (track_of 0 0 [1] [IMD_SDR_NORMAL] (replicate 128 0xE5))
      default_libimdf_write_opts = Some (0, f1)
    /\ imd_load_track host_ok (rewound f1 0) zero_track 0 = (1, f2, t')
    /\ f_pos f2 = f_pos f1
    /\ sector_bytes t' 0 = replicate 128 0xE5.
Proof.
  set (t := track_of 0 0 [1] [IMD_SDR_NORMAL] (replicate 128 0xE5)).
  assert (loaded_track t) as A1
    by (apply loaded_trackb_sound; vm_compute; reflexivity).
  assert (valid_header t) as A2 by (by vm_compute).
  assert (0 <= translate_mode default_libimdf_write_opts t
          < LIBIMD_NUM_MODES) as A3 by (by vm_compute).
  assert (forall p, reads_below (file_of []) p) as A4
    by (intros p k Hk; discriminate Hk).
  assert (0 <= 0 < num_sectors t) as A5 by (by vm_compute).
  assert (arr_get (sflag t) 0 <> IMD_SDR_UNAVAILABLE) as A6
    by (by vm_compute).
  assert (exists f1,
            imd_write_track_imd host_ok (file_of []) t
              default_libimdf_write_opts = Some (0, f1)) as [f1 E]
    by (eexists; vm_compute; reflexivity).
  destruct (write_track_then_load host_ok (file_of []) f1 t zero_track
              default_libimdf_write_opts 0 A1 A2 A3 (Z.le_refl 0) eq_refl
              (A4 (f_pos f1)) eq_refl E)
    as (tw & f2 & t' & _ & Hkeep & Hload & Hp & _ & _ & _ & _ & Hsec).
  rewrite (Hkeep (or_introl eq_refl)) in Hsec.
  destruct (Hsec 0 A5) as (_ & Hbytes & _).
  exists f1, f2, t'.
  exact (conj E (conj Hload (conj Hp (Hbytes A6)))).
Defined.

(** ** The two header readers *)

Section LoopSimulation.
Context {S1 S2 R1 R2 : Type}.

(** Two loops with exits whose bodies keep a relation between their
    states. *)
Lemma for_range_exit_sim (Rs : S1 -> S2 -> Prop) (Rr : R1 -> R2 -> Prop)
    (body1 : Z -> S1 -> S1 + R1) (body2 : Z -> S2 -> S2 + R2) :
  (forall i s1 s2, Rs s1 s2 ->
     match body1 i s1, body2 i s2 with
     | inl a, inl b => Rs a b
     | inr a, inr b => Rr a b
     | _, _ => False
     end) ->
  forall count start s1 s2,
    Rs s1 s2 ->
    match for_range_exit start count body1 s1,
          for_range_exit start count body2 s2 with
    | inl a, inl b => Rs a b
    | inr a, inr b => Rr a b
    | _, _ => False
    end.
Proof.
  intros Hstep. induction count as [|k IH]; intros start s1 s2 H;
    cbn [for_range_exit]; [done|].
  specialize (Hstep start s1 s2 H).
  destruct (body1 start s1) as [a|a], (body2 start s2) as [b|b]; try done.
  by apply IH.
Qed.

End LoopSimulation.

Lemma same_but_flags_set (t t' : ImdTrackInfo) (sf : list Z) :
  same_but_flags t t' -> same_but_flags t (with_sflag t' sf).
Proof. unfold same_but_flags. by intros <-. Qed.

(** One sector in both loops: the same result and the same stream; the
    skip loop leaves the track as it is. *)
Lemma read_and_skip_flag (start_pos i : Z) (f : FILE) (t t' : ImdTrackInfo) :
  same_but_flags t t' ->
  match read_and_skip start_pos i (f, t),
        read_flag_and_skip start_pos i (f, t') with
  | inl (f1, t1), inl (f2, t2) =>
      f2 = f1 /\ t1 = t /\ same_but_flags t t2
  | inr (rc1, f1, t1), inr (rc2, f2, t2) =>
      rc2 = rc1 /\ f2 = f1 /\ t1 = t /\ same_but_flags t t2
  | _, _ => False
  end.
Proof.
  intros Hs. pose proof (f_equal sector_size Hs) as Hss. cbn in Hss.
  unfold read_and_skip, read_flag_and_skip.
  destruct (read_byte f) as [[rc ty] f1].
  assert (forall sf, same_but_flags t (with_sflag t' sf)) as Hset
    by (intros sf; by apply same_but_flags_set).
  destruct rc as [|p|p]; [done| |done].
  destruct p; [done|done|].
  cbn [with_sflag with_maps sector_size]. rewrite Hss.
  destruct (skip_sector_data f1 ty (sector_size t) start_pos) as [rs f2].
  destruct rs as [|q|q]; [split; [done|split; [done|apply Hset]]| |];
    (split; [done|]; split; [done|]; split; [done|]; apply Hset).
Qed.

Lemma read_track_maps_sflag (t t2 : ImdTrackInfo) (synthesize ok : bool)
    (f f2 : FILE) :
  read_track_maps t synthesize f = (t2, ok, f2) -> sflag t2 = sflag t.
Proof.
  unfold read_track_maps.
  destruct (num_sectors t >? 0); [|by intros [= <- _ _]].
  destruct (read_map true _ _ f) as [[sm ok1] fa].
  destruct (negb ok1); [by intros [= <- _ _]|].
  destruct (read_map _ _ _ fa) as [[cm ok2] fb].
  destruct (negb ok2); [by intros [= <- _ _]|].
  destruct (read_map _ _ _ fb) as [[hm ok3] fc].
  by intros [= <- _ _].
Qed.

(** [imd_read_track_header] returns what
    [imd_read_track_header_and_flags] returns and leaves the stream as it
    leaves it, on every input; the two track structures differ in the
    sector flags at most, which [imd_read_track_header] leaves zeroed
    whenever [ftell] succeeds. *)
Theorem read_track_header_as_flags_reader (f : FILE) (track : ImdTrackInfo) :
  let '(rc, f1, t1) := imd_read_track_header f track in
  let '(rc2, f2, t2) := imd_read_track_header_and_flags f track in
  rc2 = rc /\ f2 = f1 /\ same_but_flags t1 t2
  /\ (0 <= ftell f -> sflag t1 = zero_array).
Proof.
  unfold imd_read_track_header, imd_read_track_header_and_flags.
  destruct (Z.ltb_spec (ftell f) 0) as [Hneg|Hpos].
  { split; [done|]. split; [done|]. split; [done|]. lia. }
  destruct (read_track_header_bytes (clearerr f) (ftell f))
    as [[got f1]|[[rc f1] got]]; [|done].
  unfold validate_track_header.
  destruct (_ || _); [done|].
  set (t1 := set_sector_size (header_fields got) _).
  destruct (sector_size t1 =? 0); [done|].
  destruct (read_track_maps t1 false f1) as [[t2 ok] f2] eqn:Emaps.
  apply read_track_maps_sflag in Emaps.
  change (sflag t1) with zero_array in Emaps.
  destruct ok; [|done].
  pose proof (for_range_exit_sim
    (fun (a b : FILE * ImdTrackInfo) =>
       fst b = fst a /\ snd a = t2 /\ same_but_flags t2 (snd b))
    (fun (a b : Z * FILE * ImdTrackInfo) =>
       fst (fst b) = fst (fst a) /\ snd (fst b) = snd (fst a)
       /\ snd a = t2 /\ same_but_flags t2 (snd b))
    (read_and_skip (ftell f)) (read_flag_and_skip (ftell f))) as Hsim.
  assert (forall i s1 s2,
            fst s2 = fst s1 /\ snd s1 = t2 /\ same_but_flags t2 (snd s2) ->
            match read_and_skip (ftell f) i s1,
                  read_flag_and_skip (ftell f) i s2 with
            | inl a, inl b =>
                fst b = fst a /\ snd a = t2 /\ same_but_flags t2 (snd b)
            | inr a, inr b =>
                fst (fst b) = fst (fst a) /\ snd (fst b) = snd (fst a)
                /\ snd a = t2 /\ same_but_flags t2 (snd b)
            | _, _ => False
            end) as Hstep.
  { intros i [fa ta] [fb tb] (Hf & Hta & Hs). cbn [fst snd] in *.
    subst fb ta.
    pose proof (read_and_skip_flag (ftell f) i fa t2 tb Hs) as H.
    destruct (read_and_skip (ftell f) i (fa, t2))
      as [[fa' ta']|[[ra fa'] ta']],
      (read_flag_and_skip (ftell f) i (fa, tb))
      as [[fb' tb']|[[rb fb'] tb']]; cbn [fst snd]; done. }
  specialize (Hsim Hstep (Z.to_nat (num_sectors t2)) 0 (f2, t2) (f2, t2)
                (conj eq_refl (conj eq_refl eq_refl))).
  destruct (for_range_exit 0 _ (read_and_skip (ftell f)) (f2, t2))
    as [[fa ta]|[[ra fa] ta]],
    (for_range_exit 0 _ (read_flag_and_skip (ftell f)) (f2, t2))
    as [[fb tb]|[[rb fb] tb]]; try done; cbn [fst snd] in Hsim.
  - destruct Hsim as (-> & -> & Hs). split; [done|]. split; [done|].
    split; [|done]. unfold same_but_flags in *.
    exact (f_equal (fun t => set_buffer t None 0 0) Hs).
  - destruct Hsim as (-> & -> & -> & Hs). done.
Qed.

(** ** A track record, passed over by the flags reader *)

Lemma holds_at_skip (f : FILE) (bs rest : list Z) :
  holds_at f (bs ++ rest) ->
  holds_at (with_pos (clearerr f) (f_pos f + Z.of_nat (length bs))) rest.
Proof.
  intros (Hp & Hb & Hf). split; [cbn; lia|]. split.
  - cbn. unfold buf_read in *. rewrite length_app in Hb.
    rewrite Nat2Z.id in *.
    apply (f_equal (drop (length bs))) in Hb.
    rewrite drop_app_length in Hb.
    replace (Z.to_nat (f_pos f + Z.of_nat (length bs)))
      with (Z.to_nat (f_pos f) + length bs)%nat by lia.
    by rewrite <- drop_drop, take_drop_commute.
  - cbn. intros k Hk. specialize (Hf k Hk). rewrite length_app in Hf. lia.
Qed.

(** The length of the data of a record, by its flag. *)
Lemma skip_sector_data_holds (f : FILE) (flag ss start : Z)
    (payload rest : list Z) :
  f_seekable f = true -> 0 <= flag <= 8 -> 0 < ss ->
  holds_at f (payload ++ rest) ->
  Z.of_nat (length payload)
  = (if IMD_SDR_HAS_DATA flag
     then if IMD_SDR_IS_COMPRESSED flag then 1 else ss
     else 0) ->
  exists f', skip_sector_data f flag ss start = (0, f')
             /\ read_past f f' (Z.of_nat (length payload)) rest.
Proof.
  intros Hseek Hflag Hss H Hlen.
  assert (0 <= f_pos f) as Hpos by apply H.
  assert (forall k, 0 < k -> Z.of_nat (length payload) = k ->
            exists f',
              (if k =? 0 then (0, f)
               else
                 let f0 := clearerr f in
                 let pos_before_seek := ftell f0 in
                 if pos_before_seek <? 0 then (IMD_ERR_SEEK_ERROR, f0)
                 else
                   match fseek_cur f0 k with
                   | (0, f1) =>
                       let pos_after_seek := ftell f1 in
                       if pos_after_seek <? 0
                       then (IMD_ERR_SEEK_ERROR, seek_back f1 start)
                       else if pos_after_seek =? pos_before_seek + k
                       then (0, f1)
                       else (IMD_ERR_READ_ERROR, seek_back f1 start)
                   | (_, f1) =>
                       match fseek_set (clearerr f1) pos_before_seek with
                       | (0, f2) => skip_by_reading (Z.to_nat k) k start f2
                       | (_, f2) => (IMD_ERR_SEEK_ERROR, seek_back f2 start)
                       end
                   end) = (0, f')
              /\ read_past f f' (Z.of_nat (length payload)) rest) as Hskip.
  { intros k Hk Hl. destruct (Z.eqb_spec k 0); [lia|]. cbv zeta.
    unfold ftell, fseek_cur, fseek_set.
    cbn [clearerr with_error f_seekable f_pos]. rewrite Hseek.
    destruct (Z.ltb_spec (f_pos f) 0); [lia|].
    destruct (Z.leb_spec 0 (f_pos f + k)); [|lia]. cbn [andb].
    cbn [with_pos clearerr with_error f_seekable f_pos]. rewrite Hseek.
    destruct (Z.ltb_spec (f_pos f + k) 0); [lia|]. rewrite Z.eqb_refl.
    eexists. split; [done|]. rewrite <- Hl. split.
    - exact (holds_at_skip f payload rest H).
    - by split. }
  assert ((if flag =? IMD_SDR_UNAVAILABLE then Some 0
           else if IMD_SDR_IS_COMPRESSED flag then Some 1
           else if (flag =? IMD_SDR_NORMAL) || (flag =? IMD_SDR_NORMAL_DAM)
                   || (flag =? IMD_SDR_NORMAL_ERR)
                   || (flag =? IMD_SDR_DELETED_ERR) then Some ss
           else None) = Some (Z.of_nat (length payload))) as Hd.
  { rewrite Hlen.
    assert (flag = 0 \/ flag = 1 \/ flag = 2 \/ flag = 3 \/ flag = 4
            \/ flag = 5 \/ flag = 6 \/ flag = 7 \/ flag = 8) as Hcases by lia.
    destruct Hcases as [->|[->|[->|[->|[->|[->|[->|[->| ->]]]]]]]];
      reflexivity. }
  unfold skip_sector_data. cbv zeta. rewrite Hd.
  destruct (Z.eq_dec (Z.of_nat (length payload)) 0) as [Hz|Hnz].
  - rewrite Hz. change (0 =? 0) with true. cbv iota.
    destruct payload; [|done]. exists f. split; [done|].
    by apply read_past_refl.
  - apply Hskip; lia.
Qed.

(** One record: the flags reader stores the flag and passes over the
    data. *)
Lemma scan_sector_record (p : Z) (tw : ImdTrackInfo) (fs : list Z)
    (i : Z) (f : FILE) (t : ImdTrackInfo) (rest : list Z) :
  f_seekable f = true ->
  loaded_track tw -> 0 <= i < num_sectors tw -> 0 <= arr_get fs i <= 8 ->
  holds_at f (map u8 (record_bytes tw fs i) ++ rest) ->
  sector_size t = sector_size tw ->
  exists f1,
    read_flag_and_skip p i (f, t)
    = inl (f1, with_sflag t (arr_set (sflag t) i (arr_get fs i)))
    /\ read_past f f1 (Z.of_nat (length (record_bytes tw fs i))) rest.
Proof.
  intros Hseek Hl Hi Hflag H Hss.
  destruct (sector_pointer_loaded tw i Hl Hi)
    as (d0 & Hd0 & Hlen0 & Hptr & Hbr & Hsl).
  pose proof (lt_size _ Hl) as Hpos.
  unfold record_bytes in *. cbv zeta in *.
  set (flag := arr_get fs i) in *.
  assert (is_byte flag) as Hfb by (unfold is_byte; lia).
  cbn [map app] in H. rewrite (u8_byte _ Hfb) in H.
  unfold read_flag_and_skip.
  destruct (read_byte_next _ _ _ H Hfb) as (f1 & -> & (H1 & Hp1 & Hs1)).
  cbv beta iota zeta. cbn [with_sflag with_maps sector_size]. rewrite Hss.
  destruct (skip_sector_data_holds f1 flag (sector_size tw) p _ rest
              ltac:(congruence) Hflag Hpos H1) as (f2 & -> & (H2 & Hp2 & Hs2)).
  { rewrite length_map. destruct (IMD_SDR_HAS_DATA flag); [|done].
    destruct (IMD_SDR_IS_COMPRESSED flag); [done|].
    destruct (Z.gtb_spec (sector_size tw) 0); [|lia].
    by rewrite Hptr, Hbr. }
  exists f2. split; [done|]. split; [done|]. rewrite length_map in Hp2.
  cbn [length]. split; [lia|congruence].
Qed.

(** The loop of [imd_read_track_header_and_flags] on the records of
    [tw]. *)
Lemma scan_records (p : Z) (tw : ImdTrackInfo) (fs : list Z) :
  loaded_track tw ->
  forall count start f t rest,
    f_seekable f = true ->
    0 <= start -> start + Z.of_nat count <= num_sectors tw ->
    (forall i, start <= i < start + Z.of_nat count ->
               0 <= arr_get fs i <= 8) ->
    holds_at f (map u8 (records_from tw fs start count) ++ rest) ->
    sector_size t = sector_size tw -> length (sflag t) = 256%nat ->
    exists f' t',
      for_range_exit start count (read_flag_and_skip p) (f, t)
      = inl (f', t')
      /\ read_past f f'
           (Z.of_nat (length (records_from tw fs start count))) rest
      /\ same_but_flags t t' /\ length (sflag t') = 256%nat
      /\ (forall i, start <= i < start + Z.of_nat count ->
            arr_get (sflag t') i = arr_get fs i)
      /\ (forall i, 0 <= i < start ->
            arr_get (sflag t') i = arr_get (sflag t) i).
Proof.
  intros Hl. pose proof (lt_size _ Hl) as Hpos.
  pose proof (wf_num_sectors _ (lt_wf _ Hl)) as Hnb. unfold is_byte in Hnb.
  induction count as [|k IH]; intros start f t rest Hseek Hs Hend Hfs H Hss
    Hsf; cbn [records_from for_range_exit].
  - exists f, t. split; [done|]. split; [by apply read_past_refl|].
    split; [done|]. split; [done|]. split; [intros i Hi; lia | done].
  - cbn [records_from] in H. rewrite map_app, <- app_assoc in H.
    destruct (scan_sector_record p tw fs start f t _ Hseek Hl ltac:(lia)
                (Hfs start ltac:(lia)) H Hss) as (f1 & -> & R1).
    set (t1 := with_sflag _ _).
    destruct (IH (start + 1) f1 t1 rest
                ltac:(destruct R1 as (_ & _ & ->); exact Hseek)
                ltac:(lia) ltac:(lia) ltac:(intros i Hi; apply Hfs; lia)
                (proj1 R1) Hss
                ltac:(subst t1; cbn; by rewrite arr_set_length))
      as (f' & t' & -> & R2 & Hsame & Hsf' & Hin & Hbelow).
    exists f', t'. split; [done|]. split.
    { rewrite length_app, Nat2Z.inj_add.
      exact (read_past_trans _ _ _ _ _ _ _ R1 R2). }
    split.
    { unfold same_but_flags in *. rewrite Hsame. by subst t1. }
    split; [done|]. split.
    + intros i Hi. destruct (Z.eq_dec i start) as [->|Hne].
      * rewrite (Hbelow start ltac:(lia)). subst t1.
        cbn [with_sflag with_maps sflag]. apply arr_get_set_eq. lia.
      * apply Hin. lia.
    + intros i Hi. rewrite (Hbelow i ltac:(lia)). subst t1.
      cbn [with_sflag with_maps sflag]. apply arr_get_set_ne. lia.
Qed.

(** [imd_read_track_header_and_flags] on a stream that holds the record
    of the track [tw] with the mode [m] and the flags [fs]. *)
Lemma scan_track_of_record (f : FILE) (track : ImdTrackInfo) (m : Z)
    (tw : ImdTrackInfo) (fs rest : list Z) :
  f_seekable f = true ->
  loaded_track tw -> valid_header tw -> 0 <= m < LIBIMD_NUM_MODES ->
  (forall i, 0 <= i < num_sectors tw -> 0 <= arr_get fs i <= 8) ->
  holds_at f (map u8 (track_bytes m tw fs) ++ rest) ->
  exists f' t',
    imd_read_track_header_and_flags f track = (1, f', t')
    /\ read_past f f' (Z.of_nat (length (track_bytes m tw fs))) rest
    /\ (mode t' = m /\ cyl t' = cyl tw /\ head t' = head tw
        /\ hflag t' = hflag tw /\ num_sectors t' = num_sectors tw
        /\ sector_size_code t' = sector_size_code tw
        /\ sector_size t' = sector_size tw)
    /\ (data t' = None /\ data_size t' = 0 /\ loaded t' = 0)
    /\ agree_below (num_sectors tw) (smap t') (smap tw)
    /\ map_read_back (truthy (Z.land (hflag tw) IMD_HFLAG_CMAP_PRES))
         (num_sectors tw) (cmap tw) 0 (cmap t')
    /\ map_read_back (truthy (Z.land (hflag tw) IMD_HFLAG_HMAP_PRES))
         (num_sectors tw) (hmap tw) 0 (hmap t')
    /\ agree_below (num_sectors tw) (sflag t') fs.
Proof.
  intros Hseek Hl Hv Hm Hfs H.
  pose proof (lt_wf _ Hl) as Hwf. pose proof (lt_size _ Hl) as Hpos.
  pose proof Hv as (_ & Hhead & Hcode & Hsize & Hclean).
  pose proof (wf_head _ Hwf) as Hhb. unfold is_byte in Hhb.
  pose proof (wf_num_sectors _ Hwf) as Hnb.
  destruct (head_byte_decode (head tw) (hflag tw) ltac:(lia) (wf_hflag _ Hwf)
              Hclean) as (Hb & _ & _).
  assert (is_byte m) as Hmb
    by (unfold is_byte, LIBIMD_NUM_MODES in *; lia).
  unfold track_bytes, header_bytes in H.
  rewrite !map_app, <- !app_assoc in H. cbn [map app] in H.
  rewrite (u8_byte _ Hmb), (u8_byte _ (wf_cyl _ Hwf)), (u8_byte _ Hb),
    (u8_byte _ Hnb), (u8_byte _ (wf_size_code _ Hwf)),
    (map_u8_bytes _ (map_bytes_bytes _ Hwf)) in H.
  assert (0 <= f_pos f) as Hp0 by apply H.
  unfold imd_read_track_header_and_flags, ftell. rewrite Hseek.
  destruct (Z.ltb_spec (f_pos f) 0); [lia|].
  destruct (read_track_header_bytes_holds (clearerr f) _ _ _ _ _ _ (f_pos f)
              (holds_at_clearerr _ _ H) Hmb (wf_cyl _ Hwf) Hb Hnb
              (wf_size_code _ Hwf)) as (f1 & -> & R1).
  change (read_past f f1 5
            (map_bytes tw
             ++ map u8 (records_from tw fs 0 (Z.to_nat (num_sectors tw)))
             ++ rest)) in R1.
  destruct (validate_header_of_record m tw Hwf Hv Hm)
    as (t1 & -> & Hm1 & Hc1 & Hh1 & Hf1 & Hn1 & Hsc1 & Hss1 & Hd1 & Hds1
        & Hld1 & Hsf1 & Hwf1).
  unfold is_byte in Hnb.
  destruct (read_track_maps_holds t1 tw false f1 _ Hwf Hn1 Hf1 (proj1 R1))
    as (t2 & f2 & -> & R2 & Hsame2 & Hd2 & Hsf2 & Hsm & Hcm & Hhm).
  destruct Hsame2 as (Hm2 & Hc2 & Hh2 & Hf2 & Hn2 & Hsc2 & Hss2 & Hds2 & Hld2).
  pose proof (read_past_trans _ _ _ _ _ _ _ R1 R2) as R12.
  assert (Z.of_nat (length (header_bytes m tw ++ map_bytes tw
                            ++ records_from tw fs 0
                                 (Z.to_nat (num_sectors tw))))
          = 5 + Z.of_nat (length (map_bytes tw))
            + Z.of_nat (length (records_from tw fs 0
                                  (Z.to_nat (num_sectors tw))))) as Hlen.
  { rewrite !length_app. cbn [header_bytes length]. lia. }
  unfold track_bytes. rewrite Hlen.
  destruct (scan_records (f_pos f) tw fs Hl (Z.to_nat (num_sectors tw)) 0
              f2 t2 rest
              ltac:(destruct R12 as (_ & _ & ->); exact Hseek)
              ltac:(lia) ltac:(lia) ltac:(intros i Hi; apply Hfs; lia)
              (proj1 R2) ltac:(congruence)
              ltac:(rewrite Hsf2, Hsf1; apply zero_array_length))
    as (f' & t3 & E & R3 & Hsame3 & _ & Hin & _).
  rewrite Hn2, Hn1, E.
  pose proof (f_equal mode Hsame3) as Hm3.
  pose proof (f_equal cyl Hsame3) as Hc3.
  pose proof (f_equal head Hsame3) as Hh3.
  pose proof (f_equal hflag Hsame3) as Hf3.
  pose proof (f_equal num_sectors Hsame3) as Hn3.
  pose proof (f_equal sector_size_code Hsame3) as Hsc3.
  pose proof (f_equal sector_size Hsame3) as Hss3.
  pose proof (f_equal smap Hsame3) as Hsm3.
  pose proof (f_equal cmap Hsame3) as Hcm3.
  pose proof (f_equal hmap Hsame3) as Hhm3.
  cbn in Hm3, Hc3, Hh3, Hf3, Hn3, Hsc3, Hss3, Hsm3, Hcm3, Hhm3.
  eexists _, _. split; [done|].
  split; [exact (read_past_trans _ _ _ _ _ _ _ R12 R3)|].
  cbn [set_buffer mode cyl head hflag num_sectors sector_size_code
       sector_size smap cmap hmap sflag data data_size loaded].
  split; [split_and!; congruence|]. split; [done|].
  split; [by rewrite Hsm3|]. split; [by rewrite Hcm3|].
  split; [by rewrite Hhm3|]. intros i Hi. apply Hin. lia.
Qed.

(** On a track written by [imd_write_track_imd] to a stream that can be
    positioned and read back, the flags reader and the loader agree when
    the loader's allocation of the data buffer
    ([num_sectors * sector_size] bytes) succeeds: from the start of the
    record both return 1 and stop
    where the writer stopped, and [imd_read_track_header_and_flags]
    leaves the header, the sector IDs and the sector flags that
    [imd_load_track] leaves, with no data buffer. *)
Theorem flags_reader_agrees_with_loader (h : Host) (fout f1 : FILE)
    (track any any' : ImdTrackInfo) (opts : ImdWriteOpts) (fill : Z) :
  loaded_track track -> valid_header track ->
  0 <= translate_mode opts track < LIBIMD_NUM_MODES ->
  0 <= f_pos fout -> f_seekable fout = true ->
  reads_below fout (f_pos f1) ->
  malloc_ok h (num_sectors track * sector_size track) = true ->
  imd_write_track_imd h fout track opts = Some (0, f1) ->
  exists f2 t2 f3 t3,
    imd_load_track h (rewound f1 (f_pos fout)) any fill = (1, f2, t2)
    /\ imd_read_track_header_and_flags (rewound f1 (f_pos fout)) any'
       = (1, f3, t3)
    /\ f_pos f2 = f_pos f1 /\ f_pos f3 = f_pos f1
    /\ (mode t3 = mode t2 /\ cyl t3 = cyl t2 /\ head t3 = head t2
        /\ hflag t3 = hflag t2 /\ num_sectors t3 = num_sectors t2
        /\ sector_size_code t3 = sector_size_code t2
        /\ sector_size t3 = sector_size t2)
    /\ num_sectors t2 = num_sectors track
    /\ agree_below (num_sectors track) (smap t3) (smap t2)
    /\ agree_below (num_sectors track) (sflag t3) (sflag t2)
    /\ data t3 = None /\ data_size t3 = 0 /\ loaded t3 = 0.
Proof.
  intros Hl Hv Hm Hpos Hseek Hreads Hmem Hw.
  pose proof (imd_write_track_imd_settings _ _ _ _ _ Hw)
    as (Hfault & Hseek1 & _).
  destruct (write_track_emitted _ _ _ _ _ Hw) as (tw & fs & Hprep & Hfs & Hwrote).
  destruct (prepare_track_sectors _ _ _ _ Hl Hprep)
    as (Hltw & Hsame & _ & _).
  destruct Hsame as (Hm' & Hc' & Hh' & Hf' & Hn' & Hsc' & Hss' & _ & _).
  assert (valid_header tw) as Hvtw.
  { destruct Hv as (? & ? & ? & ? & ?). unfold valid_header.
    rewrite Hm', Hh', Hsc', Hss', Hf'. by split_and!. }
  assert (translate_mode opts tw = translate_mode opts track) as Hmode
    by (unfold translate_mode; by rewrite Hm').
  rewrite Hmode in Hwrote.
  destruct (wrote_rewound_holds _ _ _ Hwrote Hpos Hfault) as [Hholds _].
  { destruct Hwrote as [_ <-]. exact Hreads. }
  rewrite <- (app_nil_r (map u8 _)) in Hholds.
  assert (f_seekable (rewound f1 (f_pos fout)) = true) as Hseek'
    by (cbn; congruence).
  assert (forall i, 0 <= i < num_sectors tw -> 0 <= arr_get fs i <= 8) as Hr.
  { intros i Hi.
    by destruct (read_back_written opts tw fs fill i Hltw Hfs Hi). }
  destruct (load_track_of_record h (rewound f1 (f_pos fout)) any fill
              (translate_mode opts track) tw fs [] Hseek' Hltw Hvtw Hm Hr
              ltac:(by rewrite Hn', Hss') Hholds)
    as (f2 & t2 & Hload & (_ & Hp2 & _) & Hhdr & Hsm & _ & _ & Hsec).
  destruct (scan_track_of_record (rewound f1 (f_pos fout)) any'
              (translate_mode opts track) tw fs [] Hseek' Hltw Hvtw Hm Hr
              Hholds)
    as (f3 & t3 & Hscan & (_ & Hp3 & _) & Hhdr3 & Hbuf & Hsm3 & _ & _ & Hsf3).
  exists f2, t2, f3, t3. split; [done|]. split; [done|].
  assert (f_pos (rewound f1 (f_pos fout))
          + Z.of_nat (length (track_bytes (translate_mode opts track) tw fs))
          = f_pos f1) as Hend.
  { destruct Hwrote as [_ ->]. cbn [rewound clearerr with_error with_pos
      f_pos]. by rewrite length_map. }
  split; [lia|]. split; [lia|].
  destruct Hhdr as (? & ? & ? & ? & ? & ? & ?).
  destruct Hhdr3 as (? & ? & ? & ? & ? & ? & ?).
  split; [split_and!; congruence|]. split; [congruence|].
  rewrite Hn' in *. split.
  { intros i Hi. by rewrite (Hsm i Hi), (Hsm3 i Hi). }
  split; [|done].
  intros i Hi. destruct (Hsec i Hi) as [-> _]. by apply Hsf3.
Qed.

(** [flags_reader_agrees_with_loader] on a track with one sector, written
    to an empty file. *)
Lemma flags_reader_agrees_with_loader_witness :
  exists f1 f2 t2 f3 t3,
    imd_write_track_imd host_ok (file_of [])
      (track_of 0 0 [1] [IMD_SDR_NORMAL] (replicate 128 0xE5))
      default_libimdf_write_opts = Some (0, f1)
    /\ imd_load_track host_ok (rewound f1 0) zero_track 0 = (1, f2, t2)
    /\ imd_read_track_header_and_flags (rewound f1 0) zero_track
       = (1, f3, t3)
    /\ f_pos f3 = f_pos f2
    /\ agree_below 1 (sflag t3) (sflag t2).
Proof.
  set (t := track_of 0 0 [1] [IMD_SDR_NORMAL] (replicate 128 0xE5)).
  assert (loaded_track t) as A1
    by (apply loaded_trackb_sound; vm_compute; reflexivity).
  assert (valid_header t) as A2 by (by vm_compute).
  assert (0 <= translate_mode default_libimdf_write_opts t
          < LIBIMD_NUM_MODES) as A3 by (by vm_compute).
  assert (forall p, reads_below (file_of []) p) as A4
    by (intros p k Hk; discriminate Hk).
  assert (exists f1,
            imd_write_track_imd host_ok (file_of []) t
              default_libimdf_write_opts = Some (0, f1)) as [f1 E]
    by (eexists; vm_compute; reflexivity).
  destruct (flags_reader_agrees_with_loader host_ok (file_of []) f1 t
              zero_track zero_track default_libimdf_write_opts 0 A1 A2 A3
              (Z.le_refl 0) eq_refl (A4 (f_pos f1)) eq_refl E)
    as (f2 & t2 & f3 & t3 & Hload & Hscan & Hp2 & Hp3 & _ & _ & _ & Hsf & _).
  exists f1, f2, t2, f3, t3.
  exact (conj E (conj Hload (conj Hscan
           (conj (eq_trans Hp3 (eq_sym Hp2)) Hsf)))).
Defined.

(** ** [imd_track_has_valid_sectors] *)


















(** ** Opening the file of a rewritten image *)

(** A successful [rewrite_image_file] on a file that can be truncated:
    the bytes of the file, the track writes that gave them and the
    device the stream is on. *)
Lemma rewrite_image_file_written (h : Host) (imdf : ImdImageFile)
    (idx : Z) (opts : option ImdWriteOpts) (f0 f' : FILE) :
  file_ptr imdf = Some f0 -> f_truncate_ok f0 = true ->
  rewrite_image_file h imdf idx opts = Some (IMDF_ERR_OK, Some f') ->
  exists timestamp f3 f4,
    local_timestamp h = Some timestamp
    /\ rewrite_tracks h (tracks imdf) 0 idx opts f3 = Some (inl f4)
    /\ f_content f' = image_bytes h imdf timestamp idx opts
    /\ f_seekable f' = true
    /\ f_read_fault f' = f_read_fault f0.
Proof.
  intros Hf0 Htr Hrun. unfold rewrite_image_file in Hrun. rewrite Hf0 in Hrun.
  unfold fseek_set in Hrun.
  destruct (f_seekable f0) eqn:Eseek; [|by injection Hrun].
  change (true && (0 <=? 0)) with true in Hrun. cbv iota in Hrun.
  set (f1 := with_pos f0 0) in Hrun.
  destruct (imd_write_file_header h f1 _) as [rc2 f2] eqn:Eh.
  destruct (imd_write_file_header_result _ _ _ _ _ Eh) as [->| ->];
    [|by injection Hrun].
  destruct (imd_write_comment_block f2 _ _) as [rc3 f3] eqn:Ec.
  destruct (imd_write_comment_block_result _ _ _ _ _ Ec) as [->| ->];
    [|by injection Hrun].
  destruct (rewrite_tracks h (tracks imdf) 0 idx opts f3) as [[f4|[rc f4]]|]
    eqn:Et; [| |done]; cbn [mbind option_bind] in Hrun.
  2:{ apply rewrite_tracks_failure in Et. by injection Hrun as -> _. }
  assert (same_settings f1 f4) as (Hfault & Hseek & _ & _ & _ & Htrunc).
  { apply (same_settings_trans _ f2);
      [by apply imd_write_file_header_settings in Eh|].
    apply (same_settings_trans _ f3);
      [by apply imd_write_comment_block_settings in Ec|].
    by apply (rewrite_tracks_settings _ _ _ _ _ _ _ Et). }
  destruct (imd_write_file_header_wrote _ _ _ _ Eh) as (ts & Hts & Hw1).
  apply imd_write_comment_block_bytes in Ec.
  pose proof (rewrite_tracks_wrote _ _ _ _ _ _ _ Et) as Hw3.
  pose proof (wrote_app _ _ _ _ _ Hw1 (wrote_app _ _ _ _ _ Ec Hw3)) as Hw.
  rewrite <- app_assoc in Hw.
  fold (image_bytes h imdf ts idx opts) in Hw.
  destruct (wrote_from_start _ _ _ Hw eq_refl) as (Hpos & Htake & Hlen).
  exists ts, f3, f4. split; [done|]. split; [done|].
  set (bs := image_bytes h imdf ts idx opts) in *. clearbody bs.
  destruct (negb (fflush f4 =? 0)); [by injection Hrun|].
  assert (ftell f4 = Z.of_nat (length bs)) as Htell.
  { unfold ftell. cbn in Hseek. by rewrite Hseek, Eseek. }
  rewrite Htell in Hrun.
  destruct (Z.ltb_spec (Z.of_nat (length bs)) 0) as [|_]; [lia|].
  unfold ftruncate in Hrun. cbn in Htrunc, Hseek, Hfault.
  rewrite Htrunc, Htr in Hrun. cbn [snd] in Hrun.
  destruct (negb (fflush _ =? 0)); [by injection Hrun|].
  injection Hrun as <-. cbn [f_pos f_content with_content f_seekable
    f_read_fault].
  rewrite Nat2Z.id.
  replace (length bs - length (f_content f4))%nat with 0%nat by lia.
  cbn [replicate]. rewrite app_nil_r, Htake.
  split; [done|]. split; [congruence|done].
Qed.

(** [imd_read_file_header] on a stream that holds a printed header
    line. *)
Lemma read_file_header_holds (h : Host) (f : FILE) (v : list Z)
    (hi : ImdHeaderInfo) (rest : list Z) :
  version_text v -> clock_time hi ->
  holds_at f (header_line_text v hi ++ [13; 10] ++ rest) ->
  exists f1,
    imd_read_file_header h (Some f) true None
    = (0, Some f1,
       Some (mkHeader v (day hi) (month hi) (year hi) (hour hi) (minute hi)
               (second hi)), None)
    /\ holds_at f1 rest
    /\ f_pos f1 = f_pos f + Z.of_nat (length (header_line_text v hi)) + 2
    /\ read_on f f1.
Proof.
  intros Hv Hclock Hh.
  pose proof (header_line_chars v hi Hv Hclock) as Hchars.
  set (line := header_line_text v hi) in *.
  assert (length line = (length v + 25)%nat) as Hlen.
  { unfold line, header_line_text, timestamp_text, two_digits, four_digits.
    rewrite !length_app. cbn [length]. change (length (bytes_of_string "IMD "))
      with 4%nat. change (length (bytes_of_string ": ")) with 2%nat. lia. }
  assert (line ++ [13; 10] ++ rest = ((line ++ [13]) ++ [10]) ++ rest) as Eq
    by (by rewrite <- !app_assoc).
  rewrite Eq in Hh.
  pose proof (holds_at_skip _ _ _ Hh) as Hrest.
  apply holds_at_nil_app in Hh.
  unfold imd_read_file_header, fgets.
  rewrite (fgets_loop_holds (line ++ [13]) _ _ [] (holds_at_clearerr _ _ Hh)).
  2:{ apply Forall_app. split; [|by repeat constructor].
      eapply Forall_impl; [exact Hchars|]. intros c Hc. cbn in Hc. tauto. }
  2:{ rewrite length_app, Hlen. destruct Hv as (Hvl & _). cbn [length].
      change (Z.to_nat (LIBIMD_MAX_HEADER_LINE - 1)) with 255%nat. lia. }
  cbn [app]. rewrite <- app_assoc. cbn [app].
  assert (c_string (line ++ [13; 10]) = line ++ [13; 10]) as ->.
  { apply span_while_all, Forall_app. split.
    - eapply Forall_impl; [exact Hchars|]. intros c (_ & Hc & _). cbn.
      by apply negb_true_iff, Z.eqb_neq.
    - by repeat constructor. }
  assert (cut_at_newline (line ++ [13; 10]) = line) as ->.
  { apply span_while_stop; [|done].
    eapply Forall_impl; [exact Hchars|]. intros c (_ & _ & H10 & H13). cbn.
    apply negb_true_iff, orb_false_iff. split; by apply Z.eqb_neq. }
  assert (has_prefix (bytes_of_string "IMD ") line = true) as ->.
  { unfold has_prefix, line, header_line_text. apply bool_decide_eq_true.
    apply take_app_length. }
  cbn [negb]. cbv iota.
  change (parse_header_line h line)
    with (parse_header_line h (header_line_text v hi)).
  rewrite (parse_header_line_printed h v hi Hv Hclock).
  eexists. split; [reflexivity|].
  rewrite !length_app in Hrest. cbn [length] in Hrest.
  rewrite length_app. cbn [length f_pos clearerr with_error with_pos].
  split; [|split; [lia|done]].
  replace (f_pos f + Z.of_nat (length line + 1) + 1)
    with (f_pos f + Z.of_nat (length line + 1 + 1)) by lia.
  exact Hrest.
Qed.

(** [imd_read_comment_block] on a stream that holds a comment and its end
    marker. *)
Lemma read_comment_block_holds (h : Host) (f : FILE) (c rest : list Z) :
  never_out_of_memory h ->
  Forall (fun b => b <> LIBIMD_COMMENT_EOF_MARKER) c ->
  holds_at f (c ++ [LIBIMD_COMMENT_EOF_MARKER] ++ rest) ->
  exists f2,
    imd_read_comment_block h f = Some (Some c, f2)
    /\ holds_at f2 rest /\ f_pos f2 = f_pos f + Z.of_nat (length c) + 1
    /\ read_on f f2.
Proof.
  intros Hmem Hc Hh. rewrite app_assoc in Hh.
  pose proof (holds_at_skip _ _ _ Hh) as Hrest.
  pose proof Hh as (_ & Hb & _).
  apply holds_at_nil_app in Hh.
  apply (f_equal length) in Hb. unfold buf_read in Hb.
  rewrite length_take, length_drop, !length_app in Hb. cbn [length] in Hb.
  rewrite length_app in Hrest. cbn [length] in Hrest.
  unfold imd_read_comment_block. rewrite Hmem. cbn [negb].
  rewrite (read_comment_loop_holds h c _ _ [] 1024 Hmem eq_refl
             (holds_at_clearerr _ _ Hh) Hc)
    by (unfold comment_fuel; cbn; lia).
  eexists. split; [reflexivity|]. split; [|done].
  cbn [f_pos clearerr with_error with_pos].
  replace (f_pos f + Z.of_nat (length c) + 1)
    with (f_pos f + Z.of_nat (length c + 1)) by lia.
  exact Hrest.
Qed.

(** [imd_load_track] at the end of the input. *)
Lemma load_track_at_end (h : Host) (f : FILE) (track : ImdTrackInfo)
    (fill : Z) :
  f_seekable f = true -> 0 <= f_pos f -> f_read_fault f = None ->
  at_end f ->
  exists f' t',
    imd_load_track h f track fill = (0, f', t') /\ read_on f f'
    /\ f_pos f' = f_pos f.
Proof.
  intros Hseek Hp Hfault Hend. unfold imd_load_track, ftell. rewrite Hseek.
  destruct (Z.ltb_spec (f_pos f) 0); [lia|].
  unfold read_track_header_bytes, read_byte, fgetc, read_faults.
  cbn [clearerr with_error f_read_fault f_pos f_content]. rewrite Hfault.
  rewrite lookup_ge_None_2 by (unfold at_end in Hend; lia).
  cbn [Z.ltb Z.compare]. eexists _, _. split; [reflexivity|]. done.
Qed.

Lemma keeps_order_default : keeps_order default_libimdf_write_opts.
Proof.
  split; [done|]. intros m Hm. unfold LIBIMD_NUM_MODES in *.
  assert (m = 0 \/ m = 1 \/ m = 2 \/ m = 3 \/ m = 4 \/ m = 5) as Hc by lia.
  repeat (destruct Hc as [-> | Hc]); try subst m; by vm_compute.
Qed.

Lemma keeps_order_rewrite_opts (idx : Z) (opts : option ImdWriteOpts)
    (i : Z) :
  (forall o, opts = Some o -> keeps_order o) ->
  keeps_order (rewrite_opts idx opts i).
Proof.
  intros Ho. unfold rewrite_opts. destruct opts as [o|].
  - destruct (i =? idx); [by apply Ho | apply keeps_order_default].
  - apply keeps_order_default.
Qed.

(** The record of a track written with the sector order kept, and the
    flags in it. *)
Lemma emitted_track_record (h : Host) (fw fw' : FILE) (t : ImdTrackInfo)
    (o : ImdWriteOpts) :
  loaded_track t -> valid_header t -> keeps_order o ->
  imd_write_track_imd h fw t o = Some (0, fw') ->
  exists fs,
    process_sector_flags o t = inl fs
    /\ emitted_track h t o = map u8 (track_bytes (translate_mode o t) t fs)
    /\ 0 <= translate_mode o t < LIBIMD_NUM_MODES
    /\ (0 < length (emitted_track h t o))%nat.
Proof.
  intros Hl Hv [Hil Hmodes] Hw.
  destruct (write_track_emitted _ _ _ _ _ Hw) as (tw & fs & Hprep & Hfs & _).
  destruct (prepare_track_sectors _ _ _ _ Hl Hprep) as (_ & _ & Hkeep & _).
  rewrite (Hkeep (or_introl Hil)) in *. clear Hkeep.
  exists fs. split; [done|].
  assert (emitted_track h t o
          = map u8 (track_bytes (translate_mode o t) t fs)) as He
    by (unfold emitted_track; by rewrite Hprep, Hfs).
  split; [done|]. split.
  - unfold translate_mode. destruct Hv as (Hm & _).
    pose proof (wf_mode _ (lt_wf _ Hl)) as Hb. unfold is_byte in Hb.
    destruct (Z.ltb_spec (mode t) LIBIMD_NUM_MODES); [|lia].
    apply Hmodes. lia.
  - rewrite He, length_map. unfold track_bytes, header_bytes.
    rewrite length_app. cbn [length]. lia.
Qed.

(** The track-reading loop of [imdf_open] on a stream that holds the
    records [rewrite_image_file] wrote for the tracks [ts], and nothing
    after them. *)
Lemma reopen_tracks (h : Host) (idx : Z) (opts : option ImdWriteOpts)
    (ts : list ImdTrackInfo) :
  never_out_of_memory h ->
  (forall o, opts = Some o -> keeps_order o) ->
  forall i fw fw' f acc cap fuel,
    Forall (fun t => loaded_track t /\ valid_header t) ts ->
    rewrite_tracks h ts i idx opts fw = Some (inl fw') ->
    f_seekable f = true -> f_read_fault f = None ->
    Forall is_byte (f_content f) ->
    holds_at f (emitted_tracks h ts i idx opts) ->
    f_pos f + Z.of_nat (length (emitted_tracks h ts i idx opts))
    = Z.of_nat (length (f_content f)) ->
    (length (emitted_tracks h ts i idx opts) < fuel)%nat -> 0 < cap ->
    exists f3 ts2 cap',
      open_tracks h fuel f acc cap = Some (0, f3, acc ++ ts2, cap')
      /\ tracks_read_back LIBIMD_FILL_BYTE_DEFAULT ts ts2 i idx opts
      /\ read_on f f3 /\ at_end f3.
Proof.
  intros Hmem Hopts.
  induction ts as [|t ts IH];
    intros i fw fw' f acc cap fuel Hts Hw Hseek Hfault Hbytes Hh Hend Hfuel
      Hcap;
    (destruct fuel as [|fuel]; [lia|]); cbn [open_tracks];
    (destruct (Z.leb_spec (cap * 2) cap) as [|_]; [lia|]);
    rewrite Hmem; cbn [orb negb]; rewrite andb_false_r;
    assert (0 <= f_pos f) as Hp by apply Hh.
  - cbn [emitted_tracks length] in Hend.
    destruct (load_track_at_end h f zero_track LIBIMD_FILL_BYTE_DEFAULT)
      as (f' & t' & -> & Hon & Hp'); try done.
    { unfold at_end. lia. }
    exists f', [], (if Z.of_nat (length acc) >=? cap then cap * 2 else cap).
    rewrite app_nil_r. split; [done|]. split; [done|]. split; [done|].
    unfold at_end. destruct Hon as (-> & _). lia.
  - apply Forall_cons in Hts as [[Hl Hv] Hts].
    cbn [rewrite_tracks] in Hw. fold (rewrite_opts idx opts i) in Hw.
    destruct (negb (truthy (loaded t))); [done|].
    destruct (imd_write_track_imd h fw t (rewrite_opts idx opts i))
      as [[res fw1]|] eqn:Ew; [|done].
    cbn [mbind option_bind] in Hw.
    destruct (Z.eqb_spec res 0) as [->|]; cbn [negb] in Hw; [|done].
    pose proof (keeps_order_rewrite_opts idx opts i Hopts) as Hko.
    destruct (emitted_track_record _ _ _ _ _ Hl Hv Hko Ew)
      as (fs & Hfs & He & Hm & Hlen).
    cbn [emitted_tracks] in Hh, Hend, Hfuel. rewrite length_app in Hend, Hfuel.
    set (rest := emitted_tracks h ts (i + 1) idx opts) in *.
    rewrite He in Hh.
    destruct (load_track_of_record h f zero_track LIBIMD_FILL_BYTE_DEFAULT
                (translate_mode (rewrite_opts idx opts i) t) t fs rest)
      as (f1 & t1 & Hload & (Hh1 & Hp1 & Hs1) & Hhdr & Hsm & Hcm & Hhm & Hsec);
      try done.
    { intros j Hj.
      by destruct (read_back_written (rewrite_opts idx opts i) t fs
                     LIBIMD_FILL_BYTE_DEFAULT j Hl Hfs Hj). }
    destruct (load_track_cases h f f1 zero_track t1 LIBIMD_FILL_BYTE_DEFAULT 1
                Hseek Hp Hbytes ltac:(by vm_compute) Hload)
      as ((Hc1 & Hsk1 & Hf1) & [(_ & Hl1 & _)|[(H01 & _)|([H01|H01] & _)]]);
      try discriminate H01.
    rewrite Hload.
    rewrite <- (length_map u8), <- He in Hp1.
    destruct (IH (i + 1) fw1 fw' f1 (acc ++ [t1])
                (if Z.of_nat (length acc) >=? cap then cap * 2 else cap) fuel)
      as (f3 & ts2 & cap' & -> & Hback & Hon3 & Hend3); try done.
    + congruence.
    + congruence.
    + by rewrite Hc1.
    + rewrite Hc1. fold rest. lia.
    + fold rest. lia.
    + destruct (_ >=? _); lia.
    + exists f3, (t1 :: ts2), cap'. rewrite <- app_assoc. split; [done|].
      split; [|split; [|done]].
      * cbn [tracks_read_back]. split; [|done]. split; [done|].
        split; [done|]. split; [done|]. split; [done|]. split; [done|].
        intros j Hj. destruct (Hsec j Hj) as [Hflag Hdata].
        destruct (read_back_written (rewrite_opts idx opts i) t fs
                    LIBIMD_FILL_BYTE_DEFAULT j Hl Hfs Hj)
          as (_ & Hun & Hav & Hfill).
        rewrite Hflag, Hdata. done.
      * apply (read_on_trans _ f1); [|done]. by split.
Qed.

Lemma u8_is_byte (z : Z) : is_byte (u8 z).
Proof. unfold is_byte, u8. pose proof (Z.mod_pos_bound z 256). lia. Qed.

Lemma map_u8_is_byte (l : list Z) : Forall is_byte (map u8 l).
Proof. apply Forall_map, Forall_forall. intros z _. apply u8_is_byte. Qed.

Lemma emitted_tracks_bytes (h : Host) (idx : Z) (opts : option ImdWriteOpts)
    (ts : list ImdTrackInfo) :
  forall i, Forall is_byte (emitted_tracks h ts i idx opts).
Proof.
  induction ts as [|t ts IH]; intros i; cbn [emitted_tracks]; [done|].
  apply Forall_app. split; [|apply IH]. unfold emitted_track.
  destruct (prepare_track_to_write h t _) as [[tw|]|]; try done.
  destruct (process_sector_flags _ tw); [apply map_u8_is_byte|done].
Qed.

(** A stream at the start of a file holds the whole file. *)
Lemma holds_at_start (f : FILE) :
  f_pos f = 0 -> f_read_fault f = None -> holds_at f (f_content f).
Proof.
  intros Hp Hf. split; [lia|]. split.
  - unfold buf_read. rewrite Hp, Nat2Z.id. cbn [Z.to_nat drop].
    by apply take_ge.
  - by rewrite Hf.
Qed.

(** [imdf_open] on the file a rewrite of the image [imdf] left, whose
    records were written by the track writes [rewrite_tracks] stands
    for. *)
Lemma open_image_bytes (h : Host) (f fw fw' : FILE) (imdf : ImdImageFile)
    (idx : Z) (opts : option ImdWriteOpts) (path : list Z) (read_only : Z)
    (hi : ImdHeaderInfo) :
  never_out_of_memory h ->
  (forall o, opts = Some o -> keeps_order o) ->
  clock_time hi -> version_text (version_to_write (header_info imdf)) ->
  Forall (fun b => is_byte b /\ b <> LIBIMD_COMMENT_EOF_MARKER)
    (comment_to_write imdf) ->
  Forall (fun t => loaded_track t /\ valid_header t) (tracks imdf) ->
  rewrite_tracks h (tracks imdf) 0 idx opts fw = Some (inl fw') ->
  f_content f = image_bytes h imdf (timestamp_text hi) idx opts ->
  f_pos f = 0 -> f_seekable f = true -> f_read_fault f = None ->
  exists f3 ts2 capacity,
    imdf_open h path (Some f) read_only
    = Some (IMDF_ERR_OK,
            Some (mkImage (Some f3) path
                    (if truthy read_only then 1 else 0)
                    (if truthy read_only then 1 else 0)
                    (mkHeader (version_to_write (header_info imdf)) (day hi)
                       (month hi) (year hi) (hour hi) (minute hi) (second hi))
                    (Some (comment_to_write imdf))
                    (Z.of_nat (length (comment_to_write imdf))) ts2 capacity
                    0xFF 0xFF 0xFF))
    /\ tracks_read_back LIBIMD_FILL_BYTE_DEFAULT (tracks imdf) ts2 0 idx opts
    /\ read_on f f3 /\ at_end f3.
Proof.
  intros Hmem Hopts Hclock Hv Hcmt Hts Hw Hc Hp Hseek Hfault.
  pose proof (holds_at_start f Hp Hfault) as Hh.
  assert (Forall is_byte (f_content f)) as Hbytes.
  { rewrite Hc. unfold image_bytes. repeat apply Forall_app_2.
    - apply map_u8_is_byte.
    - apply map_u8_is_byte.
    - by repeat constructor.
    - apply emitted_tracks_bytes. }
  pose proof (f_equal (@length Z) Hc) as Hlen.
  rewrite Hc in Hh. unfold image_bytes in Hh, Hlen.
  fold (comment_to_write imdf) in Hh, Hlen.
  set (v := version_to_write (header_info imdf)) in *.
  set (cmt := comment_to_write imdf) in *.
  set (recs := emitted_tracks h (tracks imdf) 0 idx opts) in *.
  assert (map u8 (bytes_of_string "IMD " ++ v ++ bytes_of_string ": "
                  ++ timestamp_text hi ++ [13; 10])
          = header_line_text v hi ++ [13; 10]) as Eline.
  { replace (bytes_of_string "IMD " ++ v ++ bytes_of_string ": "
             ++ timestamp_text hi ++ [13; 10])
      with (header_line_text v hi ++ [13; 10])
      by (unfold header_line_text; by rewrite <- !app_assoc).
    apply map_u8_bytes, Forall_app. split.
    - eapply Forall_impl; [exact (header_line_chars v hi Hv Hclock)|].
      intros c Hx. cbn in Hx. tauto.
    - repeat constructor; unfold is_byte; lia. }
  assert (map u8 cmt = cmt) as Ecmt.
  { apply map_u8_bytes. eapply Forall_impl; [exact Hcmt|].
    intros c Hx. cbn in Hx. tauto. }
  rewrite Eline, Ecmt, <- app_assoc in Hh.
  rewrite Eline, Ecmt, !length_app in Hlen. cbn [length] in Hlen.
  destruct (read_file_header_holds h f v hi _ Hv Hclock Hh)
    as (f1 & Eh & Hh1 & Hp1 & Hon1).
  destruct (read_comment_block_holds h f1 cmt recs Hmem) as
    (f2 & Ec & Hh2 & Hp2 & Hon2); [|done|].
  { eapply Forall_impl; [exact Hcmt|]. intros c Hx. cbn in Hx. tauto. }
  pose proof (read_on_trans _ _ _ Hon1 Hon2) as (Hc2 & Hs2 & Hf2).
  destruct (reopen_tracks h idx opts (tracks imdf) Hmem Hopts 0 fw fw' f2 []
              IMDF_INITIAL_TRACK_CAPACITY
              (Datatypes.S (length (f_content f2))))
    as (f3 & ts2 & cap & Eo & Hback & Hon3 & Hend); try done.
  - congruence.
  - congruence.
  - by rewrite Hc2.
  - fold recs. rewrite Hc2. lia.
  - fold recs. rewrite Hc2. lia.
  - exists f3, ts2, cap. split.
    + unfold imdf_open. rewrite !Hmem. cbn [negb]. rewrite Eh, Ec.
      cbn [mbind option_bind]. rewrite Eo. cbn [mbind option_bind app].
      done.
    + split; [done|]. split; [|done].
      apply (read_on_trans _ f2); [|done]. by split.
Qed.

(** The file [rewrite_image_file] leaves can be opened again: on a host
    that never runs out of memory and prints a time stamp of the usual
    form, for an image of loaded tracks with accepted headers, a version
    that fits a header line and a comment without the end marker,
    rewritten with the sector order kept to a file that can be truncated
    and raises no read error, [imdf_open] on the file succeeds; the image
    it builds has the version that was written with the time of the
    rewrite, the comment, and track by track what was in memory: the same
    header (with the translated mode), sector IDs and maps, the same
    unavailable sectors, filled with the default fill byte, and the bytes
    of every other sector. *)
Theorem rewrite_then_open (h : Host) (imdf : ImdImageFile) (idx : Z)
    (opts : option ImdWriteOpts) (f0 f' : FILE) (path : list Z)
    (read_only : Z) (hi : ImdHeaderInfo) :
  never_out_of_memory h ->
  local_timestamp h = Some (timestamp_text hi) -> clock_time hi ->
  version_text (version_to_write (header_info imdf)) ->
  Forall (fun b => is_byte b /\ b <> LIBIMD_COMMENT_EOF_MARKER)
    (comment_to_write imdf) ->
  Forall (fun t => loaded_track t /\ valid_header t) (tracks imdf) ->
  (forall o, opts = Some o -> keeps_order o) ->
  file_ptr imdf = Some f0 -> f_truncate_ok f0 = true ->
  f_read_fault f0 = None ->
  rewrite_image_file h imdf idx opts = Some (IMDF_ERR_OK, Some f') ->
  exists imdf2,
    imdf_open h path (Some (rewound f' 0)) read_only
    = Some (IMDF_ERR_OK, Some imdf2)
    /\ header_info imdf2
       = mkHeader (version_to_write (header_info imdf)) (day hi) (month hi)
           (year hi) (hour hi) (minute hi) (second hi)
    /\ comment imdf2 = Some (comment_to_write imdf)
    /\ comment_len imdf2 = Z.of_nat (length (comment_to_write imdf))
    /\ tracks_read_back LIBIMD_FILL_BYTE_DEFAULT (tracks imdf) (tracks imdf2)
         0 idx opts
    /\ (truthy (write_protected imdf2) = truthy read_only)
    /\ exists f3, file_ptr imdf2 = Some f3 /\ f_content f3 = f_content f'
                  /\ at_end f3.
Proof.
  intros Hmem Hstamp Hclock Hv Hcmt Hts Hopts Hf0 Htr Hfault Hrun.
  destruct (rewrite_image_file_written h imdf idx opts f0 f' Hf0 Htr Hrun)
    as (stamp & fw & fw' & Hstamp' & Hw & Hc & Hseek & Hfault').
  assert (stamp = timestamp_text hi) as -> by congruence.
  destruct (open_image_bytes h (rewound f' 0) fw fw' imdf idx opts path
              read_only hi) as (f3 & ts2 & cap & -> & Hback & Hon & Hend);
    try done.
  { cbn. congruence. }
  eexists. split; [reflexivity|]. cbn [header_info comment comment_len tracks
    write_protected file_ptr].
  split; [done|]. split; [done|]. split; [done|]. split; [done|].
  split; [by destruct (truthy read_only)|].
  exists f3. split; [done|]. split; [|done]. by destruct Hon as (-> & _).
Qed.

(** [rewrite_then_open] on an image with one track of two sectors,
    rewritten to an empty file. *)
Lemma rewrite_then_open_witness :
  exists f' imdf2,
    rewrite_image_file host_ok (image_of [] [uniform_mixed_track]) 0 None
    = Some (IMDF_ERR_OK, Some f')
    /\ imdf_open host_ok (bytes_of_string "a.imd") (Some (rewound f' 0)) 0
       = Some (IMDF_ERR_OK, Some imdf2)
    /\ comment imdf2 = Some (bytes_of_string "test")
    /\ tracks_read_back LIBIMD_FILL_BYTE_DEFAULT [uniform_mixed_track]
         (tracks imdf2) 0 0 None.
Proof.
  set (img := image_of [] [uniform_mixed_track]).
  set (hi := mkHeader [] 1 1 2025 0 0 0).
  assert (never_out_of_memory host_ok) as A1 by (intros n; reflexivity).
  assert (clock_time hi) as A2
    by (unfold clock_time, date_time_in_range; cbn; lia).
  assert (version_text (version_to_write (header_info img))) as A3.
  { change (version_to_write (header_info img)) with [49; 46; 49; 57].
    split; [cbn; lia|]. split; [|reflexivity].
    repeat (apply Forall_cons_2; [unfold is_byte, lit_colon; lia|]).
    apply Forall_nil_2. }
  assert (Forall (fun b => is_byte b /\ b <> LIBIMD_COMMENT_EOF_MARKER)
            (comment_to_write img)) as A4.
  { change (comment_to_write img) with [116; 101; 115; 116].
    repeat (apply Forall_cons_2;
            [unfold is_byte, LIBIMD_COMMENT_EOF_MARKER; lia|]).
    apply Forall_nil_2. }
  assert (Forall (fun t => loaded_track t /\ valid_header t) (tracks img))
    as A5.
  { apply Forall_cons_2; [|apply Forall_nil_2]. split.
    - apply loaded_trackb_sound. vm_compute. reflexivity.
    - by vm_compute. }
  assert (forall o : ImdWriteOpts, None = Some o -> keeps_order o) as A6
    by (intros o Ho; discriminate Ho).
  assert (exists f',
            rewrite_image_file host_ok img 0 None
            = Some (IMDF_ERR_OK, Some f')) as [f' E]
    by (eexists; vm_compute; reflexivity).
  destruct (rewrite_then_open host_ok img 0 None (file_of []) f'
              (bytes_of_string "a.imd") 0 hi A1 eq_refl A2 A3 A4 A5 A6
              eq_refl eq_refl eq_refl E)
    as (imdf2 & Hopen & _ & Hcmt & _ & Hback & _).
  exists f', imdf2.
  exact (conj E (conj Hopen (conj Hcmt Hback))).
Defined.

(** ** A sector written over an unavailable sector *)

(** The tracks read back, by index. *)
Lemma tracks_read_back_lookup (fill idx : Z) (opts : option ImdWriteOpts)
    (ts : list ImdTrackInfo) :
  forall ts' i,
    tracks_read_back fill ts ts' i idx opts ->
    length ts' = length ts
    /\ forall k t t',
         ts !! k = Some t -> ts' !! k = Some t' ->
         track_read_back fill
           (translate_mode (rewrite_opts idx opts (i + Z.of_nat k)) t) t t'.
Proof.
  induction ts as [|t0 ts IH]; intros [|t0' ts'] i; cbn [tracks_read_back];
    try done.
  intros [H0 Hrest]. destruct (IH _ _ Hrest) as [Hlen Hall]. split.
  - cbn [length]. by rewrite Hlen.
  - intros [|k] t t'; cbn [lookup list_lookup].
    + intros [= <-] [= <-]. by rewrite Z.add_0_r.
    + intros Ht Ht'. specialize (Hall k t t' Ht Ht').
      by replace (i + Z.of_nat (Datatypes.S k)) with (i + 1 + Z.of_nat k)
        by lia.
Qed.

(** [rewrite_image_file] returns the stream of an image that has one. *)
Lemma rewrite_image_file_stream (h : Host) (imdf : ImdImageFile) (idx : Z)
    (opts : option ImdWriteOpts) (f0 : FILE) (rc : Z) (fo : option FILE) :
  file_ptr imdf = Some f0 ->
  rewrite_image_file h imdf idx opts = Some (rc, fo) ->
  exists f', fo = Some f'.
Proof.
  intros Hf0. unfold rewrite_image_file. rewrite Hf0.
  destruct (fseek_set f0 0) as [r1 f1].
  destruct r1; try (intros [= _ <-]; by eexists).
  destruct (imd_write_file_header h f1 _) as [r2 f2].
  destruct r2; try (intros [= _ <-]; by eexists).
  destruct (imd_write_comment_block f2 _ _) as [r3 f3].
  destruct r3; try (intros [= _ <-]; by eexists).
  destruct (rewrite_tracks h (tracks imdf) 0 idx opts f3) as [[f4|[rc4 f4]]|];
    cbn [mbind option_bind]; [| |done].
  - destruct (negb (fflush f4 =? 0)); [intros [= _ <-]; by eexists|].
    destruct (negb _); intros [= _ <-]; by eexists.
  - intros [= _ <-]. by eexists.
Qed.

(** [imdf_write_sector] does not refuse an unavailable sector, and then
    the file and the memory part: the call stores the bytes in the track
    buffer and, after the rewrite of the file, marks the sector as one
    with data, so [imdf_read_sector] on the handle returns the bytes;
    but the rewrite ran while the sector was still marked unavailable and
    wrote no data for it, so once the file is opened again the sector is
    unavailable.  (Host, image and file as the rewrite and the reopening
    need them: enough memory, a time stamp of the usual form, loaded
    tracks with accepted headers, a version that fits a header line, a
    comment without the end marker, a file that can be truncated and
    raises no read error.) *)
Theorem write_to_unavailable_sector_not_stored (h : Host)
    (imdf imdf' : ImdImageFile) (c hd id : Z) (buf : list Z) (size : Z)
    (ti : Z) (t : ImdTrackInfo) (si : Z) (f0 : FILE) (path : list Z)
    (read_only : Z) (hi : ImdHeaderInfo) :
  never_out_of_memory h ->
  local_timestamp h = Some (timestamp_text hi) -> clock_time hi ->
  version_text (version_to_write (header_info imdf)) ->
  Forall (fun b => is_byte b /\ b <> LIBIMD_COMMENT_EOF_MARKER)
    (comment_to_write imdf) ->
  Forall (fun t => loaded_track t /\ valid_header t) (tracks imdf) ->
  file_ptr imdf = Some f0 -> f_truncate_ok f0 = true ->
  f_read_fault f0 = None ->
  Forall is_byte buf -> Z.of_nat (length buf) = size ->
  first_track_at imdf c hd ti t -> first_sector_with t id si ->
  arr_get (sflag t) si = IMD_SDR_UNAVAILABLE ->
  imdf_write_sector h imdf c hd id (Some buf) size
  = Some (IMDF_ERR_OK, imdf') ->
  (forall out osize,
     size <= osize ->
     imdf_read_sector imdf' c hd id (Some out) osize
     = (IMDF_ERR_OK, Some (buf ++ drop (Z.to_nat size) out)))
  /\ exists f' imdf2,
       file_ptr imdf' = Some f'
       /\ imdf_open h path (Some (rewound f' 0)) read_only
          = Some (IMDF_ERR_OK, Some imdf2)
       /\ forall out osize,
            imdf_read_sector imdf2 c hd id (Some out) osize
            = (IMDF_ERR_UNAVAILABLE, Some out).
Proof.
  intros Hmem Hstamp Hclock Hv Hcmt Hts Hf0 Htr Hfault Hbuf Hlen Hti Hsi Hflag
    Hrun.
  unfold imdf_write_sector in Hrun.
  destruct (truthy (write_protected imdf)); [by injection Hrun|].
  destruct (geometry_exceeded imdf c hd) eqn:Eg; [by injection Hrun|].
  cbv zeta in Hrun.
  destruct (find_track_index_spec imdf c hd) as [[E _]|(ti' & t' & E & Hti')];
    rewrite E in Hrun.
  { change (-1 <? 0) with true in Hrun. by injection Hrun. }
  destruct (first_track_at_unique _ _ _ _ _ _ _ Hti Hti') as [<- <-].
  clear Hti'. pose proof Hti as (Hti0 & Hlk & Hkey & Hfirst).
  destruct (Z.ltb_spec ti 0) as [|_]; [lia|].
  rewrite (track_at_lookup _ _ _ Hlk) in Hrun.
  assert (loaded_track t /\ valid_header t) as [Hlt Hvt]
    by exact (proj1 (Forall_lookup _ _) Hts _ _ Hlk).
  destruct (find_sector_index_spec t id) as [[Es _]|(si' & Es & Hsi')];
    rewrite Es in Hrun.
  { change (-1 <? 0) with true in Hrun. by injection Hrun. }
  rewrite <- (first_sector_with_unique _ _ _ _ Hsi Hsi') in Hrun.
  clear Es Hsi'. pose proof Hsi as (Hsi0 & Hid & Hsfirst).
  destruct (Z.ltb_spec si 0) as [|_]; [lia|].
  destruct (negb (max_spt imdf =? 0xFF) && (id >? max_spt imdf)
            && negb (id =? 0)) eqn:Espt; [by injection Hrun|].
  destruct (Z.eqb_spec size (sector_size t)) as [Hsz|]; cbn [negb] in Hrun;
    [|by injection Hrun].
  destruct (loaded_sector_bytes t si Hlt Hsi0)
    as (d & Hd & Hds & Hdlen & Hfit & Hbytes & Hblen).
  rewrite Hd in Hrun.
  destruct (Z.ltb_spec (data_size t) (si * sector_size t + sector_size t));
    [lia|].
  rewrite (buf_read_all buf (sector_size t)) in Hrun by lia.
  rewrite Hflag in Hrun.
  change (IMD_SDR_IS_COMPRESSED IMD_SDR_UNAVAILABLE) with false in Hrun.
  cbn [andb] in Hrun. cbv iota in Hrun.
  set (dnew := buf_write d (si * sector_size t) buf) in Hrun.
  set (track1 := with_data t (Some dnew)) in Hrun.
  set (wopts := with_compression default_libimdf_write_opts
                  IMD_COMPRESSION_AS_READ) in Hrun.
  destruct (rewrite_image_file h (set_track imdf ti track1) ti (Some wopts))
    as [[res fo]|] eqn:Erw; [|done].
  cbn [mbind option_bind] in Hrun.
  destruct (Z.eqb_spec res IMDF_ERR_OK) as [->|]; cbn [negb] in Hrun;
    [|by injection Hrun].
  injection Hrun as <-.
  pose proof (wf_sflag _ (lt_wf _ Hlt)) as [Hl256 Hall].
  pose proof (wf_num_sectors _ (lt_wf _ Hlt)) as Hnb. unfold is_byte in Hnb.
  assert (Forall is_byte dnew) as Hdb.
  { pose proof (lt_data _ Hlt) as Hdd. rewrite Hd in Hdd.
    apply buf_write_bytes; [by destruct Hdd | done]. }
  assert (Z.of_nat (length dnew) = data_size t) as Hdl.
  { unfold dnew.
    assert (length (buf_write d (si * sector_size t) buf) = length d) as ->
      by (apply buf_write_length; lia).
    done. }
  split.
  - intros out osize Hos.
    match goal with
    | |- context [predicted_sflag ?o ?a ?b] =>
        set (p := predicted_sflag o a b);
        assert (1 <= p <= 8) as Hp by apply combine_flag_range
    end.
    set (tnew := with_sflag track1 (arr_set (sflag track1) si p)).
    rewrite (imdf_read_sector_found _ c hd id out osize ti si tnew).
    + change (arr_get (sflag tnew) si)
        with (arr_get (arr_set (sflag t) si p) si).
      rewrite arr_get_set_eq by lia.
      destruct (Z.eqb_spec p IMD_SDR_UNAVAILABLE) as [Hz|_];
        [unfold IMD_SDR_UNAVAILABLE in Hz; lia|].
      change (sector_size tnew) with (sector_size t).
      destruct (Z.ltb_spec osize (sector_size t)); [lia|].
      do 3 f_equal; [|by rewrite Hsz].
      change (sector_bytes tnew si)
        with (buf_read dnew (si * sector_size t) (sector_size t)).
      unfold dnew. rewrite <- Hsz, <- Hlen.
      apply buf_read_write_same; lia.
    + apply read_geometry_test. cbn.
      unfold geometry_exceeded in Eg. by rewrite Eg, Espt.
    + apply (first_track_at_set imdf _ c hd ti t tnew Hti); [|done].
      cbn. apply list_insert_insert_eq.
    + apply (loaded_track_update t _ dnew Hlt); [|done|done].
      apply arr_set_bytes; [done | unfold is_byte; lia].
    + exact Hsi.
  - destruct (rewrite_image_file_stream h (set_track imdf ti track1) ti
                (Some wopts) f0 _ _ Hf0 Erw) as [f' ->].
    destruct (rewrite_image_file_written h (set_track imdf ti track1) ti
                (Some wopts) f0 f' Hf0 Htr Erw)
      as (stamp & fw & fw' & Hstamp' & Hw & Hc & Hseek & Hfault').
    assert (stamp = timestamp_text hi) as -> by congruence.
    assert (loaded_track track1) as Hl1
      by (apply (loaded_track_update t (sflag t) dnew Hlt); done).
    destruct (open_image_bytes h (rewound f' 0) fw fw'
                (set_track imdf ti track1) ti (Some wopts) path read_only hi)
      as (f3 & ts2 & cap & Hopen & Hback & _); try done.
    { intros o [= <-]. split; [done|]. apply keeps_order_default. }
    { cbn [tracks set_track with_tracks]. by apply Forall_insert. }
    { cbn. congruence. }
    exists f'. eexists. split; [done|]. split; [exact Hopen|].
    intros out osize.
    apply tracks_read_back_lookup in Hback as [Hlen2 Hback].
    cbn [tracks set_track with_tracks] in Hlen2, Hback.
    rewrite length_insert in Hlen2.
    pose proof (lookup_lt_Some _ _ _ Hlk) as Hlt1.
    destruct (lookup_lt_is_Some_2 ts2 (Z.to_nat ti) ltac:(lia)) as [t2 Ht2].
    destruct (Hback (Z.to_nat ti) track1 t2
                (list_lookup_insert_eq _ _ _ Hlt1) Ht2)
      as (Hl2 & (_ & Hc2 & Hh2 & _ & Hn2 & _ & _) & Hsm2 & _ & _ & Hsec2).
    change (num_sectors track1) with (num_sectors t) in *.
    change (smap track1) with (smap t) in *.
    change (sflag track1) with (sflag t) in *.
    rewrite (imdf_read_sector_found _ c hd id out osize ti si t2).
    + destruct (Hsec2 si Hsi0) as [Hun _].
      by rewrite (proj2 Hun Hflag).
    + cbn. split_and!; by left.
    + split; [done|]. split; [done|]. split.
      { unfold track_key in *. by rewrite Hc2, Hh2. }
      intros j t' Hj Ht'. cbn [tracks] in Ht'.
      destruct (lookup_lt_is_Some_2 (tracks imdf) (Z.to_nat j)) as [tj Htj];
        [apply lookup_lt_Some in Ht'; lia|].
      assert (<[Z.to_nat ti := track1]> (tracks imdf) !! Z.to_nat j = Some tj)
        as Htj1 by (rewrite list_lookup_insert_ne by lia; done).
      destruct (Hback (Z.to_nat j) tj t' Htj1 Ht')
        as (_ & (_ & Hcj & Hhj & _) & _).
      unfold track_key. rewrite Hcj, Hhj. by apply (Hfirst j).
    + exact Hl2.
    + split; [lia|]. split; [by rewrite Hsm2|].
      intros j Hj. rewrite Hsm2 by lia. by apply Hsfirst.
Qed.

(** [write_to_unavailable_sector_not_stored] on an image with one track
    of two unavailable sectors, in an empty file. *)
Lemma write_to_unavailable_sector_not_stored_witness :
  exists imdf' f' imdf2,
    imdf_write_sector host_ok (image_of [] [unavailable_pair_track]) 0 0 1
      (Some mixed_sector) 128 = Some (IMDF_ERR_OK, imdf')
    /\ imdf_read_sector imdf' 0 0 1 (Some (replicate 128 0)) 128
       = (IMDF_ERR_OK,
          Some (mixed_sector ++ drop (Z.to_nat 128) (replicate 128 0)))
    /\ file_ptr imdf' = Some f'
    /\ imdf_open host_ok (bytes_of_string "a.imd") (Some (rewound f' 0)) 0
       = Some (IMDF_ERR_OK, Some imdf2)
    /\ imdf_read_sector imdf2 0 0 1 (Some (replicate 128 0)) 128
       = (IMDF_ERR_UNAVAILABLE, Some (replicate 128 0)).
Proof.
  set (img := image_of [] [unavailable_pair_track]).
  set (hi := mkHeader [] 1 1 2025 0 0 0).
  assert (never_out_of_memory host_ok) as A1 by (intros n; reflexivity).
  assert (clock_time hi) as A2
    by (unfold clock_time, date_time_in_range; cbn; lia).
  assert (version_text (version_to_write (header_info img))) as A3.
  { change (version_to_write (header_info img)) with [49; 46; 49; 57].
    split; [cbn; lia|]. split; [|reflexivity].
    repeat (apply Forall_cons_2; [unfold is_byte, lit_colon; lia|]).
    apply Forall_nil_2. }
  assert (Forall (fun b => is_byte b /\ b <> LIBIMD_COMMENT_EOF_MARKER)
            (comment_to_write img)) as A4.
  { change (comment_to_write img) with [116; 101; 115; 116].
    repeat (apply Forall_cons_2;
            [unfold is_byte, LIBIMD_COMMENT_EOF_MARKER; lia|]).
    apply Forall_nil_2. }
  assert (Forall (fun t => loaded_track t /\ valid_header t) (tracks img))
    as A5.
  { apply Forall_cons_2; [|apply Forall_nil_2]. split.
    - apply loaded_trackb_sound. vm_compute. reflexivity.
    - by vm_compute. }
  assert (Forall is_byte mixed_sector) as A6.
  { apply Forall_app. split; [|apply Forall_replicate]; 
      repeat constructor; unfold is_byte; lia. }
  assert (first_track_at img 0 0 0 unavailable_pair_track) as A7.
  { split; [lia|]. split; [reflexivity|]. split; [reflexivity|]. lia. }
  assert (first_sector_with unavailable_pair_track 1 0) as A8.
  { split; [cbn; lia|]. split; [reflexivity|]. lia. }
  assert (128 <= 128) as A9 by lia.
  assert (exists imdf',
            imdf_write_sector host_ok img 0 0 1 (Some mixed_sector) 128
            = Some (IMDF_ERR_OK, imdf')) as [imdf' E]
    by (eexists; vm_compute; reflexivity).
  destruct (write_to_unavailable_sector_not_stored host_ok img imdf' 0 0 1
              mixed_sector 128 0 unavailable_pair_track 0 (file_of [])
              (bytes_of_string "a.imd") 0 hi A1 eq_refl A2 A3 A4 A5 eq_refl
              eq_refl eq_refl A6 eq_refl A7 A8 eq_refl E)
    as (Hmem & f' & imdf2 & Hf & Hopen & Hfile).
  exists imdf', f', imdf2.
  exact (conj E (conj (Hmem (replicate 128 0) 128 A9)
                   (conj Hf (conj Hopen (Hfile (replicate 128 0) 128))))).
Defined.

(** ** The sector statistics of the scanner *)

Lemma count_where_succ (p : Z -> bool) (flags : list Z) (i : Z) :
  0 <= i -> (Z.to_nat i < length flags)%nat ->
  count_where p flags (i + 1)
  = count_where p flags i + (if p (arr_get flags i) then 1 else 0).
Proof.
  intros Hi Hlen. unfold count_where.
  replace (Z.to_nat (i + 1)) with (Datatypes.S (Z.to_nat i)) by lia.
  destruct (lookup_lt_is_Some_2 flags (Z.to_nat i) Hlen) as [x Hx].
  rewrite (take_S_r _ _ _ Hx), List.filter_app, length_app.
  unfold arr_get. rewrite (list_lookup_total_correct _ _ _ Hx).
  cbn [List.filter]. destruct (p x); cbn [length]; lia.
Qed.

Lemma count_where_nonneg (p : Z -> bool) (flags : list Z) (n : Z) :
  0 <= count_where p flags n.
Proof. unfold count_where. lia. Qed.

Lemma bit_where_succ (p : Z -> bool) (flags : list Z) (i bit : Z) :
  0 <= i -> (Z.to_nat i < length flags)%nat ->
  bit_where p flags (i + 1) bit
  = if p (arr_get flags i) then bit else bit_where p flags i bit.
Proof.
  intros Hi Hlen. unfold bit_where. rewrite count_where_succ by done.
  pose proof (count_where_nonneg p flags i).
  destruct (p (arr_get flags i)); [|by rewrite Z.add_0_r].
  by destruct (Z.ltb_spec 0 (count_where p flags i + 1)); [|lia].
Qed.

Lemma lor_bit_where (m : Z) (p : Z -> bool) (flags : list Z) (i bit : Z) :
  Z.lor (Z.lor m (bit_where p flags i bit)) bit = Z.lor m bit.
Proof.
  unfold bit_where. destruct (0 <? _).
  - by rewrite <- Z.lor_assoc, Z.lor_diag.
  - by rewrite Z.lor_0_r.
Qed.

(** What [check_sflag_consistency_and_stats_internal] adds to the results
    for a track of [n] sectors: [n] to the sector total; to the count of
    unavailable sectors the number of flags outside the codes with data
    (a value above 8 counts as unavailable); to the counts of deleted,
    compressed and data-error sectors the numbers of flags with data that
    have the mark; to the failure mask the invalid-flag bit when a flag is
    above 8, the data-error bit when a sector was counted as one with a
    data error and the deleted-data bit when one was counted as deleted.
    Nothing else in the results changes. *)
Theorem sflag_statistics (track : ImdTrackInfo) (r : ImdChkResults) :
  wf_track track ->
  check_sflag_consistency_and_stats_internal track r
  = mkChkResults
      (Z.lor
         (Z.lor
            (Z.lor (check_failures_mask r)
               (bit_where flag_invalid (sflag track) (num_sectors track)
                  CHECK_BIT_INV_SFLAG_VALUE))
            (bit_where flag_data_error (sflag track) (num_sectors track)
               CHECK_BIT_SFLAG_DATA_ERR))
         (bit_where flag_deleted (sflag track) (num_sectors track)
            CHECK_BIT_SFLAG_DEL_DAM))
      (total_sector_count r + num_sectors track)
      (unavailable_sector_count r
       + count_where flag_no_data (sflag track) (num_sectors track))
      (deleted_sector_count r
       + count_where flag_deleted (sflag track) (num_sectors track))
      (compressed_sector_count r
       + count_where flag_compressed (sflag track) (num_sectors track))
      (data_error_sector_count r
       + count_where flag_data_error (sflag track) (num_sectors track))
      (track_read_count r) (max_cyl_side0 r) (max_cyl_side1 r)
      (max_head_seen r) (detected_interleave r).
Proof.
  intros Hwf. pose proof (wf_num_sectors _ Hwf) as Hn. unfold is_byte in Hn.
  pose proof (wf_sflag _ Hwf) as [Hlen _].
  set (n := num_sectors track) in *. set (fl := sflag track) in *.
  unfold check_sflag_consistency_and_stats_internal. fold n fl.
  destruct (Z.eqb_spec n 0) as [-> | Hnz].
  { unfold bit_where, count_where, with_counts. cbn [Z.to_nat take List.filter
      length Z.of_nat Z.ltb Z.compare].
    rewrite !Z.lor_0_r, !Z.add_0_r. by destruct r. }
  set (P := fun (i : Z) (st : ImdChkResults * bool * bool) =>
    let '(res, e, d) := st in
    res = mkChkResults
            (Z.lor (check_failures_mask r)
               (bit_where flag_invalid fl i CHECK_BIT_INV_SFLAG_VALUE))
            (total_sector_count r + n)
            (unavailable_sector_count r + count_where flag_no_data fl i)
            (deleted_sector_count r + count_where flag_deleted fl i)
            (compressed_sector_count r + count_where flag_compressed fl i)
            (data_error_sector_count r + count_where flag_data_error fl i)
            (track_read_count r) (max_cyl_side0 r) (max_cyl_side1 r)
            (max_head_seen r) (detected_interleave r)
    /\ e = (0 <? count_where flag_data_error fl i)
    /\ d = (0 <? count_where flag_deleted fl i)).
  match goal with
  | |- context [for_range 0 ?k ?body ?init] =>
      pose proof (for_range_inv P body k 0 init) as H;
      destruct (for_range 0 k body init) as [[res e] d]
  end.
  assert (P (0 + Z.of_nat (Z.to_nat n)) (res, e, d)) as (-> & -> & ->).
  { apply H.
    - unfold P, bit_where, count_where, with_counts. cbn [Z.to_nat take
        List.filter length Z.of_nat Z.ltb Z.compare].
      by rewrite !Z.lor_0_r, !Z.add_0_r.
    - clear H. intros i [[res' e'] d'] Hi (-> & -> & ->).
      assert (0 <= i) as Hi0 by lia.
      assert (Z.to_nat i < length fl)%nat as Hil by lia.
      unfold P.
      rewrite (count_where_succ flag_no_data), (count_where_succ flag_deleted),
        (count_where_succ flag_compressed),
        (count_where_succ flag_data_error), (bit_where_succ flag_invalid)
        by done.
      unfold flag_no_data, flag_deleted, flag_compressed, flag_data_error,
        flag_invalid.
      set (flag := arr_get fl i).
      pose proof (count_where_nonneg
                    (fun x => IMD_SDR_HAS_DATA x && truthy (IMD_SDR_HAS_ERR x))
                    fl i) as He.
      pose proof (count_where_nonneg
                    (fun x => IMD_SDR_HAS_DATA x && truthy (IMD_SDR_HAS_DAM x))
                    fl i) as Hd.
      assert (forall (b : bool) (k : Z), 0 <= k ->
                (0 <? k) || b = (0 <? k + (if b then 1 else 0))) as Hor.
      { intros b k Hk. destruct b; [|by rewrite Z.add_0_r, orb_false_r].
        rewrite orb_true_r. symmetry. apply Z.ltb_lt. lia. }
      destruct (flag >? IMD_SDR_COMPRESSED_DEL_ERR);
        destruct (IMD_SDR_HAS_DATA flag); cbn [negb andb];
        unfold raise_bit, with_counts; cbn [check_failures_mask
          total_sector_count unavailable_sector_count deleted_sector_count
          compressed_sector_count data_error_sector_count track_read_count
          max_cyl_side0 max_cyl_side1 max_head_seen detected_interleave];
        rewrite ?lor_bit_where, ?Z.add_0_r, <- ?Z.add_assoc, <- ?Hor by done;
        done. }
  replace (0 + Z.of_nat (Z.to_nat n)) with n by lia.
  assert (forall p bit,
            bit_where p fl n bit = if 0 <? count_where p fl n then bit else 0)
    as Hbw by done.
  rewrite (Hbw flag_data_error), (Hbw flag_deleted).
  destruct (0 <? count_where flag_data_error fl n);
    destruct (0 <? count_where flag_deleted fl n);
    unfold raise_bit; cbn [check_failures_mask total_sector_count
      unavailable_sector_count deleted_sector_count compressed_sector_count
      data_error_sector_count track_read_count max_cyl_side0 max_cyl_side1
      max_head_seen detected_interleave];
    by rewrite ?Z.lor_0_r.
Qed.

(** [sflag_statistics] on a track with a compressed sector, a flag above
    the last code, an unavailable sector and a deleted sector with a data
    error. *)
Lemma sflag_statistics_witness :
  check_sflag_consistency_and_stats_internal
    (track_of 0 0 [1; 2; 3; 4]
       [IMD_SDR_COMPRESSED; 9; IMD_SDR_UNAVAILABLE; IMD_SDR_DELETED_ERR]
       (replicate 512 0))
    initial_results
  = mkChkResults
      (Z.lor CHECK_BIT_INV_SFLAG_VALUE
         (Z.lor CHECK_BIT_SFLAG_DATA_ERR CHECK_BIT_SFLAG_DEL_DAM))
      4 2 1 1 1 0 (-1) (-1) (-1) (-1).
Proof.
  etrans.
  - apply sflag_statistics, lt_wf, loaded_trackb_sound.
    vm_compute. reflexivity.
  - vm_compute. reflexivity.
Defined.

(** ** Formatting a track *)

Lemma arr_get_byte (m : list Z) (i : Z) :
  Forall is_byte m -> is_byte (arr_get m i).
Proof.
  intros Hm. unfold arr_get. rewrite list_lookup_total_alt.
  destruct (m !! Z.to_nat i) as [x|] eqn:E; cbn.
  - by apply (proj1 (Forall_lookup _ _) Hm _ _ E).
  - unfold is_byte. change (inhabitant : Z) with 0. lia.
Qed.

Lemma memcpy_arr_byte_array (dst src : list Z) (n : Z) :
  byte_array dst -> Forall is_byte src -> 0 <= n <= 256 ->
  (Z.to_nat n <= length src)%nat ->
  byte_array (memcpy_arr dst src n).
Proof.
  intros [Hl Hd] Hs Hn Hlen. unfold memcpy_arr. split.
  - rewrite length_app, length_take, length_drop. lia.
  - apply Forall_app. split; [by apply Forall_take | by apply Forall_drop].
Qed.

(** A successful allocation for a track with sectors. *)
Lemma imd_alloc_track_data_success (h : Host) (t t3 : ImdTrackInfo) :
  imd_alloc_track_data h t = (0, t3) -> num_sectors t <> 0 ->
  t3 = set_buffer (set_sector_size t (imd_get_sector_size t))
         (Some (replicate
                  (Z.to_nat (num_sectors t * imd_get_sector_size t)) 0))
         (num_sectors t * imd_get_sector_size t) (loaded t).
Proof.
  unfold imd_alloc_track_data, IMD_ERR_ALLOC, IMD_ERR_INVALID_ARG.
  destruct (negb (is_null (data t))); [by intros [=]|].
  destruct (imd_get_sector_size t =? 0); [by intros [=]|].
  cbn [num_sectors set_sector_size set_header loaded].
  intros H Hn. destruct (Z.eqb_spec (num_sectors t) 0); [done|].
  destruct (negb (malloc_ok h _)); [by injection H|]. by injection H as <-.
Qed.

(** The loop of [imdf_write_track] over the sector slots. *)
Lemma populate_maps (n : Z) (smap_arg : option (list Z)) (sf0 sm0 : list Z) :
  byte_array sf0 -> byte_array sm0 -> 0 <= n <= 256 ->
  (forall m, smap_arg = Some m -> Forall is_byte m) ->
  forall sf sm,
    for_range 0 (Z.to_nat n)
      (fun i '(sf, sm) =>
         (arr_set sf i IMD_SDR_NORMAL,
          arr_set sm i (match smap_arg with
                        | Some m => arr_get m i
                        | None => u8 (i + 1)
                        end)))
      (sf0, sm0) = (sf, sm) ->
    byte_array sf /\ byte_array sm
    /\ forall i, 0 <= i < n ->
         arr_get sm i = sector_id_arg smap_arg i
         /\ arr_get sf i = IMD_SDR_NORMAL.
Proof.
  intros Hsf Hsm Hn Harg sf sm.
  match goal with
  | |- for_range 0 ?count ?body ?init = _ -> _ =>
      pose proof (for_range_inv
                    (fun j (st : list Z * list Z) =>
                       byte_array (fst st) /\ byte_array (snd st)
                       /\ forall i, 0 <= i < j ->
                            arr_get (snd st) i = sector_id_arg smap_arg i
                            /\ arr_get (fst st) i = IMD_SDR_NORMAL)
                    body count 0 init) as H
  end.
  intros E. rewrite E in H. cbn [fst snd] in H.
  replace (0 + Z.of_nat (Z.to_nat n)) with n in H by lia.
  apply H; clear H E.
  - split; [done|]. split; [done|]. intros i Hi. lia.
  - intros k [sf' sm'] Hk (Hb1 & Hb2 & Hget). cbn [fst snd] in *.
    assert (is_byte (sector_id_arg smap_arg k)) as Hid.
    { unfold sector_id_arg. destruct smap_arg as [m|].
      - by apply arr_get_byte, Harg.
      - apply u8_is_byte. }
    split; [apply arr_set_bytes; [done | by vm_compute]|].
    split; [by apply arr_set_bytes|].
    intros i Hi. destruct Hb1 as [Hl1 _], Hb2 as [Hl2 _].
    rewrite !arr_get_set by lia.
    destruct (Z.eqb_spec k i) as [->|Hne]; [done|]. apply Hget. lia.
Qed.

(** The flags after the loop of [mark_track_compressed]. *)
Lemma mark_compressed_flags (n : Z) (sf0 : list Z) :
  byte_array sf0 -> 0 <= n <= 256 ->
  let sf := for_range 0 (Z.to_nat n)
              (fun i sf => arr_set sf i IMD_SDR_COMPRESSED) sf0 in
  byte_array sf /\ forall i, 0 <= i < n -> arr_get sf i = IMD_SDR_COMPRESSED.
Proof.
  intros Hb Hn sf.
  pose proof (for_range_inv
                (fun k sf => byte_array sf
                   /\ forall i, 0 <= i < k ->
                        arr_get sf i = IMD_SDR_COMPRESSED)
                (fun i sf => arr_set sf i IMD_SDR_COMPRESSED)
                (Z.to_nat n) 0 sf0) as Hinv.
  replace (0 + Z.of_nat (Z.to_nat n)) with n in Hinv by lia.
  apply Hinv.
  - split; [done|]. intros i Hi. lia.
  - intros k s Hk [Hsb Hs]. split; [apply arr_set_bytes; [done|by vm_compute]|].
    intros i Hi. destruct Hsb as [Hlen _]. rewrite arr_get_set by lia.
    destruct (Z.eqb_spec k i) as [->|Hne]; [done|]. apply Hs. lia.
Qed.

(** The sizes [get_sector_size_code] accepts. *)
Lemma get_sector_size_code_some (size code : Z) :
  get_sector_size_code size = Some code ->
  0 <= code < SECTOR_SIZE_LOOKUP_COUNT
  /\ size = arr_get SECTOR_SIZE_LOOKUP code /\ 128 <= size <= 8192.
Proof.
  rewrite get_sector_size_code_cases.
  repeat match goal with
         | |- context [?x =? size] =>
             destruct (Z.eqb_spec x size);
             [intros [= <-]; subst size; by vm_compute|]
         end.
  done.
Qed.

(** The track [imdf_write_track] builds before it rewrites the file. *)
Lemma populate_track_formatted (h : Host) (c hd n code ss fill : Z)
    (smap_arg cmap_arg hmap_arg : option (list Z)) (t : ImdTrackInfo) :
  is_byte c -> is_byte hd -> 0 < n <= 255 -> is_byte fill ->
  get_sector_size_code ss = Some code ->
  map_arg_ok n smap_arg -> map_arg_ok n cmap_arg -> map_arg_ok n hmap_arg ->
  populate_track h c hd n code ss fill smap_arg cmap_arg hmap_arg = inl t ->
  loaded_track t
  /\ (mode t = IMD_MODE_MFM_250 /\ cyl t = c /\ head t = hd
      /\ num_sectors t = n /\ sector_size_code t = code /\ sector_size t = ss)
  /\ data t = Some (replicate (Z.to_nat (n * ss)) fill)
  /\ forall i, 0 <= i < n ->
       arr_get (smap t) i = sector_id_arg smap_arg i
       /\ arr_get (sflag t) i = IMD_SDR_NORMAL.
Proof.
  intros Hc Hhd Hn Hfill Hcode Hsm Hcm Hhm Hrun.
  destruct (get_sector_size_code_some _ _ Hcode) as (Hcr & Hss & Hsr).
  unfold SECTOR_SIZE_LOOKUP_COUNT in Hcr.
  unfold populate_track in Hrun.
  destruct (Z.gtb_spec n 0) as [_|]; [|lia].
  set (hf := Z.lor (if is_null cmap_arg then 0 else IMD_HFLAG_CMAP_PRES)
               (if is_null hmap_arg then 0 else IMD_HFLAG_HMAP_PRES)) in *.
  assert (is_byte hf) as Hhf
    by (unfold hf; destruct cmap_arg, hmap_arg; by vm_compute).
  destruct (imd_alloc_track_data h _) as [rc t1] eqn:Ea.
  destruct rc; [|done|done].
  apply imd_alloc_track_data_success in Ea; [|cbn; lia].
  assert (imd_get_sector_size
            (set_buffer
               (set_header zero_track IMD_MODE_MFM_250 c hd hf n code ss)
               None 0 1) = ss) as Egs.
  { unfold imd_get_sector_size. cbn [sector_size_code set_buffer set_header].
    destruct (Z.geb_spec code SECTOR_SIZE_LOOKUP_COUNT);
      [unfold SECTOR_SIZE_LOOKUP_COUNT in *; lia | done]. }
  rewrite Egs in Ea. subst t1.
  cbn [data sflag smap cmap hmap set_buffer set_sector_size set_header
       zero_track] in Hrun.
  rewrite length_replicate in Hrun.
  destruct (for_range 0 (Z.to_nat n) _ _) as [sf sm] eqn:Eloop.
  injection Hrun as <-.
  destruct (populate_maps n smap_arg zero_array zero_array zero_array_bytes
              zero_array_bytes ltac:(lia)
              (fun m Hm => proj2 (Hsm m Hm)) sf sm Eloop)
    as (Hsfb & Hsmb & Hget).
  assert (forall arg, map_arg_ok n arg ->
            byte_array (match arg with
                        | Some m => memcpy_arr zero_array m n
                        | None => zero_array
                        end)) as Hmaps.
  { intros [m|] Hok; [|apply zero_array_bytes].
    destruct (Hok m eq_refl) as [Hlen Hb].
    apply memcpy_arr_byte_array; [apply zero_array_bytes | done | lia | done]. }
  split.
  { constructor; [constructor|..];
      cbn [mode cyl head hflag num_sectors sector_size_code sector_size smap
           cmap hmap sflag data data_size loaded with_maps set_buffer
           set_sector_size set_header zero_track].
    - by vm_compute.
    - exact Hc.
    - exact Hhd.
    - exact Hhf.
    - unfold is_byte. lia.
    - unfold is_byte. lia.
    - change (2 ^ 32) with 4294967296. lia.
    - exact Hsmb.
    - by apply Hmaps.
    - by apply Hmaps.
    - exact Hsfb.
    - nia.
    - reflexivity.
    - lia.
    - reflexivity.
    - split; [rewrite length_replicate; nia | by apply Forall_replicate]. }
  split; [done|]. split; [done|]. exact Hget.
Qed.

(** The binary search stays within its bounds, sorted tracks or not. *)
Lemma find_insertion_loop_range (imdf : ImdImageFile) (c hd : Z) :
  forall fuel low high idx,
    low <= high ->
    find_insertion_loop fuel imdf c hd low high = Some idx ->
    low <= idx <= high.
Proof.
  induction fuel as [|k IH]; intros low high idx Hle;
    cbn [find_insertion_loop]; destruct (Z.ltb_spec low high) as [Hlt|Hge];
    try done; try (intros [= <-]; lia).
  assert (0 <= (high - low) / 2 < high - low) as Hmid
    by (split; [apply Z.div_pos; lia | apply Z.div_lt; lia]).
  destruct (_ || _); intros H; apply IH in H; lia.
Qed.

(** A successful [imdf_write_track]: the track it built, where it put
    it, the rewrite of the file and the image it leaves. *)
Lemma imdf_write_track_ok (h : Host) (imdf imdf' : ImdImageFile)
    (c hd n ss fill : Z) (smap_arg cmap_arg hmap_arg : option (list Z)) :
  imdf_write_track h imdf c hd n ss fill smap_arg cmap_arg hmap_arg
  = Some (IMDF_ERR_OK, imdf') ->
  exists code ti t ts1 cap1 fo,
    get_sector_size_code ss = Some code
    /\ populate_track h c hd n code ss fill smap_arg cmap_arg hmap_arg = inl t
    /\ 0 <= ti
    /\ (((exists t0, first_track_at imdf c hd ti t0)
         /\ ts1 = <[Z.to_nat ti := t]> (tracks imdf))
        \/ (Forall (fun t => track_key t <> (c, hd)) (tracks imdf)
            /\ ti <= num_tracks imdf
            /\ ts1 = take (Z.to_nat ti) (tracks imdf)
                     ++ t :: drop (Z.to_nat ti) (tracks imdf)))
    /\ rewrite_image_file h (with_tracks imdf ts1 cap1) ti
         (Some force_compress_opts) = Some (IMDF_ERR_OK, fo)
    /\ imdf' = with_file
                 (with_tracks imdf
                    (if n >? 0
                     then <[Z.to_nat ti := mark_track_compressed t]> ts1
                     else ts1) cap1) fo.
Proof.
  intros Hrun. unfold imdf_write_track in Hrun.
  destruct (truthy (write_protected imdf)); [by injection Hrun|].
  destruct (geometry_exceeded imdf c hd); [by injection Hrun|].
  destruct ((n >? 0) && is_null smap_arg && _); [by injection Hrun|].
  destruct (get_sector_size_code ss) as [code|] eqn:Ecode;
    [|by injection Hrun].
  cbv zeta in Hrun.
  assert (forall (im1 : ImdImageFile) (i : Z)
                 (cleanup : ImdImageFile -> ImdImageFile),
            match populate_track h c hd n code ss fill smap_arg cmap_arg
                    hmap_arg with
            | inr (rc, t) => Some (rc, cleanup (set_track im1 i t))
            | inl t =>
                '(rewrite_res, f') ← rewrite_image_file h (set_track im1 i t) i
                    (Some (with_compression default_libimdf_write_opts
                             IMD_COMPRESSION_FORCE_COMPRESS));
                if negb (rewrite_res =? IMDF_ERR_OK)
                then Some (rewrite_res,
                           cleanup (with_file (set_track im1 i t) f'))
                else Some (IMDF_ERR_OK,
                           if n >? 0
                           then set_track (with_file (set_track im1 i t) f') i
                                  (mark_track_compressed t)
                           else with_file (set_track im1 i t) f')
            end = Some (IMDF_ERR_OK, imdf') ->
            exists t fo,
              populate_track h c hd n code ss fill smap_arg cmap_arg hmap_arg
              = inl t
              /\ rewrite_image_file h (set_track im1 i t) i
                   (Some force_compress_opts) = Some (IMDF_ERR_OK, fo)
              /\ imdf' = with_file
                           (with_tracks im1
                              (if n >? 0
                               then <[Z.to_nat i := mark_track_compressed t]>
                                      (<[Z.to_nat i := t]> (tracks im1))
                               else <[Z.to_nat i := t]> (tracks im1))
                              (track_capacity im1)) fo) as Htail.
  { intros im1 i cleanup Hm.
    destruct (populate_track _ _ _ _ _ _ _ _ _ _) as [t|[rc t]] eqn:Ep.
    2:{ injection Hm as Hrc _. by apply populate_track_error in Ep. }
    fold force_compress_opts in Hm.
    destruct (rewrite_image_file _ _ _ _) as [[res f']|] eqn:Er; [|done].
    cbn [mbind option_bind] in Hm.
    destruct (Z.eqb_spec res IMDF_ERR_OK) as [->|Hres]; cbn [negb] in Hm.
    2:{ injection Hm as Hrc _. done. }
    exists t, f'. split; [done|]. split; [done|]. injection Hm as <-.
    by destruct (n >? 0). }
  destruct (find_track_index_spec imdf c hd) as [[E Hnone]|(ti & t0 & E & Hti)];
    rewrite E in Hrun.
  - change (-1 >=? 0) with false in Hrun. cbv iota in Hrun.
    destruct (find_insertion_index imdf c hd) as [ins|] eqn:Eins; [|done].
    cbn [mbind option_bind] in Hrun.
    unfold find_insertion_index in Eins.
    apply find_insertion_loop_range in Eins; [|unfold num_tracks; lia].
    destruct ((num_tracks imdf >=? track_capacity imdf) && _);
      [by injection Hrun|].
    destruct (Htail _ ins (fun im => remove_track im ins) Hrun)
      as (t & fo & Ep & Er & ->).
    cbn [tracks track_capacity with_tracks] in *.
    assert (<[Z.to_nat ins := t]>
              (take (Z.to_nat ins) (tracks imdf)
               ++ zero_track :: drop (Z.to_nat ins) (tracks imdf))
            = take (Z.to_nat ins) (tracks imdf)
              ++ t :: drop (Z.to_nat ins) (tracks imdf)) as Hins.
    { unfold num_tracks in Eins.
      rewrite insert_app_r_alt by (rewrite length_take; lia).
      rewrite length_take.
      by replace (Z.to_nat ins - Z.to_nat ins `min` length (tracks imdf))%nat
        with 0%nat by lia. }
    unfold set_track in Er. cbn [tracks track_capacity with_tracks] in Er.
    rewrite Hins in *. clear Hins.
    eexists code, ins, t,
      (take (Z.to_nat ins) (tracks imdf)
       ++ t :: drop (Z.to_nat ins) (tracks imdf)), _, fo.
    split; [done|]. split; [done|].
    split; [lia|]. split; [right; split; [done|]; split; [lia|done]|].
    split; [exact Er|]. done.
  - pose proof Hti as (Hti0 & _).
    destruct (Z.geb_spec ti 0) as [_|]; [|lia].
    cbn [mbind option_bind] in Hrun.
    destruct (Htail (set_track imdf ti zero_track) ti (fun im => im) Hrun)
      as (t & fo & Ep & Er & ->).
    unfold set_track in Er.
    cbn [tracks track_capacity with_tracks set_track] in *.
    rewrite list_insert_insert_eq in *.
    eexists code, ti, t, (<[Z.to_nat ti := t]> (tracks imdf)), _, fo.
    split; [done|]. split; [done|].
    split; [lia|]. split; [left; split; [by exists t0|done]|].
    split; [exact Er|]. destruct (n >? 0); by rewrite ?list_insert_insert_eq.
Qed.

(** A successful [imdf_write_track] of [n > 0] sectors formats the track:
    the image then holds at ([c], [hd]), as its first track there, a
    loaded track of [n] sectors of the size asked for, with the sector
    IDs given (or 1, 2, ... without a sector map), every sector flagged
    compressed and filled with the fill byte; it took the place of the
    first track that was at ([c], [hd]), or was inserted among the tracks
    when there was none, and no other track changed.  [imdf_read_sector]
    then returns a sector of fill bytes for every sector ID of the track
    that the sector limit of the image allows.  (The map arguments hold
    [n] bytes each.) *)
Theorem write_track_then_read (h : Host) (imdf imdf' : ImdImageFile)
    (c hd n ss fill : Z) (smap_arg cmap_arg hmap_arg : option (list Z)) :
  is_byte c -> is_byte hd -> 0 < n <= 255 -> is_byte fill ->
  map_arg_ok n smap_arg -> map_arg_ok n cmap_arg -> map_arg_ok n hmap_arg ->
  imdf_write_track h imdf c hd n ss fill smap_arg cmap_arg hmap_arg
  = Some (IMDF_ERR_OK, imdf') ->
  exists ti t,
    first_track_at imdf' c hd ti t /\ loaded_track t
    /\ num_sectors t = n /\ sector_size t = ss
    /\ (forall i, 0 <= i < n ->
          arr_get (smap t) i = sector_id_arg smap_arg i
          /\ arr_get (sflag t) i = IMD_SDR_COMPRESSED
          /\ sector_bytes t i = replicate (Z.to_nat ss) fill)
    /\ (((exists t0, first_track_at imdf c hd ti t0)
         /\ tracks imdf' = <[Z.to_nat ti := t]> (tracks imdf))
        \/ (Forall (fun t0 => track_key t0 <> (c, hd)) (tracks imdf)
            /\ tracks imdf' = take (Z.to_nat ti) (tracks imdf)
                              ++ t :: drop (Z.to_nat ti) (tracks imdf)))
    /\ forall id i out osize,
         first_sector_with t id i -> ss <= osize ->
         max_spt imdf = 0xFF \/ id <= max_spt imdf \/ id = 0 ->
         imdf_read_sector imdf' c hd id (Some out) osize
         = (IMDF_ERR_OK,
            Some (replicate (Z.to_nat ss) fill ++ drop (Z.to_nat ss) out)).
Proof.
  intros Hc Hhd Hn Hfill Hsm Hcm Hhm Hrun.
  assert (geometry_exceeded imdf c hd = false) as Hgeo.
  { unfold imdf_write_track in Hrun.
    destruct (truthy (write_protected imdf)); [by injection Hrun|].
    by destruct (geometry_exceeded imdf c hd); [injection Hrun|]. }
  destruct (imdf_write_track_ok _ _ _ _ _ _ _ _ _ _ _ Hrun)
    as (code & ti & t & ts1 & cap1 & fo & Hcode & Hpop & Hti0 & Hplace & _
        & ->).
  destruct (populate_track_formatted _ _ _ _ _ _ _ _ _ _ _ Hc Hhd Hn Hfill
              Hcode Hsm Hcm Hhm Hpop)
    as (Hlt & (_ & Hcyl & Hhead & Hns & _ & Hss) & Hdata & Hmaps).
  destruct (get_sector_size_code_some _ _ Hcode) as (_ & _ & Hsr).
  destruct (Z.gtb_spec n 0) as [_|]; [|lia].
  set (t' := mark_track_compressed t).
  destruct (mark_compressed_flags (num_sectors t) (sflag t)
              (wf_sflag _ (lt_wf _ Hlt)) ltac:(lia)) as [Hsfb Hsf].
  assert (loaded_track t') as Hlt'.
  { pose proof (lt_data _ Hlt) as Hd. rewrite Hdata in Hd.
    pose proof (loaded_track_update t _ _ Hlt Hsfb (proj2 Hd) (proj1 Hd))
      as Hl.
    unfold t', mark_track_compressed, with_sflag. by rewrite Hdata. }
  assert (forall i, 0 <= i < n ->
            sector_bytes t' i = replicate (Z.to_nat ss) fill) as Hbytes.
  { intros i Hi. unfold sector_bytes.
    change (data t') with (data t). change (sector_size t') with (sector_size t).
    rewrite Hdata, Hss. unfold buf_read.
    rewrite drop_replicate, take_replicate. f_equal. nia. }
  assert (track_key t' = (c, hd)) as Hkey
    by (unfold track_key; cbn; by rewrite Hcyl, Hhead).
  assert (tracks (with_file
                    (with_tracks imdf (<[Z.to_nat ti := t']> ts1) cap1) fo)
          = <[Z.to_nat ti := t']> ts1) as Hts by done.
  assert (first_track_at
            (with_file (with_tracks imdf (<[Z.to_nat ti := t']> ts1) cap1) fo)
            c hd ti t'
          /\ (((exists t0, first_track_at imdf c hd ti t0)
               /\ <[Z.to_nat ti := t']> ts1 = <[Z.to_nat ti := t']> (tracks imdf))
              \/ (Forall (fun t0 => track_key t0 <> (c, hd)) (tracks imdf)
                  /\ <[Z.to_nat ti := t']> ts1
                     = take (Z.to_nat ti) (tracks imdf)
                       ++ t' :: drop (Z.to_nat ti) (tracks imdf))))
    as [Hfirst Hshape].
  { destruct Hplace as [[[t0 Ht0] ->]|(Hnone & Hle & ->)].
    - rewrite list_insert_insert_eq. split.
      + apply (first_track_at_set imdf _ c hd ti t0 t' Ht0); [done|].
        rewrite Hkey. symmetry. apply Ht0.
      + left. split; [by exists t0|done].
    - unfold num_tracks in Hle.
      assert (<[Z.to_nat ti := t']>
                (take (Z.to_nat ti) (tracks imdf)
                 ++ t :: drop (Z.to_nat ti) (tracks imdf))
              = take (Z.to_nat ti) (tracks imdf)
                ++ t' :: drop (Z.to_nat ti) (tracks imdf)) as Hins.
      { rewrite insert_app_r_alt by (rewrite length_take; lia).
        rewrite length_take.
        by replace (Z.to_nat ti - Z.to_nat ti `min` length (tracks imdf))%nat
          with 0%nat by lia. }
      rewrite Hins. split; [|right; by split].
      split; [done|]. cbn [tracks with_file with_tracks]. split.
      { rewrite lookup_app_r by (rewrite length_take; lia).
        rewrite length_take.
        by replace (Z.to_nat ti - Z.to_nat ti `min` length (tracks imdf))%nat
          with 0%nat by lia. }
      split; [done|]. intros j tj Hj Htj.
      rewrite lookup_app_l in Htj by (rewrite length_take; lia).
      apply lookup_take_Some in Htj as [Htj _].
      by apply (proj1 (Forall_lookup _ _) Hnone _ _ Htj). }
  exists ti, t'. split; [done|]. split; [done|].
  change (num_sectors t') with (num_sectors t).
  change (sector_size t') with (sector_size t).
  change (smap t') with (smap t).
  split; [done|]. split; [done|]. split.
  { intros i Hi. destruct (Hmaps i Hi) as [Hid _]. split; [done|].
    split; [|by apply Hbytes]. apply Hsf. lia. }
  split; [by rewrite Hts|].
  intros id i out osize Hsi Hos Hspt.
  rewrite (imdf_read_sector_found _ c hd id out osize ti i t').
  - pose proof Hsi as (Hi & _).
    change (num_sectors t') with (num_sectors t) in Hi.
    change (arr_get (sflag t') i)
      with (arr_get (for_range 0 (Z.to_nat (num_sectors t))
                       (fun i sf => arr_set sf i IMD_SDR_COMPRESSED) (sflag t))
              i).
    rewrite Hsf by lia. change (IMD_SDR_COMPRESSED =? IMD_SDR_UNAVAILABLE)
      with false. cbv iota.
    change (sector_size t') with (sector_size t). rewrite Hss.
    destruct (Z.ltb_spec osize ss); [lia|].
    rewrite Hbytes by lia. done.
  - cbn [max_cyl max_head max_spt with_file with_tracks].
    unfold geometry_exceeded in Hgeo.
    apply orb_false_iff in Hgeo as [Hg1 Hg2].
    split_and!; [| |done].
    + destruct (Z.eqb_spec (max_cyl imdf) 255); [by left|right].
      cbn [negb andb] in Hg1. lia.
    + destruct (Z.eqb_spec (max_head imdf) 255); [by left|right].
      cbn [negb andb] in Hg2. lia.
  - exact Hfirst.
  - exact Hlt'.
  - exact Hsi.
Qed.

(** [write_track_then_read] on an empty image: a track of two 128-byte
    sectors at cylinder 3, head 1. *)
Lemma write_track_then_read_witness :
  exists imdf' ti t,
    imdf_write_track host_ok (image_of [] []) 3 1 2 128 0xAA None None None
    = Some (IMDF_ERR_OK, imdf')
    /\ first_track_at imdf' 3 1 ti t
    /\ arr_get (smap t) 1 = sector_id_arg None 1
    /\ arr_get (sflag t) 1 = IMD_SDR_COMPRESSED
    /\ sector_bytes t 1 = replicate (Z.to_nat 128) 0xAA.
Proof.
  assert (is_byte 3) as A1 by (unfold is_byte; lia).
  assert (is_byte 1) as A2 by (unfold is_byte; lia).
  assert (0 < 2 <= 255) as A3 by lia.
  assert (is_byte 0xAA) as A4 by (unfold is_byte; lia).
  assert (map_arg_ok 2 None) as A5 by (intros m Hm; discriminate Hm).
  assert (0 <= 1 < 2) as A6 by lia.
  assert (exists imdf',
            imdf_write_track host_ok (image_of [] []) 3 1 2 128 0xAA
              None None None = Some (IMDF_ERR_OK, imdf')) as [imdf' E]
    by (eexists; vm_compute; reflexivity).
  destruct (write_track_then_read host_ok (image_of [] []) imdf' 3 1 2 128
              0xAA None None None A1 A2 A3 A4 A5 A5 A5 E)
    as (ti & t & Hfirst & _ & _ & _ & Hsec & _).
  exists imdf', ti, t.
  exact (conj E (conj Hfirst (Hsec 1 A6))).
Defined.
